(** * small_v8_engine: the tree-walking evaluator of [small_v8_engine.cpp]

    A shallow embedding of the interpreter of [src/small_v8_engine.cpp]:
    the tagged [Value] box, the chained [Environment] frames, the AST nodes
    with their [eval] methods, the recursive-descent [Parser], the task
    queue with its event loop, and the command loop of [main].

    Conventions of the embedding.
    - A C++ [double] is a binary64 float (the kernel's [float]).
    - A [shared_ptr<Value>] is the value itself: no node ever writes to a
      [Value] after it has been built, so sharing is not observable.
    - A [shared_ptr<Environment>] is an index into the [heap] of frames of
      the interpreter state (frames are shared between children, closures
      and tasks, and they are mutated in place); a null pointer is [None].
    - A [shared_ptr<ASTNode>] is an [ASTNode]; the null pointer is the
      constructor [NullNode].
    - Code threads its state and ends in one of four ways: it returns, it
      throws a [std::exception], it runs into undefined behaviour (a null
      dereference, a read behind the end of the source text, a conversion
      out of range), or the fuel of the model runs out. A computation that
      is out of fuel for every fuel is one that does not end. A loop of
      the parser that makes no progress appends to a vector in every
      round; the model's lists do not run out of memory, so what such a
      loop does when its vector can no longer grow is not described.
    - The system clock is a sequence of readings, [clock 0], [clock 1], ...;
      the state counts the readings taken, and the milliseconds that the
      program has asked to sleep.
    - The [std::vector] [taskQueue] is its list of tasks together with its
      [capacity()]. A [push_back] on a full vector moves the tasks to new
      storage, which invalidates every iterator; an iterator is a position
      together with the capacity of the storage it was taken from, and
      using it after the storage has moved is undefined behaviour. *)

From Stdlib Require Import ZArith String Ascii List Floats Lia.
From stdpp Require Import gmap strings list pretty.

#[local] Set Warnings "-register-all".
#[local] Open Scope string_scope.
#[local] Open Scope list_scope.
#[local] Open Scope Z_scope.

(** ** 1. Core types *)

Inductive ValueType :=
  V_NULL | V_NUM | V_STR | V_BOOL | V_LIST | V_OBJ | V_FUNC | V_NATIVE.

#[global] Instance ValueType_eq_dec : EqDecision ValueType.
Proof. solve_decision. Defined.

(** The two host callables that [main] installs ([print], [setTimeout]);
    they are the only values of [std::function] the program ever builds. *)
Inductive NativeFn := printFn | timeoutFn.

Inductive ASTNode :=
| NullNode
| NumberNode (val : float)
| StringNode (val : string)
| IdentifierNode (name : string)
| ArrayNode (elements : list ASTNode)
| ObjectNode (props : list (string * ASTNode))
| BinaryOpNode (op : string) (left right : ASTNode)
| BlockNode (statements : list ASTNode)
| VarDeclNode (name : string) (init : ASTNode)
| IfNode (cond thenBranch elseBranch : ASTNode)
| WhileNode (cond body : ASTNode)
| FunctionDeclNode (name : string) (params : list string) (body : ASTNode)
| CallNode (callee : string) (args : list ASTNode).

(** [struct Value]: every field is present whatever the tag is. *)
Inductive Value := mkValue {
  type : ValueType;
  numVal : float;
  strVal : string;
  boolVal : bool;
  listVal : list Value;
  objVal : gmap string Value;
  params : list string;
  body : ASTNode;
  closure : option nat;
  nativeFn : option NativeFn
}.

(** [make_shared<Value>()]: the default member initialisers. *)
Definition null_value : Value :=
  mkValue V_NULL 0%float "" false [] ∅ [] NullNode None None.

Definition set_type (t : ValueType) (v : Value) : Value :=
  mkValue t (numVal v) (strVal v) (boolVal v) (listVal v) (objVal v)
          (params v) (body v) (closure v) (nativeFn v).
Definition set_numVal (x : float) (v : Value) : Value :=
  mkValue (type v) x (strVal v) (boolVal v) (listVal v) (objVal v)
          (params v) (body v) (closure v) (nativeFn v).
Definition set_strVal (x : string) (v : Value) : Value :=
  mkValue (type v) (numVal v) x (boolVal v) (listVal v) (objVal v)
          (params v) (body v) (closure v) (nativeFn v).
Definition set_boolVal (x : bool) (v : Value) : Value :=
  mkValue (type v) (numVal v) (strVal v) x (listVal v) (objVal v)
          (params v) (body v) (closure v) (nativeFn v).
Definition set_listVal (x : list Value) (v : Value) : Value :=
  mkValue (type v) (numVal v) (strVal v) (boolVal v) x (objVal v)
          (params v) (body v) (closure v) (nativeFn v).
Definition set_objVal (x : gmap string Value) (v : Value) : Value :=
  mkValue (type v) (numVal v) (strVal v) (boolVal v) (listVal v) x
          (params v) (body v) (closure v) (nativeFn v).
Definition set_function (ps : list string) (b : ASTNode) (c : option nat)
    (v : Value) : Value :=
  mkValue (type v) (numVal v) (strVal v) (boolVal v) (listVal v) (objVal v)
          ps b c (nativeFn v).
Definition set_nativeFn (f : NativeFn) (v : Value) : Value :=
  mkValue (type v) (numVal v) (strVal v) (boolVal v) (listVal v) (objVal v)
          (params v) (body v) (closure v) (Some f).

(** The values the nodes build. *)
Definition number_value (x : float) : Value :=
  set_numVal x (set_type V_NUM null_value).
Definition string_value (x : string) : Value :=
  set_strVal x (set_type V_STR null_value).
Definition bool_value (b : bool) : Value :=
  set_boolVal b (set_type V_BOOL null_value).
Definition function_value (ps : list string) (b : ASTNode) (c : nat) : Value :=
  set_function ps b (Some c) (set_type V_FUNC null_value).
Definition native_value (f : NativeFn) : Value :=
  set_nativeFn f (set_type V_NATIVE null_value).

(** ** 2. Rendering a value as text *)

(** [std::to_string(double)] is [sprintf("%f")]: the exact binary value
    rounded to six decimals, ties to even.  The sign bit of a NaN is not
    part of a [float]. Number tokens are runs of digits, so every NaN of
    the program comes out of its arithmetic ([0 / 0], a difference of
    infinities); on x86-64 that NaN has its sign bit set, and [printf]
    writes it [-nan]. *)
Definition round_half_even (num den : Z) : Z :=
  let q := num / den in
  let r := num mod den in
  if 2 * r <? den then q
  else if den <? 2 * r then q + 1
  else if Z.even q then q else q + 1.

Definition micro_units (m : positive) (e : Z) : Z :=
  if 0 <=? e then Z.pos m * 2 ^ e * 1000000
  else round_half_even (Z.pos m * 1000000) (2 ^ (- e)).

Definition six_digits (n : Z) : string :=
  let s := pretty n in
  String.concat "" (replicate (6 - String.length s)%nat "0") +:+ s.

Definition sign_text (s : bool) : string := if s then "-" else "".

Definition to_string (x : float) : string :=
  match Prim2SF x with
  | S754_nan => "-nan"
  | S754_infinity s => sign_text s +:+ "inf"
  | S754_zero s => sign_text s +:+ "0.000000"
  | S754_finite s m e =>
      let n := micro_units m e in
      sign_text s +:+ pretty (n / 1000000) +:+ "." +:+ six_digits (n mod 1000000)
  end.

(** [s.find_last_not_of(c)]; [None] is [npos]. *)
Fixpoint find_last_not_of (s : string) (c : ascii) : option nat :=
  match s with
  | EmptyString => None
  | String a rest =>
      match find_last_not_of rest c with
      | Some i => Some (S i)
      | None => if decide (a = c) then None else Some 0%nat
      end
  end.

(** [s.substr(0, n)]. *)
Definition substr0 (n : nat) (s : string) : string := substring 0 n s.

(** [Value::toString]. [npos + 1] wraps around to 0. *)
Definition toString (v : Value) : string :=
  if decide (type v = V_NUM) then
    let s := to_string (numVal v) in
    substr0 (match find_last_not_of s "0" with Some i => i + 1 | None => 0 end)%nat s
  else if decide (type v = V_STR) then strVal v
  else if decide (type v = V_BOOL) then (if boolVal v then "true" else "false")
  else if decide (type v = V_NULL) then "null"
  else if decide (type v = V_LIST) then "[Array]"
  else if decide (type v = V_OBJ) then "[Object]"
  else if decide (type v = V_FUNC) then "[Function]"
  else if decide (type v = V_NATIVE) then "[Function]"
  else "".

(** ** 3. Outcomes and state passing *)

(** How a call ends. *)
Inductive Outcome (A : Type) :=
| Ret (a : A)            (* normal return *)
| Throw (what : string)  (* a [std::exception] with this [what()] *)
| Undefined              (* undefined behaviour: the model stops *)
| OutOfFuel.             (* the model's fuel ran out *)
Arguments Ret {A} a.
Arguments Throw {A} what.
Arguments Undefined {A}.
Arguments OutOfFuel {A}.

(** Code that works on a state of type [S]: the outcome and the state the
    call leaves behind (also when it throws). *)
Definition SM (S A : Type) : Type := S -> Outcome A * S.

Definition ret {S A} (a : A) : SM S A := fun s => (Ret a, s).
Definition throw {S A} (what : string) : SM S A := fun s => (Throw what, s).
Definition undefined {S A} : SM S A := fun s => (Undefined, s).
Definition out_of_fuel {S A} : SM S A := fun s => (OutOfFuel, s).

Definition bind {S A B} (m : SM S A) (k : A -> SM S B) : SM S B := fun s =>
  match m s with
  | (Ret a, s') => k a s'
  | (Throw what, s') => (Throw what, s')
  | (Undefined, s') => (Undefined, s')
  | (OutOfFuel, s') => (OutOfFuel, s')
  end.

Notation "x <- m ;; k" := (bind m (fun x => k))
  (at level 100, m at next level, right associativity).
Notation "m ;;; k" := (bind m (fun _ => k))
  (at level 100, right associativity).

(** ** 4. The environment (scope) *)

(** [class Environment]: the bindings of one frame and the parent pointer. *)
Record Environment := mkEnvironment {
  vars : gmap string Value;
  parent : option nat
}.

(** [struct Task]. The callback is the lambda of [setTimeout]; it is
    determined by the function value it captures. *)
Record Task := mkTask {
  executeTime : Z;
  callback : Value
}.

(** The interpreter state: the frames allocated so far, the text written
    to [cout], the global [taskQueue], the number of readings of the
    system clock taken so far, the [capacity()] of [taskQueue], and the
    milliseconds that [sleep_for] has been asked to sleep. *)
Record State := mkState {
  heap : list Environment;
  cout : string;
  taskQueue : list Task;
  ticks : nat;
  taskCapacity : nat;
  slept : Z
}.

Abbreviation M := (SM State).

Definition set_heap (h : list Environment) (s : State) : State :=
  mkState h (cout s) (taskQueue s) (ticks s) (taskCapacity s) (slept s).
Definition set_cout (o : string) (s : State) : State :=
  mkState (heap s) o (taskQueue s) (ticks s) (taskCapacity s) (slept s).
Definition set_taskQueue (q : list Task) (s : State) : State :=
  mkState (heap s) (cout s) q (ticks s) (taskCapacity s) (slept s).
Definition set_ticks (n : nat) (s : State) : State :=
  mkState (heap s) (cout s) (taskQueue s) n (taskCapacity s) (slept s).
Definition set_taskCapacity (c : nat) (s : State) : State :=
  mkState (heap s) (cout s) (taskQueue s) (ticks s) c (slept s).
Definition set_slept (ms : Z) (s : State) : State :=
  mkState (heap s) (cout s) (taskQueue s) (ticks s) (taskCapacity s) ms.

(** [make_shared<Environment>(p)]. *)
Definition new_Environment (p : option nat) : M nat := fun s =>
  (Ret (length (heap s)), set_heap (heap s ++ [mkEnvironment ∅ p]) s).

(** [Environment::define]. *)
Definition define (env : nat) (name : string) (val : Value) : M unit := fun s =>
  match heap s !! env with
  | Some fr =>
      (Ret tt,
       set_heap (<[env := mkEnvironment (<[name := val]> (vars fr)) (parent fr)]> (heap s)) s)
  | None => (Undefined, s)
  end.

(** [Environment::lookup], the recursion on [parent] bounded by [n]. *)
Fixpoint lookup_from (n : nat) (h : list Environment) (env : nat) (name : string)
    : Outcome Value :=
  match n with
  | O => OutOfFuel
  | S n' =>
      match h !! env with
      | None => Undefined
      | Some fr =>
          match vars fr !! name with
          | Some v => Ret v
          | None =>
              match parent fr with
              | Some p => lookup_from n' h p name
              | None => Throw ("Undefined variable: " +:+ name)
              end
          end
      end
  end.

(** A chain of frames never has more frames than the heap. *)
Definition lookup (env : nat) (name : string) : M Value := fun s =>
  (lookup_from (length (heap s)) (heap s) env name, s).

(** [Environment::assign], the recursion on [parent] bounded by [n]; the
    heap after the call is returned with the outcome. *)
Fixpoint assign_from (n : nat) (h : list Environment) (env : nat) (name : string)
    (val : Value) : Outcome unit * list Environment :=
  match n with
  | O => (OutOfFuel, h)
  | S n' =>
      match h !! env with
      | None => (Undefined, h)
      | Some fr =>
          if decide (is_Some (vars fr !! name)) then
            (Ret tt, <[env := mkEnvironment (<[name := val]> (vars fr)) (parent fr)]> h)
          else
            match parent fr with
            | Some p => assign_from n' h p name val
            | None => (Throw ("Cannot assign to undefined variable: " +:+ name), h)
            end
      end
  end.

Definition assign (env : nat) (name : string) (val : Value) : M unit := fun s =>
  let '(o, h) := assign_from (length (heap s)) (heap s) env name val in
  (o, set_heap h s).

(** ** 5. Evaluation of the AST nodes *)

(** The operator table of [BinaryOpNode::eval], once both operands have
    been evaluated. [res] starts as a default [Value]. *)
Definition binary_op (op : string) (l r : Value) : Value :=
  let res := null_value in
  if decide (op = "+") then
    if bool_decide (type l = V_STR) || bool_decide (type r = V_STR) then
      set_strVal (toString l +:+ toString r) (set_type V_STR res)
    else
      set_numVal (numVal l + numVal r)%float (set_type V_NUM res)
  else if decide (op = "-") then
    set_numVal (numVal l - numVal r)%float (set_type V_NUM res)
  else if decide (op = "*") then
    set_numVal (numVal l * numVal r)%float (set_type V_NUM res)
  else if decide (op = "/") then
    set_numVal (numVal l / numVal r)%float (set_type V_NUM res)
  else if decide (op = ">") then
    set_boolVal (numVal r <? numVal l)%float (set_type V_BOOL res)
  else if decide (op = "<") then
    set_boolVal (numVal l <? numVal r)%float (set_type V_BOOL res)
  else if decide (op = "==") then
    set_type V_BOOL
      (if decide (type l = V_NUM) then
         set_boolVal (numVal l =? numVal r)%float res
       else if decide (type l = V_STR) then
         set_boolVal (bool_decide (strVal l = strVal r)) res
       else res)
  else res.

(** The truthiness test of [IfNode::eval]. *)
Definition truthy (c : Value) : bool :=
  if decide (type c = V_BOOL) then boolVal c
  else if decide (type c = V_NUM) then negb (numVal c =? 0)%float
  else false.

(** The [break] test of [WhileNode::eval]. *)
Definition while_breaks (c : Value) : bool :=
  (bool_decide (type c = V_BOOL) && negb (boolVal c))
  || (bool_decide (type c = V_NUM) && (numVal c =? 0)%float).

(** The loop of [CallNode::eval] that binds the parameters: parameter [i]
    is defined when there is an argument [i]. *)
Fixpoint bind_params (scope : nat) (i : nat) (ps : list string) (argVals : list Value)
    : M unit :=
  match ps with
  | [] => ret tt
  | p :: ps' =>
      (match argVals !! i with
       | Some a => define scope p a
       | None => ret tt
       end) ;;;
      bind_params scope (S i) ps' argVals
  end.

(** [(long long) x] for a double: truncation; out of range it is
    undefined behaviour ([None]). *)
Definition to_long_long (x : float) : option Z :=
  match Prim2SF x with
  | S754_zero _ => Some 0
  | S754_finite s m e =>
      let a := if 0 <=? e then Z.pos m * 2 ^ e else Z.pos m / 2 ^ (- e) in
      let z := if s then - a else a in
      if (- 2 ^ 63 <=? z) && (z <? 2 ^ 63) then Some z else None
  | _ => None
  end.

(** [cout << endl]. *)
Definition endl : string := String "010"%char "".

Definition print_text (t : string) : M unit := fun s =>
  (Ret tt, set_cout (cout s +:+ t) s).

(** The capacity of a full vector of [n] elements after the [push_back]
    that makes it grow: it doubles (libstdc++ and libc++). *)
Definition grown (n : nat) : nat := Nat.max 1 (2 * n).

(** [taskQueue.push_back(t)]: a vector that is full moves to new storage
    of a larger capacity. *)
Definition push_task (t : Task) : M unit := fun s =>
  (Ret tt,
   set_taskCapacity
     (if (length (taskQueue s) <? taskCapacity s)%nat then taskCapacity s
      else grown (length (taskQueue s)))
     (set_taskQueue (taskQueue s ++ [t]) s)).

Section Evaluation.

(** The system clock: [clock n] is what the [n]-th call of
    [getCurrentTime] returns, in milliseconds. *)
Variable clock : nat -> Z.

Definition getCurrentTime : M Z := fun s =>
  (Ret (clock (ticks s)), set_ticks (S (ticks s)) s).

(** The lambda of [print]. *)
Definition print_call (args : list Value) : M Value :=
  print_text (String.concat "" (map (fun a => toString a +:+ " ") args)) ;;;
  print_text endl ;;;
  ret null_value.

(** The lambda of [setTimeout]. The sum [getCurrentTime() + delay] is a
    [long long]; its overflow is undefined behaviour. *)
Definition setTimeout_call (args : list Value) : M Value :=
  match args !! 0%nat, args !! 1%nat with
  | Some a0, Some a1 =>
      if decide (type a0 = V_FUNC) then
        match to_long_long (numVal a1) with
        | None => undefined
        | Some delay =>
            now <- getCurrentTime ;;
            let t := now + delay in
            if (- 2 ^ 63 <=? t) && (t <? 2 ^ 63) then
              push_task (mkTask t a0) ;;; ret null_value
            else undefined
        end
      else ret null_value
  | _, _ => ret null_value
  end.

(** [func->nativeFn(argVals)]; an empty [std::function] throws. *)
Definition call_native (f : option NativeFn) (argVals : list Value) : M Value :=
  match f with
  | Some printFn => print_call argVals
  | Some timeoutFn => setTimeout_call argVals
  | None => throw "bad_function_call"
  end.

(** The loops of the nodes over their children; [ev] evaluates one child. *)
Fixpoint eval_each (ev : ASTNode -> M Value) (l : list ASTNode) : M (list Value) :=
  match l with
  | [] => ret []
  | a :: l' => v <- ev a ;; vs <- eval_each ev l' ;; ret (v :: vs)
  end.

Fixpoint eval_props (ev : ASTNode -> M Value) (props : list (string * ASTNode))
    (o : gmap string Value) : M (gmap string Value) :=
  match props with
  | [] => ret o
  | (key, valNode) :: rest => v <- ev valNode ;; eval_props ev rest (<[key := v]> o)
  end.

Fixpoint eval_statements (ev : ASTNode -> M Value) (stmts : list ASTNode)
    (lastVal : Value) : M Value :=
  match stmts with
  | [] => ret lastVal
  | stmt :: rest => v <- ev stmt ;; eval_statements ev rest v
  end.

(** [ASTNode::eval], one case per node class. The loop of [WhileNode] is
    one round followed by the evaluation of the same node again. The
    properties of an [ObjectNode] are listed in the order of its [std::map],
    by key. *)
Fixpoint eval (fuel : nat) (node : ASTNode) (env : nat) {struct fuel} : M Value :=
  match fuel with
  | O => out_of_fuel
  | S fuel' =>
      let ev n := eval fuel' n env in
      match node with
      | NullNode => undefined
      | NumberNode val => ret (number_value val)
      | StringNode val => ret (string_value val)
      | IdentifierNode name => lookup env name
      | ArrayNode elements =>
          vs <- eval_each ev elements ;;
          ret (set_listVal vs (set_type V_LIST null_value))
      | ObjectNode props =>
          o <- eval_props ev props ∅ ;;
          ret (set_objVal o (set_type V_OBJ null_value))
      | BinaryOpNode op left_ right_ =>
          l <- ev left_ ;;
          r <- ev right_ ;;
          ret (binary_op op l r)
      | BlockNode statements =>
          eval_statements ev statements null_value
      | VarDeclNode name init =>
          val <- (match init with NullNode => ret null_value | _ => ev init end) ;;
          define env name val ;;;
          ret val
      | IfNode cond thenBranch elseBranch =>
          c <- ev cond ;;
          if truthy c then ev thenBranch
          else match elseBranch with
               | NullNode => ret null_value
               | _ => ev elseBranch
               end
      | WhileNode cond body =>
          c <- ev cond ;;
          if while_breaks c then ret null_value
          else ev body ;;; ev (WhileNode cond body)
      | FunctionDeclNode name params body =>
          let func := function_value params body env in
          define env name func ;;;
          ret func
      | CallNode callee args =>
          func <- lookup env callee ;;
          argVals <- eval_each ev args ;;
          if decide (type func = V_NATIVE) then call_native (nativeFn func) argVals
          else if decide (type func = V_FUNC) then
            scope <- new_Environment (closure func) ;;
            bind_params scope 0 (params func) argVals ;;;
            eval fuel' (body func) scope
          else throw ("Not a function: " +:+ callee)
      end
  end.

End Evaluation.

(** ** 6. The parser *)

(** [class Parser]: the source text and the read position. *)
Record Parser := mkParser {
  src : string;
  pos : nat
}.

Abbreviation PM := (SM Parser).

Definition set_pos (n : nat) (p : Parser) : Parser := mkParser (src p) n.

Definition NUL : ascii := "000"%char.
Definition dquote : ascii := "034"%char.

(** [src[i]] for [i <= src.size()]: the character, or the terminating
    null character at [i = src.size()]. *)
Definition char_at (s : string) (i : nat) : ascii :=
  match String.get i s with Some c => c | None => NUL end.

(** The classification of [<cctype>] in the C locale (a character above
    127 is in no class). *)
Definition isspace (c : ascii) : bool :=
  let n := nat_of_ascii c in ((9 <=? n) && (n <=? 13) || (n =? 32))%nat.
Definition isdigit (c : ascii) : bool :=
  let n := nat_of_ascii c in ((48 <=? n) && (n <=? 57))%nat.
Definition isalpha (c : ascii) : bool :=
  let n := nat_of_ascii c in
  ((65 <=? n) && (n <=? 90) || (97 <=? n) && (n <=? 122))%nat.
Definition isalnum (c : ascii) : bool := isalpha c || isdigit c.

Definition is_char (c d : ascii) : bool := bool_decide (c = d).

(** [Parser::peek]; every call in the source uses offset 0. *)
Definition peek : PM ascii := fun p =>
  (Ret (if (String.length (src p) <=? pos p)%nat then NUL else char_at (src p) (pos p)), p).

(** [Parser::advance]: [src[pos++]]. Reading behind the terminating null
    character is undefined behaviour. *)
Definition advance : PM ascii := fun p =>
  if (pos p <=? String.length (src p))%nat
  then (Ret (char_at (src p) (pos p)), set_pos (S (pos p)) p)
  else (Undefined, p).

(** [Parser::skipWhitespace]; the loop runs at most [src.size()] times. *)
Fixpoint skipWhitespace_loop (n : nat) (s : string) (i : nat) : nat :=
  match n with
  | O => i
  | S n' =>
      if (i <? String.length s)%nat && isspace (char_at s i)
      then skipWhitespace_loop n' s (S i)
      else i
  end.

Definition skipWhitespace : PM unit := fun p =>
  (Ret tt, set_pos (skipWhitespace_loop (String.length (src p)) (src p) (pos p)) p).

(** [while (test(peek())) s += advance();] *)
Fixpoint take_while (n : nat) (test : ascii -> bool) (s : string) : PM string :=
  match n with
  | O => out_of_fuel
  | S n' =>
      c <- peek ;;
      if test c then (a <- advance ;; take_while n' test (s +:+ String a ""))
      else ret s
  end.

(** A bound for the loops that consume a character per round. *)
Definition rest_bound (p : Parser) : nat := S (S (S (String.length (src p)))).

Definition take_while_all (test : ascii -> bool) : PM string := fun p =>
  take_while (rest_bound p) test "" p.

(** [Parser::parseToken]. *)
Definition parseToken : PM string :=
  skipWhitespace ;;;
  fun p =>
  if (String.length (src p) <=? pos p)%nat then (Ret "", p)
  else
    (c <- peek ;;
     if isalpha c then take_while_all isalnum
     else if isdigit c then take_while_all (fun c => isdigit c || is_char c ".")
     else if is_char c dquote then
       (advance ;;;
        s <- take_while_all (fun c => negb (is_char c dquote)) ;;
        advance ;;;
        ret (String dquote (s +:+ String dquote "")))
     else
       (a <- advance ;;
        let op := String a "" in
        c' <- peek ;;
        if (bool_decide (op = "=") || bool_decide (op = "!")
            || bool_decide (op = "<") || bool_decide (op = ">"))
           && is_char c' "="
        then (b <- advance ;; ret (op +:+ String b ""))
        else ret op)) p.

(** [std::stod] on a token of digits and dots: the longest prefix
    [digits [. digits]] is read as a decimal and rounded to the nearest
    double. [strtod] reports a range error, and [stod] throws
    [out_of_range], when the value is too large for a double, or when the
    result is below the normal range and not exact. *)
Fixpoint digits_prefix (s : string) : string * string :=
  match s with
  | String c rest =>
      if isdigit c then let '(d, r) := digits_prefix rest in (String c d, r)
      else ("", s)
  | EmptyString => ("", "")
  end.

Fixpoint digits_value (s : string) (acc : Z) : Z :=
  match s with
  | String c rest => digits_value rest (10 * acc + (Z.of_nat (nat_of_ascii c) - 48))
  | EmptyString => acc
  end.

(** Whether [m * 2 ^ e] is exactly [n / k]. *)
Definition exact_quotient (m : positive) (e : Z) (n k : positive) : bool :=
  if 0 <=? e then Z.pos m * 2 ^ e * Z.pos k =? Z.pos n
  else Z.pos m * Z.pos k =? Z.pos n * 2 ^ (- e).

Definition stod (token : string) : Outcome float :=
  let '(int_part, r) := digits_prefix token in
  let frac_part :=
    match r with
    | String c rest => if is_char c "." then fst (digits_prefix rest) else ""
    | EmptyString => ""
    end in
  let n := digits_value (int_part +:+ frac_part) 0 in
  let d := 10 ^ Z.of_nat (String.length frac_part) in
  match n, d with
  | Z.pos n', Z.pos k =>
      match SFdiv prec emax (S754_finite false n' 0) (S754_finite false k 0) with
      | S754_infinity _ => Throw "stod"
      | S754_zero _ => Throw "stod"
      | S754_finite sg m e =>
          if (Z.pos m <? 2 ^ (prec - 1)) && negb (exact_quotient m e n' k)
          then Throw "stod"
          else Ret (SF2Prim (S754_finite sg m e))
      | S754_nan => Ret (SF2Prim S754_nan)
      end
  | _, _ => Ret 0%float
  end.

(** The two loops of [parsePrimary] that collect comma-separated
    expressions up to the closing character. *)
Fixpoint parse_items (n : nat) (parseExpression : PM ASTNode) (close : ascii)
    (items : list ASTNode) : PM (list ASTNode) :=
  match n with
  | O => out_of_fuel
  | S n' =>
      c <- peek ;;
      if is_char c close then ret items
      else
        (e <- parseExpression ;;
         skipWhitespace ;;;
         c' <- peek ;;
         (if is_char c' "," then advance ;;; ret tt else ret tt) ;;;
         parse_items n' parseExpression close (items ++ [e]))
  end.

(** [Parser::parsePrimary]; [parseExpression] is the recursive call. *)
Definition parsePrimary (n : nat) (parseExpression : PM ASTNode) : PM ASTNode :=
  skipWhitespace ;;;
  c <- peek ;;
  if isdigit c then
    (t <- parseToken ;;
     fun p => match stod t with
              | Ret x => (Ret (NumberNode x), p)
              | Throw w => (Throw w, p)
              | Undefined => (Undefined, p)
              | OutOfFuel => (OutOfFuel, p)
              end)
  else if is_char c dquote then
    (s <- parseToken ;;
     ret (StringNode (substring 1 (String.length s - 2) s)))
  else if is_char c "[" then
    (advance ;;;
     elements <- parse_items n parseExpression "]" [] ;;
     advance ;;;
     ret (ArrayNode elements))
  else if isalpha c then
    (name <- parseToken ;;
     skipWhitespace ;;;
     c' <- peek ;;
     if is_char c' "(" then
       (advance ;;;
        args <- parse_items n parseExpression ")" [] ;;
        advance ;;;
        ret (CallNode name args))
     else ret (IdentifierNode name))
  else ret NullNode.

(** The [while (true)] of [parseMultiplicative] and [parseAdditive]. *)
Fixpoint binary_chain (n : nat) (operand : PM ASTNode) (is_op : ascii -> bool)
    (left_ : ASTNode) : PM ASTNode :=
  match n with
  | O => out_of_fuel
  | S n' =>
      skipWhitespace ;;;
      c <- peek ;;
      if negb (is_op c) then ret left_
      else
        (op <- parseToken ;;
         right_ <- operand ;;
         binary_chain n' operand is_op (BinaryOpNode op left_ right_))
  end.

Definition parseMultiplicative (n : nat) (parseExpression : PM ASTNode) : PM ASTNode :=
  left_ <- parsePrimary n parseExpression ;;
  binary_chain n (parsePrimary n parseExpression)
    (fun c => is_char c "*" || is_char c "/") left_.

Definition parseAdditive (n : nat) (parseExpression : PM ASTNode) : PM ASTNode :=
  left_ <- parseMultiplicative n parseExpression ;;
  binary_chain n (parseMultiplicative n parseExpression)
    (fun c => is_char c "+" || is_char c "-") left_.

Definition parseComparison (n : nat) (parseExpression : PM ASTNode) : PM ASTNode :=
  left_ <- parseAdditive n parseExpression ;;
  skipWhitespace ;;;
  c <- peek ;;
  if is_char c ">" || is_char c "<" || is_char c "=" then
    (op <- parseToken ;;
     right_ <- parseAdditive n parseExpression ;;
     ret (BinaryOpNode op left_ right_))
  else ret left_.

(** [Parser::parseExpression]. *)
Fixpoint parseExpression (fuel : nat) : PM ASTNode :=
  match fuel with
  | O => out_of_fuel
  | S fuel' => parseComparison fuel' (parseExpression fuel')
  end.

(** The loop of [parseBlock]. *)
Fixpoint block_statements (n : nat) (parseStatement : PM ASTNode)
    (statements : list ASTNode) : PM (list ASTNode) :=
  match n with
  | O => out_of_fuel
  | S n' =>
      c <- peek ;;
      fun p =>
      if negb (is_char c "}") && (pos p <? String.length (src p))%nat then
        (st <- parseStatement ;;
         skipWhitespace ;;;
         block_statements n' parseStatement (statements ++ [st])) p
      else (Ret statements, p)
  end.

(** [Parser::parseBlock]; [parseStatement] is the recursive call. *)
Definition parseBlock (n : nat) (parseStatement : PM ASTNode) : PM ASTNode :=
  advance ;;;
  statements <- block_statements n parseStatement [] ;;
  advance ;;;
  ret (BlockNode statements).

(** The loop of [parseStatement] that reads the parameter names. *)
Fixpoint parse_params (n : nat) (ps : list string) : PM (list string) :=
  match n with
  | O => out_of_fuel
  | S n' =>
      c <- peek ;;
      if is_char c ")" then ret ps
      else
        (skipWhitespace ;;;
         p <- take_while_all isalnum ;;
         skipWhitespace ;;;
         c' <- peek ;;
         (if is_char c' "," then advance ;;; ret tt else ret tt) ;;;
         parse_params n' (ps ++ [p]))
  end.

(** The look-ahead for [else]: the letters from [src[pos]] on. Reading
    behind the terminating null character is undefined behaviour. *)
Fixpoint letters_from (n : nat) (s : string) (i : nat) : string :=
  match n with
  | O => ""
  | S n' =>
      if isalpha (char_at s i) then String (char_at s i) (letters_from n' s (S i))
      else ""
  end.

Definition word_ahead : PM string := fun p =>
  if (pos p <=? String.length (src p))%nat
  then (Ret (letters_from (String.length (src p)) (src p) (pos p)), p)
  else (Undefined, p).

(** [Parser::parseStatement]; [parseExpression] and [parseBlock] are the
    calls into the rest of the parser, [n] bounds the loop over the
    parameter names. *)
Definition parseStatement_with (n : nat) (parseExpression parseBlock : PM ASTNode)
    : PM ASTNode :=
  skipWhitespace ;;;
  fun p0 =>
  let checkpoint := pos p0 in
  (tokenStr <- take_while_all isalpha ;;
   if decide (tokenStr = "var") then
     (skipWhitespace ;;;
      name <- parseToken ;;
      skipWhitespace ;;;
      advance ;;;
      val <- parseExpression ;;
      skipWhitespace ;;;
      c <- peek ;;
      (if is_char c ";" then advance ;;; ret tt else ret tt) ;;;
      ret (VarDeclNode name val))
   else if decide (tokenStr = "if") then
     (skipWhitespace ;;;
      advance ;;;
      cond <- parseExpression ;;
      advance ;;;
      skipWhitespace ;;;
      thenB <- parseBlock ;;
      skipWhitespace ;;;
      nxt <- word_ahead ;;
      if decide (nxt = "else") then
        ((fun p => (Ret tt, set_pos (pos p + 4) p)) ;;;
         skipWhitespace ;;;
         elseB <- parseBlock ;;
         ret (IfNode cond thenB elseB))
      else ret (IfNode cond thenB NullNode))
   else if decide (tokenStr = "while") then
     (skipWhitespace ;;;
      advance ;;;
      cond <- parseExpression ;;
      advance ;;;
      skipWhitespace ;;;
      body <- parseBlock ;;
      ret (WhileNode cond body))
   else if decide (tokenStr = "function") then
     (skipWhitespace ;;;
      name <- parseToken ;;
      advance ;;;
      params <- parse_params n [] ;;
      advance ;;;
      skipWhitespace ;;;
      body <- parseBlock ;;
      ret (FunctionDeclNode name params body))
   else
     ((fun p => (Ret tt, set_pos checkpoint p)) ;;;
      parseExpression)) p0.

Fixpoint parseStatement (fuel : nat) : PM ASTNode :=
  match fuel with
  | O => out_of_fuel
  | S fuel' =>
      parseStatement_with fuel' (parseExpression fuel')
                          (parseBlock fuel' (parseStatement fuel'))
  end.

(** The loop of [Parser::parse]. *)
Fixpoint parse_loop (n : nat) (parseStatement : PM ASTNode) (stmts : list ASTNode)
    : PM (list ASTNode) :=
  match n with
  | O => out_of_fuel
  | S n' => fun p =>
      if (pos p <? String.length (src p))%nat then
        (skipWhitespace ;;;
         fun p' =>
         if (String.length (src p') <=? pos p')%nat then (Ret stmts, p')
         else
           (st <- parseStatement ;;
            skipWhitespace ;;;
            c <- peek ;;
            (if is_char c ";" then advance ;;; ret tt else ret tt) ;;;
            parse_loop n' parseStatement (stmts ++ [st])) p') p
      else (Ret stmts, p)
  end.

(** [Parser(code).parse()]. *)
Definition parse (fuel : nat) (code : string) : Outcome (list ASTNode) :=
  fst (parse_loop fuel (parseStatement fuel) [] (mkParser code 0)).

(** ** 7. The event loop and [main] *)

Section EventLoop.

Variable clock : nat -> Z.


(** The callback of a task: the body of the function in a fresh frame
    below its closure. *)
Definition run_callback (fuel : nat) (cb : Value) : M unit :=
  scope <- new_Environment (closure cb) ;;
  eval clock fuel (body cb) scope ;;;
  ret tt.

(** [it = taskQueue.erase(it)] behind the callback of the task at position
    [i]. The iterator [it] was taken from storage of capacity [storage]:
    when a [push_back] of the callback has moved the vector to new storage
    (its capacity has grown), [it] is invalid and its use is undefined
    behaviour. Otherwise [erase] leaves [it] on the next task, and the
    tasks that the callback appended are behind it. *)
Definition erase_task (storage i : nat) : M unit := fun s =>
  if decide (taskCapacity s = storage)
  then (Ret tt, set_taskQueue (delete i (taskQueue s)) s)
  else (Undefined, s).

(** One sweep over [taskQueue] from position [i]; it returns [ranTask]. *)
Fixpoint sweep (fuel n : nat) (now : Z) (i : nat) (ranTask : bool) : M bool :=
  match n with
  | O => out_of_fuel
  | S n' => fun s =>
      match taskQueue s !! i with
      | None => (Ret ranTask, s)
      | Some t =>
          if executeTime t <=? now then
            (run_callback fuel (callback t) ;;;
             erase_task (taskCapacity s) i ;;;
             sweep fuel n' now i true) s
          else sweep fuel n' now (S i) ranTask s
      end
  end.

(** [this_thread::sleep_for(chrono::milliseconds(ms))]. *)
Definition sleep_for (ms : Z) : M unit := fun s =>
  (Ret tt, set_slept (slept s + ms) s).

(** [while (!taskQueue.empty())]: a reading of the clock, a sweep, and a
    sleep of 10 ms when the sweep ran no task and tasks are left. *)
Fixpoint event_loop (fuel n : nat) : M unit :=
  match n with
  | O => out_of_fuel
  | S n' => fun s =>
      match taskQueue s with
      | [] => (Ret tt, s)
      | _ :: _ =>
          (now <- getCurrentTime clock ;;
           ranTask <- sweep fuel fuel now 0 false ;;
           (fun s' =>
              if negb ranTask && negb (bool_decide (taskQueue s' = []))
              then sleep_for 10 s'
              else (Ret tt, s')) ;;;
           event_loop fuel n') s
      end
  end.

(** [globalEnv]: the first frame that [main] allocates. *)
Definition globalEnv : nat := 0.

(** The [for] loop over the statements of one batch, in the global frame;
    null statements are skipped. *)
Definition run_statement (fuel : nat) (stmt : ASTNode) : M unit :=
  match stmt with
  | NullNode => ret tt
  | _ => eval clock fuel stmt globalEnv ;;; ret tt
  end.

Fixpoint run_statements (fuel : nat) (stmts : list ASTNode) : M unit :=
  match stmts with
  | [] => ret tt
  | stmt :: rest => run_statement fuel stmt ;;; run_statements fuel rest
  end.

(** The [try] block of [run] once the code is parsed: the synchronous
    statements, then the event loop. *)
Definition run_batch (fuel : nat) (stmts : list ASTNode) : M unit :=
  run_statements fuel stmts ;;;
  fun s =>
    match taskQueue s with
    | [] => (Ret tt, s)
    | _ :: _ =>
        (print_text ("[Event Loop] Processing async tasks..." +:+ endl) ;;;
         event_loop fuel fuel) s
    end.

(** [try { ... } catch (exception &e) { ... }]. *)
Definition try_catch (body : M unit) (handler : string -> M unit) : M unit := fun s =>
  match body s with
  | (Throw what, s') => handler what s'
  | r => r
  end.

Definition report_error (what : string) : M unit :=
  print_text ("Runtime Error: " +:+ what +:+ endl).

(** The [try]/[catch] of [main] on an already parsed batch. *)
Definition run_parsed (fuel : nat) (stmts : list ASTNode) : M unit :=
  try_catch (run_batch fuel stmts) report_error.

(** The [try]/[catch] of [main] on the accumulated [code]. *)
Definition run (fuel : nat) (code : string) : M unit :=
  try_catch
    (stmts <- (fun s => (parse fuel code, s)) ;;
     run_batch fuel stmts)
    report_error.

(** The command loop of [main] over the lines that [getline] delivers. The
    model stops when the given lines are used up. *)
Fixpoint main_loop (fuel : nat) (lines : list string) (code : string) : M unit :=
  match lines with
  | [] => ret tt
  | line :: rest =>
      if decide (line = "exit") then ret tt
      else if decide (line = "run") then
        run fuel code ;;;
        print_text (endl +:+ "Ready." +:+ endl) ;;;
        main_loop fuel rest ""
      else main_loop fuel rest (code +:+ line +:+ endl)
  end.

(** The start of [main]: the global frame with [print] and [setTimeout]. *)
Definition initial_state : State :=
  mkState [mkEnvironment (<["setTimeout" := native_value timeoutFn]>
                          (<["print" := native_value printFn]> ∅)) None]
          "" [] 0 0 0.

Definition main (fuel : nat) (lines : list string) : Outcome unit * State :=
  (print_text ("--- JS Engine V8-Mini (Async supported) ---" +:+ endl) ;;;
   print_text ("Enter code. Type 'run' to execute." +:+ endl) ;;;
   main_loop fuel lines "") initial_state.

End EventLoop.

(** * Definitions for the statements *)

(** ** The environment chain *)

(** Frames form a tree: the parent of a frame was allocated before it. *)
Definition heap_wf (h : list Environment) : Prop :=
  forall (i : nat) (fr : Environment) (p : nat),
    h !! i = Some fr -> parent fr = Some p -> (p < i)%nat.

(** A check of [heap_wf] that computes. *)
Fixpoint parents_before (i : nat) (h : list Environment) : bool :=
  match h with
  | [] => true
  | fr :: rest =>
      match parent fr with Some p => (p <? i)%nat | None => true end
      && parents_before (S i) rest
  end.

(** [first_binding h name env r]: on the walk from frame [env] outwards,
    [r] is the first frame that binds [name], or [None] when the walk
    reaches the root without meeting a binding. *)
Inductive first_binding (h : list Environment) (name : string)
    : nat -> option nat -> Prop :=
| fb_here (env : nat) (fr : Environment) :
    h !! env = Some fr -> is_Some (vars fr !! name) ->
    first_binding h name env (Some env)
| fb_parent (env : nat) (fr : Environment) (p : nat) (r : option nat) :
    h !! env = Some fr -> vars fr !! name = None -> parent fr = Some p ->
    first_binding h name p r ->
    first_binding h name env r
| fb_root (env : nat) (fr : Environment) :
    h !! env = Some fr -> vars fr !! name = None -> parent fr = None ->
    first_binding h name env None.

(** The heap after [vars[name] = val] in frame [i]. *)
Definition store_in (h : list Environment) (i : nat) (name : string) (val : Value)
    : list Environment :=
  match h !! i with
  | Some fr => <[i := mkEnvironment (<[name := val]> (vars fr)) (parent fr)]> h
  | None => h
  end.

(** What [lookup] and [assign] return for the frame [r] the walk ends at. *)
Definition lookup_result (h : list Environment) (name : string) (r : option nat)
    : Outcome Value :=
  match r with
  | Some i =>
      match h !! i with
      | Some fr =>
          match vars fr !! name with Some v => Ret v | None => Undefined end
      | None => Undefined
      end
  | None => Throw ("Undefined variable: " +:+ name)
  end.

Definition assign_result (h : list Environment) (name : string) (val : Value)
    (r : option nat) : Outcome unit * list Environment :=
  match r with
  | Some i => (Ret tt, store_in h i name val)
  | None => (Throw ("Cannot assign to undefined variable: " +:+ name), h)
  end.

(** ** Calls *)

(** The bindings of the frame of a call: parameter [i] is bound to
    argument [i] as long as both exist. *)
Definition param_bindings (ps : list string) (argVals : list Value)
    : gmap string Value :=
  fold_left (fun m pa => <[pa.1 := pa.2]> m) (zip ps argVals) ∅.

(** The state in which the body of a called function starts: one more
    frame, holding the bound parameters, below the closure of the function. *)
Definition call_state (func : Value) (argVals : list Value) (s : State) : State :=
  set_heap (heap s ++ [mkEnvironment (param_bindings (params func) argVals)
                                     (closure func)]) s.

(** ** Equality *)

(** What [==] computes from the two operand values. *)
Definition equality_result (l r : Value) : bool :=
  if decide (type l = V_NUM) then (numVal l =? numVal r)%float
  else if decide (type l = V_STR) then bool_decide (strVal l = strVal r)
  else false.

(** The rule for [==] in the words of the specification: true exactly for
    two Numbers of equal value or two Strings of equal text. *)
Definition spec_equality (l r : Value) : bool :=
  (bool_decide (type l = V_NUM) && bool_decide (type r = V_NUM)
   && (numVal l =? numVal r)%float)
  || (bool_decide (type l = V_STR) && bool_decide (type r = V_STR)
      && bool_decide (strVal l = strVal r)).

(** ** The parser *)

(** What [parse] does behind a statement: white space and one optional
    semicolon. *)
Definition statement_end : PM unit :=
  skipWhitespace ;;;
  c <- peek ;;
  if is_char c ";" then advance ;;; ret tt else ret tt.

(** ** Effects and invariants *)

(** [within R m]: however [m] ends, the state it leaves is related by [R]
    to the state it started in. *)
Definition within {A : Type} (R : State -> State -> Prop) (m : M A) : Prop :=
  forall (s s' : State) (o : Outcome A), m s = (o, s') -> R s s'.

(** The queue of the second state is the queue of the first one with
    tasks appended; its capacity has not shrunk, and it still holds the
    tasks when it held them before. *)
Definition queue_grows (s s' : State) : Prop :=
  (exists added : list Task, taskQueue s' = taskQueue s ++ added)
  /\ (taskCapacity s <= taskCapacity s')%nat
  /\ ((length (taskQueue s) <= taskCapacity s)%nat ->
      (length (taskQueue s') <= taskCapacity s')%nat).

(** A value as the nodes build them: a field that does not belong to the
    tag holds its default. *)
Definition plain (v : Value) : Prop :=
  (type v <> V_NUM -> numVal v = 0%float)
  /\ (type v <> V_STR -> strVal v = "")
  /\ (type v <> V_BOOL -> boolVal v = false).

(** The closure of the value, if any, is one of the first [n] frames. *)
Definition closure_below (n : nat) (v : Value) : Prop :=
  forall c : nat, closure v = Some c -> (c < n)%nat.

Definition good_value (n : nat) (v : Value) : Prop := plain v /\ closure_below n v.

(** The frames form a tree, the values they bind are [plain], and every
    closure (of a bound function, of a pending task) is a frame of the heap. *)
Definition good_state (s : State) : Prop :=
  heap_wf (heap s)
  /\ (forall (i : nat) (fr : Environment) (name : string) (v : Value),
        heap s !! i = Some fr -> vars fr !! name = Some v ->
        good_value (length (heap s)) v)
  /\ (forall t : Task, t ∈ taskQueue s -> closure_below (length (heap s)) (callback t)).

(** [keeps n m Q]: started in a good state with at least [n] frames, [m]
    leaves a good state with no fewer frames, and what it returns
    satisfies [Q] for the heap it leaves. *)
Definition keeps {A : Type} (n : nat) (m : M A) (Q : nat -> A -> Prop) : Prop :=
  forall (s s' : State) (o : Outcome A),
    good_state s -> (n <= length (heap s))%nat -> m s = (o, s') ->
    good_state s'
    /\ (length (heap s) <= length (heap s'))%nat
    /\ (forall a : A, o = Ret a -> Q (length (heap s')) a).

(** ** Programs and states of the examples *)

(** A clock for the examples: it advances by a millisecond per reading. *)
Definition example_clock (n : nat) : Z := 1000 + Z.of_nat n.

(** A string literal of the scripting language. *)
Definition quoted (t : string) : string := String dquote (t +:+ String dquote "").

(** The scenario of the specification, and the same program without the
    semicolon inside the block. *)
Definition scenario : string :=
  "var x = 10; function add(n){ x = x + n; } add(5); print(x);".

Definition scenario_without_semicolon : string :=
  "var x = 10; function add(n){ x = x + n } add(5); print(x);".

(** The state after [var n = 7; function f(n) { n }] in the global frame,
    and the function value bound to [f]. *)
Definition outer_n_state : State :=
  snd (eval example_clock 3
         (BlockNode [VarDeclNode "n" (NumberNode 7);
                     FunctionDeclNode "f" ["n"] (BlockNode [IdentifierNode "n"])])
         globalEnv initial_state).

Definition outer_n_function : Value :=
  function_value ["n"] (BlockNode [IdentifierNode "n"]) globalEnv.

(** The state after [var x = 2; function outer(x) { function inner(a, b)
    { x + a } inner } var h = outer(1)] in the global frame. [h] is the
    function [inner]: it was declared in the frame of the call [outer(1)]
    (frame 1, where [x] is 1), and it is called from the global frame
    (where [x] is 2). *)
Definition inner_body : ASTNode :=
  BlockNode [BinaryOpNode "+" (IdentifierNode "x") (IdentifierNode "a")].

Definition returned_function_program : list ASTNode :=
  [VarDeclNode "x" (NumberNode 2);
   FunctionDeclNode "outer" ["x"]
     (BlockNode [FunctionDeclNode "inner" ["a"; "b"] inner_body;
                 IdentifierNode "inner"]);
   VarDeclNode "h" (CallNode "outer" [NumberNode 1])].

Definition returned_function_state : State :=
  snd (eval example_clock 6 (BlockNode returned_function_program) globalEnv
         initial_state).

Definition returned_function : Value := function_value ["a"; "b"] inner_body 1.

(** A function whose body ends in a loop of three rounds:
    [function f() { var i = 0; while (i < 3) { var i = i + 1; } }], and
    the state after its declaration. *)
Definition counting_loop : ASTNode :=
  WhileNode (BinaryOpNode "<" (IdentifierNode "i") (NumberNode 3))
            (BlockNode [VarDeclNode "i"
                          (BinaryOpNode "+" (IdentifierNode "i") (NumberNode 1))]).

Definition counting_function : ASTNode :=
  FunctionDeclNode "f" []
    (BlockNode [VarDeclNode "i" (NumberNode 0); counting_loop]).


(** The batch [var a = 1; function f() { a } setTimeout(f, 0); y; print(a)]:
    the fourth statement throws. The statements before it, the statement
    behind it, and the state in which [y] is evaluated. *)
Definition failing_batch_before : list ASTNode :=
  [VarDeclNode "a" (NumberNode 1);
   FunctionDeclNode "f" [] (BlockNode [IdentifierNode "a"]);
   CallNode "setTimeout" [IdentifierNode "f"; NumberNode 0]].

Definition failing_batch_after : list ASTNode :=
  [CallNode "print" [IdentifierNode "a"]].

Definition failing_batch_state : State :=
  snd (run_statements example_clock 10 failing_batch_before initial_state).

(** A task whose callback throws, and the state after the batch. *)
Definition throwing_task : string := "function f(){ y } setTimeout(f, 0)".

Definition throwing_task_state : State :=
  snd (run example_clock 10 throwing_task initial_state).

(** A task whose callback sets a second task, and what is left of the
    batch. *)
Definition nested_timeout : string :=
  "function g() { print(" +:+ quoted "late" +:+ ") } "
  +:+ "function f() { setTimeout(g, 0) } setTimeout(f, 0)".

Definition nested_timeout_state : State :=
  snd (run example_clock 20 nested_timeout initial_state).

(** A task set for 10 ms, and the state after the synchronous statements
    of the batch. *)
Definition late_task : string :=
  "function f() { print(" +:+ quoted "late" +:+ ") } setTimeout(f, 10); print("
  +:+ quoted "early" +:+ ");".

Definition late_task_pending : State :=
  match parse 10 late_task with
  | Ret stmts => snd (run_statements example_clock 10 stmts initial_state)
  | _ => initial_state
  end.

(** ** Texts *)

(** [k] characters [0]. *)
Fixpoint zeros (k : nat) : string :=
  match k with O => "" | S k' => String "0" (zeros k') end.

(** What [toString] keeps of the text of a Number:
    [s.substr(0, s.find_last_not_of('0') + 1)]. *)
Definition trimmed (s : string) : string :=
  substr0 (match find_last_not_of s "0" with Some i => i + 1 | None => 0 end)%nat s.

(** Every character of the text passes the test. *)
Fixpoint string_forall (test : ascii -> bool) (s : string) : bool :=
  match s with
  | EmptyString => true
  | String c rest => test c && string_forall test rest
  end.

Definition not_quote (c : ascii) : bool := negb (is_char c dquote).

(** ** Frames *)

(** The frame has the parent it had, and binds every name it bound. *)
Definition frame_kept (fr fr' : Environment) : Prop :=
  parent fr' = parent fr
  /\ forall name : string, is_Some (vars fr !! name) -> is_Some (vars fr' !! name).

(** From [s] to [s'] no frame was removed, the frames other than [env] are
    as they were, and frame [env] was kept. *)
Definition touches_only (env : nat) (s s' : State) : Prop :=
  (length (heap s) <= length (heap s'))%nat
  /\ (forall (i : nat) (fr : Environment),
        i <> env -> heap s !! i = Some fr -> heap s' !! i = Some fr)
  /\ (forall fr : Environment,
        heap s !! env = Some fr ->
        exists fr' : Environment, heap s' !! env = Some fr' /\ frame_kept fr fr').

(** [m] touches only the bindings of frame [env]. *)
Definition local_to (env : nat) {A : Type} (m : M A) : Prop :=
  forall (s s' : State) (o : Outcome A), m s = (o, s') -> touches_only env s s'.

(** Every frame of [s] is a frame of [s'], unchanged. *)
Definition frames_stay (s s' : State) : Prop :=
  forall (i : nat) (fr : Environment), heap s !! i = Some fr -> heap s' !! i = Some fr.

(** ** The parser at a character *)

(** The character the parser is at, as [peek] returns it. *)
Definition cur (p : Parser) : ascii :=
  if (String.length (src p) <=? pos p)%nat then NUL else char_at (src p) (pos p).

(** The parser is at the character [c] of its text, which is not white space. *)
Definition at_char (p : Parser) (c : ascii) : Prop :=
  (pos p < String.length (src p))%nat
  /\ char_at (src p) (pos p) = c
  /\ isspace c = false.

(** A character with which no statement starts: it is no digit, letter,
    quote or opening bracket, none of the operators, and no semicolon. *)
Definition starts_nothing (c : ascii) : bool :=
  negb (isdigit c || isalpha c || is_char c dquote || is_char c "["
        || is_char c "*" || is_char c "/" || is_char c "+" || is_char c "-"
        || is_char c ">" || is_char c "<" || is_char c "=" || is_char c ";"
        || isspace c).

(** Where no operator follows: white space is skipped, and the character
    there is none of the operators. *)
Definition no_operator_at (p : Parser) : Prop :=
  skipWhitespace p = (Ret tt, p)
  /\ exists c : ascii,
       peek p = (Ret c, p)
       /\ is_char c "*" || is_char c "/" = false
       /\ is_char c "+" || is_char c "-" = false
       /\ is_char c ">" || is_char c "<" || is_char c "=" = false.

(** ** The trees the parser builds *)

(** The operator tokens that the parser puts into a [BinaryOpNode]. *)
Definition parser_operators : list string :=
  ["+"; "-"; "*"; "/"; ">"; "<"; "="; ">="; "<="; "=="].

(** The trees that [parseExpression] builds: literals, identifiers, arrays,
    calls and binary operations of such trees, and the null pointer. *)
Fixpoint expression_form (n : ASTNode) : bool :=
  match n with
  | NullNode | NumberNode _ | StringNode _ | IdentifierNode _ => true
  | ArrayNode elements => forallb expression_form elements
  | BinaryOpNode op left_ right_ =>
      bool_decide (op ∈ parser_operators)
      && expression_form left_ && expression_form right_
  | CallNode _ args => forallb expression_form args
  | _ => false
  end.

(** The trees that [parseStatement] builds: an expression, or a
    declaration, a conditional or a loop over expressions and blocks of
    statements. *)
Fixpoint statement_form (n : ASTNode) : bool :=
  match n with
  | VarDeclNode _ init => expression_form init
  | IfNode cond thenBranch elseBranch =>
      expression_form cond
      && match thenBranch with
         | BlockNode statements => forallb statement_form statements
         | _ => false
         end
      && match elseBranch with
         | NullNode => true
         | BlockNode statements => forallb statement_form statements
         | _ => false
         end
  | WhileNode cond body =>
      expression_form cond
      && match body with
         | BlockNode statements => forallb statement_form statements
         | _ => false
         end
  | FunctionDeclNode _ _ body =>
      match body with
      | BlockNode statements => forallb statement_form statements
      | _ => false
      end
  | _ => expression_form n
  end.

(** Whatever [m] returns satisfies [Q]. *)
Definition yields {A : Type} (m : PM A) (Q : A -> Prop) : Prop :=
  forall (p p' : Parser) (a : A), m p = (Ret a, p') -> Q a.

(** ** More programs and states of the examples *)

(** The statement [print("t")]. *)
Definition print_literal (t : string) : string := "print(" +:+ quoted t +:+ ")".

(** The text that the command loop builds from the lines typed: every
    line is followed by a newline. *)
Definition joined (lines : list string) : string :=
  String.concat "" (map (fun line => line +:+ endl) lines).

(** The state after [var i = 0] in the global frame. *)
Definition loop_start_state : State :=
  snd (eval example_clock 2 (VarDeclNode "i" (NumberNode 0)) globalEnv initial_state).

(** * tinyjs: the single-pass interpreter of [tinyjs.cpp]

    A second program of the repository: a lexer and an interpreter that
    executes the statements while it reads them. It shares no code with
    the engine above; the embedding shares the outcomes, the state
    passing and the classification of characters. The [Lexer] is a member
    of the [Interpreter]: its text and position are fields of the one
    state, with the output written to [cout]. *)

Module TinyJS.

(** ** 1. Data structures *)

Inductive ValueType := T_NUM | T_STR | T_BOOL | T_NULL.

#[global] Instance ValueType_eq_dec : EqDecision ValueType.
Proof. solve_decision. Defined.

Record Value := mkValue {
  type : ValueType;
  numVal : float;
  strVal : string;
  boolVal : bool
}.

(** The values of the brace initialisers: [{T_NUM, x}], [{T_STR, 0, s}],
    [{T_BOOL, 0, empty, b}]; the members left out take their defaults. *)
Definition number_value (x : float) : Value := mkValue T_NUM x "" false.
Definition string_value (s : string) : Value := mkValue T_STR 0 s false.
Definition bool_value (b : bool) : Value := mkValue T_BOOL 0 "" b.

Definition set_numVal (x : float) (v : Value) : Value :=
  mkValue (type v) x (strVal v) (boolVal v).

(** [Value::toString]. *)
Definition toString (v : Value) : string :=
  if decide (type v = T_NUM) then
    let s := to_string (numVal v) in
    substr0 (match find_last_not_of s "0" with Some i => i + 1 | None => 0 end)%nat s
  else if decide (type v = T_STR) then strVal v
  else if decide (type v = T_BOOL) then (if boolVal v then "true" else "false")
  else "null".

(** [Value::isTruthy]. *)
Definition isTruthy (v : Value) : bool :=
  if decide (type v = T_BOOL) then boolVal v
  else if decide (type v = T_NUM) then negb (numVal v =? 0)%float
  else if decide (type v = T_STR) then negb (bool_decide (strVal v = ""))
  else false.

(** [struct Variable] ([Variable] is a word of the vernacular). *)
Record Variable_ := mkVariable {
  val : Value;
  isConst : bool
}.

(** ** 2. The lexer *)

Inductive TokenType :=
  ID | NUMBER | STRING | LET | CONST | IF | ELSE | WHILE | PRINT
| PLUS | MINUS | MUL | DIV | ASSIGN | EQ | GT | LT | AND | OR
| LPAREN | RPAREN | LBRACE | RBRACE | SEMI | END.

#[global] Instance TokenType_eq_dec : EqDecision TokenType.
Proof. solve_decision. Defined.

(** [struct Token]; its member [type] is the field [tokenType]. *)
Record Token := mkToken {
  tokenType : TokenType;
  text : string
}.

(** The state of a run: the text and the position of the lexer, the
    current token and the stack of scopes of the interpreter (the global
    scope first), and the output. *)
Record Interpreter := mkInterpreter {
  src : string;
  pos : nat;
  currentToken : Token;
  scopes : list (gmap string Variable_);
  cout : string
}.

Abbreviation IM := (SM Interpreter).

Definition set_pos (n : nat) (st : Interpreter) : Interpreter :=
  mkInterpreter (src st) n (currentToken st) (scopes st) (cout st).
Definition set_currentToken (t : Token) (st : Interpreter) : Interpreter :=
  mkInterpreter (src st) (pos st) t (scopes st) (cout st).
Definition set_scopes (sc : list (gmap string Variable_)) (st : Interpreter) : Interpreter :=
  mkInterpreter (src st) (pos st) (currentToken st) sc (cout st).
Definition set_cout (o : string) (st : Interpreter) : Interpreter :=
  mkInterpreter (src st) (pos st) (currentToken st) (scopes st) o.

Definition print_text (t : string) : IM unit := fun st =>
  (Ret tt, set_cout (cout st +:+ t) st).

(** [while (pos < src.size() && test(src[pos])) acc += src[pos++];] The
    loop runs at most [src.size()] times. *)
Fixpoint scan (n : nat) (test : ascii -> bool) (s : string) (i : nat) (acc : string)
    : string * nat :=
  match n with
  | O => (acc, i)
  | S n' =>
      if (i <? String.length s)%nat && test (char_at s i)
      then scan n' test s (S i) (acc +:+ String (char_at s i) "")
      else (acc, i)
  end.

(** The keywords among the identifiers. *)
Definition keyword (id : string) : TokenType :=
  if decide (id = "let") then LET
  else if decide (id = "const") then CONST
  else if decide (id = "if") then IF
  else if decide (id = "else") then ELSE
  else if decide (id = "while") then WHILE
  else if decide (id = "print") then PRINT
  else ID.

(** The [switch] over a symbol; [i] is the position behind it. [None] is
    the way out of the [switch] to the message below it. *)
Definition symbol_token (current : ascii) (s : string) (i : nat) : option (Token * nat) :=
  let followed_by (c : ascii) := (i <? String.length s)%nat && is_char (char_at s i) c in
  if is_char current "+" then Some (mkToken PLUS "+", i)
  else if is_char current "-" then Some (mkToken MINUS "-", i)
  else if is_char current "*" then Some (mkToken MUL "*", i)
  else if is_char current "/" then Some (mkToken DIV "/", i)
  else if is_char current "(" then Some (mkToken LPAREN "(", i)
  else if is_char current ")" then Some (mkToken RPAREN ")", i)
  else if is_char current "{" then Some (mkToken LBRACE "{", i)
  else if is_char current "}" then Some (mkToken RBRACE "}", i)
  else if is_char current ";" then Some (mkToken SEMI ";", i)
  else if is_char current "=" then
    if followed_by "="%char then Some (mkToken EQ "==", S i)
    else Some (mkToken ASSIGN "=", i)
  else if is_char current "&" then
    if followed_by "&"%char then Some (mkToken AND "&&", S i) else None
  else if is_char current "|" then
    if followed_by "|"%char then Some (mkToken OR "||", S i) else None
  else if is_char current ">" then Some (mkToken GT ">", i)
  else if is_char current "<" then Some (mkToken LT "<", i)
  else None.

(** [Lexer::nextToken]. *)
Definition nextToken : IM Token := fun st =>
  let s := src st in
  let i := skipWhitespace_loop (String.length s) s (pos st) in
  if (String.length s <=? i)%nat then (Ret (mkToken END ""), set_pos i st)
  else
    let current := char_at s i in
    if isdigit current then
      let '(numStr, j) :=
        scan (String.length s) (fun c => isdigit c || is_char c ".") s i "" in
      (Ret (mkToken NUMBER numStr), set_pos j st)
    else if is_char current dquote then
      let '(str, j) :=
        scan (String.length s) (fun c => negb (is_char c dquote)) s (S i) "" in
      (Ret (mkToken STRING str), set_pos (S j) st)
    else if isalpha current then
      let '(id, j) := scan (String.length s) isalnum s i "" in
      (Ret (mkToken (keyword id) id), set_pos j st)
    else
      match symbol_token current s (S i) with
      | Some (t, j) => (Ret t, set_pos j st)
      | None =>
          (Ret (mkToken END ""),
           set_cout (cout st +:+ "Unknown Token: " +:+ String current "" +:+ endl)
                    (set_pos (S i) st))
      end.

(** ** 3. The interpreter *)

(** [currentToken = lexer.nextToken()]. *)
Definition advance_token : IM unit :=
  t <- nextToken ;; fun st => (Ret tt, set_currentToken t st).

(** [Interpreter::eat]. *)
Definition eat (t : TokenType) : IM unit := fun st =>
  if decide (tokenType (currentToken st) = t) then advance_token st
  else (Throw ("Unexpected token: " +:+ text (currentToken st)), st).

(** The loop of [Interpreter::findVar], from scope [i - 1] down to scope
    0: the index of the innermost scope that has the name. *)
Fixpoint findVar_below (i : nat) (sc : list (gmap string Variable_)) (name : string)
    : option nat :=
  match i with
  | O => None
  | S i' =>
      match sc !! i' with
      | Some scope =>
          if decide (is_Some (scope !! name)) then Some i'
          else findVar_below i' sc name
      | None => findVar_below i' sc name
      end
  end.

(** [Interpreter::findVar]: the scope and the variable found, or [None]
    for the null pointer. *)
Definition findVar (sc : list (gmap string Variable_)) (name : string)
    : option (nat * Variable_) :=
  match findVar_below (length sc) sc name with
  | Some i =>
      match sc !! i with
      | Some scope =>
          match scope !! name with Some v => Some (i, v) | None => None end
      | None => None
      end
  | None => None
  end.

(** [Interpreter::declareVar]; [scopes.back()] of an empty stack is
    undefined behaviour. *)
Definition declareVar (name : string) (v : Value) (c : bool) : IM unit := fun st =>
  match last (scopes st) with
  | None => (Undefined, st)
  | Some scope =>
      if decide (is_Some (scope !! name)) then
        (Throw ("Variable '" +:+ name +:+ "' already declared."), st)
      else
        (Ret tt,
         set_scopes (<[pred (length (scopes st)) := <[name := mkVariable v c]> scope]>
                       (scopes st)) st)
  end.

(** A result of [std::stod] as the result of a call. *)
Definition lift_stod (token : string) : IM float := fun st =>
  match stod token with
  | Ret x => (Ret x, st)
  | Throw w => (Throw w, st)
  | Undefined => (Undefined, st)
  | OutOfFuel => (OutOfFuel, st)
  end.

(** [Interpreter::factor]; [expression] is the recursive call. *)
Definition factor (expression : IM Value) : IM Value := fun st =>
  let t := currentToken st in
  if decide (tokenType t = NUMBER) then
    (eat NUMBER ;;; x <- lift_stod (text t) ;; ret (number_value x)) st
  else if decide (tokenType t = STRING) then
    (eat STRING ;;; ret (string_value (text t))) st
  else if decide (tokenType t = ID) then
    (eat ID ;;;
     fun st' =>
       match findVar (scopes st') (text t) with
       | Some (_, v) => (Ret (val v), st')
       | None => (Throw ("Undefined variable: " +:+ text t), st')
       end) st
  else if decide (tokenType t = LPAREN) then
    (eat LPAREN ;;; v <- expression ;; eat RPAREN ;;; ret v) st
  else (Throw ("Unexpected factor: " +:+ text t), st).

(** The bodies of the three operator loops, once the right operand has
    been evaluated. *)
Definition term_op (op : TokenType) (left_ right_ : Value) : Value :=
  if decide (op = MUL) then set_numVal (numVal left_ * numVal right_)%float left_
  else set_numVal (numVal left_ / numVal right_)%float left_.

Definition additive_op (op : TokenType) (left_ right_ : Value) : Value :=
  if bool_decide (type left_ = T_STR) || bool_decide (type right_ = T_STR) then
    string_value (toString left_ +:+ toString right_)
  else if decide (op = PLUS) then set_numVal (numVal left_ + numVal right_)%float left_
  else set_numVal (numVal left_ - numVal right_)%float left_.

Definition comparison_op (op : TokenType) (left_ right_ : Value) : Value :=
  let res := false in
  let res := if decide (op = GT) then (numVal right_ <? numVal left_)%float else res in
  let res := if decide (op = LT) then (numVal left_ <? numVal right_)%float else res in
  let res := if decide (op = EQ) then (numVal left_ =? numVal right_)%float else res in
  bool_value res.

(** The loop of [term], [additive] and [comparison]: while the current
    token is one of [ops], eat it, evaluate the right operand and combine. *)
Fixpoint operator_loop (n : nat) (ops : list TokenType) (operand : IM Value)
    (combine : TokenType -> Value -> Value -> Value) (left_ : Value) : IM Value :=
  match n with
  | O => out_of_fuel
  | S n' => fun st =>
      let op := tokenType (currentToken st) in
      if bool_decide (op ∈ ops) then
        (eat op ;;;
         right_ <- operand ;;
         operator_loop n' ops operand combine (combine op left_ right_)) st
      else (Ret left_, st)
  end.

Definition term (n : nat) (factor : IM Value) : IM Value :=
  left_ <- factor ;; operator_loop n [MUL; DIV] factor term_op left_.

Definition additive (n : nat) (term : IM Value) : IM Value :=
  left_ <- term ;; operator_loop n [PLUS; MINUS] term additive_op left_.

Definition comparison (n : nat) (additive : IM Value) : IM Value :=
  left_ <- additive ;; operator_loop n [GT; LT; EQ] additive comparison_op left_.

(** [Interpreter::expression]. *)
Fixpoint expression (fuel : nat) : IM Value :=
  match fuel with
  | O => out_of_fuel
  | S fuel' => fun st =>
      comparison fuel' (additive fuel' (term fuel' (factor (expression fuel')))) st
  end.

(** The loop of [block]. *)
Fixpoint block_loop (n : nat) (statement : IM unit) : IM unit :=
  match n with
  | O => out_of_fuel
  | S n' => fun st =>
      let t := tokenType (currentToken st) in
      if bool_decide (t <> RBRACE) && bool_decide (t <> END)
      then (statement ;;; block_loop n' statement) st
      else (Ret tt, st)
  end.

Definition push_scope : IM unit := fun st =>
  (Ret tt, set_scopes (scopes st ++ [∅]) st).

(** [scopes.pop_back()]; on an empty stack it is undefined behaviour. *)
Definition pop_scope : IM unit := fun st =>
  match scopes st with
  | [] => (Undefined, st)
  | _ :: _ => (Ret tt, set_scopes (removelast (scopes st)) st)
  end.

(** [Interpreter::block]; [statement] is the recursive call. *)
Definition block (n : nat) (statement : IM unit) : IM unit :=
  eat LBRACE ;;;
  push_scope ;;;
  block_loop n statement ;;;
  pop_scope ;;;
  eat RBRACE.

(** The loop that skips the branch of an [if] whose condition is not
    truthy. [braces] is an [int]: an overflow is undefined behaviour. *)
Fixpoint skip_branch (n : nat) (braces : Z) : IM unit :=
  match n with
  | O => out_of_fuel
  | S n' => fun st =>
      let t := tokenType (currentToken st) in
      let braces := if decide (t = LBRACE) then braces + 1 else braces in
      if 2 ^ 31 <=? braces then (Undefined, st)
      else if decide (t = RBRACE) then
        let braces := braces - 1 in
        if braces <? - 2 ^ 31 then (Undefined, st)
        else if braces =? 0 then eat RBRACE st
        else (advance_token ;;; skip_branch n' braces) st
      else if decide (t = END) then (Ret tt, st)
      else (advance_token ;;; skip_branch n' braces) st
  end.

(** The loop that skips a [while] statement. *)
Fixpoint skip_while (n : nat) : IM unit :=
  match n with
  | O => out_of_fuel
  | S n' => fun st =>
      let t := tokenType (currentToken st) in
      if bool_decide (t <> SEMI) && bool_decide (t <> RBRACE)
      then (advance_token ;;; skip_while n') st
      else (Ret tt, st)
  end.

(** The assignment to a declared variable: [var->val = v]. *)
Definition assignVar (name : string) (v : Value) : IM unit := fun st =>
  match findVar (scopes st) name with
  | None => (Throw ("Variable not declared: " +:+ name), st)
  | Some (i, var) =>
      if isConst var then (Throw ("Cannot reassign const variable: " +:+ name), st)
      else
        match scopes st !! i with
        | Some scope =>
            (Ret tt,
             set_scopes (<[i := <[name := mkVariable v (isConst var)]> scope]> (scopes st))
                        st)
        | None => (Undefined, st)
        end
  end.

(** [if (currentToken.type == LBRACE) block(); else statement();] *)
Definition branch (block statement : IM unit) : IM unit := fun st =>
  if decide (tokenType (currentToken st) = LBRACE) then block st else statement st.

(** [Interpreter::statement]; [expression], [block] and [statement] are
    the calls into the rest of the interpreter, [n] bounds the two loops
    that skip tokens. *)
Definition statement_with (n : nat) (expression : IM Value) (block statement : IM unit)
    : IM unit := fun st =>
  let t := tokenType (currentToken st) in
  if bool_decide (t = LET) || bool_decide (t = CONST) then
    let c := bool_decide (t = CONST) in
    (eat (if c then CONST else LET) ;;;
     fun st1 =>
       let name := text (currentToken st1) in
       (eat ID ;;;
        eat ASSIGN ;;;
        v <- expression ;;
        declareVar name v c ;;;
        eat SEMI) st1) st
  else if decide (t = PRINT) then
    (eat PRINT ;;;
     v <- expression ;;
     print_text (toString v +:+ endl) ;;;
     eat SEMI) st
  else if decide (t = IF) then
    (eat IF ;;;
     eat LPAREN ;;;
     cond <- expression ;;
     eat RPAREN ;;;
     (if isTruthy cond then branch block statement else skip_branch n 0) ;;;
     fun st1 =>
       if decide (tokenType (currentToken st1) = ELSE) then
         (eat ELSE ;;;
          if negb (isTruthy cond) then branch block statement else ret tt) st1
       else (Ret tt, st1)) st
  else if decide (t = WHILE) then
    (print_text ("Warning: 'while' loops require AST architecture (skipped in this version)."
                 +:+ endl) ;;;
     eat WHILE ;;;
     skip_while n) st
  else if decide (t = LBRACE) then block st
  else if decide (t = ID) then
    let name := text (currentToken st) in
    (eat ID ;;;
     eat ASSIGN ;;;
     v <- expression ;;
     assignVar name v ;;;
     eat SEMI) st
  else eat SEMI st.

Fixpoint statement (fuel : nat) : IM unit :=
  match fuel with
  | O => out_of_fuel
  | S fuel' => fun st =>
      statement_with fuel' (expression fuel') (block fuel' (statement fuel'))
                     (statement fuel') st
  end.

(** [Interpreter::run]: an error ends the loop with a message. *)
Fixpoint run_loop (n : nat) (statement : IM unit) : IM unit :=
  match n with
  | O => out_of_fuel
  | S n' => fun st =>
      if bool_decide (tokenType (currentToken st) <> END) then
        match statement st with
        | (Ret _, st') => run_loop n' statement st'
        | (Throw what, st') => print_text ("Error: " +:+ what +:+ endl) st'
        | r => r
        end
      else (Ret tt, st)
  end.

Definition run (fuel : nat) : IM unit := run_loop fuel (statement fuel).

(** [Interpreter(src)]: the global scope and the first token; [out] is
    what has been written to [cout] so far. *)
Definition new_Interpreter (code out : string) : Interpreter :=
  snd (advance_token (mkInterpreter code 0 (mkToken END "") [∅] out)).

(** The command loop of [main] on the lines that [getline] delivers;
    every [run] works on an interpreter of its own. The model stops when
    the given lines are used up. *)
Fixpoint main_loop (fuel : nat) (lines : list string) (fullCode out : string)
    : Outcome unit * string :=
  match lines with
  | [] => (Ret tt, out)
  | line :: rest =>
      if decide (line = "exit") then (Ret tt, out)
      else if decide (line = "run") then
        match run fuel (new_Interpreter fullCode out) with
        | (Ret _, st) =>
            main_loop fuel rest ""
              (cout st +:+ endl +:+ "Ready for next code block:" +:+ endl)
        | (o, st) => (o, cout st)
        end
      else main_loop fuel rest (fullCode +:+ line +:+ " ") out
  end.

Definition main (fuel : nat) (lines : list string) : Outcome unit * string :=
  main_loop fuel lines ""
    ("--- TinyJS Interpreter (Type 'exit' to quit) ---" +:+ endl
     +:+ "Supports: let, const, print, if/else, math, strings" +:+ endl
     +:+ "Enter your code (one line or multiple, end with 'run'):" +:+ endl).

(** ** Definitions for the statements *)

(** A variable keeps its kind, and its value when it is a constant. *)
Definition var_kept (v v' : Variable_) : Prop :=
  isConst v' = isConst v /\ (isConst v = true -> val v' = val v).

(** Every variable of the scope is still there, kept. *)
Definition scope_kept (scope scope' : gmap string Variable_) : Prop :=
  forall (name : string) (v : Variable_),
    scope !! name = Some v ->
    exists v' : Variable_, scope' !! name = Some v' /\ var_kept v v'.

(** No scope of the stack is gone, and each of them is kept. *)
Definition scopes_kept (sc sc' : list (gmap string Variable_)) : Prop :=
  (length sc <= length sc')%nat
  /\ forall (i : nat) (scope : gmap string Variable_),
       sc !! i = Some scope ->
       exists scope' : gmap string Variable_,
         sc' !! i = Some scope' /\ scope_kept scope scope'.

(** However [m] ends, the scopes it found are kept; when it returns, the
    stack is as high as it was. *)
Definition keeps_scopes {A : Type} (m : IM A) : Prop :=
  forall (st st' : Interpreter) (o : Outcome A),
    m st = (o, st') ->
    scopes_kept (scopes st) (scopes st')
    /\ (forall a : A, o = Ret a -> length (scopes st') = length (scopes st)).

(** [m] does not touch the scopes. *)
Definition leaves_scopes {A : Type} (m : IM A) : Prop :=
  forall (st st' : Interpreter) (o : Outcome A), m st = (o, st') -> scopes st' = scopes st.

End TinyJS.

(** ** Definitions for the statements about the lexer of tinyjs *)

(** The characters that end the skipping of a [while] statement. *)
Definition ends_statement (c : ascii) : bool := is_char c ";" || is_char c "}".

(** No character of [s] from position [i] on passes [test]. *)
Definition none_from (test : ascii -> bool) (s : string) (i : nat) : Prop :=
  forall k : nat, (i <= k < String.length s)%nat -> test (char_at s k) = false.

(** The text [w], in front of [rest], is read as the token [t]. *)
Definition lexes (w rest : string) (t : TinyJS.Token) : Prop :=
  forall (ct : TinyJS.Token) (sc : list (gmap string TinyJS.Variable_)) (out : string),
    TinyJS.nextToken (TinyJS.mkInterpreter (w +:+ rest) 0 ct sc out)
    = (Ret t, TinyJS.mkInterpreter (w +:+ rest) (String.length w) ct sc out).

(** An [if] with a literal condition, whose two branches print a text. *)
Definition if_else_literals (c a b : string) : string :=
  "if (" +:+ c +:+ ") { print "
  +:+ String dquote (a +:+ String dquote ("; } else { print "
  +:+ String dquote (b +:+ String dquote "; }"))).

(** The text of an operator token. *)
Definition op_text (op : TinyJS.TokenType) : string :=
  match op with
  | TinyJS.PLUS => "+" | TinyJS.MINUS => "-" | TinyJS.MUL => "*" | TinyJS.DIV => "/"
  | TinyJS.EQ => "==" | TinyJS.GT => ">" | TinyJS.LT => "<"
  | _ => ""
  end.

(** [print] of one operator between two string literals. *)
Definition binary_on_strings (op : TinyJS.TokenType) (a b : string) : string :=
  "print"
  +:+ String " " (String dquote (a +:+ String dquote (" " +:+ op_text op
  +:+ String " " (String dquote (b +:+ String dquote ";"))))).

(** What the operators make of two strings. *)
Definition string_result (op : TinyJS.TokenType) (a b : string) : string :=
  match op with
  | TinyJS.PLUS | TinyJS.MINUS => a +:+ b
  | TinyJS.MUL | TinyJS.DIV => a
  | TinyJS.EQ => "true"
  | _ => "false"
  end.

(** The value of one operator of tinyjs between two values. *)
Definition binary_result (op : TinyJS.TokenType) (l r : TinyJS.Value) : TinyJS.Value :=
  match op with
  | TinyJS.MUL | TinyJS.DIV => TinyJS.term_op op l r
  | TinyJS.PLUS | TinyJS.MINUS => TinyJS.additive_op op l r
  | _ => TinyJS.comparison_op op l r
  end.

(** * TinyLang: the line interpreter of [interpreter.cpp]

    The third program of the repository: every line is a command, read
    word by word from a [stringstream], on a global map from names to
    [int]. *)

Module TinyLang.

(** The [int] of the program has 32 bits. *)
Definition INT_MIN : Z := - 2 ^ 31.
Definition INT_MAX : Z := 2 ^ 31 - 1.

(** A [stringstream] that is only read: the characters not yet read, and
    whether the stream is [good()] (neither [eofbit] nor [failbit] is set;
    the extractions of the program look at nothing else). *)
Record Stream := mkStream {
  buf : string;
  good : bool
}.

(** The white space that the sentry of an extraction skips. *)
Fixpoint skip_ws (s : string) : string :=
  match s with
  | String c rest => if isspace c then skip_ws rest else s
  | EmptyString => ""
  end.

(** The characters up to the next white space, and the rest. *)
Fixpoint word_prefix (s : string) : string * string :=
  match s with
  | String c rest =>
      if isspace c then ("", s)
      else let '(w, r) := word_prefix rest in (String c w, r)
  | EmptyString => ("", "")
  end.

(** [ss >> word] for a [std::string]: [None] where the word is not
    written (the stream was not good, or only white space was left, which
    sets [failbit]). Reading up to the end of the stream sets [eofbit]. *)
Definition extract_string (ss : Stream) : option string * Stream :=
  if good ss then
    match skip_ws (buf ss) with
    | EmptyString => (None, mkStream "" false)
    | s => let '(w, r) := word_prefix s in
           (Some w, mkStream r (negb (bool_decide (r = ""))))
    end
  else (None, ss).

(** The sign that [num_get] accepts in front of the digits. *)
Definition sign_prefix (s : string) : bool * string :=
  match s with
  | String c rest =>
      if is_char c "-" then (true, rest)
      else if is_char c "+" then (false, rest)
      else (false, s)
  | EmptyString => (false, "")
  end.

Definition clamp (v : Z) : Z :=
  if v <? INT_MIN then INT_MIN else if INT_MAX <? v then INT_MAX else v.

(** [ss >> value] for an [int] (C++11): [None] where the value is not
    written (the stream was not good, or only white space was left).
    Otherwise a sign and the digits that follow are read; without a digit
    the value written is 0, and a value out of range is written as the
    nearest [int]; both set [failbit]. *)
Definition extract_int (ss : Stream) : option Z * Stream :=
  if good ss then
    match skip_ws (buf ss) with
    | EmptyString => (None, mkStream "" false)
    | s =>
        let '(negative, s1) := sign_prefix s in
        let '(d, r) := digits_prefix s1 in
        if bool_decide (d = "") then (Some 0, mkStream r false)
        else
          let n := digits_value d 0 in
          let v := if negative then - n else n in
          (Some (clamp v),
           mkStream r (bool_decide (clamp v = v) && negb (bool_decide (r = ""))))
    end
  else (None, ss).

(** The global [variables] and the output. *)
Record State := mkState {
  variables : gmap string Z;
  cout : string
}.

Definition set_variables (m : gmap string Z) (st : State) : State :=
  mkState m (cout st).

Definition print_text (t : string) (st : State) : State :=
  mkState (variables st) (cout st +:+ t).

(** A [std::string] that no extraction has written is empty. *)
Definition word_of (w : option string) : string :=
  match w with Some s => s | None => "" end.

(** [execute]. An [int] that no extraction has written is not
    initialised: reading it is undefined behaviour, and so is the
    overflow of [+=]. *)
Definition execute (line : string) : SM State unit := fun st =>
  let ss := mkStream line true in
  let '(w, ss) := extract_string ss in
  let command := word_of w in
  if decide (command = "let") then
    let '(w1, ss) := extract_string ss in
    let varName := word_of w1 in
    let '(_, ss) := extract_string ss in
    let '(value, ss) := extract_int ss in
    match value with
    | Some v => (Ret tt, set_variables (<[varName := v]> (variables st)) st)
    | None => (Undefined, st)
    end
  else if decide (command = "print") then
    let '(w1, ss) := extract_string ss in
    let varName := word_of w1 in
    match variables st !! varName with
    | Some n => (Ret tt, print_text (">> " +:+ pretty n +:+ endl) st)
    | None =>
        (Ret tt,
         print_text (">> Error: Variable '" +:+ varName +:+ "' not found." +:+ endl) st)
    end
  else if decide (command = "add") then
    let '(w1, ss) := extract_string ss in
    let varName := word_of w1 in
    let '(value, ss) := extract_int ss in
    match variables st !! varName with
    | Some n =>
        match value with
        | Some v =>
            if (INT_MIN <=? n + v) && (n + v <=? INT_MAX)
            then (Ret tt, set_variables (<[varName := n + v]> (variables st)) st)
            else (Undefined, st)
        | None => (Undefined, st)
        end
    | None => (Ret tt, st)
    end
  else (Ret tt, st).

(** The loop of [main] on the lines that [getline] delivers; the model
    stops at the [getline] for which no line is given. *)
Fixpoint main_loop (lines : list string) : SM State unit := fun st =>
  let st := print_text "> " st in
  match lines with
  | [] => (Ret tt, st)
  | line :: rest =>
      if decide (line = "exit") then (Ret tt, st)
      else if decide (line = "") then main_loop rest st
      else (execute line ;;; main_loop rest) st
  end.

Definition main (lines : list string) : Outcome unit * State :=
  main_loop lines
    (mkState ∅ ("TinyLang Interpreter v1.0" +:+ endl
                +:+ "Commands: 'let x = 10', 'print x', 'add x 5', 'exit'" +:+ endl)).

End TinyLang.

(** ** Definitions for the statements about TinyLang *)

(** A word: not empty, without white space. *)
Definition is_word (w : string) : bool :=
  negb (bool_decide (w = "")) && string_forall (fun c => negb (isspace c)) w.

(** A text that ends a word in front of it: empty, or led by white space. *)
Definition ends_word (rest : string) : bool :=
  match rest with
  | String c _ => isspace c
  | EmptyString => true
  end.

Definition in_int (n : Z) : Prop := TinyLang.INT_MIN <= n <= TinyLang.INT_MAX.

(** * Properties *)

(** ** Outcomes *)

(** A [bind] that returns: both parts returned. *)
Lemma bind_ret_inv {S A B : Type} (m : SM S A) (k : A -> SM S B) (s s' : S) (b : B) :
  bind m k s = (Ret b, s') ->
  exists (a : A) (s1 : S), m s = (Ret a, s1) /\ k a s1 = (Ret b, s').
Proof.
  unfold bind. destruct (m s) as [[a| | |] s1]; intros H; try discriminate. eauto.
Qed.

(** ** The environment chain *)

Section EnvironmentChain.

(** In a tree of frames, [lookup_from] and [assign_from] with fuel for the
    frames up to [env] do what the walk from [env] says. *)
Lemma walk_from (h : list Environment) (name : string) (val : Value) :
  heap_wf h ->
  forall n env : nat, (env < n)%nat -> (env < length h)%nat ->
  exists r : option nat,
    first_binding h name env r
    /\ lookup_from n h env name = lookup_result h name r
    /\ assign_from n h env name val = assign_result h name val r.
Proof.
  intros Hwf n. induction n as [|n IH]; intros env Hn Hlen; [lia|].
  destruct (lookup_lt_is_Some_2 h env Hlen) as [fr Hfr].
  simpl. rewrite Hfr.
  destruct (vars fr !! name) as [v|] eqn:Hv.
  - exists (Some env). split; [|split].
    + eapply fb_here; eauto.
    + simpl. now rewrite Hfr, Hv.
    + destruct (decide (is_Some (Some v))) as [_|Hno].
      * unfold assign_result, store_in. now rewrite Hfr.
      * exfalso. apply Hno. eauto.
  - destruct (decide (is_Some (@None Value))) as [[x Hx]|_]; [discriminate|].
    destruct (parent fr) as [p|] eqn:Hp.
    + pose proof (Hwf env fr p Hfr Hp) as Hlt.
      destruct (IH p) as (r & Hr & Hl & Ha); [lia|lia|].
      exists r. split; [|split]; auto.
      eapply fb_parent; eauto.
    + exists None. split; [|split]; auto.
      eapply fb_root; eauto.
Qed.

(** The walk ends at one frame only. *)
Lemma first_binding_unique (h : list Environment) (name : string) (env : nat)
    (r r' : option nat) :
  first_binding h name env r -> first_binding h name env r' -> r = r'.
Proof.
  intros H. revert r'. induction H as [env fr Hfr Hv|env fr p r Hfr Hv Hp H IH|env fr Hfr Hv Hp];
    intros r' H'; inversion H' as [env' fr' Hfr' Hv'|env' fr' p' r'' Hfr' Hv' Hp' H''|env' fr' Hfr' Hv' Hp'];
    subst; try reflexivity.
  - rewrite Hfr in Hfr'. injection Hfr' as <-. rewrite Hv' in Hv. destruct Hv; discriminate.
  - rewrite Hfr in Hfr'. injection Hfr' as <-. rewrite Hv' in Hv. destruct Hv; discriminate.
  - rewrite Hfr in Hfr'. injection Hfr' as <-. rewrite Hv in Hv'. destruct Hv'; discriminate.
  - rewrite Hfr in Hfr'. injection Hfr' as <-. rewrite Hp in Hp'. injection Hp' as <-.
    now apply IH.
  - rewrite Hfr in Hfr'. injection Hfr' as <-. congruence.
  - rewrite Hfr in Hfr'. injection Hfr' as <-. rewrite Hv in Hv'. destruct Hv'; discriminate.
  - rewrite Hfr in Hfr'. injection Hfr' as <-. congruence.
Qed.

(** The frame the walk ends at binds the name. *)
Lemma first_binding_binds (h : list Environment) (name : string) (env : nat)
    (r : option nat) :
  first_binding h name env r ->
  forall i : nat, r = Some i ->
  exists (fr : Environment) (v : Value), h !! i = Some fr /\ vars fr !! name = Some v.
Proof.
  induction 1 as [env fr Hfr [v Hv]|env fr p r Hfr Hv Hp H IH|env fr Hfr Hv Hp];
    intros i E.
  - injection E as <-. eauto.
  - eauto.
  - discriminate.
Qed.

(** C6: [lookup] and [assign] walk the chain of frames from the innermost
    one outwards. With [r] the first frame on that walk that binds [name]:
    [lookup] returns the value bound there and [assign] overwrites the
    binding in that frame and in no other; when no frame binds the name,
    [lookup] throws "Undefined variable" and [assign] throws "Cannot assign
    to undefined variable", and the heap is left as it was (no binding is
    created). The frames are assumed to form a tree, which they do in
    every state the interpreter reaches (see the invariant at the end). *)
Theorem lookup_assign_walk_chain (s : State) (env : nat) (name : string) (val : Value) :
  heap_wf (heap s) -> (env < length (heap s))%nat ->
  exists r : option nat,
    first_binding (heap s) name env r
    /\ match r with
       | Some i =>
           exists (fr : Environment) (v : Value),
             heap s !! i = Some fr /\ vars fr !! name = Some v
             /\ lookup env name s = (Ret v, s)
             /\ assign env name val s
                = (Ret tt,
                   set_heap (<[i := mkEnvironment (<[name := val]> (vars fr)) (parent fr)]>
                              (heap s)) s)
       | None =>
           lookup env name s = (Throw ("Undefined variable: " +:+ name), s)
           /\ assign env name val s
              = (Throw ("Cannot assign to undefined variable: " +:+ name), s)
       end.
Proof.
  intros Hwf Hlen.
  destruct (walk_from (heap s) name val Hwf (length (heap s)) env Hlen Hlen)
    as (r & Hr & Hl & Ha).
  exists r. split; [exact Hr|].
  unfold lookup, assign. rewrite Hl, Ha.
  destruct r as [i|]; simpl.
  - destruct (first_binding_binds _ _ _ _ Hr i eq_refl) as (fr & v & Hfr & Hv).
    exists fr, v. unfold store_in. rewrite Hfr, Hv. auto.
  - destruct s; auto.
Qed.

(** The check [parents_before] is sound. *)
Lemma parents_before_wf (h : list Environment) :
  parents_before 0 h = true -> heap_wf h.
Proof.
  assert (forall k, parents_before k h = true ->
          forall i fr p, h !! i = Some fr -> parent fr = Some p -> (p < k + i)%nat)
    as Hgen.
  { induction h as [|fr0 h IH]; intros k Hk i fr p Hi Hp; [discriminate|].
    simpl in Hk. apply andb_true_iff in Hk as [H0 Hrest].
    destruct i as [|i]; simpl in Hi.
    - injection Hi as ->. rewrite Hp in H0. apply Nat.ltb_lt in H0. lia.
    - pose proof (IH (S k) Hrest i fr p Hi Hp). lia. }
  intros H i fr p Hi Hp. exact (Hgen 0%nat H i fr p Hi Hp).
Qed.

End EnvironmentChain.

(** The walk from the frame of a call ([n] unbound there) ends in the
    global frame. *)
Lemma lookup_assign_walk_chain_witness :
  exists r : option nat,
    first_binding (heap (call_state outer_n_function [] outer_n_state)) "n" 1 r
    /\ match r with
       | Some i =>
           exists (fr : Environment) (v : Value),
             heap (call_state outer_n_function [] outer_n_state) !! i = Some fr
             /\ vars fr !! "n" = Some v
             /\ lookup 1 "n" (call_state outer_n_function [] outer_n_state)
                = (Ret v, call_state outer_n_function [] outer_n_state)
             /\ assign 1 "n" (number_value 8)
                  (call_state outer_n_function [] outer_n_state)
                = (Ret tt,
                   set_heap
                     (<[i := mkEnvironment (<["n" := number_value 8]> (vars fr))
                                           (parent fr)]>
                        (heap (call_state outer_n_function [] outer_n_state)))
                     (call_state outer_n_function [] outer_n_state))
       | None =>
           lookup 1 "n" (call_state outer_n_function [] outer_n_state)
           = (Throw ("Undefined variable: " +:+ "n"),
              call_state outer_n_function [] outer_n_state)
           /\ assign 1 "n" (number_value 8)
                (call_state outer_n_function [] outer_n_state)
              = (Throw ("Cannot assign to undefined variable: " +:+ "n"),
                 call_state outer_n_function [] outer_n_state)
       end.
Proof.
  apply (lookup_assign_walk_chain (call_state outer_n_function [] outer_n_state)
           1 "n" (number_value 8)).
  - apply parents_before_wf. vm_compute. reflexivity.
  - vm_compute. lia.
Defined.

(** Both cases of the walk on that state: [n] is found in the global
    frame, [zz] is bound nowhere and [assign] leaves the heap as it was. *)
Example lookup_assign_examples :
  lookup 1 "n" (call_state outer_n_function [] outer_n_state)
  = (Ret (number_value 7), call_state outer_n_function [] outer_n_state)
  /\ fst (lookup 1 "n"
            (snd (assign 1 "n" (number_value 8)
                    (call_state outer_n_function [] outer_n_state))))
     = Ret (number_value 8)
  /\ fst (lookup 0 "n"
            (snd (assign 1 "n" (number_value 8)
                    (call_state outer_n_function [] outer_n_state))))
     = Ret (number_value 8)
  /\ lookup 1 "zz" (call_state outer_n_function [] outer_n_state)
     = (Throw "Undefined variable: zz", call_state outer_n_function [] outer_n_state)
  /\ assign 1 "zz" (number_value 8) (call_state outer_n_function [] outer_n_state)
     = (Throw "Cannot assign to undefined variable: zz",
        call_state outer_n_function [] outer_n_state).
Proof. repeat split; vm_compute; reflexivity. Qed.

(** ** Calls *)

Section Calls.

Variable clock : nat -> Z.

Lemma fold_insert_other (l : list (string * Value)) (m : gmap string Value)
    (p : string) :
  p ∉ l.*1 ->
  fold_left (fun m pa => <[pa.1 := pa.2]> m) l m !! p = m !! p.
Proof.
  revert m. induction l as [|[q b] l IH]; intros m Hp; [reflexivity|].
  simpl in *. apply not_elem_of_cons in Hp as [Hq Hl].
  rewrite IH by exact Hl. now rewrite lookup_insert_ne.
Qed.

Lemma fold_insert_at (l : list (string * Value)) (m : gmap string Value)
    (i : nat) (p : string) (a : Value) :
  l !! i = Some (p, a) ->
  (forall (j : nat) (b : Value), (i < j)%nat -> l !! j <> Some (p, b)) ->
  fold_left (fun m pa => <[pa.1 := pa.2]> m) l m !! p = Some a.
Proof.
  revert m i. induction l as [|[q b] l IH]; intros m i Hi Hlast; [discriminate|].
  destruct i as [|i]; simpl in *.
  - injection Hi as -> ->.
    rewrite fold_insert_other; [apply lookup_insert_eq|].
    intros Hin. apply list_elem_of_fmap in Hin as ([p' b'] & -> & Hin).
    apply list_elem_of_lookup in Hin as [j Hj].
    apply (Hlast (S j) b'); [lia|exact Hj].
  - apply (IH _ i Hi). intros j b' Hj. apply (Hlast (S j) b'). lia.
Qed.

Lemma fst_zip_take (ps : list string) (argVals : list Value) :
  (zip ps argVals).*1 = take (length argVals) ps.
Proof.
  revert argVals. induction ps as [|p ps IH]; intros [|a argVals]; simpl;
    try reflexivity.
  now rewrite IH.
Qed.

(** A parameter behind the last argument is not bound in the new frame. *)
Lemma param_bindings_unbound (ps : list string) (argVals : list Value) (p : string) :
  p ∉ take (length argVals) ps -> param_bindings ps argVals !! p = None.
Proof.
  intros Hp. unfold param_bindings.
  rewrite fold_insert_other; [apply lookup_empty|].
  now rewrite fst_zip_take.
Qed.

(** Parameters are bound by position. *)
Lemma param_bindings_positional (ps : list string) (argVals : list Value)
    (i : nat) (p : string) (a : Value) :
  NoDup ps -> ps !! i = Some p -> argVals !! i = Some a ->
  param_bindings ps argVals !! p = Some a.
Proof.
  intros Hnd Hp Ha. unfold param_bindings.
  apply (fold_insert_at _ _ i).
  - apply lookup_zip_with_Some. eauto.
  - intros j b Hj Hz. apply lookup_zip_with_Some in Hz as (x & y & E & Hx & _).
    injection E as <- _.
    pose proof (NoDup_lookup _ _ _ _ Hnd Hp Hx). lia.
Qed.

(** Arguments behind the last parameter are ignored. *)
Lemma param_bindings_excess (ps : list string) (argVals extra : list Value) :
  (length ps <= length argVals)%nat ->
  param_bindings ps (argVals ++ extra) = param_bindings ps argVals.
Proof.
  intros Hle. unfold param_bindings.
  rewrite <- (zip_with_take_r _ ps (argVals ++ extra)).
  rewrite <- (zip_with_take_r _ ps argVals).
  rewrite take_app_le by exact Hle. reflexivity.
Qed.

(** The loop of [CallNode::eval] fills the frame with [param_bindings]. *)
Lemma bind_params_fold (ps : list string) (argVals : list Value) :
  forall (i scope : nat) (s : State) (fr : Environment),
  heap s !! scope = Some fr ->
  bind_params scope i ps argVals s
  = (Ret tt,
     set_heap (<[scope := mkEnvironment
                   (fold_left (fun m pa => <[pa.1 := pa.2]> m)
                              (zip ps (drop i argVals)) (vars fr))
                   (parent fr)]> (heap s)) s).
Proof.
  induction ps as [|p ps IH]; intros i scope s fr Hfr; simpl.
  - unfold ret. f_equal. destruct s, fr; simpl in *.
    now rewrite list_insert_id.
  - unfold bind at 1.
    destruct (argVals !! i) as [a|] eqn:Ha.
    + unfold define. rewrite Hfr.
      rewrite (drop_S _ _ _ Ha). simpl.
      erewrite IH; [|simpl; apply list_lookup_insert_eq; eapply lookup_lt_Some; eauto].
      simpl. now rewrite list_insert_insert_eq.
    + unfold ret at 1. rewrite (IH (S i) scope s fr Hfr).
      apply lookup_ge_None in Ha.
      rewrite !drop_ge by lia. rewrite !zip_with_nil_r. reflexivity.
Qed.

(** The arguments are evaluated from left to right, each in the state the
    previous one left. *)
Lemma eval_each_cons (ev : ASTNode -> M Value) (a : ASTNode) (rest : list ASTNode) :
  eval_each ev (a :: rest)
  = (v <- ev a ;; vs <- eval_each ev rest ;; ret (v :: vs)).
Proof. reflexivity. Qed.

Lemma eval_CallNode (fuel : nat) (callee : string) (args : list ASTNode) (env : nat) :
  eval clock (S fuel) (CallNode callee args) env =
  (func <- lookup env callee ;;
   argVals <- eval_each (fun n => eval clock fuel n env) args ;;
   if decide (type func = V_NATIVE) then call_native clock (nativeFn func) argVals
   else if decide (type func = V_FUNC) then
     scope <- new_Environment (closure func) ;;
     bind_params scope 0 (params func) argVals ;;;
     eval clock fuel (body func) scope
   else throw ("Not a function: " +:+ callee)).
Proof. reflexivity. Qed.

(** A walk that starts in an old frame does not see frames added later. *)
Lemma lookup_from_app (h l : list Environment) (name : string) :
  heap_wf h ->
  forall n env : nat, (env < length h)%nat ->
  lookup_from n (h ++ l) env name = lookup_from n h env name.
Proof.
  intros Hwf n. induction n as [|n IH]; intros env Hlen; [reflexivity|].
  simpl. rewrite lookup_app_l by exact Hlen.
  destruct (h !! env) as [fr|] eqn:Hfr; [|reflexivity].
  destruct (vars fr !! name); [reflexivity|].
  destruct (parent fr) as [p|] eqn:Hp; [|reflexivity].
  apply IH. pose proof (Hwf env fr p Hfr Hp). lia.
Qed.

(** More fuel than frames changes nothing. *)
Lemma lookup_from_enough (h : list Environment) (name : string) :
  heap_wf h ->
  forall n env : nat, (env < n)%nat -> (env < length h)%nat ->
  lookup_from n h env name = lookup_from (length h) h env name.
Proof.
  intros Hwf n env Hn Hlen.
  destruct (walk_from h name null_value Hwf n env Hn Hlen) as (r & Hr & Hl & _).
  destruct (walk_from h name null_value Hwf (length h) env Hlen Hlen)
    as (r' & Hr' & Hl' & _).
  rewrite Hl, Hl'. now rewrite (first_binding_unique _ _ _ _ _ Hr Hr').
Qed.

(** A name that the frame of the call does not bind is looked up in the
    closure of the function. *)
Lemma lookup_in_call_frame (func : Value) (argVals : list Value) (s1 : State)
    (p : string) :
  param_bindings (params func) argVals !! p = None ->
  heap_wf (heap s1) ->
  match closure func with
  | Some c =>
      (c < length (heap s1))%nat ->
      lookup (length (heap s1)) p (call_state func argVals s1)
      = (fst (lookup c p s1), call_state func argVals s1)
  | None =>
      lookup (length (heap s1)) p (call_state func argVals s1)
      = (Throw ("Undefined variable: " +:+ p), call_state func argVals s1)
  end.
Proof.
  intros Hp Hwf. unfold lookup, call_state. simpl.
  rewrite length_app. simpl. rewrite Nat.add_1_r. simpl.
  rewrite list_lookup_middle by reflexivity. simpl. rewrite Hp.
  destruct (closure func) as [c|]; [|reflexivity].
  intros Hc. rewrite lookup_from_app by assumption. reflexivity.
Qed.

(** A declaration in frame [d] builds the Function whose closure is [d],
    binds the name to it in [d], and returns it. *)
Lemma declaration_captures_frame (fuel : nat) (name : string) (ps : list string)
    (b : ASTNode) (d : nat) (s0 : State) :
  is_Some (heap s0 !! d) ->
  exists s0' : State,
    eval clock (S fuel) (FunctionDeclNode name ps b) d s0
    = (Ret (function_value ps b d), s0')
    /\ lookup d name s0' = (Ret (function_value ps b d), s0')
    /\ closure (function_value ps b d) = Some d
    /\ type (function_value ps b d) = V_FUNC.
Proof.
  intros [fr Hfr]. simpl. unfold bind, define. rewrite Hfr.
  eexists. split; [reflexivity|]. split; [|split; reflexivity].
  unfold lookup. simpl heap. rewrite length_insert.
  pose proof (lookup_lt_Some _ _ _ Hfr) as Hlt.
  destruct (length (heap s0)) as [|n] eqn:E; [lia|].
  simpl. rewrite list_lookup_insert_eq by lia. simpl.
  now rewrite lookup_insert_eq.
Qed.

(** C5, as amended: a function declaration captures the frame it is
    evaluated in as the closure of the Function it builds. A call of a
    user Function evaluates the arguments left to right in the caller's
    frame, then evaluates the body in a NEW frame whose parent is that
    closure, the frame of the declaration, whatever the frame of the call
    is; the new frame binds the parameters by position, ignores arguments
    in excess and leaves a parameter without argument unbound, so that a
    lookup of such a parameter continues in the closure chain (it fails
    with "Undefined variable" only when that chain does not bind the name
    either). A callee that is neither a Function nor a NativeFunction
    makes the call fail with "Not a function", once the arguments have
    been evaluated. *)
Theorem call_runs_in_closure_frame (fuel env : nat) (s s1 : State) (callee : string)
    (args : list ASTNode) (func : Value) (argVals : list Value) :
  lookup env callee s = (Ret func, s) ->
  eval_each (fun a => eval clock fuel a env) args s = (Ret argVals, s1) ->
  (type func = V_FUNC ->
   eval clock (S fuel) (CallNode callee args) env s
   = eval clock fuel (body func) (length (heap s1)) (call_state func argVals s1))
  /\ (type func <> V_FUNC -> type func <> V_NATIVE ->
      eval clock (S fuel) (CallNode callee args) env s
      = (Throw ("Not a function: " +:+ callee), s1))
  /\ heap (call_state func argVals s1) !! length (heap s1)
     = Some (mkEnvironment (param_bindings (params func) argVals) (closure func))
  /\ (forall (i : nat) (p : string) (a : Value),
        NoDup (params func) -> params func !! i = Some p -> argVals !! i = Some a ->
        param_bindings (params func) argVals !! p = Some a)
  /\ (forall extra : list Value,
        (length (params func) <= length argVals)%nat ->
        param_bindings (params func) (argVals ++ extra)
        = param_bindings (params func) argVals)
  /\ (forall p : string,
        p ∉ take (length argVals) (params func) ->
        param_bindings (params func) argVals !! p = None
        /\ (heap_wf (heap s1) ->
            match closure func with
            | Some c =>
                (c < length (heap s1))%nat ->
                lookup (length (heap s1)) p (call_state func argVals s1)
                = (fst (lookup c p s1), call_state func argVals s1)
            | None =>
                lookup (length (heap s1)) p (call_state func argVals s1)
                = (Throw ("Undefined variable: " +:+ p), call_state func argVals s1)
            end))
  /\ (forall (name : string) (ps : list string) (b : ASTNode) (d : nat) (s0 : State),
        is_Some (heap s0 !! d) ->
        exists s0' : State,
          eval clock (S fuel) (FunctionDeclNode name ps b) d s0
          = (Ret (function_value ps b d), s0')
          /\ lookup d name s0' = (Ret (function_value ps b d), s0')
          /\ closure (function_value ps b d) = Some d
          /\ type (function_value ps b d) = V_FUNC)
  /\ (forall (ps : list string) (b : ASTNode) (d : nat),
        func = function_value ps b d ->
        eval clock (S fuel) (CallNode callee args) env s
        = eval clock fuel b (length (heap s1)) (call_state func argVals s1)
        /\ heap (call_state func argVals s1) !! length (heap s1)
           = Some (mkEnvironment (param_bindings ps argVals) (Some d))).
Proof.
  intros Hf Hargs.
  assert (type func = V_FUNC ->
          eval clock (S fuel) (CallNode callee args) env s
          = eval clock fuel (body func) (length (heap s1)) (call_state func argVals s1))
    as Hcall.
  { intros Ht. rewrite eval_CallNode. unfold bind at 1. rewrite Hf.
    unfold bind at 1. rewrite Hargs.
    destruct (decide (type func = V_NATIVE)) as [E|_]; [congruence|].
    destruct (decide (type func = V_FUNC)) as [_|E]; [|congruence].
    unfold bind at 1. unfold new_Environment.
    unfold bind at 1.
    rewrite (bind_params_fold (params func) argVals 0 (length (heap s1)) _
               (mkEnvironment ∅ (closure func)));
      [|simpl; now apply list_lookup_middle].
    simpl. rewrite drop_0.
    rewrite (insert_app_r_alt _ _ (length (heap s1))) by lia.
    rewrite Nat.sub_diag. reflexivity. }
  assert (heap (call_state func argVals s1) !! length (heap s1)
          = Some (mkEnvironment (param_bindings (params func) argVals) (closure func)))
    as Hframe.
  { unfold call_state. simpl. now apply list_lookup_middle. }
  split; [exact Hcall|].
  split; [|split; [exact Hframe|]].
  { intros Hnf Hnn. rewrite eval_CallNode. unfold bind at 1. rewrite Hf.
    unfold bind at 1. rewrite Hargs.
    destruct (decide (type func = V_NATIVE)) as [E|_]; [congruence|].
    destruct (decide (type func = V_FUNC)) as [E|_]; [congruence|].
    reflexivity. }
  split; [intros i p a; apply param_bindings_positional|].
  split; [intros extra; apply param_bindings_excess|].
  split.
  { intros p Hp. split; [now apply param_bindings_unbound|].
    intros Hwf. apply lookup_in_call_frame; [|exact Hwf].
    now apply param_bindings_unbound. }
  split; [intros name ps b d s0; apply declaration_captures_frame|].
  intros ps b d ->. split; [exact (Hcall eq_refl)|exact Hframe].
Qed.

End Calls.

(** C5, counterexample: in [var n = 7; function f(n) { n } f()] the call
    passes no argument, so the parameter [n] is left unbound in the frame
    of the call; the lookup of [n] in the body does not raise an error, it
    reads the global [n] and the call returns the Number 7. *)
Lemma unbound_parameter_reads_outer_binding :
  parse 10 "var n = 7; function f(n) { n } f()"
  = Ret [VarDeclNode "n" (NumberNode 7);
         FunctionDeclNode "f" ["n"] (BlockNode [IdentifierNode "n"]);
         CallNode "f" []]
  /\ fst (eval example_clock 4 (CallNode "f" []) globalEnv outer_n_state)
     = Ret (number_value 7).
Proof. split; vm_compute; reflexivity. Qed.

(** The theorem at the call [h(5)] of the function that [outer(1)]
    returned: the argument is evaluated in the global frame, the frame of
    the call; the body runs in the new frame 2, whose parent is frame 1,
    the frame of the declaration of [inner]; [a] is bound to 5 and [b] is
    left unbound. The [x] of the body is the 1 of frame 1, not the 2 of
    the frame of the call: the call returns 6. *)
Lemma call_runs_in_closure_frame_witness :
  (eval example_clock 5 (CallNode "h" [NumberNode 5]) globalEnv returned_function_state
   = eval example_clock 4 inner_body (length (heap returned_function_state))
       (call_state returned_function [number_value 5] returned_function_state)
   /\ heap (call_state returned_function [number_value 5] returned_function_state)
        !! length (heap returned_function_state)
      = Some (mkEnvironment (param_bindings ["a"; "b"] [number_value 5]) (Some 1%nat)))
  /\ fst (eval example_clock 5 (CallNode "h" [NumberNode 5]) globalEnv
            returned_function_state)
     = Ret (number_value 6).
Proof.
  split; [|vm_compute; reflexivity].
  refine (proj2 (proj2 (proj2 (proj2 (proj2 (proj2 (proj2
            (call_runs_in_closure_frame example_clock 4 globalEnv
               returned_function_state returned_function_state "h" [NumberNode 5]
               returned_function [number_value 5] _ _)))))))
            ["a"; "b"] inner_body 1%nat eq_refl);
    vm_compute; reflexivity.
Defined.

(** Lexical scope, from the text: [inner] is declared in the frame of the
    call [outer(1)] and called from the global frame; it reads the [x] of
    the frame it was declared in. *)
Example closure_not_call_site :
  parse 20 ("var x = 2; function outer(x) { function inner(a, b) { x + a } inner } "
            +:+ "var h = outer(1); h(5)")
  = Ret (returned_function_program ++ [CallNode "h" [NumberNode 5]])
  /\ fst (eval example_clock 10
            (BlockNode (returned_function_program ++ [CallNode "h" [NumberNode 5]]))
            globalEnv initial_state)
     = Ret (number_value 6)
  /\ fst (lookup globalEnv "x" returned_function_state) = Ret (number_value 2)
  /\ fst (lookup 1 "x" returned_function_state) = Ret (number_value 1).
Proof. repeat split; vm_compute; reflexivity. Qed.

(** ** Binary operators *)

Section BinaryOperators.

Variable clock : nat -> Z.

(** [BinaryOpNode::eval]: both operands, left then right, then the
    operator table. *)
Lemma eval_BinaryOpNode (fuel : nat) (op : string) (a b : ASTNode) (env : nat) :
  eval clock (S fuel) (BinaryOpNode op a b) env =
  (l <- eval clock fuel a env ;; r <- eval clock fuel b env ;; ret (binary_op op l r)).
Proof. reflexivity. Qed.

Lemma eval_BinaryOpNode_ret (fuel : nat) (op : string) (a b : ASTNode) (env : nat)
    (s s1 s2 : State) (l r : Value) :
  eval clock fuel a env s = (Ret l, s1) ->
  eval clock fuel b env s1 = (Ret r, s2) ->
  eval clock (S fuel) (BinaryOpNode op a b) env s = (Ret (binary_op op l r), s2).
Proof.
  intros Ha Hb. rewrite eval_BinaryOpNode. unfold bind. now rewrite Ha, Hb.
Qed.

Lemma binary_op_equality (l r : Value) :
  binary_op "==" l r = bool_value (equality_result l r).
Proof.
  unfold binary_op, equality_result; simpl.
  destruct (decide (type l = V_NUM)); [reflexivity|].
  destruct (decide (type l = V_STR)); reflexivity.
Qed.

(** C2, as amended: [l == r] always yields a Boolean, and the tag of the
    LEFT operand alone selects the comparison. When [l] is a Number the
    result is the double comparison of the numeric fields of [l] and [r];
    when [l] is a String it is the comparison of their string fields; when
    [l] is neither it is false. The tag of [r] is never inspected: when
    the tags agree this is the rule of the specification, and when [r] has
    another tag than a Number or String [l], its numeric or string field is
    the default (0, the empty text) that [l] is compared with. *)
Theorem equality_by_left_tag (fuel : nat) (a b : ASTNode) (env : nat)
    (s s1 s2 : State) (l r : Value) :
  eval clock fuel a env s = (Ret l, s1) ->
  eval clock fuel b env s1 = (Ret r, s2) ->
  eval clock (S fuel) (BinaryOpNode "==" a b) env s
  = (Ret (bool_value (equality_result l r)), s2)
  /\ (type l = V_NUM -> equality_result l r = (numVal l =? numVal r)%float)
  /\ (type l = V_STR -> equality_result l r = bool_decide (strVal l = strVal r))
  /\ (type l <> V_NUM -> type l <> V_STR -> equality_result l r = false)
  /\ (type l = type r -> equality_result l r = spec_equality l r)
  /\ (plain r -> type l = V_NUM -> type r <> V_NUM ->
      equality_result l r = (numVal l =? 0)%float)
  /\ (plain r -> type l = V_STR -> type r <> V_STR ->
      equality_result l r = bool_decide (strVal l = "")).
Proof.
  intros Ha Hb. split.
  { rewrite (eval_BinaryOpNode_ret _ _ _ _ _ _ _ _ _ _ Ha Hb).
    now rewrite binary_op_equality. }
  unfold equality_result, spec_equality.
  repeat split; intros.
  - destruct (decide (type l = V_NUM)); congruence.
  - destruct (decide (type l = V_NUM)); [congruence|].
    destruct (decide (type l = V_STR)); congruence.
  - destruct (decide (type l = V_NUM)); [congruence|].
    destruct (decide (type l = V_STR)); congruence.
  - destruct (decide (type l = V_NUM)) as [Hn|Hn].
    + rewrite (bool_decide_eq_true_2 (type l = V_NUM)) by congruence.
      rewrite (bool_decide_eq_true_2 (type r = V_NUM)) by congruence.
      rewrite (bool_decide_eq_false_2 (type l = V_STR)) by congruence.
      simpl. now rewrite orb_false_r.
    + rewrite (bool_decide_eq_false_2 (type l = V_NUM)) by congruence. simpl.
      destruct (decide (type l = V_STR)) as [Hs|Hs].
      * rewrite (bool_decide_eq_true_2 (type l = V_STR)) by congruence.
        rewrite (bool_decide_eq_true_2 (type r = V_STR)) by congruence.
        reflexivity.
      * rewrite (bool_decide_eq_false_2 (type l = V_STR)) by congruence.
        reflexivity.
  - destruct H as (Hnum & _). rewrite (Hnum H1).
    destruct (decide (type l = V_NUM)); congruence.
  - destruct H as (_ & Hstr & _). rewrite (Hstr H1).
    destruct (decide (type l = V_NUM)); [congruence|].
    destruct (decide (type l = V_STR)); congruence.
Qed.

(** C7, as amended: [-], [*], [/], [>] and [<] never fail and never look
    at the tags: whatever the operand values are, the result is the Number
    (for [- * /]) or the Boolean (for [> <]) computed from the numeric
    fields of the two operands. *)
Theorem arithmetic_reads_numeric_fields (fuel : nat) (a b : ASTNode) (env : nat)
    (s s1 s2 : State) (l r : Value) :
  eval clock fuel a env s = (Ret l, s1) ->
  eval clock fuel b env s1 = (Ret r, s2) ->
  eval clock (S fuel) (BinaryOpNode "-" a b) env s
  = (Ret (number_value (numVal l - numVal r)%float), s2)
  /\ eval clock (S fuel) (BinaryOpNode "*" a b) env s
     = (Ret (number_value (numVal l * numVal r)%float), s2)
  /\ eval clock (S fuel) (BinaryOpNode "/" a b) env s
     = (Ret (number_value (numVal l / numVal r)%float), s2)
  /\ eval clock (S fuel) (BinaryOpNode ">" a b) env s
     = (Ret (bool_value (numVal r <? numVal l)%float), s2)
  /\ eval clock (S fuel) (BinaryOpNode "<" a b) env s
     = (Ret (bool_value (numVal l <? numVal r)%float), s2).
Proof.
  intros Ha Hb.
  repeat split; now rewrite (eval_BinaryOpNode_ret _ _ _ _ _ _ _ _ _ _ Ha Hb).
Qed.

(** The rule of [+]: concatenation of the two renderings when either
    operand is a String, the sum of the numeric fields otherwise. *)
Lemma binary_op_plus (l r : Value) :
  binary_op "+" l r =
  if bool_decide (type l = V_STR) || bool_decide (type r = V_STR)
  then string_value (toString l +:+ toString r)
  else number_value (numVal l + numVal r)%float.
Proof. reflexivity. Qed.

End BinaryOperators.

(** C2, counterexample: [0 == print()] compares the Number 0 with Null
    (what [print] returns) and yields Boolean true, where the rule of the
    specification gives false for a Number-Null pair. *)
Lemma equality_number_null_counterexample :
  fst (eval example_clock 2 (NumberNode 0) globalEnv initial_state)
  = Ret (number_value 0)
  /\ fst (eval example_clock 2 (CallNode "print" []) globalEnv initial_state)
     = Ret null_value
  /\ fst (eval example_clock 3
            (BinaryOpNode "==" (NumberNode 0) (CallNode "print" []))
            globalEnv initial_state)
     = Ret (bool_value true)
  /\ spec_equality (number_value 0) null_value = false.
Proof. repeat split; vm_compute; reflexivity. Qed.

(** The theorem at [0 == print()]. *)
Lemma equality_by_left_tag_witness :
  eval example_clock 3 (BinaryOpNode "==" (NumberNode 0) (CallNode "print" []))
       globalEnv initial_state
  = (Ret (bool_value (equality_result (number_value 0) null_value)),
     set_cout endl initial_state).
Proof.
  apply (equality_by_left_tag example_clock 2 (NumberNode 0) (CallNode "print" [])
           globalEnv initial_state initial_state (set_cout endl initial_state)
           (number_value 0) null_value); vm_compute; reflexivity.
Defined.

(** C7, counterexample: ["a" - 1] does not fail; it yields the Number -1
    from a String operand. *)
Lemma minus_on_string_counterexample :
  fst (eval example_clock 2 (BinaryOpNode "-" (StringNode "a") (NumberNode 1))
            globalEnv initial_state)
  = Ret (number_value (-1))
  /\ type (string_value "a") = V_STR.
Proof. split; vm_compute; reflexivity. Qed.

(** The theorem at ["a" - 1]. *)
Lemma arithmetic_reads_numeric_fields_witness :
  eval example_clock 2 (BinaryOpNode "-" (StringNode "a") (NumberNode 1))
       globalEnv initial_state
  = (Ret (number_value (numVal (string_value "a") - numVal (number_value 1))%float),
     initial_state).
Proof.
  apply (arithmetic_reads_numeric_fields example_clock 1 (StringNode "a") (NumberNode 1)
           globalEnv initial_state initial_state initial_state
           (string_value "a") (number_value 1)); reflexivity.
Defined.

(** C4 on the code: [+] concatenates the renderings of the operands when
    either is a String and adds their numeric fields otherwise, and
    [1 + 2] is the Number 3; but the rendering of the Number 1 is the text
    [1.] (the six decimals of [to_string] lose their zeros, the point
    stays), so ["a" + 1] is the String [a1.] and not [a1]. *)
Theorem plus_string_number_keeps_point :
  (forall l r : Value,
     binary_op "+" l r =
     if bool_decide (type l = V_STR) || bool_decide (type r = V_STR)
     then string_value (toString l +:+ toString r)
     else number_value (numVal l + numVal r)%float)
  /\ fst (eval example_clock 2 (BinaryOpNode "+" (NumberNode 1) (NumberNode 2))
               globalEnv initial_state)
     = Ret (number_value 3)
  /\ to_string 1 = "1.000000"
  /\ toString (number_value 1) = "1."
  /\ parse 5 (quoted "a" +:+ " + 1")
     = Ret [BinaryOpNode "+" (StringNode "a") (NumberNode 1)]
  /\ fst (eval example_clock 2 (BinaryOpNode "+" (StringNode "a") (NumberNode 1))
               globalEnv initial_state)
     = Ret (string_value "a1.").
Proof.
  split; [exact binary_op_plus|].
  repeat split; vm_compute; reflexivity.
Qed.

(** ** Conditions, loops and the value of a block *)

Section ControlFlow.

Variable clock : nat -> Z.





(** The loop [while ("a") {}] never ends, whatever the fuel. *)
Lemma while_string_never_returns (fuel env : nat) (s : State) :
  eval clock fuel (WhileNode (StringNode "a") (BlockNode [])) env s = (OutOfFuel, s).
Proof.
  revert s. induction fuel as [|fuel IH]; intros s; [reflexivity|].
  destruct fuel as [|fuel]; [reflexivity|].
  change (eval clock (S (S fuel)) (WhileNode (StringNode "a") (BlockNode [])) env s)
    with (eval clock (S fuel) (WhileNode (StringNode "a") (BlockNode [])) env s).
  apply IH.
Qed.

End ControlFlow.

(** C3 on the code: a condition value that is neither a Boolean nor a
    Number is not truthy for [IfNode], yet [WhileNode] does not break on
    it. The condition of [while ("a") {}] is such a value (a String): the
    loop never returns, whatever fuel the model is given. *)
Theorem while_string_condition_diverges :
  (forall c : Value,
     type c <> V_BOOL -> type c <> V_NUM -> truthy c = false /\ while_breaks c = false)
  /\ parse 5 ("while (" +:+ quoted "a" +:+ ") {}")
     = Ret [WhileNode (StringNode "a") (BlockNode [])]
  /\ (forall (clock : nat -> Z) (fuel env : nat) (s : State),
        eval clock fuel (WhileNode (StringNode "a") (BlockNode [])) env s
        = (OutOfFuel, s)).
Proof.
  split.
  { intros c Hb Hn. unfold truthy, while_breaks.
    destruct (decide (type c = V_BOOL)); [congruence|].
    destruct (decide (type c = V_NUM)); [congruence|].
    rewrite !bool_decide_eq_false_2 by assumption. auto. }
  split; [vm_compute; reflexivity|].
  intros. apply while_string_never_returns.
Qed.

Example counting_function_parses :
  parse 10 "function f() { var i = 0; while (i < 3) { var i = i + 1; } } print(f())"
  = Ret [counting_function; CallNode "print" [CallNode "f" []]].
Proof. vm_compute; reflexivity. Qed.


(** ** Errors *)

Section ErrorPropagation.

Variable clock : nat -> Z.

Lemma run_statements_app (fuel : nat) (pre rest : list ASTNode) (s : State) :
  run_statements clock fuel (pre ++ rest) s
  = (run_statements clock fuel pre ;;; run_statements clock fuel rest) s.
Proof.
  revert s. induction pre as [|st pre IH]; intros s; simpl.
  - reflexivity.
  - unfold bind.
    destruct (run_statement clock fuel st s) as [[[]| | |] s1]; try reflexivity.
    rewrite IH. reflexivity.
Qed.

(** A statement that throws ends the loop over the statements there. *)
Lemma run_statements_throw (fuel : nat) (pre post : list ASTNode) (st : ASTNode)
    (s s1 s2 : State) (what : string) :
  run_statements clock fuel pre s = (Ret tt, s1) ->
  eval clock fuel st globalEnv s1 = (Throw what, s2) ->
  run_statements clock fuel (pre ++ st :: post) s = (Throw what, s2).
Proof.
  intros Hpre Hst. rewrite run_statements_app. unfold bind at 1. rewrite Hpre.
  simpl. unfold bind at 1.
  assert (run_statement clock fuel st s1 = (Throw what, s2)) as ->; [|reflexivity].
  destruct st; try (simpl; unfold bind at 1; rewrite Hst; reflexivity).
  destruct fuel; discriminate.
Qed.

(** C9: when a statement of a batch throws, the statements behind it are
    not evaluated (the outcome does not depend on them) and the event loop
    is not entered; [run] catches the error, writes it to the output and
    returns normally, and the command loop goes on with the next line. The
    state is the one in which the error was thrown: the frames and the
    task queue keep what the statements before the error (and the failing
    statement itself) did to them. *)
Theorem error_aborts_batch (fuel : nat) (pre post : list ASTNode) (st : ASTNode)
    (s s1 s2 : State) (what : string) :
  run_statements clock fuel pre s = (Ret tt, s1) ->
  eval clock fuel st globalEnv s1 = (Throw what, s2) ->
  let reported := set_cout (cout s2 +:+ ("Runtime Error: " +:+ what +:+ endl)) s2 in
  run_parsed clock fuel (pre ++ st :: post) s = (Ret tt, reported)
  /\ heap reported = heap s2
  /\ taskQueue reported = taskQueue s2
  /\ (forall (code : string) (lines : list string),
        parse fuel code = Ret (pre ++ st :: post) ->
        run clock fuel code s = (Ret tt, reported)
        /\ main_loop clock fuel ("run" :: lines) code s
           = main_loop clock fuel lines ""
               (set_cout (cout reported +:+ (endl +:+ "Ready." +:+ endl)) reported)).
Proof.
  intros Hpre Hst reported.
  assert (run_parsed clock fuel (pre ++ st :: post) s = (Ret tt, reported)) as Hrun.
  { unfold run_parsed, try_catch, run_batch. unfold bind at 1.
    now rewrite (run_statements_throw _ _ _ _ _ _ _ _ Hpre Hst). }
  split; [exact Hrun|]. split; [reflexivity|]. split; [reflexivity|].
  intros code lines Hparse.
  assert (run clock fuel code s = (Ret tt, reported)) as Hrun'.
  { unfold run, try_catch. unfold bind at 1. rewrite Hparse.
    unfold run_batch. unfold bind at 1.
    now rewrite (run_statements_throw _ _ _ _ _ _ _ _ Hpre Hst). }
  split; [exact Hrun'|].
  simpl. unfold bind at 1. rewrite Hrun'. reflexivity.
Qed.

End ErrorPropagation.

Example failing_batch_parses :
  parse 10 "var a = 1; function f() { a } setTimeout(f, 0); y; print(a)"
  = Ret (failing_batch_before ++ IdentifierNode "y" :: failing_batch_after).
Proof. vm_compute; reflexivity. Qed.

(** The theorem at that batch. *)
Lemma error_aborts_batch_witness :
  run_parsed example_clock 10
    (failing_batch_before ++ IdentifierNode "y" :: failing_batch_after) initial_state
  = (Ret tt,
     set_cout (cout failing_batch_state
               +:+ ("Runtime Error: " +:+ "Undefined variable: y" +:+ endl))
              failing_batch_state).
Proof.
  refine (proj1 (error_aborts_batch example_clock 10 failing_batch_before
                   failing_batch_after (IdentifierNode "y")
                   initial_state failing_batch_state failing_batch_state
                   "Undefined variable: y" _ _));
    vm_compute; reflexivity.
Defined.

(** After that batch: the error is the only output ([print(a)] did not
    run), [a] is bound in the global frame and the task is pending. In the
    next batch of the session [print(a)] writes the Number, and the pending
    task is run by the event loop of that batch. *)
Example failing_batch_leaves_effects :
  let s := snd (run_parsed example_clock 10
                  (failing_batch_before ++ IdentifierNode "y" :: failing_batch_after)
                  initial_state) in
  cout s = "Runtime Error: Undefined variable: y" +:+ endl
  /\ fst (lookup globalEnv "a" s) = Ret (number_value 1)
  /\ length (taskQueue s) = 1%nat
  /\ cout (snd (main example_clock 10
                  ["var a = 1; function f() { a } setTimeout(f, 0); y; print(a)";
                   "run"; "print(a)"; "run"]))
     = "--- JS Engine V8-Mini (Async supported) ---" +:+ endl
       +:+ "Enter code. Type 'run' to execute." +:+ endl
       +:+ "Runtime Error: Undefined variable: y" +:+ endl
       +:+ endl +:+ "Ready." +:+ endl
       +:+ "1. " +:+ endl
       +:+ "[Event Loop] Processing async tasks..." +:+ endl
       +:+ endl +:+ "Ready." +:+ endl.
Proof. repeat split; vm_compute; reflexivity. Qed.

(** ** The parser on the scenario of the specification *)

Section ParserLoops.

(** One round of the loop of [parseBlock]. *)
Lemma block_statements_step (n : nat) (pe : PM ASTNode) (stmts : list ASTNode)
    (p p1 p2 : Parser) (st : ASTNode) :
  (pos p <? String.length (src p))%nat = true ->
  is_char (char_at (src p) (pos p)) "}" = false ->
  pe p = (Ret st, p1) ->
  skipWhitespace p1 = (Ret tt, p2) ->
  block_statements (S n) pe stmts p = block_statements n pe (stmts ++ [st]) p2.
Proof.
  intros Hpos Hc Hpe Hws. simpl. unfold bind at 1. unfold peek.
  apply Nat.ltb_lt in Hpos as Hlt.
  rewrite (proj2 (Nat.leb_gt _ _) Hlt). rewrite Hc. simpl.
  apply Nat.ltb_lt in Hlt. rewrite Hlt.
  unfold bind at 1. rewrite Hpe. unfold bind at 1. rewrite Hws. reflexivity.
Qed.

(** A statement parser that returns the null statement without moving,
    before a character that is not the closing brace, keeps the loop of
    [parseBlock] going for ever. *)
Lemma block_statements_stuck (pe : PM ASTNode) (p : Parser) :
  (pos p <? String.length (src p))%nat = true ->
  is_char (char_at (src p) (pos p)) "}" = false ->
  skipWhitespace p = (Ret tt, p) ->
  pe p = (Ret NullNode, p) \/ fst (pe p) = OutOfFuel ->
  forall (n : nat) (stmts : list ASTNode),
    fst (block_statements n pe stmts p) = OutOfFuel.
Proof.
  intros Hpos Hc Hws Hpe n. induction n as [|n IH]; intros stmts; [reflexivity|].
  destruct Hpe as [Hpe|Hpe].
  - rewrite (block_statements_step n pe stmts p p p NullNode Hpos Hc Hpe Hws).
    apply IH.
  - simpl. unfold bind at 1. unfold peek.
    apply Nat.ltb_lt in Hpos as Hlt.
    rewrite (proj2 (Nat.leb_gt _ _) Hlt). rewrite Hc. simpl.
    apply Nat.ltb_lt in Hlt. rewrite Hlt.
    unfold bind at 1. destruct (pe p) as [[a| | |] p']; simpl in Hpe;
      try discriminate. reflexivity.
Qed.

(** One round of the loop of [parse]. *)
Lemma parse_loop_step (n : nat) (pe : PM ASTNode) (stmts : list ASTNode)
    (p p1 p2 p3 : Parser) (st : ASTNode) :
  (pos p <? String.length (src p))%nat = true ->
  skipWhitespace p = (Ret tt, p1) ->
  (String.length (src p1) <=? pos p1)%nat = false ->
  pe p1 = (Ret st, p2) ->
  statement_end p2 = (Ret tt, p3) ->
  parse_loop (S n) pe stmts p = parse_loop n pe (stmts ++ [st]) p3.
Proof.
  intros Hpos Hws Hlen Hpe Hend. simpl. rewrite Hpos.
  unfold bind at 1. rewrite Hws. rewrite Hlen. unfold bind at 1. rewrite Hpe.
  unfold statement_end in Hend. unfold bind in *.
  destruct (skipWhitespace p2) as [[[]| | |] q]; try discriminate.
  destruct (peek q) as [[c| | |] q']; try discriminate.
  destruct (is_char c ";").
  - destruct (advance q') as [[a| | |] q'']; try discriminate.
    unfold ret in *. now injection Hend as <-.
  - unfold ret in *. now injection Hend as <-.
Qed.

(** A statement that is never parsed: neither is the program. *)
Lemma parse_loop_stuck (n : nat) (pe : PM ASTNode) (stmts : list ASTNode)
    (p p1 : Parser) :
  (pos p <? String.length (src p))%nat = true ->
  skipWhitespace p = (Ret tt, p1) ->
  (String.length (src p1) <=? pos p1)%nat = false ->
  fst (pe p1) = OutOfFuel ->
  fst (parse_loop n pe stmts p) = OutOfFuel.
Proof.
  intros Hpos Hws Hlen Hpe. destruct n as [|n]; [reflexivity|]. simpl.
  rewrite Hpos. unfold bind at 1. rewrite Hws. rewrite Hlen. unfold bind at 1.
  destruct (pe p1) as [[a| | |] p']; simpl in Hpe; try discriminate. reflexivity.
Qed.

End ParserLoops.

(** The text that [run] receives for the scenario is the line as typed,
    [scenario], or, through [main], the line with the newline that the
    command loop appends. *)
Section ScenarioNeverParsed.

Variable code : string.
Hypothesis code_is_scenario : code = scenario \/ code = scenario +:+ endl.

Ltac both := destruct code_is_scenario as [-> | ->].

Lemma semicolon_is_null_statement (f : nat) :
  parseStatement f (mkParser code 38) = (Ret NullNode, mkParser code 38)
  \/ fst (parseStatement f (mkParser code 38)) = OutOfFuel.
Proof.
  destruct f as [|[|[|f]]].
  - right; reflexivity.
  - right; both; vm_compute; reflexivity.
  - right; both; vm_compute; reflexivity.
  - left; both; vm_compute; reflexivity.
Qed.

Lemma scenario_block_never_closes (pe : PM ASTNode) (n : nat) :
  pe (mkParser code 28)
  = (Ret (BinaryOpNode "=" (IdentifierNode "x")
            (BinaryOpNode "+" (IdentifierNode "x") (IdentifierNode "n"))),
     mkParser code 38) ->
  pe (mkParser code 38) = (Ret NullNode, mkParser code 38)
  \/ fst (pe (mkParser code 38)) = OutOfFuel ->
  fst (parseBlock n pe (mkParser code 27)) = OutOfFuel.
Proof.
  intros Hx Hsemi. unfold parseBlock. unfold bind at 1.
  assert (advance (mkParser code 27) = (Ret "{"%char, mkParser code 28)) as ->
    by (both; reflexivity).
  unfold bind at 1.
  destruct n as [|n]; [reflexivity|].
  assert ((pos (mkParser code 38) <? String.length (src (mkParser code 38)))%nat = true)
    as Hin by (both; reflexivity).
  assert (is_char (char_at (src (mkParser code 38)) (pos (mkParser code 38))) "}" = false)
    as Hsemicolon by (both; reflexivity).
  assert (skipWhitespace (mkParser code 38) = (Ret tt, mkParser code 38))
    as Hws by (both; reflexivity).
  rewrite (block_statements_step n pe [] (mkParser code 28) (mkParser code 38)
             (mkParser code 38) _ ltac:(both; reflexivity) ltac:(both; reflexivity)
             Hx Hws).
  pose proof (block_statements_stuck pe (mkParser code 38) Hin Hsemicolon Hws Hsemi n
                ([] ++ [BinaryOpNode "=" (IdentifierNode "x")
                          (BinaryOpNode "+" (IdentifierNode "x") (IdentifierNode "n"))]))
    as Hstuck.
  destruct (block_statements n pe _ (mkParser code 38)) as [[a| | |] p'];
    simpl in Hstuck; try discriminate. reflexivity.
Qed.

(** The statement [function add(n){ x = x + n; }] of the scenario: the
    parser reaches the block and never leaves it. *)
Lemma scenario_function_never_parsed (n : nat) (pe pb : PM ASTNode) :
  fst (pb (mkParser code 27)) = OutOfFuel ->
  fst (parseStatement_with (S (S n)) pe pb (mkParser code 12)) = OutOfFuel.
Proof.
  intros Hpb.
  both; vm_compute in Hpb; vm_compute;
    (destruct (pb _) as [[a| | |] p']; try discriminate; reflexivity).
Qed.

(** The parser does not return on the scenario, whatever the fuel: the
    loop of [parseBlock] meets the [;] behind [x = x + n], takes it for a
    statement that parses to the null pointer, and does not move on. (On a
    machine the loop appends a null statement per round, until memory is
    used up.) *)
Lemma scenario_never_parsed (fuel : nat) : parse fuel code = OutOfFuel.
Proof.
  do 8 (destruct fuel as [|fuel]; [both; vm_compute; reflexivity|]).
  unfold parse.
  assert (parseStatement (S (S (S (S (S (S (S (S fuel)))))))) (mkParser code 0)
          = (Ret (VarDeclNode "x" (NumberNode 10)), mkParser code 11)) as Hvar
    by (both; vm_compute; reflexivity).
  assert (statement_end (mkParser code 11) = (Ret tt, mkParser code 12)) as Hend
    by (both; vm_compute; reflexivity).
  rewrite (parse_loop_step _ _ [] (mkParser code 0) (mkParser code 0)
             (mkParser code 11) (mkParser code 12)
             (VarDeclNode "x" (NumberNode 10))
             ltac:(both; reflexivity) ltac:(both; reflexivity)
             ltac:(both; reflexivity) Hvar Hend).
  apply (parse_loop_stuck _ _ _ (mkParser code 12) (mkParser code 12)
           ltac:(both; reflexivity) ltac:(both; reflexivity) ltac:(both; reflexivity)).
  change (parseStatement (S (S (S (S (S (S (S (S fuel)))))))))
    with (parseStatement_with (S (S (S (S (S (S (S fuel)))))))
            (parseExpression (S (S (S (S (S (S (S fuel))))))))
            (parseBlock (S (S (S (S (S (S (S fuel)))))))
                        (parseStatement (S (S (S (S (S (S (S fuel)))))))))).
  apply scenario_function_never_parsed.
  apply scenario_block_never_closes.
  - both; vm_compute; reflexivity.
  - apply semicolon_is_null_statement.
Qed.

End ScenarioNeverParsed.

(** There is no assignment in the evaluator: [=] is none of the operators
    of [BinaryOpNode::eval], so the result stays the default [Value]. *)
Lemma binary_op_assignment_is_null (l r : Value) : binary_op "=" l r = null_value.
Proof. reflexivity. Qed.

(** C1 on the code. The scenario is never parsed: [run] does not get to
    evaluate anything, and [main] prints nothing but its banner. Without
    the semicolon inside the block the program is parsed, with [x = x + n]
    as a [BinaryOpNode] of the operator [=]; that node evaluates its
    operands and yields Null, [Environment::assign] is not called, [x]
    keeps the Number 10, and [print(x)] writes [10. ] (the rendering keeps
    the decimal point; the Number 15 would be written [15.]). *)
Theorem scenario_does_not_print_15 :
  (forall fuel : nat, parse fuel scenario = OutOfFuel)
  /\ (forall (clock : nat -> Z) (fuel : nat) (s : State),
        run clock fuel scenario s = (OutOfFuel, s))
  /\ (forall (clock : nat -> Z) (fuel : nat),
        main clock fuel [scenario; "run"]
        = (OutOfFuel,
           set_cout ("--- JS Engine V8-Mini (Async supported) ---" +:+ endl
                     +:+ ("Enter code. Type 'run' to execute." +:+ endl))
                    initial_state))
  /\ parse 9 scenario_without_semicolon
     = Ret [VarDeclNode "x" (NumberNode 10);
            FunctionDeclNode "add" ["n"]
              (BlockNode [BinaryOpNode "=" (IdentifierNode "x")
                            (BinaryOpNode "+" (IdentifierNode "x") (IdentifierNode "n"))]);
            CallNode "add" [NumberNode 5];
            CallNode "print" [IdentifierNode "x"]]
  /\ (forall l r : Value, binary_op "=" l r = null_value)
  /\ fst (run example_clock 9 scenario_without_semicolon initial_state) = Ret tt
  /\ cout (snd (run example_clock 9 scenario_without_semicolon initial_state))
     = "10. " +:+ endl
  /\ fst (lookup globalEnv "x"
            (snd (run example_clock 9 scenario_without_semicolon initial_state)))
     = Ret (number_value 10)
  /\ toString (number_value 15) = "15.".
Proof.
  split; [exact (fun fuel => scenario_never_parsed scenario (or_introl eq_refl) fuel)|].
  split.
  { intros clock fuel s. unfold run, try_catch. unfold bind at 1.
    now rewrite (scenario_never_parsed scenario (or_introl eq_refl)). }
  split.
  { intros clock fuel. unfold main.
    unfold bind at 1. unfold print_text at 1.
    unfold bind at 1. unfold print_text at 1.
    change (main_loop clock fuel [scenario; "run"] "")
      with (run clock fuel (scenario +:+ endl) ;;;
            print_text (endl +:+ "Ready." +:+ endl) ;;;
            main_loop clock fuel [] "").
    unfold bind at 1. unfold run, try_catch. unfold bind at 1.
    now rewrite (scenario_never_parsed (scenario +:+ endl) (or_intror eq_refl)). }
  repeat split; vm_compute; reflexivity.
Qed.

(** ** What evaluation leaves alone *)

Section Effects.

Variable clock : nat -> Z.

(** A relation that every elementary step of the interpreter respects: a
    write to the heap, to the output or to the clock counter, and the
    append of a task. *)
Variable R : State -> State -> Prop.
Hypothesis R_refl : forall s : State, R s s.
Hypothesis R_trans : forall s1 s2 s3 : State, R s1 s2 -> R s2 s3 -> R s1 s3.
Hypothesis R_heap : forall (s : State) (h : list Environment), R s (set_heap h s).
Hypothesis R_cout : forall (s : State) (o : string), R s (set_cout o s).
Hypothesis R_ticks : forall (s : State) (n : nat), R s (set_ticks n s).
Hypothesis R_push : forall (s : State) (t : Task), R s (snd (push_task t s)).

Lemma within_ret {A : Type} (a : A) : within R (ret a).
Proof. intros s s' o H. injection H as _ <-. apply R_refl. Qed.

Lemma within_throw {A : Type} (what : string) : within R (@throw State A what).
Proof. intros s s' o H. injection H as _ <-. apply R_refl. Qed.

Lemma within_undefined {A : Type} : within R (@undefined State A).
Proof. intros s s' o H. injection H as _ <-. apply R_refl. Qed.

Lemma within_out_of_fuel {A : Type} : within R (@out_of_fuel State A).
Proof. intros s s' o H. injection H as _ <-. apply R_refl. Qed.

Lemma within_bind {A B : Type} (m : M A) (k : A -> M B) :
  within R m -> (forall a : A, within R (k a)) -> within R (bind m k).
Proof.
  intros Hm Hk s s' o H. unfold bind in H.
  destruct (m s) as [[a| | |] s1] eqn:E;
    try (injection H as _ <-; eapply Hm; eauto).
  eapply R_trans; [eapply Hm; eauto|eapply Hk; eauto].
Qed.

Lemma within_lookup (env : nat) (name : string) : within R (lookup env name).
Proof. intros s s' o H. injection H as _ <-. apply R_refl. Qed.

Lemma within_define (env : nat) (name : string) (val : Value) :
  within R (define env name val).
Proof.
  intros s s' o H. unfold define in H.
  destruct (heap s !! env); injection H as _ <-; [apply R_heap|apply R_refl].
Qed.

Lemma within_new_Environment (p : option nat) : within R (new_Environment p).
Proof. intros s s' o H. injection H as _ <-. apply R_heap. Qed.

Lemma within_print_text (t : string) : within R (print_text t).
Proof. intros s s' o H. injection H as _ <-. apply R_cout. Qed.

Lemma within_getCurrentTime : within R (getCurrentTime clock).
Proof. intros s s' o H. injection H as _ <-. apply R_ticks. Qed.

Lemma within_bind_params (scope : nat) (ps : list string) (argVals : list Value) :
  forall i : nat, within R (bind_params scope i ps argVals).
Proof.
  induction ps as [|p ps IH]; intros i; simpl; [apply within_ret|].
  apply within_bind; [|intros _; apply IH].
  destruct (argVals !! i); [apply within_define|apply within_ret].
Qed.

Lemma within_call_native (f : option NativeFn) (argVals : list Value) :
  within R (call_native clock f argVals).
Proof.
  destruct f as [[|]|]; simpl; [| |apply within_throw].
  - unfold print_call.
    repeat (apply within_bind; [|intros _]);
      try apply within_print_text; apply within_ret.
  - unfold setTimeout_call.
    destruct (argVals !! 0%nat) as [a0|]; [|apply within_ret].
    destruct (argVals !! 1%nat) as [a1|]; [|apply within_ret].
    destruct (decide (type a0 = V_FUNC)); [|apply within_ret].
    destruct (to_long_long (numVal a1)) as [delay|]; [|apply within_undefined].
    apply within_bind; [apply within_getCurrentTime|]. intros now.
    destruct ((- 2 ^ 63 <=? now + delay) && (now + delay <? 2 ^ 63));
      [|apply within_undefined].
    apply within_bind; [|intros _; apply within_ret].
    intros s s' o H. injection H as _ <-. apply R_push.
Qed.

Section Children.

Variable ev : ASTNode -> M Value.
Hypothesis within_ev : forall n : ASTNode, within R (ev n).

Lemma within_eval_each (l : list ASTNode) : within R (eval_each ev l).
Proof.
  induction l as [|a l IH]; simpl; [apply within_ret|].
  apply within_bind; [apply within_ev|]. intros v.
  apply within_bind; [apply IH|]. intros vs. apply within_ret.
Qed.

Lemma within_eval_props (props : list (string * ASTNode)) :
  forall o : gmap string Value, within R (eval_props ev props o).
Proof.
  induction props as [|[key valNode] props IH]; intros o; simpl; [apply within_ret|].
  apply within_bind; [apply within_ev|]. intros v. apply IH.
Qed.

Lemma within_eval_statements (stmts : list ASTNode) :
  forall lastVal : Value, within R (eval_statements ev stmts lastVal).
Proof.
  induction stmts as [|st stmts IH]; intros lastVal; simpl; [apply within_ret|].
  apply within_bind; [apply within_ev|]. intros v. apply IH.
Qed.

End Children.

(** Every evaluation stays within [R]. *)
Lemma within_eval (fuel : nat) :
  forall (node : ASTNode) (env : nat), within R (eval clock fuel node env).
Proof.
  induction fuel as [|fuel IH]; intros node env; [apply within_out_of_fuel|].
  destruct node; simpl.
  - apply within_undefined.
  - apply within_ret.
  - apply within_ret.
  - apply within_lookup.
  - apply within_bind; [apply within_eval_each; intros; apply IH|].
    intros; apply within_ret.
  - apply within_bind; [apply within_eval_props; intros; apply IH|].
    intros; apply within_ret.
  - apply within_bind; [apply IH|]. intros l.
    apply within_bind; [apply IH|]. intros r. apply within_ret.
  - apply within_eval_statements. intros; apply IH.
  - apply within_bind.
    + destruct node; try apply IH. apply within_ret.
    + intros val. apply within_bind; [apply within_define|]. intros; apply within_ret.
  - apply within_bind; [apply IH|]. intros c.
    destruct (truthy c); [apply IH|].
    destruct node3; try apply IH. apply within_ret.
  - apply within_bind; [apply IH|]. intros c.
    destruct (while_breaks c); [apply within_ret|].
    apply within_bind; [apply IH|]. intros; apply IH.
  - apply within_bind; [apply within_define|]. intros; apply within_ret.
  - apply within_bind; [apply within_lookup|]. intros func.
    apply within_bind; [apply within_eval_each; intros; apply IH|]. intros argVals.
    destruct (decide (type func = V_NATIVE)); [apply within_call_native|].
    destruct (decide (type func = V_FUNC)); [|apply within_throw].
    apply within_bind; [apply within_new_Environment|]. intros scope.
    apply within_bind; [apply within_bind_params|]. intros; apply IH.
Qed.

Lemma within_run_callback (fuel : nat) (cb : Value) :
  within R (run_callback clock fuel cb).
Proof.
  unfold run_callback.
  apply within_bind; [apply within_new_Environment|]. intros scope.
  apply within_bind; [apply within_eval|]. intros; apply within_ret.
Qed.

End Effects.

(** ** The event loop *)

Section EventLoopRules.

Variable clock : nat -> Z.

Lemma queue_grows_same (s s' : State) :
  taskQueue s' = taskQueue s -> taskCapacity s' = taskCapacity s -> queue_grows s s'.
Proof.
  intros Hq Hc. split; [exists []; now rewrite app_nil_r|].
  rewrite Hq, Hc. split; [lia|auto].
Qed.

Lemma run_callback_appends (fuel : nat) (cb : Value) :
  within queue_grows (run_callback clock fuel cb).
Proof.
  apply within_run_callback.
  - intros s. now apply queue_grows_same.
  - intros s1 s2 s3 ([l1 H1] & C1 & K1) ([l2 H2] & C2 & K2).
    split; [exists (l1 ++ l2); now rewrite H2, H1, app_assoc|].
    split; [lia|auto].
  - intros s h. now apply queue_grows_same.
  - intros s o. now apply queue_grows_same.
  - intros s n. now apply queue_grows_same.
  - intros s t. split; [exists [t]; reflexivity|]. simpl.
    rewrite length_app. simpl. unfold grown.
    destruct (length (taskQueue s) <? taskCapacity s)%nat eqn:E.
    + apply Nat.ltb_lt in E. split; [lia|]. intros _. lia.
    + apply Nat.ltb_ge in E. split; [lia|]. intros _. lia.
Qed.

(** [setTimeout(f, d)] appends the task that is due [d] milliseconds
    after the reading of the clock it takes. *)
Lemma setTimeout_enqueues (s : State) (f d : Value) (rest : list Value) (delay : Z) :
  type f = V_FUNC ->
  to_long_long (numVal d) = Some delay ->
  - 2 ^ 63 <= clock (ticks s) + delay < 2 ^ 63 ->
  setTimeout_call clock (f :: d :: rest) s
  = (Ret null_value,
     snd (push_task (mkTask (clock (ticks s) + delay) f) (set_ticks (S (ticks s)) s))).
Proof.
  intros Hf Hd Hrange. unfold setTimeout_call. simpl.
  destruct (decide (type f = V_FUNC)) as [_|E]; [|congruence].
  rewrite Hd. unfold bind, getCurrentTime. simpl.
  destruct Hrange as [Hlo Hhi].
  apply Z.leb_le in Hlo. apply Z.ltb_lt in Hhi. now rewrite Hlo, Hhi.
Qed.

(** A task that is not yet due is passed over. *)
Lemma sweep_skips_early (fuel n : nat) (now : Z) (i : nat) (ranTask : bool)
    (s : State) (t : Task) :
  taskQueue s !! i = Some t -> now < executeTime t ->
  sweep clock fuel (S n) now i ranTask s = sweep clock fuel n now (S i) ranTask s.
Proof.
  intros Ht Hlate. simpl. rewrite Ht.
  apply Z.leb_gt in Hlate. now rewrite Hlate.
Qed.

(** A task that is due is run; when its callback returns and the queue
    is in the storage it was in, the task is still at its position, it is
    erased, and the sweep goes on there. *)
Lemma sweep_runs_due (fuel n : nat) (now : Z) (i : nat) (ranTask : bool)
    (s s1 : State) (t : Task) :
  taskQueue s !! i = Some t -> executeTime t <= now ->
  run_callback clock fuel (callback t) s = (Ret tt, s1) ->
  taskCapacity s1 = taskCapacity s ->
  taskQueue s1 !! i = Some t
  /\ sweep clock fuel (S n) now i ranTask s
     = sweep clock fuel n now i true (set_taskQueue (delete i (taskQueue s1)) s1).
Proof.
  intros Ht Hdue Hcb Hcap. split.
  - destruct (run_callback_appends fuel (callback t) s s1 _ Hcb) as ([added Hq] & _).
    rewrite Hq. now apply lookup_app_l_Some.
  - simpl. rewrite Ht. apply Z.leb_le in Hdue. rewrite Hdue.
    unfold bind at 1. rewrite Hcb. unfold bind at 1. unfold erase_task.
    destruct (decide (taskCapacity s1 = taskCapacity s)) as [_|E]; [|contradiction].
    reflexivity.
Qed.

(** When the callback has moved the queue to new storage, the iterator of
    the sweep is invalid: the [erase] behind the callback is undefined
    behaviour. *)
Lemma sweep_reallocated (fuel n : nat) (now : Z) (i : nat) (ranTask : bool)
    (s s1 : State) (t : Task) :
  taskQueue s !! i = Some t -> executeTime t <= now ->
  run_callback clock fuel (callback t) s = (Ret tt, s1) ->
  taskCapacity s1 <> taskCapacity s ->
  sweep clock fuel (S n) now i ranTask s = (Undefined, s1).
Proof.
  intros Ht Hdue Hcb Hcap. simpl. rewrite Ht. apply Z.leb_le in Hdue. rewrite Hdue.
  unfold bind at 1. rewrite Hcb. unfold bind at 1. unfold erase_task.
  destruct (decide (taskCapacity s1 = taskCapacity s)) as [E|_]; [contradiction|].
  reflexivity.
Qed.

(** A callback that appends to a full queue moves it to new storage. *)
Lemma callback_on_full_queue (fuel : nat) (cb : Value) (s s1 : State)
    (o : Outcome unit) :
  length (taskQueue s) = taskCapacity s ->
  run_callback clock fuel cb s = (o, s1) ->
  taskQueue s1 <> taskQueue s ->
  taskCapacity s1 <> taskCapacity s.
Proof.
  intros Hfull Hcb Hnew.
  destruct (run_callback_appends fuel cb s s1 o Hcb) as ([added Hq] & Hle & Hok).
  specialize (Hok ltac:(lia)). rewrite Hq, length_app in Hok.
  destruct added as [|t added]; [rewrite app_nil_r in Hq; contradiction|].
  simpl in Hok. lia.
Qed.

(** A callback that throws ends the sweep there; the task is not erased. *)
Lemma sweep_throws (fuel n : nat) (now : Z) (i : nat) (ranTask : bool)
    (s s1 : State) (t : Task) (what : string) :
  taskQueue s !! i = Some t -> executeTime t <= now ->
  run_callback clock fuel (callback t) s = (Throw what, s1) ->
  taskQueue s1 !! i = Some t
  /\ sweep clock fuel (S n) now i ranTask s = (Throw what, s1).
Proof.
  intros Ht Hdue Hcb. split.
  - destruct (run_callback_appends fuel (callback t) s s1 _ Hcb) as ([added Hq] & _).
    rewrite Hq. now apply lookup_app_l_Some.
  - simpl. rewrite Ht. apply Z.leb_le in Hdue. rewrite Hdue.
    unfold bind at 1. rewrite Hcb. reflexivity.
Qed.

(** The loop returns only with an empty queue. *)
Lemma event_loop_returns_empty (fuel n : nat) :
  forall s s' : State,
  event_loop clock fuel n s = (Ret tt, s') -> taskQueue s' = [].
Proof.
  induction n as [|n IH]; intros s s' H; [discriminate|].
  simpl in H. destruct (taskQueue s) as [|t q] eqn:Hq.
  - injection H as <-. exact Hq.
  - apply bind_ret_inv in H as (now & s1 & _ & H).
    apply bind_ret_inv in H as (ran & s2 & _ & H).
    apply bind_ret_inv in H as ([] & s3 & _ & H).
    exact (IH _ _ H).
Qed.

End EventLoopRules.

(** C8: a task that a callback enqueues is not observed by a later sweep
    when the queue is full at that moment, which it is for the first task
    of a program: the [push_back] of [setTimeout] moves the queue to new
    storage while the sweep holds an iterator into the old one, and the
    [erase] behind the callback uses that iterator (undefined behaviour).
    In general: whenever the callback of a due task returns after it has
    appended to a full queue, the sweep is undefined. On the program
    [function g() { print("late") } function f() { setTimeout(g, 0) }
    setTimeout(f, 0)]: the callback [f] runs and enqueues the task of
    [g]; the run is undefined at the [erase], [late] is never written and
    both tasks are still in the queue. *)
Theorem task_of_a_callback_is_lost :
  (forall (clock : nat -> Z) (fuel n : nat) (now : Z) (i : nat) (ranTask : bool)
          (s s1 : State) (t : Task),
     taskQueue s !! i = Some t -> executeTime t <= now ->
     length (taskQueue s) = taskCapacity s ->
     run_callback clock fuel (callback t) s = (Ret tt, s1) ->
     taskQueue s1 <> taskQueue s ->
     sweep clock fuel (S n) now i ranTask s = (Undefined, s1))
  /\ parse 20 nested_timeout
     = Ret [FunctionDeclNode "g" [] (BlockNode [CallNode "print" [StringNode "late"]]);
            FunctionDeclNode "f" []
              (BlockNode [CallNode "setTimeout" [IdentifierNode "g"; NumberNode 0]]);
            CallNode "setTimeout" [IdentifierNode "f"; NumberNode 0]]
  /\ fst (run example_clock 20 nested_timeout initial_state) = Undefined
  /\ cout nested_timeout_state = "[Event Loop] Processing async tasks..." +:+ endl
  /\ taskQueue nested_timeout_state
     = [mkTask 1000
          (function_value []
             (BlockNode [CallNode "setTimeout" [IdentifierNode "g"; NumberNode 0]])
             globalEnv);
        mkTask 1002
          (function_value [] (BlockNode [CallNode "print" [StringNode "late"]])
             globalEnv)].
Proof.
  split.
  - intros clock fuel n now i ranTask s s1 t Ht Hdue Hfull Hcb Hnew.
    apply (sweep_reallocated clock fuel n now i ranTask s s1 t Ht Hdue Hcb).
    exact (callback_on_full_queue clock fuel (callback t) s s1 _ Hfull Hcb Hnew).
  - repeat split; vm_compute; reflexivity.
Qed.

(** A second way in which a task is not run once: its callback throws.
    The error leaves the sweep and the event loop while the queue is not
    empty, and the task is not erased: it is still pending after the
    batch, and the event loop of the next batch (here an empty program)
    runs its callback a second time, and leaves it pending again. *)
Example throwing_task_runs_again :
  parse 10 throwing_task
  = Ret [FunctionDeclNode "f" [] (BlockNode [IdentifierNode "y"]);
         CallNode "setTimeout" [IdentifierNode "f"; NumberNode 0]]
  /\ fst (run example_clock 10 throwing_task initial_state) = Ret tt
  /\ cout throwing_task_state
     = "[Event Loop] Processing async tasks..." +:+ endl
       +:+ "Runtime Error: Undefined variable: y" +:+ endl
  /\ taskQueue throwing_task_state
     = [mkTask 1000 (function_value [] (BlockNode [IdentifierNode "y"]) globalEnv)]
  /\ fst (run example_clock 10 "" throwing_task_state) = Ret tt
  /\ cout (snd (run example_clock 10 "" throwing_task_state))
     = cout throwing_task_state
       +:+ "[Event Loop] Processing async tasks..." +:+ endl
       +:+ "Runtime Error: Undefined variable: y" +:+ endl
  /\ taskQueue (snd (run example_clock 10 "" throwing_task_state))
     = taskQueue throwing_task_state.
Proof. repeat split; vm_compute; reflexivity. Qed.

(** A task that is set for later and sets no task is run when it is due:
    [late] is written after [early], and the loop returns with an empty
    queue. *)
Example late_task_is_run :
  taskQueue late_task_pending
  = [mkTask 1010 (function_value [] (BlockNode [CallNode "print" [StringNode "late"]])
                                 globalEnv)]
  /\ cout late_task_pending = "early " +:+ endl
  /\ taskQueue (snd (event_loop example_clock 20 20 late_task_pending)) = []
  /\ cout (snd (event_loop example_clock 20 20 late_task_pending))
     = "early " +:+ endl +:+ "late " +:+ endl.
Proof. repeat split; vm_compute; reflexivity. Qed.

(** ** An invariant of the interpreter state *)

Section Invariant.

Variable clock : nat -> Z.

Lemma good_value_mono (n n' : nat) (v : Value) :
  (n <= n')%nat -> good_value n v -> good_value n' v.
Proof.
  intros Hle [Hp Hc]. split; [exact Hp|].
  intros c Hcl. specialize (Hc c Hcl). lia.
Qed.

Lemma good_value_plain_no_closure (n : nat) (v : Value) :
  plain v -> closure v = None -> good_value n v.
Proof. intros Hp Hc. split; [exact Hp|]. intros c E. congruence. Qed.

Lemma binary_op_good (n : nat) (op : string) (l r : Value) :
  good_value n (binary_op op l r).
Proof.
  apply good_value_plain_no_closure.
  - unfold binary_op.
    repeat (match goal with
            | |- context [decide ?P] => destruct (decide P)
            | |- context [bool_decide ?P || bool_decide ?Q] =>
                destruct (bool_decide P || bool_decide Q)
            end);
      repeat split; simpl; intros; congruence.
  - unfold binary_op.
    repeat (match goal with
            | |- context [decide ?P] => destruct (decide P)
            | |- context [bool_decide ?P || bool_decide ?Q] =>
                destruct (bool_decide P || bool_decide Q)
            end); reflexivity.
Qed.

Lemma keeps_weaken {A : Type} (n n' : nat) (m : M A) (Q Q' : nat -> A -> Prop) :
  (n <= n')%nat ->
  (forall (h : nat) (a : A), (n' <= h)%nat -> Q h a -> Q' h a) ->
  keeps n m Q -> keeps n' m Q'.
Proof.
  intros Hle HQ Hm s s' o Hs Hn E.
  destruct (Hm s s' o Hs ltac:(lia) E) as (Hs' & Hlen & Hq).
  split; [exact Hs'|]. split; [exact Hlen|].
  intros a Ea. apply HQ; [lia|]. now apply Hq.
Qed.

Lemma keeps_bind {A B : Type} (n : nat) (m : M A) (k : A -> M B)
    (Q : nat -> A -> Prop) (Q' : nat -> B -> Prop) :
  keeps n m Q ->
  (forall (a : A) (h : nat), (n <= h)%nat -> Q h a -> keeps h (k a) Q') ->
  keeps n (bind m k) Q'.
Proof.
  intros Hm Hk s s' o Hs Hn E. unfold bind in E.
  destruct (m s) as [[a| | |] s1] eqn:Em;
    destruct (Hm s s1 _ Hs Hn Em) as (Hs1 & Hlen1 & Hq);
    try (injection E as <- <-; split; [exact Hs1|]; split; [exact Hlen1|];
         intros b Eb; discriminate).
  destruct (Hk a (length (heap s1)) ltac:(lia) (Hq a eq_refl) s1 s' o Hs1 ltac:(lia) E)
    as (Hs' & Hlen' & Hq').
  split; [exact Hs'|]. split; [lia|exact Hq'].
Qed.

Lemma keeps_ret {A : Type} (n : nat) (a : A) (Q : nat -> A -> Prop) :
  (forall h : nat, (n <= h)%nat -> Q h a) -> keeps n (ret a) Q.
Proof.
  intros HQ s s' o Hs Hn E. injection E as <- <-.
  split; [exact Hs|]. split; [lia|]. intros b Eb. injection Eb as <-. now apply HQ.
Qed.

Lemma keeps_no_return {A : Type} (n : nat) (o : Outcome A) (Q : nat -> A -> Prop) :
  (forall a : A, o <> Ret a) -> keeps n (fun s => (o, s)) Q.
Proof.
  intros Ho s s' o' Hs Hn E. injection E as <- <-.
  split; [exact Hs|]. split; [lia|]. intros a Ea. now destruct (Ho a).
Qed.

Lemma lookup_from_stored (h : list Environment) (name : string) (v : Value) :
  forall n env : nat,
  lookup_from n h env name = Ret v ->
  exists (i : nat) (fr : Environment), h !! i = Some fr /\ vars fr !! name = Some v.
Proof.
  induction n as [|n IH]; intros env H; [discriminate|].
  simpl in H. destruct (h !! env) as [fr|] eqn:Hfr; [|discriminate].
  destruct (vars fr !! name) as [w|] eqn:Hw.
  - injection H as <-. eauto.
  - destruct (parent fr) as [p|]; [eauto|discriminate].
Qed.

Lemma keeps_lookup (n env : nat) (name : string) :
  keeps n (lookup env name) good_value.
Proof.
  intros s s' o Hs Hn E. unfold lookup in E. injection E as <- <-.
  split; [exact Hs|]. split; [lia|]. intros v Ev.
  apply lookup_from_stored in Ev as (i & fr & Hfr & Hv).
  destruct Hs as (_ & Hvals & _). eauto.
Qed.

Lemma keeps_define (n env : nat) (name : string) (val : Value) :
  good_value n val -> keeps n (define env name val) (fun _ _ => True).
Proof.
  intros Hval s s' o Hs Hn E. unfold define in E.
  destruct (heap s !! env) as [fr|] eqn:Hfr; injection E as <- <-;
    [|split; [exact Hs|]; split; [lia|]; intros; discriminate].
  destruct Hs as (Hwf & Hvals & Htasks). unfold good_state. simpl.
  rewrite !length_insert. split; [|split; [lia|auto]].
  split; [|split].
  - intros i fr' p Hi Hp. simpl in Hi.
    destruct (decide (i = env)) as [->|Hne].
    + rewrite list_lookup_insert_eq in Hi by (eapply lookup_lt_Some; eauto).
      injection Hi as <-. simpl in Hp. eauto.
    + rewrite list_lookup_insert_ne in Hi by congruence. eauto.
  - intros i fr' name' v Hi Hv. simpl in Hi.
    destruct (decide (i = env)) as [->|Hne].
    + rewrite list_lookup_insert_eq in Hi by (eapply lookup_lt_Some; eauto).
      injection Hi as <-. simpl in Hv.
      destruct (decide (name = name')) as [->|Hn'].
      * rewrite lookup_insert_eq in Hv. injection Hv as <-.
        eapply good_value_mono; [|exact Hval]. lia.
      * rewrite lookup_insert_ne in Hv by exact Hn'. eauto.
    + rewrite list_lookup_insert_ne in Hi by congruence. eauto.
  - exact Htasks.
Qed.

Lemma keeps_new_Environment (n : nat) (p : option nat) :
  (forall c : nat, p = Some c -> (c < n)%nat) ->
  keeps n (new_Environment p) (fun h scope => (scope < h)%nat).
Proof.
  intros Hp s s' o Hs Hn E. unfold new_Environment in E. injection E as <- <-.
  destruct Hs as (Hwf & Hvals & Htasks). unfold good_state. simpl.
  rewrite !length_app. simpl.
  split; [|split; [lia|intros a Ea; injection Ea as <-; lia]].
  split; [|split].
  - intros i fr c Hi Hc. simpl in Hi.
    destruct (decide (i < length (heap s))%nat) as [Hlt|Hge].
    + rewrite lookup_app_l in Hi by exact Hlt. eauto.
    + rewrite lookup_app_r in Hi by lia.
      destruct (i - length (heap s))%nat eqn:Ei; [|destruct n0; discriminate].
      injection Hi as <-. simpl in Hc. specialize (Hp c Hc). lia.
  - intros i fr name v Hi Hv. simpl in Hi.
    destruct (decide (i < length (heap s))%nat) as [Hlt|Hge].
    + rewrite lookup_app_l in Hi by exact Hlt.
      eapply good_value_mono; [|eauto]. lia.
    + rewrite lookup_app_r in Hi by lia.
      destruct (i - length (heap s))%nat eqn:Ei; [|destruct n0; discriminate].
      injection Hi as <-. simpl in Hv. now rewrite lookup_empty in Hv.
  - intros t Ht c Hc. specialize (Htasks t Ht c Hc). lia.
Qed.

Lemma keeps_print_text (n : nat) (t : string) :
  keeps n (print_text t) (fun _ _ => True).
Proof.
  intros s s' o Hs Hn E. injection E as <- <-. simpl.
  split; [exact Hs|]. split; [lia|auto].
Qed.

Lemma keeps_getCurrentTime (n : nat) :
  keeps n (getCurrentTime clock) (fun _ _ => True).
Proof.
  intros s s' o Hs Hn E. injection E as <- <-. simpl.
  split; [exact Hs|]. split; [lia|auto].
Qed.

Lemma null_value_good (n : nat) : good_value n null_value.
Proof.
  apply good_value_plain_no_closure; [|reflexivity]. repeat split; reflexivity.
Qed.

Lemma keeps_bind_params (n scope : nat) (ps : list string) (argVals : list Value) :
  Forall (good_value n) argVals ->
  forall i : nat, keeps n (bind_params scope i ps argVals) (fun _ _ => True).
Proof.
  intros Hargs. induction ps as [|p ps IH]; intros i; simpl.
  - apply keeps_ret. auto.
  - eapply keeps_bind.
    + destruct (argVals !! i) as [a|] eqn:Ha.
      * apply keeps_define. eapply Forall_lookup_1; eauto.
      * apply (keeps_ret n tt (fun _ _ => True)). auto.
    + intros _ h Hh _. eapply keeps_weaken; [exact Hh| |apply IH]. auto.
Qed.

Lemma keeps_call_native (n : nat) (f : option NativeFn) (argVals : list Value) :
  Forall (good_value n) argVals ->
  keeps n (call_native clock f argVals) good_value.
Proof.
  intros Hargs. destruct f as [[|]|]; simpl.
  - unfold print_call.
    eapply keeps_bind; [apply keeps_print_text|]. intros _ h Hh _.
    eapply keeps_bind; [apply keeps_print_text|]. intros _ h' Hh' _.
    apply keeps_ret. intros; apply null_value_good.
  - unfold setTimeout_call.
    destruct (argVals !! 0%nat) as [a0|] eqn:H0;
      [|apply keeps_ret; intros; apply null_value_good].
    destruct (argVals !! 1%nat) as [a1|];
      [|apply keeps_ret; intros; apply null_value_good].
    destruct (decide (type a0 = V_FUNC));
      [|apply keeps_ret; intros; apply null_value_good].
    destruct (to_long_long (numVal a1)) as [delay|];
      [|apply keeps_no_return; discriminate].
    eapply keeps_bind; [apply keeps_getCurrentTime|]. intros now h Hh _.
    destruct ((- 2 ^ 63 <=? now + delay) && (now + delay <? 2 ^ 63));
      [|apply keeps_no_return; discriminate].
    intros s s' o Hs Hn E. injection E as <- <-. simpl.
    destruct Hs as (Hwf & Hvals & Htasks).
    split; [|split; [lia|intros a Ea; injection Ea as <-; apply null_value_good]].
    split; [exact Hwf|]. split; [exact Hvals|].
    intros t Ht. apply elem_of_app in Ht as [Ht|Ht]; [auto|].
    apply list_elem_of_singleton in Ht as ->. simpl.
    pose proof (Forall_lookup_1 _ _ _ _ Hargs H0) as [_ Hc].
    intros c Ec. specialize (Hc c Ec). lia.
  - apply keeps_no_return. discriminate.
Qed.

Section Children.

Variable n : nat.
Variable ev : ASTNode -> M Value.
Hypothesis keeps_ev : forall node : ASTNode, keeps n (ev node) good_value.

Lemma keeps_eval_each (l : list ASTNode) :
  keeps n (eval_each ev l) (fun h vs => Forall (good_value h) vs).
Proof.
  induction l as [|a l IH]; simpl.
  - apply keeps_ret. auto.
  - eapply keeps_bind; [apply keeps_ev|]. intros v h Hh Hv.
    eapply keeps_bind.
    + eapply keeps_weaken; [exact Hh| |exact IH]. intros h' vs _ Hvs. exact Hvs.
    + intros vs h' Hh' Hvs. apply keeps_ret. intros h'' Hh''.
      constructor.
      * eapply good_value_mono; [|exact Hv]. lia.
      * eapply Forall_impl; [exact Hvs|]. intros w Hw.
        eapply good_value_mono; [|exact Hw]. lia.
Qed.

Lemma keeps_eval_props (props : list (string * ASTNode)) :
  forall o : gmap string Value,
  keeps n (eval_props ev props o) (fun _ _ => True).
Proof.
  induction props as [|[key valNode] props IH]; intros o; simpl.
  - apply keeps_ret. auto.
  - eapply keeps_bind; [apply keeps_ev|]. intros v h Hh _.
    eapply keeps_weaken; [exact Hh| |apply IH]. auto.
Qed.

Lemma keeps_eval_statements (stmts : list ASTNode) :
  forall (m : nat) (lastVal : Value),
  (n <= m)%nat -> good_value m lastVal ->
  keeps m (eval_statements ev stmts lastVal) good_value.
Proof.
  induction stmts as [|st stmts IH]; intros m lastVal Hm Hlast; simpl.
  - apply keeps_ret. intros h Hh. eapply good_value_mono; eauto.
  - eapply keeps_bind.
    + eapply keeps_weaken; [exact Hm| |apply keeps_ev]. intros h v _ Hv. exact Hv.
    + intros v h Hh Hv. apply IH; [lia|exact Hv].
Qed.

End Children.

(** Evaluation keeps the state good and returns good values. *)
Lemma keeps_eval (fuel : nat) :
  forall (node : ASTNode) (env n : nat),
  (env < n)%nat -> keeps n (eval clock fuel node env) good_value.
Proof.
  induction fuel as [|fuel IH]; intros node env n Henv;
    [apply keeps_no_return; discriminate|].
  assert (forall node' : ASTNode, keeps n (eval clock fuel node' env) good_value)
    as IHenv by (intros; now apply IH).
  destruct node; simpl.
  - apply keeps_no_return; discriminate.
  - apply keeps_ret. intros. apply good_value_plain_no_closure; [|reflexivity].
    repeat split; simpl; congruence.
  - apply keeps_ret. intros. apply good_value_plain_no_closure; [|reflexivity].
    repeat split; simpl; congruence.
  - apply keeps_lookup.
  - eapply keeps_bind; [apply keeps_eval_each; exact IHenv|]. intros vs h Hh _.
    apply keeps_ret. intros. apply good_value_plain_no_closure; [|reflexivity].
    repeat split; simpl; congruence.
  - eapply keeps_bind; [apply keeps_eval_props; exact IHenv|]. intros o h Hh _.
    apply keeps_ret. intros. apply good_value_plain_no_closure; [|reflexivity].
    repeat split; simpl; congruence.
  - eapply keeps_bind; [apply IHenv|]. intros l h Hh _.
    eapply keeps_bind; [apply IH; lia|]. intros r h' Hh' _.
    apply keeps_ret. intros. apply binary_op_good.
  - apply (keeps_eval_statements n _ IHenv); [lia|apply null_value_good].
  - eapply keeps_bind.
    + instantiate (1 := good_value).
      destruct node; try apply IHenv. apply keeps_ret. intros; apply null_value_good.
    + intros val h Hh Hval.
      eapply keeps_bind; [apply keeps_define; exact Hval|]. intros _ h' Hh' _.
      apply keeps_ret. intros. eapply good_value_mono; [|exact Hval]. lia.
  - eapply keeps_bind; [apply IHenv|]. intros c h Hh _.
    destruct (truthy c); [apply IH; lia|].
    destruct node3; try (apply IH; lia). apply keeps_ret. intros; apply null_value_good.
  - eapply keeps_bind; [apply IHenv|]. intros c h Hh _.
    destruct (while_breaks c); [apply keeps_ret; intros; apply null_value_good|].
    eapply keeps_bind; [apply IH; lia|]. intros _ h' Hh' _. apply IH. lia.
  - assert (forall h, (n <= h)%nat -> good_value h (function_value params0 node env))
      as Hfun.
    { intros h Hh. split; [repeat split; simpl; congruence|].
      intros c Ec. simpl in Ec. injection Ec as <-. lia. }
    eapply keeps_bind; [apply keeps_define; apply Hfun; lia|]. intros _ h Hh _.
    apply keeps_ret. intros. apply Hfun. lia.
  - eapply keeps_bind; [apply keeps_lookup|]. intros func h Hh Hfunc.
    eapply keeps_bind.
    + eapply keeps_weaken; [exact Hh| |apply keeps_eval_each; exact IHenv].
      intros h' vs _ Hvs. exact Hvs.
    + intros argVals h' Hh' Hargs.
      destruct (decide (type func = V_NATIVE)); [now apply keeps_call_native|].
      destruct (decide (type func = V_FUNC)); [|apply keeps_no_return; discriminate].
      eapply keeps_bind.
      * apply keeps_new_Environment. intros c Ec.
        destruct Hfunc as [_ Hc]. specialize (Hc c Ec). lia.
      * intros scope h'' Hh'' Hscope. simpl in Hscope.
        eapply keeps_bind.
        -- apply keeps_bind_params.
           eapply Forall_impl; [exact Hargs|]. intros w Hw.
           eapply good_value_mono; [|exact Hw]. lia.
        -- intros _ h3 Hh3 _. apply IH. lia.
Qed.

Lemma keeps_run_callback (fuel n : nat) (cb : Value) :
  closure_below n cb -> keeps n (run_callback clock fuel cb) (fun _ _ => True).
Proof.
  intros Hcb. unfold run_callback.
  eapply keeps_bind; [apply keeps_new_Environment; exact Hcb|].
  intros scope h Hh Hscope. simpl in Hscope.
  eapply keeps_bind; [apply keeps_eval; exact Hscope|]. intros _ h' _ _.
  apply keeps_ret. auto.
Qed.

Lemma keeps_erase (n storage i : nat) :
  keeps n (erase_task storage i) (fun _ _ => True).
Proof.
  intros s s' o (Hwf & Hvals & Htasks) Hn E. unfold erase_task in E.
  destruct (decide (taskCapacity s = storage)); injection E as <- <-.
  - split; [|split; [simpl; lia|auto]].
    split; [exact Hwf|]. split; [exact Hvals|].
    intros t Ht. simpl in Ht. apply list_elem_of_delete_inv in Ht. now apply Htasks.
  - split; [|split; [lia|discriminate]]. split; auto.
Qed.

Lemma keeps_sleep_for (n : nat) (ms : Z) : keeps n (sleep_for ms) (fun _ _ => True).
Proof.
  intros s s' o Hs Hn E. injection E as <- <-.
  split; [exact Hs|]. split; [simpl; lia|auto].
Qed.

Lemma keeps_sweep (fuel n : nat) :
  forall (now : Z) (i : nat) (ranTask : bool) (m : nat),
  keeps m (sweep clock fuel n now i ranTask) (fun _ _ => True).
Proof.
  induction n as [|n IH]; intros now i ranTask m;
    [apply keeps_no_return; discriminate|].
  intros s s' o Hs Hm E. simpl in E.
  destruct (taskQueue s !! i) as [t|] eqn:Ht.
  - destruct (executeTime t <=? now).
    + assert (keeps (length (heap s))
                (run_callback clock fuel (callback t) ;;;
                 erase_task (taskCapacity s) i ;;;
                 sweep clock fuel n now i true) (fun _ _ => True)) as Hk.
      { eapply keeps_bind.
        - apply keeps_run_callback.
          destruct Hs as (_ & _ & Htasks). apply Htasks.
          eapply list_elem_of_lookup_2; eauto.
        - intros _ h Hh _.
          eapply keeps_bind; [apply keeps_erase|]. intros _ h' _ _. apply IH. }
      exact (Hk s s' o Hs (le_n _) E).
    + exact (IH now (S i) ranTask m s s' o Hs Hm E).
  - injection E as <- <-. split; [exact Hs|]. split; [lia|auto].
Qed.

Lemma keeps_event_loop (fuel n : nat) :
  forall m : nat, keeps m (event_loop clock fuel n) (fun _ _ => True).
Proof.
  induction n as [|n IH]; intros m; [apply keeps_no_return; discriminate|].
  intros s s' o Hs Hm E. simpl in E.
  destruct (taskQueue s) as [|t q].
  - injection E as <- <-. split; [exact Hs|]. split; [lia|auto].
  - assert (keeps m (now <- getCurrentTime clock ;;
                     ranTask <- sweep clock fuel fuel now 0 false ;;
                     (fun s' =>
                        if negb ranTask && negb (bool_decide (taskQueue s' = []))
                        then sleep_for 10 s'
                        else (Ret tt, s')) ;;;
                     event_loop clock fuel n) (fun _ _ => True)) as Hk.
    { eapply keeps_bind; [apply keeps_getCurrentTime|]. intros now h Hh _.
      eapply keeps_bind; [apply keeps_sweep|]. intros ranTask h' _ _.
      eapply keeps_bind; [|intros _ h'' _ _; apply IH].
      instantiate (1 := fun _ _ => True).
      intros s0 s0' o0 Hs0 Hn0 E0.
      destruct (negb ranTask && negb (bool_decide (taskQueue s0 = []))).
      - exact (keeps_sleep_for h' 10 s0 s0' o0 Hs0 Hn0 E0).
      - injection E0 as <- <-. split; [exact Hs0|]. split; [lia|auto]. }
    exact (Hk s s' o Hs Hm E).
Qed.

Lemma keeps_run_statements (fuel : nat) (stmts : list ASTNode) :
  forall m : nat, (0 < m)%nat ->
  keeps m (run_statements clock fuel stmts) (fun _ _ => True).
Proof.
  induction stmts as [|st stmts IH]; intros m Hm; simpl.
  - apply keeps_ret. auto.
  - eapply keeps_bind.
    + instantiate (1 := fun _ _ => True). unfold run_statement.
      destruct st; try (apply keeps_ret; auto);
        (eapply keeps_bind; [apply keeps_eval; exact Hm|];
         intros _ h _ _; apply keeps_ret; auto).
    + intros _ h Hh _. apply IH. lia.
Qed.

Lemma keeps_run_batch (fuel : nat) (stmts : list ASTNode) (m : nat) :
  (0 < m)%nat -> keeps m (run_batch clock fuel stmts) (fun _ _ => True).
Proof.
  intros Hm. unfold run_batch.
  eapply keeps_bind; [apply keeps_run_statements; exact Hm|]. intros _ h Hh _.
  intros s s' o Hs Hn E. destruct (taskQueue s) as [|t q].
  - injection E as <- <-. split; [exact Hs|]. split; [lia|auto].
  - assert (keeps h (print_text ("[Event Loop] Processing async tasks..." +:+ endl) ;;;
                     event_loop clock fuel fuel) (fun _ _ => True)) as Hk.
    { eapply keeps_bind; [apply keeps_print_text|]. intros _ h' _ _.
      apply keeps_event_loop. }
    exact (Hk s s' o Hs Hn E).
Qed.

Lemma keeps_try_catch (m : nat) (body : M unit) (handler : string -> M unit) :
  keeps m body (fun _ _ => True) ->
  (forall (what : string) (h : nat), keeps h (handler what) (fun _ _ => True)) ->
  keeps m (try_catch body handler) (fun _ _ => True).
Proof.
  intros Hb Hh s s' o Hs Hm E. unfold try_catch in E.
  destruct (body s) as [[[]|what| |] s1] eqn:Eb;
    destruct (Hb s s1 _ Hs Hm Eb) as (Hs1 & Hlen & _);
    try (injection E as <- <-; auto).
  destruct (Hh what (length (heap s1)) s1 s' o Hs1 ltac:(lia) E) as (Hs' & Hlen' & _).
  split; [exact Hs'|]. split; [lia|auto].
Qed.

Lemma keeps_run (fuel : nat) (code : string) (m : nat) :
  (0 < m)%nat -> keeps m (run clock fuel code) (fun _ _ => True).
Proof.
  intros Hm. unfold run. apply keeps_try_catch.
  - eapply keeps_bind.
    + instantiate (1 := fun _ _ => True).
      intros s s' o Hs Hn E. injection E as <- <-.
      split; [exact Hs|]. split; [lia|auto].
    + intros stmts h Hh _. apply keeps_run_batch. lia.
  - intros what h. apply keeps_print_text.
Qed.

Lemma keeps_main_loop (fuel : nat) (lines : list string) :
  forall (code : string) (m : nat), (0 < m)%nat ->
  keeps m (main_loop clock fuel lines code) (fun _ _ => True).
Proof.
  induction lines as [|line lines IH]; intros code m Hm; simpl.
  - apply keeps_ret. auto.
  - destruct (decide (line = "exit")); [apply keeps_ret; auto|].
    destruct (decide (line = "run")); [|now apply IH].
    eapply keeps_bind; [apply keeps_run; exact Hm|]. intros _ h Hh _.
    eapply keeps_bind; [apply keeps_print_text|]. intros _ h' Hh' _.
    apply IH. lia.
Qed.

Lemma initial_state_good : good_state initial_state.
Proof.
  split; [|split].
  - intros [|i] fr p Hi Hp; [|discriminate]. injection Hi as <-. discriminate.
  - intros [|i] fr name v Hi Hv; [|discriminate]. injection Hi as <-. simpl in Hv.
    destruct (decide (name = "setTimeout")) as [->|H1].
    + rewrite lookup_insert_eq in Hv. injection Hv as <-.
      apply good_value_plain_no_closure; [|reflexivity].
      repeat split; simpl; congruence.
    + rewrite lookup_insert_ne in Hv by congruence.
      destruct (decide (name = "print")) as [->|H2].
      * rewrite lookup_insert_eq in Hv. injection Hv as <-.
        apply good_value_plain_no_closure; [|reflexivity].
        repeat split; simpl; congruence.
      * rewrite lookup_insert_ne in Hv by congruence.
        now rewrite lookup_empty in Hv.
  - intros t Ht. simpl in Ht. now apply not_elem_of_nil in Ht.
Qed.

(** X1: every state that [main] reaches is good: the frames form a tree, all
    bound values are plain, and every closure is a frame of the heap. So is
    every state that an evaluation reaches from a good state, and the value
    it returns is plain. *)
Theorem interpreter_keeps_good_state :
  (forall (fuel : nat) (lines : list string),
     good_state (snd (main clock fuel lines)))
  /\ (forall (fuel : nat) (node : ASTNode) (env : nat) (s s' : State) (o : Outcome Value),
        good_state s -> (env < length (heap s))%nat ->
        eval clock fuel node env s = (o, s') ->
        good_state s'
        /\ (length (heap s) <= length (heap s'))%nat
        /\ (forall v : Value, o = Ret v -> plain v /\ closure_below (length (heap s')) v)).
Proof.
  split.
  - intros fuel lines. unfold main.
    destruct ((print_text _ ;;; print_text _ ;;; main_loop clock fuel lines "")
                initial_state) as [o s'] eqn:E.
    revert E. intros E. simpl.
    assert (keeps 1 (print_text ("--- JS Engine V8-Mini (Async supported) ---" +:+ endl) ;;;
                     print_text ("Enter code. Type 'run' to execute." +:+ endl) ;;;
                     main_loop clock fuel lines "") (fun _ _ => True)) as Hk.
    { eapply keeps_bind; [apply keeps_print_text|]. intros _ h Hh _.
      eapply keeps_bind; [apply keeps_print_text|]. intros _ h' Hh' _.
      apply keeps_main_loop. lia. }
    destruct (Hk initial_state s' o initial_state_good ltac:(simpl; lia) E) as (H & _).
    exact H.
  - intros fuel node env s s' o Hs Henv E.
    exact (keeps_eval fuel node env (S env) ltac:(lia) s s' o Hs Henv E).
Qed.

End Invariant.

(** ** The parser, step by step *)

Section ParserSteps.

Lemma bind_at {S A B : Type} (m : SM S A) (k : A -> SM S B) (s s1 : S) (a : A) :
  m s = (Ret a, s1) -> bind m k s = k a s1.
Proof. intros H. unfold bind. now rewrite H. Qed.

Lemma bind_undefined {S A B : Type} (m : SM S A) (k : A -> SM S B) (s s1 : S) :
  m s = (Undefined, s1) -> bind m k s = (Undefined, s1).
Proof. intros H. unfold bind. now rewrite H. Qed.

Lemma bind_out_of_fuel {S A B : Type} (m : SM S A) (k : A -> SM S B) (s : S) :
  fst (m s) = OutOfFuel -> fst (bind m k s) = OutOfFuel.
Proof. unfold bind. destruct (m s) as [[a| | |] s1]; simpl; congruence. Qed.

Lemma set_pos_same (p : Parser) : set_pos (pos p) p = p.
Proof. now destruct p. Qed.

Lemma peek_cur (p : Parser) : peek p = (Ret (cur p), p).
Proof. reflexivity. Qed.

Lemma skipWhitespace_loop_stop (n : nat) (s : string) (i : nat) :
  (i <? String.length s)%nat && isspace (char_at s i) = false ->
  skipWhitespace_loop n s i = i.
Proof. intros H. destruct n; simpl; [reflexivity|now rewrite H]. Qed.

(** Where the loop of [skipWhitespace] stops, bounded by [n] rounds. *)
Lemma skipWhitespace_loop_spec (n : nat) (s : string) :
  forall i : nat,
    (i <= skipWhitespace_loop n s i <= i + n)%nat
    /\ ((skipWhitespace_loop n s i < i + n)%nat ->
        (skipWhitespace_loop n s i <? String.length s)%nat
        && isspace (char_at s (skipWhitespace_loop n s i)) = false)
    /\ (forall k : nat, (i <= k < skipWhitespace_loop n s i)%nat ->
          (k < String.length s)%nat /\ isspace (char_at s k) = true).
Proof.
  induction n as [|n IH]; intros i; simpl.
  - split; [lia|]. split; [lia|]. intros k Hk. lia.
  - destruct ((i <? String.length s)%nat && isspace (char_at s i)) eqn:E.
    + destruct (IH (S i)) as (Hb & Hstop & Hsp).
      split; [lia|]. split; [intros; apply Hstop; lia|].
      intros k Hk. destruct (decide (k = i)) as [->|Hne].
      * apply andb_true_iff in E as [E1 E2]. apply Nat.ltb_lt in E1. auto.
      * apply Hsp. lia.
    + split; [lia|]. split; [auto|]. intros k Hk. lia.
Qed.

Lemma skipWhitespace_loop_stops (s : string) (i : nat) :
  let j := skipWhitespace_loop (String.length s) s i in
  (j <? String.length s)%nat && isspace (char_at s j) = false.
Proof.
  intros j. destruct (skipWhitespace_loop_spec (String.length s) s i) as (Hb & Hstop & _).
  fold j in Hb, Hstop.
  destruct (decide (j < i + String.length s)%nat) as [Hlt|Hge]; [auto|].
  assert ((j <? String.length s)%nat = false) as -> by (apply Nat.ltb_ge; lia).
  reflexivity.
Qed.

(** [skipWhitespace] a second time does not move. *)
Lemma skipWhitespace_twice (p p' : Parser) :
  skipWhitespace p = (Ret tt, p') -> skipWhitespace p' = (Ret tt, p').
Proof.
  unfold skipWhitespace. intros H. injection H as <-. simpl.
  rewrite skipWhitespace_loop_stop by apply skipWhitespace_loop_stops.
  reflexivity.
Qed.

Lemma skipWhitespace_src (p p' : Parser) :
  skipWhitespace p = (Ret tt, p') -> src p' = src p /\ (pos p <= pos p')%nat.
Proof.
  unfold skipWhitespace. intros H. injection H as <-. simpl. split; [reflexivity|].
  apply skipWhitespace_loop_spec.
Qed.

Section AtChar.

Variable p : Parser.
Variable c : ascii.
Hypothesis p_at : at_char p c.

Lemma at_char_cur : cur p = c.
Proof.
  destruct p_at as (Hpos & Hc & _). unfold cur.
  now rewrite (proj2 (Nat.leb_gt _ _) Hpos).
Qed.

Lemma at_char_peek : peek p = (Ret c, p).
Proof. rewrite peek_cur. now rewrite at_char_cur. Qed.

Lemma at_char_skipWhitespace : skipWhitespace p = (Ret tt, p).
Proof.
  destruct p_at as (Hpos & Hc & Hsp). unfold skipWhitespace.
  rewrite skipWhitespace_loop_stop; [now rewrite set_pos_same|].
  rewrite Hc, Hsp. apply andb_false_r.
Qed.

Lemma at_char_advance : advance p = (Ret c, set_pos (S (pos p)) p).
Proof.
  destruct p_at as (Hpos & Hc & _). unfold advance.
  rewrite (proj2 (Nat.leb_le _ _)) by lia. now rewrite Hc.
Qed.

Lemma at_char_take_none (test : ascii -> bool) :
  test c = false -> take_while_all test p = (Ret "", p).
Proof.
  intros Ht. unfold take_while_all, rest_bound. simpl.
  rewrite (bind_at _ _ _ _ _ at_char_peek). now rewrite Ht.
Qed.

(** A character that starts no expression: [parsePrimary] returns the
    null pointer and does not move. *)
Lemma at_char_parsePrimary_null (n : nat) (pe : PM ASTNode) :
  isdigit c = false -> is_char c dquote = false -> is_char c "[" = false ->
  isalpha c = false ->
  parsePrimary n pe p = (Ret NullNode, p).
Proof.
  intros H1 H2 H3 H4. unfold parsePrimary.
  rewrite (bind_at _ _ _ _ _ at_char_skipWhitespace).
  rewrite (bind_at _ _ _ _ _ at_char_peek).
  now rewrite H1, H2, H3, H4.
Qed.

Lemma at_char_binary_chain_ends (n : nat) (operand : PM ASTNode) (is_op : ascii -> bool)
    (left_ : ASTNode) :
  is_op c = false ->
  binary_chain (S n) operand is_op left_ p = (Ret left_, p).
Proof.
  intros H. simpl.
  rewrite (bind_at _ _ _ _ _ at_char_skipWhitespace).
  rewrite (bind_at _ _ _ _ _ at_char_peek).
  now rewrite H.
Qed.

(** A statement that does not start with a letter is an expression. *)
Lemma at_char_parseStatement_with (n : nat) (pe pb : PM ASTNode) :
  isalpha c = false -> parseStatement_with n pe pb p = pe p.
Proof.
  intros H. unfold parseStatement_with.
  rewrite (bind_at _ _ _ _ _ at_char_skipWhitespace).
  rewrite (bind_at _ _ _ _ _ (at_char_take_none isalpha H)).
  simpl. unfold bind at 1. simpl. now rewrite set_pos_same.
Qed.

End AtChar.

End ParserSteps.

(** ** Texts and the loops over them *)

Section Texts.

Lemma append_cons (a : ascii) (s t : string) : String a s +:+ t = String a (s +:+ t).
Proof. reflexivity. Qed.

Lemma append_empty (t : string) : "" +:+ t = t.
Proof. reflexivity. Qed.

Lemma append_empty_r (t : string) : t +:+ "" = t.
Proof. induction t as [|c t IH]; [reflexivity|]. rewrite append_cons. now rewrite IH. Qed.

Lemma append_assoc' (a b c : string) : (a +:+ b) +:+ c = a +:+ b +:+ c.
Proof. induction a as [|x a IH]; [reflexivity|]. rewrite !append_cons. now rewrite IH. Qed.

Lemma append_length (a b : string) :
  String.length (a +:+ b) = (String.length a + String.length b)%nat.
Proof. induction a as [|x a IH]; [reflexivity|]. rewrite append_cons. simpl. now rewrite IH. Qed.

Lemma char_at_append (pre : string) (c : ascii) (rest : string) :
  char_at (pre +:+ String c rest) (String.length pre) = c.
Proof.
  unfold char_at. induction pre as [|x pre IH]; [reflexivity|].
  rewrite append_cons. simpl. exact IH.
Qed.

Lemma char_at_end (s : string) : char_at s (String.length s) = NUL.
Proof. unfold char_at. induction s as [|x s IH]; [reflexivity|]. simpl. exact IH. Qed.

Lemma substring_prefix (t rest : string) :
  substring 0 (String.length t) (t +:+ rest) = t.
Proof.
  induction t as [|x t IH]; [now destruct rest|].
  rewrite append_cons. simpl. now rewrite IH.
Qed.

(** The parser inside its text, before the character [c]. *)
Lemma at_char_append (pre : string) (c : ascii) (rest : string) :
  isspace c = false ->
  at_char (mkParser (pre +:+ String c rest) (String.length pre)) c.
Proof.
  intros Hsp. split; [|split; [apply char_at_append|exact Hsp]].
  simpl. rewrite append_length. simpl. lia.
Qed.

Lemma snoc_append (pre : string) (a : ascii) (t : string) :
  (pre +:+ String a "") +:+ t = pre +:+ String a t.
Proof. now rewrite append_assoc'. Qed.

Lemma snoc_length (pre : string) (a : ascii) :
  String.length (pre +:+ String a "") = S (String.length pre).
Proof. rewrite append_length. simpl. lia. Qed.

(** The parser at the end of its text. *)
Lemma at_end_skipWhitespace (p : Parser) :
  (String.length (src p) <= pos p)%nat -> skipWhitespace p = (Ret tt, p).
Proof.
  intros H. unfold skipWhitespace. rewrite skipWhitespace_loop_stop.
  - now rewrite set_pos_same.
  - now rewrite (proj2 (Nat.ltb_ge _ _) H).
Qed.

Lemma at_end_peek (p : Parser) :
  (String.length (src p) <= pos p)%nat -> peek p = (Ret NUL, p).
Proof.
  intros H. rewrite peek_cur. unfold cur. now rewrite (proj2 (Nat.leb_le _ _) H).
Qed.

Lemma take_while_S (n : nat) (test : ascii -> bool) (s : string) :
  take_while (S n) test s
  = (c <- peek ;;
     if test c then (a <- advance ;; take_while n test (s +:+ String a "")) else ret s).
Proof. reflexivity. Qed.

Lemma peek_append (pre : string) (c : ascii) (rest : string) :
  peek (mkParser (pre +:+ String c rest) (String.length pre))
  = (Ret c, mkParser (pre +:+ String c rest) (String.length pre)).
Proof.
  rewrite peek_cur. unfold cur. simpl src. simpl pos.
  rewrite append_length. simpl String.length.
  rewrite (proj2 (Nat.leb_gt _ _)) by lia. now rewrite char_at_append.
Qed.

Lemma advance_append (pre : string) (c : ascii) (rest : string) :
  advance (mkParser (pre +:+ String c rest) (String.length pre))
  = (Ret c, mkParser (pre +:+ String c rest) (S (String.length pre))).
Proof.
  unfold advance. simpl src. simpl pos.
  rewrite append_length. simpl String.length.
  rewrite (proj2 (Nat.leb_le _ _)) by lia. now rewrite char_at_append.
Qed.

(** [while (test(peek())) s += advance();] over a run of characters that
    pass the test, up to one that does not. *)
Lemma take_while_span (test : ascii -> bool) (d : ascii) (post : string) :
  test d = false ->
  forall (t pre acc : string) (n : nat),
    string_forall test t = true -> (String.length t < n)%nat ->
    take_while n test acc (mkParser (pre +:+ t +:+ String d post) (String.length pre))
    = (Ret (acc +:+ t),
       mkParser (pre +:+ t +:+ String d post) (String.length pre + String.length t)).
Proof.
  intros Hd. induction t as [|a t IH]; intros pre acc n Ht Hn.
  - destruct n as [|n]; [simpl in Hn; lia|].
    rewrite take_while_S, append_empty, append_empty_r.
    rewrite (bind_at _ _ _ _ _ (peek_append pre d post)), Hd.
    simpl String.length. now rewrite Nat.add_0_r.
  - destruct n as [|n]; [simpl in Hn; lia|]. simpl in Ht, Hn.
    apply andb_true_iff in Ht as [Ha Ht].
    rewrite take_while_S, append_cons.
    rewrite (bind_at _ _ _ _ _ (peek_append pre a _)), Ha.
    rewrite (bind_at _ _ _ _ _ (advance_append pre a _)).
    rewrite <- (snoc_append pre a (t +:+ String d post)).
    rewrite <- (snoc_length pre a).
    rewrite (IH (pre +:+ String a "") (acc +:+ String a "") n Ht) by lia.
    rewrite (snoc_append acc a t), snoc_length. simpl String.length.
    now rewrite Nat.add_succ_r.
Qed.

Lemma take_while_all_span (test : ascii -> bool) (d : ascii) (pre t post : string) :
  test d = false -> string_forall test t = true ->
  take_while_all test (mkParser (pre +:+ t +:+ String d post) (String.length pre))
  = (Ret t,
     mkParser (pre +:+ t +:+ String d post) (String.length pre + String.length t)).
Proof.
  intros Hd Ht. unfold take_while_all, rest_bound. simpl src.
  rewrite (take_while_span test d post Hd t pre "" _ Ht)
    by (rewrite !append_length; lia).
  now rewrite append_empty.
Qed.

(** The same loop over a text that ends before a character fails the
    test, the null character passing it: the loop reads the terminating
    null character, and then behind it. *)
Lemma take_while_runs_off (test : ascii -> bool) :
  test NUL = true ->
  forall (t pre acc : string) (n : nat),
    string_forall test t = true -> (String.length t + 2 <= n)%nat ->
    fst (take_while n test acc (mkParser (pre +:+ t) (String.length pre))) = Undefined.
Proof.
  intros Hnul. induction t as [|a t IH]; intros pre acc n Ht Hn.
  - destruct n as [|[|n]]; [simpl in Hn; lia|simpl in Hn; lia|].
    rewrite append_empty_r, take_while_S.
    rewrite (bind_at _ _ _ _ _
               (at_end_peek (mkParser pre (String.length pre)) (Nat.le_refl _))), Hnul.
    unfold bind at 1. unfold advance. simpl src. simpl pos. rewrite Nat.leb_refl.
    rewrite take_while_S. unfold set_pos. simpl src. simpl pos.
    rewrite (bind_at _ _ _ _ _
               (at_end_peek (mkParser pre (S (String.length pre)))
                  (Nat.le_succ_diag_r _))), Hnul.
    unfold bind at 1. unfold advance. simpl src. simpl pos.
    rewrite (proj2 (Nat.leb_gt _ _)) by lia. reflexivity.
  - destruct n as [|n]; [simpl in Hn; lia|]. simpl in Ht, Hn.
    apply andb_true_iff in Ht as [Ha Ht].
    rewrite take_while_S.
    rewrite (bind_at _ _ _ _ _ (peek_append pre a _)), Ha.
    rewrite (bind_at _ _ _ _ _ (advance_append pre a _)).
    rewrite <- (snoc_append pre a t).
    rewrite <- (snoc_length pre a).
    apply IH; [exact Ht|lia].
Qed.

End Texts.

(** ** The text of a Number *)

Lemma substr0_cons (n : nat) (a : ascii) (s : string) :
  substr0 (S n) (String a s) = String a (substr0 n s).
Proof. reflexivity. Qed.

Lemma substr0_zero (s : string) : substr0 0 s = "".
Proof. destruct s; reflexivity. Qed.

Lemma trimmed_cons (a : ascii) (s : string) :
  trimmed (String a s) =
  match find_last_not_of s "0" with
  | Some _ => String a (trimmed s)
  | None => if decide (a = "0"%char) then "" else String a ""
  end.
Proof.
  unfold trimmed. simpl.
  destruct (find_last_not_of s "0") as [i|].
  - reflexivity.
  - destruct (decide (a = "0"%char)).
    + apply substr0_zero.
    + unfold substr0. simpl. now destruct s.
Qed.

Lemma find_last_not_of_none (s : string) :
  find_last_not_of s "0" = None -> s = zeros (String.length s).
Proof.
  induction s as [|a s IH]; simpl; [reflexivity|].
  destruct (find_last_not_of s "0"); [discriminate|].
  destruct (decide (a = "0"%char)) as [->|]; [|discriminate].
  intros _. now rewrite <- IH.
Qed.

(** What is cut off are zeros. *)
Lemma trimmed_zeros (s : string) : exists k : nat, s = trimmed s +:+ zeros k.
Proof.
  induction s as [|a s [k IH]].
  - exists 0%nat. reflexivity.
  - rewrite trimmed_cons.
    destruct (find_last_not_of s "0") as [i|] eqn:E.
    + exists k. rewrite append_cons. f_equal. exact IH.
    + apply find_last_not_of_none in E.
      destruct (decide (a = "0"%char)) as [->|].
      * exists (S (String.length s)). rewrite append_empty. simpl. f_equal. exact E.
      * exists (String.length s). rewrite append_cons, append_empty. f_equal. exact E.
Qed.

Lemma trimmed_some_nonempty (s : string) (i : nat) :
  find_last_not_of s "0" = Some i -> trimmed s <> "".
Proof.
  destruct s as [|a s]; [discriminate|]. intros H. rewrite trimmed_cons.
  simpl in H. destruct (find_last_not_of s "0"); [discriminate|].
  destruct (decide (a = "0"%char)); [discriminate|discriminate].
Qed.

(** What is kept does not end in a zero. *)
Lemma trimmed_no_zero_end (s t : string) : trimmed s <> t +:+ "0".
Proof.
  revert t. induction s as [|a s IH]; intros t.
  - destruct t; discriminate.
  - rewrite trimmed_cons.
    destruct (find_last_not_of s "0") as [i|] eqn:E.
    + destruct t as [|b t]; [rewrite append_empty|rewrite append_cons].
      * intros H. injection H as _ H. exact (trimmed_some_nonempty s i E H).
      * intros H. injection H as _ H. exact (IH t H).
    + destruct (decide (a = "0"%char)) as [->|Ha].
      * destruct t; discriminate.
      * destruct t as [|b t]; [rewrite append_empty; congruence|].
        rewrite append_cons. destruct t; discriminate.
Qed.

(** Everything up to a character that is not a zero is kept. *)
Lemma trimmed_keeps (a b : string) (d : ascii) :
  d <> "0"%char ->
  exists b' : string, trimmed (a +:+ String d b) = a +:+ String d b'.
Proof.
  intros Hd.
  assert (forall a, exists i, find_last_not_of (a +:+ String d b) "0" = Some i) as Hsome.
  { clear a. induction a as [|c a IH].
    - rewrite append_empty. simpl. destruct (find_last_not_of b "0"); eauto.
      destruct (decide (d = "0"%char)); [contradiction|eauto].
    - rewrite append_cons. simpl. destruct IH as [i ->]. eauto. }
  induction a as [|c a IH].
  - rewrite !append_empty, trimmed_cons. destruct (find_last_not_of b "0"); eauto.
    destruct (decide (d = "0"%char)); [contradiction|eauto].
  - rewrite !append_cons, trimmed_cons.
    destruct (Hsome a) as [i ->].
    destruct IH as [b' ->]. exists b'. reflexivity.
Qed.

Lemma append_inv_head (a x y : string) : a +:+ x = a +:+ y -> x = y.
Proof.
  induction a as [|c a IH]; [trivial|]. rewrite !append_cons. intros H.
  injection H as H. auto.
Qed.

Lemma zeros_prefix (b : string) (k : nat) :
  forall n : nat, b +:+ zeros k = zeros n -> b = zeros (String.length b).
Proof.
  induction b as [|c b IH]; intros n H; [reflexivity|].
  rewrite append_cons in H. destruct n as [|n]; [destruct k; discriminate|].
  simpl in H. injection H as -> H. simpl. f_equal. eauto.
Qed.

Lemma zeros_snoc (j : nat) : zeros (S j) = zeros j +:+ "0".
Proof.
  induction j as [|j IH]; [reflexivity|].
  change (String "0" (zeros (S j)) = String "0" (zeros j) +:+ "0").
  rewrite append_cons. f_equal. exact IH.
Qed.

Lemma trimmed_point_zeros (a : string) : trimmed (a +:+ ".000000") = a +:+ ".".
Proof.
  destruct (trimmed_keeps a "000000" "." ltac:(discriminate)) as [b' Hb'].
  destruct (trimmed_zeros (a +:+ ".000000")) as [k Hk].
  pose proof (trimmed_no_zero_end (a +:+ ".000000")) as Hend.
  rewrite Hb' in Hk, Hend |- *.
  rewrite append_assoc' in Hk. apply append_inv_head in Hk.
  rewrite append_cons in Hk. injection Hk as Hk.
  symmetry in Hk. apply (zeros_prefix b' k 6) in Hk.
  destruct (String.length b') as [|j]; [now rewrite Hk|].
  exfalso. apply (Hend (a +:+ String "." (zeros j))).
  rewrite Hk, zeros_snoc, append_assoc'. reflexivity.
Qed.

Section NumberText.

Lemma toString_number (v : Value) :
  type v = V_NUM -> toString v = trimmed (to_string (numVal v)).
Proof.
  intros H. unfold toString. destruct (decide (type v = V_NUM)); [reflexivity|contradiction].
Qed.

(** X2: the text of a Number is the text of [to_string] (six decimals)
    without its trailing zeros, and nothing else is cut off: the text that
    [toString] returns, followed by zeros, is the text of [to_string]; it
    does not end in a zero; and it keeps everything up to the decimal
    point. So a Number whose six decimals are all zero, and the Number
    zero, are written with the point at the end. *)
Theorem toString_strips_trailing_zeros (v : Value) :
  type v = V_NUM ->
  (exists k : nat, to_string (numVal v) = toString v +:+ zeros k)
  /\ (forall t : string, toString v <> t +:+ "0")
  /\ (forall a b : string,
        to_string (numVal v) = a +:+ "." +:+ b ->
        exists b' : string, toString v = a +:+ "." +:+ b')
  /\ (forall (s : bool) (m : positive) (e : Z),
        Prim2SF (numVal v) = S754_finite s m e ->
        micro_units m e mod 1000000 = 0 ->
        toString v = sign_text s +:+ pretty (micro_units m e / 1000000) +:+ ".")
  /\ (forall s : bool,
        Prim2SF (numVal v) = S754_zero s -> toString v = sign_text s +:+ "0.").
Proof.
  intros Hv. rewrite (toString_number v Hv).
  split; [apply trimmed_zeros|].
  split; [apply trimmed_no_zero_end|].
  split.
  { intros a b ->. apply trimmed_keeps. discriminate. }
  split.
  - intros s m e Hx Hmod. unfold to_string. rewrite Hx. cbv zeta. rewrite Hmod.
    change (six_digits 0) with "000000".
    rewrite <- !append_assoc'. rewrite (append_assoc' _ "." "000000").
    apply trimmed_point_zeros.
  - intros s Hx. unfold to_string. rewrite Hx.
    pose proof (trimmed_point_zeros (sign_text s +:+ "0")) as H.
    rewrite !append_assoc' in H. exact H.
Qed.

End NumberText.

(** The Number 15 (the double [8444249301319680 * 2^-49]) is written [15.]. *)
Lemma toString_strips_trailing_zeros_witness :
  toString (number_value 15) = "" +:+ pretty (micro_units 8444249301319680 (-49) / 1000000) +:+ ".".
Proof.
  apply (proj1 (proj2 (proj2 (proj2
           (toString_strips_trailing_zeros (number_value 15) eq_refl)))) false
           8444249301319680%positive (-49)); vm_compute; reflexivity.
Defined.

(** ** Bindings: a write and the reads after it *)

Section Bindings.

(** [lookup_from] after a write to a binding of another name. *)
Lemma lookup_from_store_other (h : list Environment) (i : nat) (name other : string)
    (val : Value) :
  other <> name ->
  forall (n e : nat),
    lookup_from n (store_in h i name val) e other = lookup_from n h e other.
Proof.
  intros Hne n. unfold store_in.
  destruct (h !! i) as [fr|] eqn:Hfr; [|reflexivity].
  induction n as [|n IH]; intros e; [reflexivity|]. simpl.
  destruct (decide (e = i)) as [->|He].
  - rewrite list_lookup_insert_eq by (eapply lookup_lt_Some; eauto).
    rewrite Hfr. simpl. rewrite lookup_insert_ne by congruence.
    destruct (vars fr !! other); [reflexivity|].
    destruct (parent fr); [apply IH|reflexivity].
  - rewrite list_lookup_insert_ne by congruence.
    destruct (h !! e) as [fr'|]; [|reflexivity].
    destruct (vars fr' !! other); [reflexivity|].
    destruct (parent fr'); [apply IH|reflexivity].
Qed.

(** In a tree of frames, a walk that starts below frame [i] never meets it. *)
Lemma lookup_from_store_older (h : list Environment) (i : nat) (name other : string)
    (val : Value) :
  heap_wf h ->
  forall (n e : nat), (e < i)%nat ->
    lookup_from n (store_in h i name val) e other = lookup_from n h e other.
Proof.
  intros Hwf n. unfold store_in.
  destruct (h !! i) as [fr|] eqn:Hfr; [|reflexivity].
  induction n as [|n IH]; intros e He; [reflexivity|]. simpl.
  rewrite list_lookup_insert_ne by lia.
  destruct (h !! e) as [fr'|] eqn:Hfr'; [|reflexivity].
  destruct (vars fr' !! other); [reflexivity|].
  destruct (parent fr') as [p|] eqn:Hp; [|reflexivity].
  apply IH. pose proof (Hwf e fr' p Hfr' Hp). lia.
Qed.

Lemma store_in_length (h : list Environment) (i : nat) (name : string) (val : Value) :
  length (store_in h i name val) = length h.
Proof. unfold store_in. destruct (h !! i); [apply length_insert|reflexivity]. Qed.

Lemma store_in_wf (h : list Environment) (i : nat) (name : string) (val : Value) :
  heap_wf h -> heap_wf (store_in h i name val).
Proof.
  intros Hwf j fr p Hj Hp. unfold store_in in Hj.
  destruct (h !! i) as [fr0|] eqn:Hfr0; [|eauto].
  destruct (decide (j = i)) as [->|Hne].
  - rewrite list_lookup_insert_eq in Hj by (eapply lookup_lt_Some; eauto).
    injection Hj as <-. simpl in Hp. eauto.
  - rewrite list_lookup_insert_ne in Hj by congruence. eauto.
Qed.

Lemma define_store (s : State) (env : nat) (name : string) (val : Value) :
  (env < length (heap s))%nat ->
  define env name val s = (Ret tt, set_heap (store_in (heap s) env name val) s).
Proof.
  intros Hlen. unfold define, store_in.
  destruct (lookup_lt_is_Some_2 _ _ Hlen) as [fr ->]. reflexivity.
Qed.

Lemma lookup_from_stored_here (h : list Environment) (i : nat) (name : string)
    (val : Value) (n : nat) :
  (i < length h)%nat ->
  lookup_from (S n) (store_in h i name val) i name = Ret val.
Proof.
  intros Hlen. unfold store_in.
  destruct (lookup_lt_is_Some_2 _ _ Hlen) as [fr Hfr]. rewrite Hfr. simpl.
  rewrite list_lookup_insert_eq by assumption. simpl.
  now rewrite lookup_insert_eq.
Qed.

(** X3: [define] on a frame of the heap binds the name in that frame:
    [lookup] from that frame then returns the value, whatever the frame or
    its ancestors bound to the name before. No frame is added; the
    bindings of every other name are found as before, from every frame;
    and in a tree of frames every lookup that starts in an older frame
    finds what it found before (a frame is not seen from the frames
    allocated before it). *)
Theorem define_then_lookup (s : State) (env : nat) (name : string) (val : Value) :
  (env < length (heap s))%nat ->
  exists s' : State,
    define env name val s = (Ret tt, s')
    /\ lookup env name s' = (Ret val, s')
    /\ length (heap s') = length (heap s)
    /\ (forall (e : nat) (other : string),
          other <> name -> fst (lookup e other s') = fst (lookup e other s))
    /\ (heap_wf (heap s) ->
        forall (e : nat) (other : string),
          (e < env)%nat -> fst (lookup e other s') = fst (lookup e other s)).
Proof.
  intros Hlen. eexists. split; [apply define_store; exact Hlen|].
  unfold lookup. simpl. rewrite store_in_length.
  split.
  { destruct (length (heap s)) as [|n] eqn:E; [lia|].
    rewrite lookup_from_stored_here by lia. reflexivity. }
  split; [reflexivity|].
  split.
  - intros e other Hne. now apply lookup_from_store_other.
  - intros Hwf e other He. now apply lookup_from_store_older.
Qed.

(** The walk to the first binding is the same after the binding it ends
    at has been overwritten. *)
Lemma first_binding_store (h : list Environment) (name : string) (val : Value)
    (env : nat) (r : option nat) :
  first_binding h name env r ->
  forall i : nat, r = Some i ->
  first_binding (store_in h i name val) name env (Some i).
Proof.
  induction 1 as [env fr Hfr Hv|env fr p r Hfr Hv Hp H IH|env fr Hfr Hv Hp];
    intros i E.
  - injection E as <-. unfold store_in. rewrite Hfr.
    eapply fb_here.
    + apply list_lookup_insert_eq. eapply lookup_lt_Some; eauto.
    + simpl. rewrite lookup_insert_eq. eauto.
  - subst r.
    destruct (first_binding_binds _ _ _ _ H i eq_refl) as (fri & v & Hfri & Hvi).
    assert (env <> i) as Hne by (intros ->; congruence).
    eapply fb_parent; eauto.
    unfold store_in. rewrite Hfri. now rewrite list_lookup_insert_ne by congruence.
  - discriminate.
Qed.

(** X4: when [assign] returns, in a tree of frames, [lookup] from the same
    frame returns the value assigned (and it returned a value before: the
    name was bound); the frames still form a tree, none was added, and the
    bindings of every other name are found as before. *)
Theorem assign_then_lookup (s s' : State) (env : nat) (name : string) (val : Value) :
  heap_wf (heap s) -> (env < length (heap s))%nat ->
  assign env name val s = (Ret tt, s') ->
  lookup env name s' = (Ret val, s')
  /\ (exists old : Value, lookup env name s = (Ret old, s))
  /\ heap_wf (heap s')
  /\ length (heap s') = length (heap s)
  /\ (forall (e : nat) (other : string),
        other <> name -> fst (lookup e other s') = fst (lookup e other s)).
Proof.
  intros Hwf Hlen H.
  destruct (walk_from (heap s) name val Hwf (length (heap s)) env Hlen Hlen)
    as (r & Hr & Hl & Ha).
  unfold assign in H. rewrite Ha in H.
  destruct r as [i|]; simpl in H; [|discriminate].
  injection H as <-.
  pose proof (first_binding_store _ _ val _ _ Hr i eq_refl) as Hr'.
  pose proof (store_in_wf _ i name val Hwf) as Hwf'.
  destruct (first_binding_binds _ _ _ _ Hr i eq_refl) as (fr & old & Hfr & Hold).
  split.
  { unfold lookup. simpl. rewrite store_in_length.
    destruct (walk_from (store_in (heap s) i name val) name val Hwf'
                (length (heap s)) env Hlen
                ltac:(rewrite store_in_length; exact Hlen))
      as (r' & Hr'' & Hl' & _).
    rewrite Hl'. rewrite (first_binding_unique _ _ _ _ _ Hr'' Hr').
    simpl. unfold store_in. rewrite Hfr.
    rewrite list_lookup_insert_eq by (eapply lookup_lt_Some; eauto). simpl.
    now rewrite lookup_insert_eq. }
  split.
  { exists old. unfold lookup. rewrite Hl. simpl. now rewrite Hfr, Hold. }
  split; [exact Hwf'|].
  split; [apply store_in_length|].
  intros e other Hne. unfold lookup. simpl. rewrite store_in_length.
  now apply lookup_from_store_other.
Qed.

End Bindings.

(** [define] in the global frame of the start of [main]. *)
Lemma define_then_lookup_witness :
  exists s' : State,
    define globalEnv "x" (number_value 1) initial_state = (Ret tt, s')
    /\ lookup globalEnv "x" s' = (Ret (number_value 1), s').
Proof.
  destruct (define_then_lookup initial_state globalEnv "x" (number_value 1))
    as (s' & Hd & Hl & _); [unfold globalEnv; simpl; lia|].
  exists s'. split; assumption.
Defined.

(** [assign] to the global [n] of [var n = 7; function f(n) { n }]. *)
Lemma assign_then_lookup_witness :
  lookup globalEnv "n" (set_heap (store_in (heap outer_n_state) globalEnv "n" (number_value 8)) outer_n_state)
  = (Ret (number_value 8),
     set_heap (store_in (heap outer_n_state) globalEnv "n" (number_value 8)) outer_n_state).
Proof.
  refine (proj1 (assign_then_lookup outer_n_state _ globalEnv "n" (number_value 8) _ _ _)).
  - apply parents_before_wf. vm_compute. reflexivity.
  - assert (length (heap outer_n_state) = 1%nat) as -> by (vm_compute; reflexivity).
    unfold globalEnv. lia.
  - vm_compute. reflexivity.
Defined.

(** ** The frame an evaluation writes to *)

Section Frames.

Variable clock : nat -> Z.

Lemma frame_kept_refl (fr : Environment) : frame_kept fr fr.
Proof. split; auto. Qed.

Lemma frame_kept_trans (a b c : Environment) :
  frame_kept a b -> frame_kept b c -> frame_kept a c.
Proof. intros [H1 H2] [H3 H4]. split; [congruence|auto]. Qed.

Lemma touches_only_refl (env : nat) (s : State) : touches_only env s s.
Proof.
  split; [lia|]. split; [auto|]. intros fr H. exists fr. split; [exact H|apply frame_kept_refl].
Qed.

Lemma touches_only_trans (env : nat) (s1 s2 s3 : State) :
  touches_only env s1 s2 -> touches_only env s2 s3 -> touches_only env s1 s3.
Proof.
  intros (L1 & O1 & E1) (L2 & O2 & E2). split; [lia|]. split.
  - eauto.
  - intros fr H. destruct (E1 fr H) as (fr' & H' & K). destruct (E2 fr' H') as (fr'' & H'' & K').
    exists fr''. split; [exact H''|eapply frame_kept_trans; eauto].
Qed.

(** What happens in a frame allocated later leaves the older frames alone. *)
Lemma touches_only_newer (env scope : nat) (s1 s2 s3 : State) :
  (length (heap s1) <= scope)%nat ->
  touches_only env s1 s2 -> touches_only scope s2 s3 -> touches_only env s1 s3.
Proof.
  intros Hnew (L1 & O1 & E1) (L2 & O2 & E2). split; [lia|]. split.
  - intros i fr Hi H. apply O2; [|eauto].
    pose proof (lookup_lt_Some _ _ _ H). lia.
  - intros fr H. destruct (E1 fr H) as (fr' & H' & K). exists fr'. split; [|exact K].
    apply O2; [|exact H']. pose proof (lookup_lt_Some _ _ _ H). lia.
Qed.

Lemma local_ret (env : nat) {A : Type} (a : A) : local_to env (ret a).
Proof. intros s s' o H. injection H as _ <-. apply touches_only_refl. Qed.

Lemma local_same_heap (env : nat) {A : Type} (m : M A) :
  (forall s s' o, m s = (o, s') -> heap s' = heap s) -> local_to env m.
Proof.
  intros Hm s s' o H. apply Hm in H. unfold touches_only. rewrite H.
  apply (touches_only_refl env s).
Qed.

Lemma local_bind (env : nat) {A B : Type} (m : M A) (k : A -> M B) :
  local_to env m -> (forall a : A, local_to env (k a)) -> local_to env (bind m k).
Proof.
  intros Hm Hk s s' o H. unfold bind in H.
  destruct (m s) as [[a| | |] s1] eqn:E;
    try (injection H as _ <-; eapply Hm; eauto).
  eapply touches_only_trans; [eapply Hm; eauto|eapply Hk; eauto].
Qed.

Lemma local_define (env : nat) (name : string) (val : Value) :
  local_to env (define env name val).
Proof.
  intros s s' o H. unfold define in H.
  destruct (heap s !! env) as [fr|] eqn:Hfr; injection H as _ <-;
    [|apply touches_only_refl].
  split; [simpl; now rewrite length_insert|]. split.
  - intros i fr0 Hi H0. simpl. now rewrite list_lookup_insert_ne by congruence.
  - intros fr0 H0. rewrite Hfr in H0. injection H0 as <-. eexists. split.
    + simpl. apply list_lookup_insert_eq. eapply lookup_lt_Some; eauto.
    + split; [reflexivity|]. intros n Hn. simpl.
      destruct (decide (n = name)) as [->|Hne].
      * rewrite lookup_insert_eq. eauto.
      * now rewrite lookup_insert_ne by congruence.
Qed.

Lemma local_new_Environment (env : nat) (p : option nat) :
  local_to env (new_Environment p).
Proof.
  intros s s' o H. injection H as _ <-. split; [simpl; rewrite length_app; lia|].
  split.
  - intros i fr _ H. simpl. now apply lookup_app_l_Some.
  - intros fr H. exists fr. split; [simpl; now apply lookup_app_l_Some|apply frame_kept_refl].
Qed.

Lemma local_bind_params (scope : nat) (ps : list string) (argVals : list Value) :
  forall i : nat, local_to scope (bind_params scope i ps argVals).
Proof.
  induction ps as [|p ps IH]; intros i; simpl; [apply local_ret|].
  apply local_bind; [|intros _; apply IH].
  destruct (argVals !! i); [apply local_define|apply local_ret].
Qed.

Lemma local_call_native (env : nat) (f : option NativeFn) (argVals : list Value) :
  local_to env (call_native clock f argVals).
Proof.
  apply local_same_heap. intros s s' o H.
  pose proof (within_call_native clock (fun s s' => heap s' = heap s)
                ltac:(reflexivity) ltac:(congruence) ltac:(reflexivity)) as W.
  eapply W; eauto.
Qed.

Section Children.

Variable env : nat.
Variable ev : ASTNode -> M Value.
Hypothesis local_ev : forall n : ASTNode, local_to env (ev n).

Lemma local_eval_each (l : list ASTNode) : local_to env (eval_each ev l).
Proof.
  induction l as [|a l IH]; simpl; [apply local_ret|].
  apply local_bind; [apply local_ev|]. intros v.
  apply local_bind; [apply IH|]. intros vs. apply local_ret.
Qed.

Lemma local_eval_props (props : list (string * ASTNode)) :
  forall o : gmap string Value, local_to env (eval_props ev props o).
Proof.
  induction props as [|[key valNode] props IH]; intros o; simpl; [apply local_ret|].
  apply local_bind; [apply local_ev|]. intros v. apply IH.
Qed.

Lemma local_eval_statements (stmts : list ASTNode) :
  forall lastVal : Value, local_to env (eval_statements ev stmts lastVal).
Proof.
  induction stmts as [|st stmts IH]; intros lastVal; simpl; [apply local_ret|].
  apply local_bind; [apply local_ev|]. intros v. apply IH.
Qed.

End Children.

(** The body of a call runs in a frame of its own. *)
Lemma local_call_body (env fuel : nat) (func : Value) (argVals : list Value) :
  (forall (node : ASTNode) (scope : nat), local_to scope (eval clock fuel node scope)) ->
  local_to env (scope <- new_Environment (closure func) ;;
                bind_params scope 0 (params func) argVals ;;;
                eval clock fuel (body func) scope).
Proof.
  intros IH s s' o H. unfold bind at 1 in H.
  pose proof (local_new_Environment env (closure func) s) as Hnew.
  destruct (new_Environment (closure func) s) as [o1 s1] eqn:E1.
  specialize (Hnew _ _ eq_refl).
  unfold new_Environment in E1. injection E1 as <- <-.
  set (s1 := set_heap _ s) in *.
  apply (touches_only_newer env (length (heap s)) s s1 s'); [lia|exact Hnew|].
  revert H. apply local_bind; [apply local_bind_params|]. intros _. apply IH.
Qed.

(** Every evaluation touches only the bindings of the frame it runs in. *)
Lemma local_eval (fuel : nat) :
  forall (node : ASTNode) (env : nat), local_to env (eval clock fuel node env).
Proof.
  induction fuel as [|fuel IH]; intros node env.
  { intros s s' o H. injection H as _ <-. apply touches_only_refl. }
  destruct node; simpl.
  - intros s s' o H. injection H as _ <-. apply touches_only_refl.
  - apply local_ret.
  - apply local_ret.
  - intros s s' o H. injection H as _ <-. apply touches_only_refl.
  - apply local_bind; [apply local_eval_each; intros; apply IH|].
    intros; apply local_ret.
  - apply local_bind; [apply local_eval_props; intros; apply IH|].
    intros; apply local_ret.
  - apply local_bind; [apply IH|]. intros l.
    apply local_bind; [apply IH|]. intros r. apply local_ret.
  - apply local_eval_statements. intros; apply IH.
  - apply local_bind.
    + destruct node; try apply IH. apply local_ret.
    + intros val. apply local_bind; [apply local_define|]. intros; apply local_ret.
  - apply local_bind; [apply IH|]. intros c.
    destruct (truthy c); [apply IH|].
    destruct node3; try apply IH. apply local_ret.
  - apply local_bind; [apply IH|]. intros c.
    destruct (while_breaks c); [apply local_ret|].
    apply local_bind; [apply IH|]. intros; apply IH.
  - apply local_bind; [apply local_define|]. intros; apply local_ret.
  - apply local_bind.
    { intros s s' o H. injection H as _ <-. apply touches_only_refl. }
    intros func.
    apply local_bind; [apply local_eval_each; intros; apply IH|]. intros argVals.
    destruct (decide (type func = V_NATIVE)); [apply local_call_native|].
    destruct (decide (type func = V_FUNC)).
    + apply local_call_body. exact IH.
    + intros s s' o H. injection H as _ <-. apply touches_only_refl.
Qed.

Lemma frames_stay_refl (s : State) : frames_stay s s.
Proof. intros i fr H. exact H. Qed.

Lemma frames_stay_trans (s1 s2 s3 : State) :
  frames_stay s1 s2 -> frames_stay s2 s3 -> frames_stay s1 s3.
Proof. intros H1 H2 i fr H. eauto. Qed.

(** The callback of a task leaves every frame it finds as it is. *)
Lemma run_callback_frames_stay (fuel : nat) (cb : Value) (s s' : State) (o : Outcome unit) :
  run_callback clock fuel cb s = (o, s') -> frames_stay s s'.
Proof.
  unfold run_callback. intros H. unfold bind at 1 in H. simpl in H.
  unfold bind at 1 in H.
  destruct (eval clock fuel (body cb) (length (heap s)) _) as [ob s2] eqn:E2.
  assert (s2 = s') as -> by (destruct ob; now injection H).
  apply local_eval in E2. destruct E2 as (_ & Hother & _).
  intros i fr Hi. apply Hother.
  - pose proof (lookup_lt_Some _ _ _ Hi). lia.
  - simpl. now apply lookup_app_l_Some.
Qed.

(** A sweep, and the event loop, leave every frame they find as it is. *)
Lemma sweep_frames_stay (fuel n : nat) (now : Z) :
  forall (i : nat) (ranTask : bool) (s s' : State) (o : Outcome bool),
  sweep clock fuel n now i ranTask s = (o, s') -> frames_stay s s'.
Proof.
  induction n as [|n IH]; intros i ranTask s s' o H.
  { injection H as _ <-. apply frames_stay_refl. }
  simpl in H. destruct (taskQueue s !! i) as [t|].
  - destruct (executeTime t <=? now).
    + unfold bind at 1 in H.
      destruct (run_callback clock fuel (callback t) s) as [oc s1] eqn:Ec.
      pose proof (run_callback_frames_stay _ _ _ _ _ Ec) as H1.
      destruct oc as [[]| | |]; try (injection H as _ <-; exact H1).
      unfold bind at 1 in H. unfold erase_task in H.
      destruct (decide (taskCapacity s1 = taskCapacity s));
        [|injection H as _ <-; exact H1].
      apply IH in H.
      eapply frames_stay_trans; [exact H1|]. exact H.
    + eauto.
  - injection H as _ <-. apply frames_stay_refl.
Qed.

Lemma event_loop_frames_stay (fuel n : nat) :
  forall (s s' : State) (o : Outcome unit),
  event_loop clock fuel n s = (o, s') -> frames_stay s s'.
Proof.
  induction n as [|n IH]; intros s s' o H.
  { injection H as _ <-. apply frames_stay_refl. }
  simpl in H. destruct (taskQueue s) as [|t q].
  - injection H as _ <-. apply frames_stay_refl.
  - unfold bind at 1 in H. unfold getCurrentTime at 1 in H.
    unfold bind at 1 in H.
    destruct (sweep clock fuel fuel _ 0 false _) as [os s1] eqn:Es.
    apply sweep_frames_stay in Es.
    destruct os as [b| | |]; try (injection H as _ <-; exact Es).
    unfold bind at 1 in H.
    destruct (negb b && negb (bool_decide (taskQueue s1 = [])));
      apply IH in H; (eapply frames_stay_trans; [exact Es|exact H]).
Qed.

(** X5: an evaluation writes only to the frame it runs in, and to frames
    it allocates: however [eval] ends, every other frame that existed is
    as it was, the frame itself has the parent it had and binds every name
    it bound, and no frame is gone. The body of a call and the callback of
    a task run in a frame of their own, so a callback, a sweep and the
    event loop leave every frame they find as it is: no function and no
    task changes a variable of the frame it was declared in. *)
Theorem evaluation_is_local :
  (forall (fuel : nat) (node : ASTNode) (env : nat) (s s' : State) (o : Outcome Value),
     eval clock fuel node env s = (o, s') ->
     (length (heap s) <= length (heap s'))%nat
     /\ (forall (i : nat) (fr : Environment),
           i <> env -> heap s !! i = Some fr -> heap s' !! i = Some fr)
     /\ (forall fr : Environment,
           heap s !! env = Some fr ->
           exists fr' : Environment,
             heap s' !! env = Some fr' /\ parent fr' = parent fr
             /\ forall name : string,
                  is_Some (vars fr !! name) -> is_Some (vars fr' !! name)))
  /\ (forall (fuel : nat) (cb : Value) (s s' : State) (o : Outcome unit),
        run_callback clock fuel cb s = (o, s') ->
        forall (i : nat) (fr : Environment),
          heap s !! i = Some fr -> heap s' !! i = Some fr)
  /\ (forall (fuel n : nat) (s s' : State) (o : Outcome unit),
        event_loop clock fuel n s = (o, s') ->
        forall (i : nat) (fr : Environment),
          heap s !! i = Some fr -> heap s' !! i = Some fr).
Proof.
  split; [|split].
  - intros fuel node env s s' o H. exact (local_eval fuel node env s s' o H).
  - intros fuel cb s s' o H. exact (run_callback_frames_stay fuel cb s s' o H).
  - intros fuel n s s' o H. exact (event_loop_frames_stay fuel n s s' o H).
Qed.

End Frames.

(** ** The end of a loop *)

Section Loops.

Variable clock : nat -> Z.

(** X6: a [while] returns only from the evaluation of its condition: when
    the loop returns, its value is Null, and the state is the one that an
    evaluation of the condition left, whose value was the Boolean false or
    a Number equal to 0. *)
Theorem while_ends_on_break (fuel : nat) (c b : ASTNode) (env : nat) (s s' : State)
    (v : Value) :
  eval clock fuel (WhileNode c b) env s = (Ret v, s') ->
  v = null_value
  /\ exists (fuel' : nat) (s0 : State) (cv : Value),
       (fuel' < fuel)%nat
       /\ eval clock fuel' c env s0 = (Ret cv, s')
       /\ while_breaks cv = true
       /\ (type cv = V_BOOL /\ boolVal cv = false
           \/ type cv = V_NUM /\ (numVal cv =? 0)%float = true).
Proof.
  revert s. induction fuel as [|fuel IH]; intros s H; [discriminate|].
  simpl in H. apply bind_ret_inv in H as (cv & s1 & Hc & H).
  destruct (while_breaks cv) eqn:Hb.
  - injection H as <- <-. split; [reflexivity|].
    exists fuel, s, cv. split; [lia|]. split; [exact Hc|]. split; [exact Hb|].
    unfold while_breaks in Hb. apply orb_true_iff in Hb as [Hb|Hb];
      apply andb_true_iff in Hb as [Ht Hv]; apply bool_decide_eq_true_1 in Ht.
    + left. split; [exact Ht|]. now apply negb_true_iff in Hv.
    + right. auto.
  - apply bind_ret_inv in H as (_ & s2 & _ & H).
    destruct (IH _ H) as (-> & fuel' & s0 & cv' & Hlt & Hrest).
    split; [reflexivity|]. exists fuel', s0, cv'. split; [lia|exact Hrest].
Qed.

End Loops.

(** The loop [while (i < 3) { var i = i + 1; }] after [var i = 0]. *)
Lemma while_ends_on_break_witness :
  exists (fuel' : nat) (s0 : State) (cv : Value),
    (fuel' < 12)%nat
    /\ eval example_clock fuel' (BinaryOpNode "<" (IdentifierNode "i") (NumberNode 3))
            globalEnv s0
       = (Ret cv, snd (eval example_clock 12 counting_loop globalEnv loop_start_state))
    /\ while_breaks cv = true.
Proof.
  destruct (while_ends_on_break example_clock 12
              (BinaryOpNode "<" (IdentifierNode "i") (NumberNode 3))
              (BlockNode [VarDeclNode "i"
                            (BinaryOpNode "+" (IdentifierNode "i") (NumberNode 1))])
              globalEnv loop_start_state
              (snd (eval example_clock 12 counting_loop globalEnv loop_start_state))
              null_value ltac:(vm_compute; reflexivity))
    as (_ & fuel' & s0 & cv & Hlt & Hc & Hb & _).
  exists fuel', s0, cv. auto.
Defined.

(** ** A character that starts no statement *)

Section UnknownCharacter.

Variable p : Parser.
Variable c : ascii.
Hypothesis p_pos : (pos p < String.length (src p))%nat.
Hypothesis p_char : char_at (src p) (pos p) = c.
Hypothesis c_unknown : starts_nothing c = true.

Lemma unknown_at_char : at_char p c.
Proof.
  split; [exact p_pos|]. split; [exact p_char|].
  unfold starts_nothing in c_unknown. apply negb_true_iff in c_unknown.
  repeat (apply orb_false_iff in c_unknown as [c_unknown ?]). assumption.
Qed.

Lemma unknown_classes :
  isdigit c = false /\ isalpha c = false /\ is_char c dquote = false
  /\ is_char c "[" = false /\ is_char c "*" = false /\ is_char c "/" = false
  /\ is_char c "+" = false /\ is_char c "-" = false /\ is_char c ">" = false
  /\ is_char c "<" = false /\ is_char c "=" = false /\ is_char c ";" = false.
Proof.
  unfold starts_nothing in c_unknown. apply negb_true_iff in c_unknown.
  repeat (apply orb_false_iff in c_unknown as [c_unknown ?]). repeat split; assumption.
Qed.

(** The expression parser returns the null pointer and does not move. *)
Lemma unknown_parseComparison (n : nat) (pe : PM ASTNode) :
  parseComparison (S n) pe p = (Ret NullNode, p).
Proof.
  destruct unknown_classes as (H1 & H2 & H3 & H4 & H5 & H6 & H7 & H8 & H9 & H10 & H11 & _).
  pose proof unknown_at_char as Hat.
  assert (parseMultiplicative (S n) pe p = (Ret NullNode, p)) as Hm.
  { unfold parseMultiplicative.
    rewrite (bind_at _ _ _ _ _ (at_char_parsePrimary_null p c Hat _ pe H1 H3 H4 H2)).
    apply (at_char_binary_chain_ends p c Hat). now rewrite H5, H6. }
  assert (parseAdditive (S n) pe p = (Ret NullNode, p)) as Ha.
  { unfold parseAdditive. rewrite (bind_at _ _ _ _ _ Hm).
    apply (at_char_binary_chain_ends p c Hat). now rewrite H7, H8. }
  unfold parseComparison. rewrite (bind_at _ _ _ _ _ Ha).
  rewrite (bind_at _ _ _ _ _ (at_char_skipWhitespace p c Hat)).
  rewrite (bind_at _ _ _ _ _ (at_char_peek p c Hat)).
  now rewrite H9, H10, H11.
Qed.

Lemma unknown_parseStatement (fuel : nat) :
  parseStatement fuel p = (Ret NullNode, p) \/ fst (parseStatement fuel p) = OutOfFuel.
Proof.
  destruct unknown_classes as (H1 & H2 & H3 & H4 & H5 & H6 & H7 & H8 & H9 & H10 & H11 & _).
  pose proof unknown_at_char as Hat.
  destruct fuel as [|[|[|fuel]]].
  - right. reflexivity.
  - right.
    change (parseStatement 1)
      with (parseStatement_with 0 (parseExpression 0) (parseBlock 0 (parseStatement 0))).
    now rewrite (at_char_parseStatement_with p c Hat).
  - right.
    change (parseStatement 2)
      with (parseStatement_with 1 (parseExpression 1) (parseBlock 1 (parseStatement 1))).
    rewrite (at_char_parseStatement_with p c Hat) by assumption.
    change (parseExpression 1) with (parseComparison 0 (parseExpression 0)).
    unfold parseComparison. apply bind_out_of_fuel.
    unfold parseAdditive. apply bind_out_of_fuel.
    unfold parseMultiplicative.
    rewrite (bind_at _ _ _ _ _ (at_char_parsePrimary_null p c Hat _ _ H1 H3 H4 H2)).
    reflexivity.
  - left.
    change (parseStatement (S (S (S fuel))))
      with (parseStatement_with (S (S fuel)) (parseExpression (S (S fuel)))
              (parseBlock (S (S fuel)) (parseStatement (S (S fuel))))).
    rewrite (at_char_parseStatement_with p c Hat) by assumption.
    change (parseExpression (S (S fuel)))
      with (parseComparison (S fuel) (parseExpression (S fuel))).
    apply unknown_parseComparison.
Qed.

Lemma unknown_parseStatement_null (fuel : nat) :
  parseStatement (S (S (S fuel))) p = (Ret NullNode, p).
Proof.
  destruct unknown_classes as (H1 & H2 & H3 & H4 & H5 & H6 & H7 & H8 & H9 & H10 & H11 & _).
  pose proof unknown_at_char as Hat.
  change (parseStatement (S (S (S fuel))))
    with (parseStatement_with (S (S fuel)) (parseExpression (S (S fuel)))
            (parseBlock (S (S fuel)) (parseStatement (S (S fuel))))).
  rewrite (at_char_parseStatement_with p c Hat) by assumption.
  change (parseExpression (S (S fuel)))
    with (parseComparison (S fuel) (parseExpression (S fuel))).
  apply unknown_parseComparison.
Qed.

Lemma unknown_statement_end : statement_end p = (Ret tt, p).
Proof.
  destruct unknown_classes as (_ & _ & _ & _ & _ & _ & _ & _ & _ & _ & _ & H).
  pose proof unknown_at_char as Hat. unfold statement_end.
  rewrite (bind_at _ _ _ _ _ (at_char_skipWhitespace p c Hat)).
  rewrite (bind_at _ _ _ _ _ (at_char_peek p c Hat)).
  now rewrite H.
Qed.

(** The loop of [parse] does not get past the character. *)
Lemma unknown_parse_loop (fuel : nat) :
  forall (n : nat) (stmts : list ASTNode),
    fst (parse_loop n (parseStatement fuel) stmts p) = OutOfFuel.
Proof.
  pose proof unknown_at_char as Hat.
  assert ((pos p <? String.length (src p))%nat = true) as Hpos
    by (apply Nat.ltb_lt; exact p_pos).
  assert ((String.length (src p) <=? pos p)%nat = false) as Hlen
    by (apply Nat.leb_gt; exact p_pos).
  induction n as [|n IH]; intros stmts; [reflexivity|].
  destruct (unknown_parseStatement fuel) as [Hst|Hst].
  - rewrite (parse_loop_step n _ stmts p p p p NullNode Hpos
               (at_char_skipWhitespace p c Hat) Hlen Hst unknown_statement_end).
    apply IH.
  - apply (parse_loop_stuck _ _ _ p p Hpos (at_char_skipWhitespace p c Hat) Hlen Hst).
Qed.

End UnknownCharacter.

Section UnknownStart.

Variable clock : nat -> Z.

(** X8: a program that starts with a character with which no statement
    starts (an opening parenthesis or brace, a closing bracket, a comma,
    ...) is not parsed. [parseStatement] returns the null pointer without
    reading the character; a round of the loop of [parse] appends that
    null statement and is back at the character; [parse] returns no list
    of statements, and [run] evaluates nothing: the frames and the task
    queue are as they were. (Each round makes the vector of statements
    longer; what happens when it can no longer grow is not described.) *)
Theorem unknown_character_is_not_parsed (c : ascii) (rest : string) :
  starts_nothing c = true ->
  (forall fuel : nat,
     parseStatement (S (S (S fuel))) (mkParser (String c rest) 0)
     = (Ret NullNode, mkParser (String c rest) 0))
  /\ (forall (fuel n : nat) (stmts : list ASTNode),
        parse_loop (S n) (parseStatement (S (S (S fuel)))) stmts
          (mkParser (String c rest) 0)
        = parse_loop n (parseStatement (S (S (S fuel)))) (stmts ++ [NullNode])
            (mkParser (String c rest) 0))
  /\ (forall (fuel : nat) (stmts : list ASTNode),
        parse fuel (String c rest) <> Ret stmts)
  /\ (forall (fuel : nat) (s : State),
        heap (snd (run clock fuel (String c rest) s)) = heap s
        /\ taskQueue (snd (run clock fuel (String c rest) s)) = taskQueue s).
Proof.
  intros Hc.
  assert (pos (mkParser (String c rest) 0) < String.length (src (mkParser (String c rest) 0)))%nat
    as Hpos by (simpl; lia).
  assert (char_at (src (mkParser (String c rest) 0)) (pos (mkParser (String c rest) 0)) = c)
    as Hchar by reflexivity.
  pose proof (unknown_at_char _ c Hpos Hchar Hc) as Hat.
  assert (forall fuel : nat, parse fuel (String c rest) = OutOfFuel) as Hparse.
  { intros fuel. unfold parse.
    apply (unknown_parse_loop (mkParser (String c rest) 0) c); assumption. }
  split; [intros fuel; exact (unknown_parseStatement_null _ c Hpos Hchar Hc fuel)|].
  split.
  { intros fuel n stmts.
    set (p0 := mkParser (String c rest) 0) in *.
    apply (parse_loop_step n _ stmts p0 p0 p0 p0 NullNode).
    - apply Nat.ltb_lt. exact Hpos.
    - exact (at_char_skipWhitespace _ c Hat).
    - apply Nat.leb_gt. exact Hpos.
    - exact (unknown_parseStatement_null _ c Hpos Hchar Hc fuel).
    - exact (unknown_statement_end _ c Hpos Hchar Hc). }
  split; [intros fuel stmts; rewrite Hparse; discriminate|].
  intros fuel s. unfold run, try_catch. unfold bind at 1. rewrite Hparse.
  split; reflexivity.
Qed.

End UnknownStart.

(** A parenthesised expression. *)
Lemma unknown_character_is_not_parsed_witness :
  starts_nothing "(" = true
  /\ parseStatement 3 (mkParser "(1 + 2) * 3" 0) = (Ret NullNode, mkParser "(1 + 2) * 3" 0)
  /\ heap (snd (run example_clock 1000 "(1 + 2) * 3" initial_state)) = heap initial_state.
Proof.
  split; [reflexivity|].
  pose proof (unknown_character_is_not_parsed example_clock "(" "1 + 2) * 3" eq_refl)
    as (Hst & _ & _ & Hrun).
  split; [exact (Hst 0%nat)|exact (proj1 (Hrun 1000%nat initial_state))].
Defined.

(** ** String literals *)

Section StringLiterals.

Lemma bind_undefined_fst {S A B : Type} (m : SM S A) (k : A -> SM S B) (s : S) :
  fst (m s) = Undefined -> fst (bind m k s) = Undefined.
Proof. unfold bind. destruct (m s) as [[a| | |] s1]; simpl; congruence. Qed.

(** A string literal that is not closed: the loop of [parseToken] runs to
    the end of the text and reads behind it. *)
Lemma parseToken_unterminated (pre t : string) :
  string_forall not_quote t = true ->
  fst (parseToken (mkParser (pre +:+ String dquote t) (String.length pre))) = Undefined.
Proof.
  intros Ht.
  pose proof (at_char_append pre dquote t eq_refl) as Hat.
  unfold parseToken.
  rewrite (bind_at _ _ _ _ _ (at_char_skipWhitespace _ _ Hat)).
  destruct Hat as (Hpos & Hc & Hsp).
  rewrite (proj2 (Nat.leb_gt _ _) Hpos).
  rewrite (bind_at _ _ _ _ _ (peek_append pre dquote t)).
  change (isalpha dquote) with false. change (isdigit dquote) with false.
  change (is_char dquote dquote) with true. cbv iota.
  rewrite (bind_at _ _ _ _ _ (advance_append pre dquote t)).
  apply bind_undefined_fst.
  unfold take_while_all, rest_bound. simpl src.
  rewrite <- (snoc_append pre dquote t), <- (snoc_length pre dquote).
  apply (take_while_runs_off not_quote eq_refl); [exact Ht|].
  rewrite append_length. lia.
Qed.

Lemma parsePrimary_unterminated (n : nat) (pe : PM ASTNode) (pre t : string) :
  string_forall not_quote t = true ->
  fst (parsePrimary n pe (mkParser (pre +:+ String dquote t) (String.length pre)))
  = Undefined.
Proof.
  intros Ht.
  pose proof (at_char_append pre dquote t eq_refl) as Hat.
  unfold parsePrimary.
  rewrite (bind_at _ _ _ _ _ (at_char_skipWhitespace _ _ Hat)).
  rewrite (bind_at _ _ _ _ _ (at_char_peek _ _ Hat)).
  change (isdigit dquote) with false. change (is_char dquote dquote) with true.
  cbv iota. apply bind_undefined_fst. now apply parseToken_unterminated.
Qed.

Section Run.

Variable clock : nat -> Z.

(** X9: a string literal without closing quote makes [parseToken] read
    behind the end of the text: the loop that looks for the quote does not
    stop at the end, where [peek] returns the null character, and
    [advance] goes on reading; that is undefined behaviour, wherever the
    literal stands, and a program that starts with it does not get through
    [parse] and [run]. *)
Theorem unterminated_string_reads_past_end (t : string) :
  string_forall not_quote t = true ->
  (forall pre : string,
     fst (parseToken (mkParser (pre +:+ String dquote t) (String.length pre)))
     = Undefined)
  /\ (forall fuel : nat, parse (S (S fuel)) (String dquote t) = Undefined)
  /\ (forall (fuel : nat) (s : State),
        run clock (S (S fuel)) (String dquote t) s = (Undefined, s)).
Proof.
  intros Ht.
  assert (forall fuel : nat, parse (S (S fuel)) (String dquote t) = Undefined) as Hparse.
  { intros fuel. unfold parse.
    pose proof (at_char_append "" dquote t eq_refl) as Hat.
    rewrite append_empty in Hat. simpl String.length in Hat.
    change (parse_loop (S (S fuel)) (parseStatement (S (S fuel))) []
              (mkParser (String dquote t) 0))
      with ((if (0 <? String.length (String dquote t))%nat
             then (skipWhitespace ;;;
                   fun p' =>
                   if (String.length (src p') <=? pos p')%nat then (Ret [], p')
                   else
                     (st <- parseStatement (S (S fuel)) ;;
                      skipWhitespace ;;;
                      c <- peek ;;
                      (if is_char c ";" then advance ;;; ret tt else ret tt) ;;;
                      parse_loop (S fuel) (parseStatement (S (S fuel))) ([] ++ [st])) p')
                    (mkParser (String dquote t) 0)
             else (Ret [], mkParser (String dquote t) 0))).
    simpl String.length. change (0 <? S (String.length t))%nat with true. cbv iota.
    rewrite (bind_at _ _ _ _ _ (at_char_skipWhitespace _ _ Hat)).
    simpl src. simpl pos. simpl String.length.
    change (S (String.length t) <=? 0)%nat with false. cbv iota.
    apply bind_undefined_fst.
    change (parseStatement (S (S fuel)))
      with (parseStatement_with (S fuel) (parseExpression (S fuel))
              (parseBlock (S fuel) (parseStatement (S fuel)))).
    rewrite (at_char_parseStatement_with _ _ Hat) by reflexivity.
    change (parseExpression (S fuel)) with (parseComparison fuel (parseExpression fuel)).
    unfold parseComparison. apply bind_undefined_fst.
    unfold parseAdditive. apply bind_undefined_fst.
    unfold parseMultiplicative. apply bind_undefined_fst.
    exact (parsePrimary_unterminated fuel _ "" t Ht). }
  split; [intros pre; now apply parseToken_unterminated|].
  split; [exact Hparse|].
  intros fuel s. unfold run, try_catch. unfold bind at 1. now rewrite Hparse.
Qed.

End Run.

End StringLiterals.

(** The program of an opening quote and the letters [abc]. *)
Lemma unterminated_string_reads_past_end_witness :
  parse 5 (String dquote "abc") = Undefined.
Proof.
  exact (proj1 (proj2 (unterminated_string_reads_past_end example_clock "abc" eq_refl)) 3%nat).
Defined.

Section Literals.

Lemma no_operator_at_end (p : Parser) :
  (String.length (src p) <= pos p)%nat -> no_operator_at p.
Proof.
  intros H. split; [now apply at_end_skipWhitespace|].
  exists NUL. split; [now apply at_end_peek|]. repeat split; reflexivity.
Qed.

Lemma no_operator_at_char (p : Parser) (c : ascii) :
  at_char p c ->
  is_char c "*" || is_char c "/" = false ->
  is_char c "+" || is_char c "-" = false ->
  is_char c ">" || is_char c "<" || is_char c "=" = false ->
  no_operator_at p.
Proof.
  intros Hat H1 H2 H3. split; [now apply (at_char_skipWhitespace p c)|].
  exists c. split; [now apply at_char_peek|]. auto.
Qed.

(** An operand that no operator follows is the whole expression. *)
Lemma parseComparison_single (n : nat) (pe : PM ASTNode) (p0 p : Parser) (e : ASTNode) :
  parsePrimary (S n) pe p0 = (Ret e, p) -> no_operator_at p ->
  parseComparison (S n) pe p0 = (Ret e, p).
Proof.
  intros Hprim (Hskip & c & Hpeek & H1 & H2 & H3).
  assert (forall operand is_op, is_op c = false ->
          binary_chain (S n) operand is_op e p = (Ret e, p)) as Hchain.
  { intros operand is_op Hop. simpl.
    rewrite (bind_at _ _ _ _ _ Hskip), (bind_at _ _ _ _ _ Hpeek). now rewrite Hop. }
  assert (parseMultiplicative (S n) pe p0 = (Ret e, p)) as Hm.
  { unfold parseMultiplicative. rewrite (bind_at _ _ _ _ _ Hprim).
    now apply Hchain. }
  assert (parseAdditive (S n) pe p0 = (Ret e, p)) as Ha.
  { unfold parseAdditive. rewrite (bind_at _ _ _ _ _ Hm). now apply Hchain. }
  unfold parseComparison.
  rewrite (bind_at _ _ _ _ _ Ha), (bind_at _ _ _ _ _ Hskip), (bind_at _ _ _ _ _ Hpeek).
  now rewrite H3.
Qed.

(** A string literal: the node holds the characters between the quotes as
    they are. *)
Lemma parsePrimary_string (n : nat) (pe : PM ASTNode) (pre t post : string) :
  string_forall not_quote t = true ->
  parsePrimary n pe
    (mkParser (pre +:+ String dquote (t +:+ String dquote post)) (String.length pre))
  = (Ret (StringNode t),
     mkParser (pre +:+ String dquote (t +:+ String dquote post))
              (String.length pre + String.length t + 2)).
Proof.
  intros Ht.
  pose proof (at_char_append pre dquote (t +:+ String dquote post) eq_refl) as Hat.
  assert (parseToken
            (mkParser (pre +:+ String dquote (t +:+ String dquote post)) (String.length pre))
          = (Ret (String dquote (t +:+ String dquote "")),
             mkParser (pre +:+ String dquote (t +:+ String dquote post))
                      (String.length pre + String.length t + 2))) as Htok.
  { unfold parseToken.
    rewrite (bind_at _ _ _ _ _ (at_char_skipWhitespace _ _ Hat)).
    destruct Hat as (Hpos & Hc & Hsp).
    rewrite (proj2 (Nat.leb_gt _ _) Hpos).
    rewrite (bind_at _ _ _ _ _ (peek_append pre dquote _)).
    change (isalpha dquote) with false. change (isdigit dquote) with false.
    change (is_char dquote dquote) with true. cbv iota.
    rewrite (bind_at _ _ _ _ _ (advance_append pre dquote _)).
    change (fun c : ascii => negb (is_char c dquote)) with not_quote.
    rewrite <- (snoc_append pre dquote (t +:+ String dquote post)).
    rewrite <- (snoc_length pre dquote).
    rewrite (bind_at _ _ _ _ _
               (take_while_all_span not_quote dquote (pre +:+ String dquote "") t post
                  eq_refl Ht)).
    rewrite <- (append_assoc' (pre +:+ String dquote "") t (String dquote post)).
    rewrite <- (append_length (pre +:+ String dquote "") t).
    rewrite (bind_at _ _ _ _ _ (advance_append _ dquote post)).
    unfold ret. f_equal. f_equal.
    rewrite !append_length. simpl. lia. }
  unfold parsePrimary.
  rewrite (bind_at _ _ _ _ _ (at_char_skipWhitespace _ _ Hat)).
  rewrite (bind_at _ _ _ _ _ (at_char_peek _ _ Hat)).
  change (isdigit dquote) with false. change (is_char dquote dquote) with true.
  cbv iota. rewrite (bind_at _ _ _ _ _ Htok). unfold ret. f_equal. f_equal.
  simpl String.length. rewrite append_length. simpl String.length.
  replace (S (String.length t + 1) - 2)%nat with (String.length t) by lia.
  simpl substring. now rewrite substring_prefix.
Qed.

(** The loop of [parse] ends at the end of the text. *)
Lemma parse_loop_done (n : nat) (ps : PM ASTNode) (stmts : list ASTNode) (p : Parser) :
  (String.length (src p) <= pos p)%nat ->
  parse_loop (S n) ps stmts p = (Ret stmts, p).
Proof.
  intros H. simpl. now rewrite (proj2 (Nat.ltb_ge _ _) H).
Qed.

End Literals.

Section PrintLiteral.

Variable t : string.
Hypothesis t_plain : string_forall not_quote t = true.

Lemma print_literal_text :
  print_literal t = "print(" +:+ String dquote (t +:+ String dquote ")").
Proof.
  unfold print_literal, quoted. rewrite (append_cons dquote).
  now rewrite (snoc_append t dquote ")").
Qed.

Lemma print_literal_length : String.length (print_literal t) = (String.length t + 9)%nat.
Proof.
  rewrite print_literal_text. rewrite append_length. simpl String.length.
  rewrite append_length. simpl String.length. lia.
Qed.

Lemma print_literal_closing :
  print_literal t
  = ("print(" +:+ String dquote (t +:+ String dquote "")) +:+ String ")" "".
Proof.
  rewrite print_literal_text. rewrite append_assoc'. rewrite (append_cons dquote).
  now rewrite (snoc_append t dquote ")").
Qed.

Lemma print_literal_closing_length :
  String.length ("print(" +:+ String dquote (t +:+ String dquote ""))
  = (String.length t + 8)%nat.
Proof.
  rewrite append_length. simpl String.length. rewrite append_length.
  simpl String.length. lia.
Qed.

(** The parser at the start, at the parenthesis, at the literal, at the
    closing parenthesis, and at the end. *)
Lemma print_literal_at_0 : at_char (mkParser (print_literal t) 0) "p".
Proof.
  rewrite print_literal_text.
  exact (at_char_append "" "p" ("rint(" +:+ String dquote (t +:+ String dquote ")")) eq_refl).
Qed.

Lemma print_literal_at_5 : at_char (mkParser (print_literal t) 5) "(".
Proof.
  rewrite print_literal_text.
  exact (at_char_append "print" "(" (String dquote (t +:+ String dquote ")")) eq_refl).
Qed.

Lemma print_literal_at_closing :
  at_char (mkParser (print_literal t) (String.length t + 8)) ")".
Proof.
  rewrite print_literal_closing, <- print_literal_closing_length.
  now apply at_char_append.
Qed.

Lemma print_literal_at_end :
  (String.length (src (mkParser (print_literal t) (String.length t + 9)))
   <= pos (mkParser (print_literal t) (String.length t + 9)))%nat.
Proof. simpl src. simpl pos. rewrite print_literal_length. lia. Qed.

Lemma print_literal_word (test : ascii -> bool) :
  string_forall test "print" = true -> test "("%char = false ->
  take_while_all test (mkParser (print_literal t) 0)
  = (Ret "print", mkParser (print_literal t) 5).
Proof.
  intros Hw Hp. rewrite print_literal_text.
  exact (take_while_all_span test "(" "" "print"
           (String dquote (t +:+ String dquote ")")) Hp Hw).
Qed.

Lemma print_literal_string (n : nat) (pe : PM ASTNode) :
  parsePrimary n pe (mkParser (print_literal t) 6)
  = (Ret (StringNode t), mkParser (print_literal t) (String.length t + 8)).
Proof.
  rewrite print_literal_text.
  pose proof (parsePrimary_string n pe "print(" t ")" t_plain) as H.
  simpl String.length in H. rewrite H. f_equal. f_equal. lia.
Qed.

Lemma print_literal_argument (n : nat) :
  parseExpression (S (S n)) (mkParser (print_literal t) 6)
  = (Ret (StringNode t), mkParser (print_literal t) (String.length t + 8)).
Proof.
  change (parseExpression (S (S n)))
    with (parseComparison (S n) (parseExpression (S n))).
  apply parseComparison_single; [apply print_literal_string|].
  apply (no_operator_at_char _ ")" print_literal_at_closing); reflexivity.
Qed.

Lemma print_literal_call (n : nat) :
  parsePrimary (S (S (S n))) (parseExpression (S (S (S n)))) (mkParser (print_literal t) 0)
  = (Ret (CallNode "print" [StringNode t]),
     mkParser (print_literal t) (String.length t + 9)).
Proof.
  pose proof print_literal_at_0 as H0. pose proof print_literal_at_5 as H5.
  pose proof print_literal_at_closing as Hc.
  assert (parseToken (mkParser (print_literal t) 0)
          = (Ret "print", mkParser (print_literal t) 5)) as Htok.
  { unfold parseToken.
    rewrite (bind_at _ _ _ _ _ (at_char_skipWhitespace _ _ H0)).
    destruct H0 as (Hpos & _). rewrite (proj2 (Nat.leb_gt _ _) Hpos).
    rewrite (bind_at _ _ _ _ _ (at_char_peek _ _ print_literal_at_0)).
    change (isalpha "p") with true. cbv iota.
    now apply print_literal_word. }
  unfold parsePrimary.
  rewrite (bind_at _ _ _ _ _ (at_char_skipWhitespace _ _ H0)).
  rewrite (bind_at _ _ _ _ _ (at_char_peek _ _ H0)).
  change (isdigit "p") with false. change (is_char "p" dquote) with false.
  change (is_char "p" "[") with false. change (isalpha "p") with true. cbv iota.
  rewrite (bind_at _ _ _ _ _ Htok).
  rewrite (bind_at _ _ _ _ _ (at_char_skipWhitespace _ _ H5)).
  rewrite (bind_at _ _ _ _ _ (at_char_peek _ _ H5)).
  change (is_char "(" "(") with true. cbv iota.
  rewrite (bind_at _ _ _ _ _ (at_char_advance _ _ H5)).
  unfold set_pos. simpl src. simpl pos.
  assert (at_char (mkParser (print_literal t) 6) dquote) as H6.
  { rewrite print_literal_text.
    exact (at_char_append "print(" dquote (t +:+ String dquote ")") eq_refl). }
  assert (parse_items (S (S (S n))) (parseExpression (S (S (S n)))) ")" []
            (mkParser (print_literal t) 6)
          = (Ret [StringNode t], mkParser (print_literal t) (String.length t + 8)))
    as Hitems.
  { change (parse_items (S (S (S n))) (parseExpression (S (S (S n)))) ")" [])
      with (c <- peek ;;
            if is_char c ")" then ret []
            else
              (e <- parseExpression (S (S (S n))) ;;
               skipWhitespace ;;;
               c' <- peek ;;
               (if is_char c' "," then advance ;;; ret tt else ret tt) ;;;
               parse_items (S (S n)) (parseExpression (S (S (S n)))) ")" ([] ++ [e]))).
    rewrite (bind_at _ _ _ _ _ (at_char_peek _ _ H6)).
    change (is_char dquote ")") with false. cbv iota.
    rewrite (bind_at _ _ _ _ _ (print_literal_argument (S n))).
    rewrite (bind_at _ _ _ _ _ (at_char_skipWhitespace _ _ Hc)).
    rewrite (bind_at _ _ _ _ _ (at_char_peek _ _ Hc)).
    change (is_char ")" ",") with false. cbv iota.
    unfold bind at 1. unfold ret at 1.
    change (parse_items (S (S n)) (parseExpression (S (S (S n)))) ")" ([] ++ [StringNode t]))
      with (c <- peek ;;
            if is_char c ")" then ret [StringNode t]
            else
              (e <- parseExpression (S (S (S n))) ;;
               skipWhitespace ;;;
               c' <- peek ;;
               (if is_char c' "," then advance ;;; ret tt else ret tt) ;;;
               parse_items (S n) (parseExpression (S (S (S n)))) ")"
                 ([StringNode t] ++ [e]))).
    rewrite (bind_at _ _ _ _ _ (at_char_peek _ _ Hc)).
    reflexivity. }
  rewrite (bind_at _ _ _ _ _ Hitems).
  rewrite (bind_at _ _ _ _ _ (at_char_advance _ _ Hc)).
  unfold ret, set_pos. simpl src. simpl pos. f_equal. f_equal. lia.
Qed.

Lemma print_literal_statement (n : nat) :
  parseStatement (S (S (S (S (S n))))) (mkParser (print_literal t) 0)
  = (Ret (CallNode "print" [StringNode t]),
     mkParser (print_literal t) (String.length t + 9)).
Proof.
  pose proof print_literal_at_0 as H0.
  change (parseStatement (S (S (S (S (S n))))))
    with (parseStatement_with (S (S (S (S n)))) (parseExpression (S (S (S (S n)))))
            (parseBlock (S (S (S (S n)))) (parseStatement (S (S (S (S n))))))).
  unfold parseStatement_with.
  rewrite (bind_at _ _ _ _ _ (at_char_skipWhitespace _ _ H0)).
  rewrite (bind_at _ _ _ _ _ (print_literal_word isalpha eq_refl eq_refl)).
  destruct (decide ("print" = "var")) as [E|_]; [discriminate E|].
  destruct (decide ("print" = "if")) as [E|_]; [discriminate E|].
  destruct (decide ("print" = "while")) as [E|_]; [discriminate E|].
  destruct (decide ("print" = "function")) as [E|_]; [discriminate E|].
  unfold bind at 1. unfold set_pos. simpl src. simpl pos.
  change (parseExpression (S (S (S (S n)))))
    with (parseComparison (S (S (S n))) (parseExpression (S (S (S n))))).
  apply parseComparison_single; [apply print_literal_call|].
  apply no_operator_at_end. exact print_literal_at_end.
Qed.

Lemma print_literal_parse (n : nat) :
  parse (S (S (S (S (S n))))) (print_literal t) = Ret [CallNode "print" [StringNode t]].
Proof.
  pose proof print_literal_at_0 as H0. unfold parse.
  assert (statement_end (mkParser (print_literal t) (String.length t + 9))
          = (Ret tt, mkParser (print_literal t) (String.length t + 9))) as Hend.
  { unfold statement_end.
    rewrite (bind_at _ _ _ _ _ (at_end_skipWhitespace _ print_literal_at_end)).
    rewrite (bind_at _ _ _ _ _ (at_end_peek _ print_literal_at_end)).
    reflexivity. }
  rewrite (parse_loop_step _ _ [] (mkParser (print_literal t) 0) _ _ _ _
             ltac:(apply Nat.ltb_lt; exact (proj1 H0))
             (at_char_skipWhitespace _ _ H0)
             ltac:(apply Nat.leb_gt; exact (proj1 H0))
             (print_literal_statement n) Hend).
  now rewrite (parse_loop_done _ _ _ _ print_literal_at_end).
Qed.

End PrintLiteral.

Section PrintLiteralRuns.

Variable clock : nat -> Z.

(** X10: a string literal stands for the characters between its quotes,
    as they are (there are no escapes). For every text [t] without a
    quote, the statement [print("t")] is parsed as the call of [print]
    with the one argument [StringNode t]; and where [print] is the native
    function and no task is pending, [run] writes [t], a space and a
    newline, and changes nothing else. *)
Theorem print_writes_literal (t : string) (fuel : nat) (s : State) :
  string_forall not_quote t = true ->
  lookup globalEnv "print" s = (Ret (native_value printFn), s) ->
  taskQueue s = [] ->
  parse (S (S (S (S (S fuel))))) (print_literal t)
  = Ret [CallNode "print" [StringNode t]]
  /\ run clock (S (S (S (S (S fuel))))) (print_literal t) s
     = (Ret tt, set_cout (cout s +:+ t +:+ " " +:+ endl) s).
Proof.
  intros Ht Hprint Hq.
  pose proof (print_literal_parse t Ht fuel) as Hparse.
  split; [exact Hparse|].
  unfold run, try_catch. unfold bind at 1. rewrite Hparse.
  assert (eval clock (S (S (S (S (S fuel))))) (CallNode "print" [StringNode t]) globalEnv s
          = (Ret null_value, set_cout (cout s +:+ t +:+ " " +:+ endl) s)) as Heval.
  { rewrite eval_CallNode. rewrite (bind_at _ _ _ _ _ Hprint).
    unfold bind, ret. simpl.
    unfold print_call, bind, print_text, set_cout, ret. simpl.
    change (toString (string_value t)) with t.
    now rewrite !append_assoc'. }
  assert (run_statements clock (S (S (S (S (S fuel))))) [CallNode "print" [StringNode t]] s
          = (Ret tt, set_cout (cout s +:+ t +:+ " " +:+ endl) s)) as Hstmts.
  { unfold run_statements, run_statement.
    rewrite (bind_at _ _ _ _ _ (bind_at _ _ _ _ _ Heval)). reflexivity. }
  unfold run_batch. rewrite (bind_at _ _ _ _ _ Hstmts). simpl. now rewrite Hq.
Qed.

End PrintLiteralRuns.

(** [print("hello, world")] at the start of [main]. *)
Lemma print_writes_literal_witness :
  run example_clock 5 (print_literal "hello, world") initial_state
  = (Ret tt, set_cout (cout initial_state +:+ "hello, world" +:+ " " +:+ endl) initial_state).
Proof.
  exact (proj2 (print_writes_literal example_clock "hello, world" 0 initial_state
                  eq_refl eq_refl eq_refl)).
Defined.

(** ** Edge cases of a batch, of [setTimeout] and of the event loop *)

Section BlankProgram.

Lemma skipWhitespace_loop_blank (t : string) :
  string_forall isspace t = true ->
  forall (pre : string) (n : nat), (String.length t <= n)%nat ->
    skipWhitespace_loop n (pre +:+ t) (String.length pre) = String.length (pre +:+ t).
Proof.
  induction t as [|a t IH]; intros Ht pre n Hn.
  - rewrite append_empty_r. apply skipWhitespace_loop_stop.
    now rewrite Nat.ltb_irrefl.
  - simpl in Ht, Hn. apply andb_true_iff in Ht as [Ha Ht].
    destruct n as [|n]; [lia|]. simpl skipWhitespace_loop.
    rewrite char_at_append, Ha.
    rewrite (proj2 (Nat.ltb_lt _ _)) by (rewrite append_length; simpl; lia).
    simpl andb. cbv iota.
    rewrite <- (snoc_append pre a t), <- (snoc_length pre a).
    apply IH; [exact Ht|lia].
Qed.

Variable clock : nat -> Z.

(** X11: a program of white space only (the empty text, or blank lines)
    is parsed as no statement, and, when no task is pending, [run] leaves
    the state as it is. *)
Theorem blank_program_does_nothing (code : string) (fuel : nat) (s : State) :
  string_forall isspace code = true ->
  parse (S fuel) code = Ret []
  /\ (taskQueue s = [] -> run clock (S fuel) code s = (Ret tt, s)).
Proof.
  intros Hblank.
  assert (parse (S fuel) code = Ret []) as Hparse.
  { unfold parse. simpl parse_loop. simpl src. simpl pos.
    destruct (0 <? String.length code)%nat eqn:E; [|reflexivity].
    unfold bind at 1. unfold skipWhitespace. simpl src. simpl pos.
    pose proof (skipWhitespace_loop_blank code Hblank "" (String.length code) (Nat.le_refl _))
      as Hskip.
    rewrite append_empty in Hskip. simpl String.length in Hskip. rewrite Hskip.
    unfold set_pos. simpl src. simpl pos. now rewrite Nat.leb_refl. }
  split; [exact Hparse|].
  intros Hq. unfold run, try_catch. unfold bind at 1. rewrite Hparse.
  unfold run_batch. simpl. unfold bind at 1. unfold ret at 1. now rewrite Hq.
Qed.

End BlankProgram.

(** Two lines, the second one of two spaces. *)
Lemma blank_program_does_nothing_witness :
  parse 1 (endl +:+ "  " +:+ endl) = Ret [].
Proof.
  exact (proj1 (blank_program_does_nothing example_clock (endl +:+ "  " +:+ endl) 0
                  initial_state eq_refl)).
Defined.

Section SetTimeoutEdges.

Variable clock : nat -> Z.

(** X12: [setTimeout] with fewer than two arguments, or with a first
    argument that is not a user function (a native function such as
    [print] included), returns Null and does nothing: no task is queued,
    the clock is not read, and there is no error. *)
Theorem setTimeout_ignores_other_calls (args : list Value) (s : State) :
  (length args < 2)%nat
  \/ (exists a0 : Value, args !! 0%nat = Some a0 /\ type a0 <> V_FUNC) ->
  setTimeout_call clock args s = (Ret null_value, s).
Proof.
  intros H. unfold setTimeout_call.
  destruct (args !! 0%nat) as [a0|] eqn:E0; [|reflexivity].
  destruct (args !! 1%nat) as [a1|] eqn:E1; [|reflexivity].
  destruct H as [H|(a & Ea & Ht)].
  - apply lookup_lt_Some in E1. lia.
  - injection Ea as <-. destruct (decide (type a0 = V_FUNC)); [contradiction|reflexivity].
Qed.

End SetTimeoutEdges.

(** [setTimeout(print, 0)]. *)
Lemma setTimeout_ignores_other_calls_witness :
  setTimeout_call example_clock [native_value printFn; number_value 0] initial_state
  = (Ret null_value, initial_state).
Proof.
  apply setTimeout_ignores_other_calls. right. exists (native_value printFn).
  split; [reflexivity|discriminate].
Defined.

Section IdleRounds.

Variable clock : nat -> Z.

(** A sweep over tasks none of which is due runs nothing. *)
Lemma sweep_idle (fuel : nat) (now : Z) (s : State) :
  (forall t : Task, t ∈ taskQueue s -> now < executeTime t) ->
  forall (n i : nat) (ranTask : bool),
    (length (taskQueue s) - i < n)%nat ->
    sweep clock fuel n now i ranTask s = (Ret ranTask, s).
Proof.
  intros Hlate n. induction n as [|n IH]; intros i ranTask Hn; [lia|].
  simpl. destruct (taskQueue s !! i) as [t|] eqn:Et; [|reflexivity].
  assert (now < executeTime t) as Ht by (apply Hlate; eapply list_elem_of_lookup_2; eauto).
  apply Z.leb_gt in Ht. rewrite Ht.
  apply IH. apply lookup_lt_Some in Et. lia.
Qed.

Lemma event_loop_idle_round (fuel n : nat) (s : State) :
  taskQueue s <> [] -> (length (taskQueue s) < fuel)%nat ->
  (forall t : Task, t ∈ taskQueue s -> clock (ticks s) < executeTime t) ->
  event_loop clock fuel (S n) s
  = event_loop clock fuel n (set_slept (slept s + 10) (set_ticks (S (ticks s)) s)).
Proof.
  intros Hq Hfuel Hlate. simpl.
  destruct (taskQueue s) as [|t q] eqn:E; [contradiction|].
  unfold bind at 1. unfold getCurrentTime at 1.
  rewrite (bind_at _ _ _ _ _
             (sweep_idle fuel (clock (ticks s)) (set_ticks (S (ticks s)) s)
                ltac:(simpl; rewrite E; exact Hlate) fuel 0%nat false
                ltac:(simpl; rewrite E; simpl in *; lia))).
  unfold bind at 1. simpl taskQueue. rewrite E.
  rewrite bool_decide_eq_false_2 by discriminate. reflexivity.
Qed.

(** X13: the event loop waits. As long as the readings of the clock are
    before the due time of every pending task, a round of the loop reads
    the clock once, runs no task, erases none and sleeps for 10 ms: after
    [k] such rounds the state is the one before them but for the [k]
    readings and the [10 * k] milliseconds of sleep. The loop does not
    return while every reading is before every due time. *)
Theorem event_loop_waits (fuel : nat) (s : State) :
  taskQueue s <> [] -> (length (taskQueue s) < fuel)%nat ->
  (forall k : nat,
     (forall (j : nat) (t : Task),
        (j < k)%nat -> t ∈ taskQueue s -> clock (ticks s + j) < executeTime t) ->
     forall n : nat,
       event_loop clock fuel (k + n) s
       = event_loop clock fuel n
           (set_slept (slept s + 10 * Z.of_nat k) (set_ticks (ticks s + k) s)))
  /\ ((forall (j : nat) (t : Task),
         t ∈ taskQueue s -> clock (ticks s + j) < executeTime t) ->
      forall n : nat, fst (event_loop clock fuel n s) = OutOfFuel).
Proof.
  intros Hq Hfuel.
  assert (forall k : nat,
     (forall (j : nat) (t : Task),
        (j < k)%nat -> t ∈ taskQueue s -> clock (ticks s + j) < executeTime t) ->
     forall n : nat,
       event_loop clock fuel (k + n) s
       = event_loop clock fuel n
           (set_slept (slept s + 10 * Z.of_nat k) (set_ticks (ticks s + k) s))) as Hwait.
  { intros k. induction k as [|k IH]; intros Hlate n.
    - rewrite Nat.add_0_r, Z.mul_0_r, Z.add_0_r. simpl. now destruct s.
    - replace (S k + n)%nat with (k + S n)%nat by lia.
      rewrite IH by (intros j t Hj; apply Hlate; lia).
      rewrite event_loop_idle_round; [|exact Hq|exact Hfuel|].
      + unfold set_slept, set_ticks. simpl. rewrite Nat.add_succ_r.
        do 2 f_equal. lia.
      + intros t Ht. simpl in *. apply Hlate; [lia|exact Ht]. }
  split; [exact Hwait|].
  intros Hlate n.
  pose proof (Hwait n (fun j t _ => Hlate j t) 0%nat) as H.
  rewrite Nat.add_0_r in H. now rewrite H.
Qed.

End IdleRounds.

(** The task that is due at 1010, pending at the second reading (1001):
    five rounds pass without it, with 50 ms of sleep. *)
Lemma event_loop_waits_witness :
  event_loop example_clock 20 (5 + 15) late_task_pending
  = event_loop example_clock 20 15
      (set_slept (slept late_task_pending + 10 * Z.of_nat 5)
         (set_ticks (ticks late_task_pending + 5) late_task_pending)).
Proof.
  assert (taskQueue late_task_pending
          = [mkTask 1010 (function_value []
                            (BlockNode [CallNode "print" [StringNode "late"]]) globalEnv)])
    as Hq by (vm_compute; reflexivity).
  assert (ticks late_task_pending = 1%nat) as Ht by (vm_compute; reflexivity).
  refine (proj1 (event_loop_waits example_clock 20 late_task_pending _ _) 5%nat _ 15%nat).
  - rewrite Hq. discriminate.
  - rewrite Hq. simpl. lia.
  - intros j t Hj Hin. rewrite Hq in Hin. apply list_elem_of_singleton in Hin. subst t.
    rewrite Ht. unfold example_clock. simpl executeTime. lia.
Defined.

(** ** Runs of digits, and lists that are not closed *)

Section NumberTokens.

Lemma digits_prefix_all (a : string) :
  string_forall isdigit a = true -> digits_prefix a = (a, "").
Proof.
  induction a as [|c a IH]; intros H; [reflexivity|].
  simpl in H. apply andb_true_iff in H as [Hc Ha].
  simpl. rewrite Hc, (IH Ha). reflexivity.
Qed.

Lemma digits_prefix_span (a : string) (c : ascii) (rest : string) :
  string_forall isdigit a = true -> isdigit c = false ->
  digits_prefix (a +:+ String c rest) = (a, String c rest).
Proof.
  intros Ha Hc. induction a as [|x a IH].
  - rewrite append_empty. simpl. now rewrite Hc.
  - simpl in Ha. apply andb_true_iff in Ha as [Hx Ha].
    rewrite append_cons. simpl. rewrite Hx, (IH Ha). reflexivity.
Qed.

End NumberTokens.

Section UnclosedList.

(** At the end of the text the expression parser returns the null
    pointer, and does not move. *)
Lemma parseExpression_at_end (fuel : nat) (p : Parser) :
  (String.length (src p) <= pos p)%nat ->
  parseExpression fuel p = (Ret NullNode, p) \/ fst (parseExpression fuel p) = OutOfFuel.
Proof.
  intros Hend. destruct fuel as [|[|fuel]].
  - right. reflexivity.
  - right. change (parseExpression 1) with (parseComparison 0 (parseExpression 0)).
    unfold parseComparison. apply bind_out_of_fuel.
    unfold parseAdditive. apply bind_out_of_fuel.
    unfold parseMultiplicative.
    assert (parsePrimary 0 (parseExpression 0) p = (Ret NullNode, p)) as Hprim.
    { unfold parsePrimary.
      rewrite (bind_at _ _ _ _ _ (at_end_skipWhitespace p Hend)).
      rewrite (bind_at _ _ _ _ _ (at_end_peek p Hend)). reflexivity. }
    rewrite (bind_at _ _ _ _ _ Hprim). reflexivity.
  - left. change (parseExpression (S (S fuel)))
      with (parseComparison (S fuel) (parseExpression (S fuel))).
    apply parseComparison_single; [|now apply no_operator_at_end].
    unfold parsePrimary.
    rewrite (bind_at _ _ _ _ _ (at_end_skipWhitespace p Hend)).
    rewrite (bind_at _ _ _ _ _ (at_end_peek p Hend)). reflexivity.
Qed.

Lemma parseExpression_at_end_null (fuel : nat) (p : Parser) :
  (String.length (src p) <= pos p)%nat ->
  parseExpression (S (S fuel)) p = (Ret NullNode, p).
Proof.
  intros Hend. change (parseExpression (S (S fuel)))
    with (parseComparison (S fuel) (parseExpression (S fuel))).
  apply parseComparison_single; [|now apply no_operator_at_end].
  unfold parsePrimary.
  rewrite (bind_at _ _ _ _ _ (at_end_skipWhitespace p Hend)).
  rewrite (bind_at _ _ _ _ _ (at_end_peek p Hend)). reflexivity.
Qed.

(** The loop over the elements of a list that is not closed. *)
Lemma parse_items_at_end (fuel : nat) (close : ascii) (p : Parser) :
  (String.length (src p) <= pos p)%nat -> close <> NUL ->
  forall (n : nat) (items : list ASTNode),
    fst (parse_items n (parseExpression fuel) close items p) = OutOfFuel.
Proof.
  intros Hend Hclose n. induction n as [|n IH]; intros items; [reflexivity|].
  simpl. rewrite (bind_at _ _ _ _ _ (at_end_peek p Hend)).
  unfold is_char. rewrite bool_decide_eq_false_2 by congruence.
  destruct (parseExpression_at_end fuel p Hend) as [He|He].
  - rewrite (bind_at _ _ _ _ _ He).
    rewrite (bind_at _ _ _ _ _ (at_end_skipWhitespace p Hend)).
    rewrite (bind_at _ _ _ _ _ (at_end_peek p Hend)).
    change (bool_decide (NUL = ","%char)) with false. cbv iota.
    unfold bind at 1. unfold ret at 1. apply IH.
  - now apply bind_out_of_fuel.
Qed.

(** X15: a list of arguments or of array elements that is not closed
    before the text ends is not parsed. At the end of the text the
    expression parser returns the null pointer without moving; a round of
    the loop over the elements takes it for an element and is where it
    was, so the loop returns no list, and [parse] returns no statements
    for the texts [[] and [f(]. (Each round makes the vector of elements
    longer; what happens when it can no longer grow is not described.) *)
Theorem unclosed_list_is_not_parsed :
  (forall (fuel : nat) (p : Parser),
     (String.length (src p) <= pos p)%nat ->
     parseExpression (S (S fuel)) p = (Ret NullNode, p))
  /\ (forall (fuel n : nat) (close : ascii) (items : list ASTNode) (p : Parser),
        (String.length (src p) <= pos p)%nat -> close <> NUL ->
        parse_items (S n) (parseExpression (S (S fuel))) close items p
        = parse_items n (parseExpression (S (S fuel))) close (items ++ [NullNode]) p)
  /\ (forall (fuel n : nat) (close : ascii) (items found : list ASTNode) (p p' : Parser),
        (String.length (src p) <= pos p)%nat -> close <> NUL ->
        parse_items n (parseExpression fuel) close items p <> (Ret found, p'))
  /\ (forall (fuel : nat) (stmts : list ASTNode), parse fuel "[" <> Ret stmts)
  /\ (forall (fuel : nat) (stmts : list ASTNode), parse fuel "f(" <> Ret stmts).
Proof.
  split; [intros fuel p Hend; now apply parseExpression_at_end_null|].
  split.
  { intros fuel n close items p Hend Hclose. simpl.
    rewrite (bind_at _ _ _ _ _ (at_end_peek p Hend)).
    unfold is_char at 1. rewrite bool_decide_eq_false_2 by congruence.
    rewrite (bind_at _ _ _ _ _ (parseExpression_at_end_null fuel p Hend)).
    rewrite (bind_at _ _ _ _ _ (at_end_skipWhitespace p Hend)).
    rewrite (bind_at _ _ _ _ _ (at_end_peek p Hend)).
    reflexivity. }
  split.
  { intros fuel n close items found p p' Hend Hclose E.
    pose proof (parse_items_at_end fuel close p Hend Hclose n items) as H.
    rewrite E in H. discriminate. }
  cut ((forall fuel : nat, parse fuel "[" = OutOfFuel)
       /\ (forall fuel : nat, parse fuel "f(" = OutOfFuel)).
  { intros [H1 H2]. split; intros fuel stmts; [rewrite H1|rewrite H2]; discriminate. }
  assert (forall (fuel n : nat) (code : string) (k : nat) (c close : ascii),
            at_char (mkParser code k) c -> String.length code = S k ->
            isdigit c = false -> is_char c dquote = false ->
            (is_char c "[" = true /\ close = "]"%char) ->
            fst (parsePrimary n (parseExpression fuel) (mkParser code k)) = OutOfFuel)
    as Harray.
  { intros fuel n code k c close Hat Hlen Hd Hq [Hb ->]. unfold parsePrimary.
    rewrite (bind_at _ _ _ _ _ (at_char_skipWhitespace _ _ Hat)).
    rewrite (bind_at _ _ _ _ _ (at_char_peek _ _ Hat)).
    rewrite Hd, Hq, Hb.
    rewrite (bind_at _ _ _ _ _ (at_char_advance _ _ Hat)).
    apply bind_out_of_fuel. apply parse_items_at_end; [|discriminate].
    simpl. lia. }
  split.
  - intros fuel.
    do 3 (destruct fuel as [|fuel]; [reflexivity|]).
    unfold parse.
    apply (parse_loop_stuck _ _ _ (mkParser "[" 0) (mkParser "[" 0));
      [reflexivity|reflexivity|reflexivity|].
    pose proof (at_char_append "" "[" "" eq_refl) as Hat.
    change (parseStatement (S (S (S fuel))))
      with (parseStatement_with (S (S fuel)) (parseExpression (S (S fuel)))
              (parseBlock (S (S fuel)) (parseStatement (S (S fuel))))).
    rewrite (at_char_parseStatement_with _ _ Hat) by reflexivity.
    change (parseExpression (S (S fuel)))
      with (parseComparison (S fuel) (parseExpression (S fuel))).
    unfold parseComparison. apply bind_out_of_fuel.
    unfold parseAdditive. apply bind_out_of_fuel.
    unfold parseMultiplicative. apply bind_out_of_fuel.
    apply (Harray _ _ "[" 0%nat "["%char "]"%char Hat eq_refl eq_refl eq_refl).
    split; reflexivity.
  - intros fuel.
    do 3 (destruct fuel as [|fuel]; [reflexivity|]).
    unfold parse.
    apply (parse_loop_stuck _ _ _ (mkParser "f(" 0) (mkParser "f(" 0));
      [reflexivity|reflexivity|reflexivity|].
    change (parseStatement (S (S (S fuel))))
      with (parseStatement_with (S (S fuel)) (parseExpression (S (S fuel)))
              (parseBlock (S (S fuel)) (parseStatement (S (S fuel))))).
    assert (parseStatement_with (S (S fuel)) (parseExpression (S (S fuel)))
              (parseBlock (S (S fuel)) (parseStatement (S (S fuel)))) (mkParser "f(" 0)
            = parseExpression (S (S fuel)) (mkParser "f(" 0)) as -> by reflexivity.
    change (parseExpression (S (S fuel)))
      with (parseComparison (S fuel) (parseExpression (S fuel))).
    unfold parseComparison. apply bind_out_of_fuel.
    unfold parseAdditive. apply bind_out_of_fuel.
    unfold parseMultiplicative. apply bind_out_of_fuel.
    assert (parsePrimary (S fuel) (parseExpression (S fuel)) (mkParser "f(" 0)
            = (args <- parse_items (S fuel) (parseExpression (S fuel)) ")" [] ;;
               advance ;;; ret (CallNode "f" args)) (mkParser "f(" 2)) as -> by reflexivity.
    apply bind_out_of_fuel. apply parse_items_at_end; [|discriminate].
    simpl. lia.
Qed.

End UnclosedList.

(** ** The trees the parser builds *)

Section ParserGrammar.

Ltac in_list := repeat first [apply list_elem_of_here | apply list_elem_of_further].

Lemma yields_ret {A : Type} (a : A) (Q : A -> Prop) : Q a -> yields (ret a) Q.
Proof. intros H p p' b E. injection E as <- _. exact H. Qed.

Lemma yields_bind {A B : Type} (m : PM A) (k : A -> PM B) (P : A -> Prop)
    (Q : B -> Prop) :
  yields m P -> (forall a : A, P a -> yields (k a) Q) -> yields (bind m k) Q.
Proof.
  intros Hm Hk p p' b E. apply bind_ret_inv in E as (a & p1 & Ea & Eb).
  exact (Hk a (Hm _ _ _ Ea) _ _ _ Eb).
Qed.

Lemma yields_bind_any {A B : Type} (m : PM A) (k : A -> PM B) (Q : B -> Prop) :
  (forall a : A, yields (k a) Q) -> yields (bind m k) Q.
Proof.
  intros Hk. apply (yields_bind m k (fun _ => True)); [intros p p' a _; exact I|auto].
Qed.

Lemma yields_fail {A : Type} (o : Outcome A) (Q : A -> Prop) :
  (forall a : A, o <> Ret a) -> yields (fun p => (o, p)) Q.
Proof. intros H p p' a E. injection E as E _. now apply H in E. Qed.

(** The token read at an operator character is that character, followed
    by [=] only behind [=], [!], [<] or [>]. *)
Lemma parseToken_operator (p p' : Parser) (c : ascii) (op : string) :
  at_char p c -> isalpha c = false -> isdigit c = false -> is_char c dquote = false ->
  parseToken p = (Ret op, p') ->
  op = String c ""
  \/ (op = String c "="
      /\ (c = "="%char \/ c = "!"%char \/ c = "<"%char \/ c = ">"%char)).
Proof.
  intros Hat Ha Hd Hq H. unfold parseToken in H.
  rewrite (bind_at _ _ _ _ _ (at_char_skipWhitespace p c Hat)) in H.
  destruct Hat as (Hpos & Hc & Hsp).
  rewrite (proj2 (Nat.leb_gt _ _) Hpos) in H.
  rewrite (bind_at _ _ _ _ _ (at_char_peek p c (conj Hpos (conj Hc Hsp)))) in H.
  rewrite Ha, Hd, Hq in H.
  rewrite (bind_at _ _ _ _ _ (at_char_advance p c (conj Hpos (conj Hc Hsp)))) in H.
  rewrite (bind_at _ _ _ _ _ (peek_cur _)) in H.
  destruct ((bool_decide (String c "" = "=") || bool_decide (String c "" = "!")
             || bool_decide (String c "" = "<") || bool_decide (String c "" = ">"))
            && is_char (cur (set_pos (S (pos p)) p)) "=") eqn:E.
  - apply andb_true_iff in E as [E1 E2].
    apply bind_ret_inv in H as (b & p1 & Hb & H). injection H as <- _.
    unfold advance in Hb. destruct (_ <=? _)%nat; [|discriminate].
    injection Hb as <- _.
    unfold is_char in E2. apply bool_decide_eq_true_1 in E2.
    unfold cur in E2. simpl in E2.
    destruct (_ <=? _)%nat; [discriminate|]. simpl. rewrite E2.
    right. split; [reflexivity|].
    repeat (apply orb_true_iff in E1 as [E1|E1]);
      apply bool_decide_eq_true_1 in E1; injection E1 as ->; auto.
  - injection H as <- _. left. reflexivity.
Qed.

(** A character where [peek] says it is not the null character. *)
Lemma peeked_at_char (p0 p p' : Parser) (c : ascii) :
  skipWhitespace p0 = (Ret tt, p) -> peek p = (Ret c, p') -> c <> NUL ->
  p' = p /\ at_char p c.
Proof.
  intros Hs Hp Hc. rewrite peek_cur in Hp. injection Hp as <- <-.
  split; [reflexivity|]. unfold cur in *.
  destruct (String.length (src p) <=? pos p)%nat eqn:E; [contradiction|].
  apply Nat.leb_gt in E. split; [exact E|]. split; [reflexivity|].
  unfold skipWhitespace in Hs. injection Hs as <-. simpl in *.
  pose proof (skipWhitespace_loop_stops (src p0) (pos p0)) as Hstop. simpl in Hstop.
  apply andb_false_iff in Hstop as [Hstop|Hstop]; [|exact Hstop].
  apply Nat.ltb_ge in Hstop. lia.
Qed.

Section Expressions.

Variable pe : PM ASTNode.
Hypothesis pe_form : yields pe (fun n => expression_form n = true).

Lemma parse_items_form (close : ascii) (n : nat) :
  forall items : list ASTNode,
    forallb expression_form items = true ->
    yields (parse_items n pe close items) (fun l => forallb expression_form l = true).
Proof.
  induction n as [|n IH]; intros items Hitems; simpl.
  { intros p p' a E. discriminate. }
  apply yields_bind_any. intros c.
  destruct (is_char c close); [now apply yields_ret|].
  apply (yields_bind _ _ _ _ pe_form). intros e He.
  apply yields_bind_any. intros _.
  apply yields_bind_any. intros c'.
  apply yields_bind_any. intros _.
  apply IH. rewrite forallb_app, Hitems. simpl. now rewrite He.
Qed.

Lemma parsePrimary_form (n : nat) :
  yields (parsePrimary n pe) (fun e => expression_form e = true).
Proof.
  unfold parsePrimary.
  apply yields_bind_any. intros _.
  apply yields_bind_any. intros c.
  destruct (isdigit c).
  { apply yields_bind_any. intros t p p' a E.
    destruct (stod t); try discriminate. now injection E as <- _. }
  destruct (is_char c dquote).
  { apply yields_bind_any. intros s. now apply yields_ret. }
  destruct (is_char c "[").
  { apply yields_bind_any. intros _.
    apply (yields_bind _ _ _ _ (parse_items_form "]" n [] eq_refl)). intros l Hl.
    apply yields_bind_any. intros _. now apply yields_ret. }
  destruct (isalpha c); [|now apply yields_ret].
  apply yields_bind_any. intros name.
  apply yields_bind_any. intros _.
  apply yields_bind_any. intros c'.
  destruct (is_char c' "("); [|now apply yields_ret].
  apply yields_bind_any. intros _.
  apply (yields_bind _ _ _ _ (parse_items_form ")" n [] eq_refl)). intros l Hl.
  apply yields_bind_any. intros _. now apply yields_ret.
Qed.

(** The operator of a chain is one of the characters [is_op] accepts. *)
Lemma binary_chain_form (operand : PM ASTNode) (is_op : ascii -> bool) :
  yields operand (fun e => expression_form e = true) ->
  (forall c : ascii, is_op c = true ->
     isalpha c = false /\ isdigit c = false /\ is_char c dquote = false /\ c <> NUL
     /\ String c "" ∈ parser_operators
     /\ (c = "="%char \/ c = "!"%char \/ c = "<"%char \/ c = ">"%char ->
         String c "=" ∈ parser_operators)) ->
  forall (n : nat) (left_ : ASTNode),
    expression_form left_ = true ->
    yields (binary_chain n operand is_op left_) (fun e => expression_form e = true).
Proof.
  intros Hoperand Hops n. induction n as [|n IH]; intros left_ Hleft; simpl.
  { intros p p' a E. discriminate. }
  intros p p' a E.
  apply bind_ret_inv in E as ([] & p1 & Hskip & E).
  apply bind_ret_inv in E as (c & p2 & Hpeek & E).
  destruct (is_op c) eqn:Hc; simpl in E.
  - destruct (Hops c Hc) as (Ha & Hd & Hq & Hnul & Hin & Hin').
    destruct (peeked_at_char _ _ _ _ Hskip Hpeek Hnul) as [-> Hat].
    apply bind_ret_inv in E as (op & p3 & Hop & E).
    apply bind_ret_inv in E as (right_ & p4 & Hright & E).
    apply (IH (BinaryOpNode op left_ right_)) in E; [exact E|].
    simpl. rewrite Hleft, (Hoperand _ _ _ Hright).
    rewrite bool_decide_eq_true_2; [reflexivity|].
    destruct (parseToken_operator _ _ _ _ Hat Ha Hd Hq Hop) as [->|[-> Hc']]; auto.
  - injection E as <- _. exact Hleft.
Qed.

Lemma multiplicative_operators (c : ascii) :
  is_char c "*" || is_char c "/" = true ->
  isalpha c = false /\ isdigit c = false /\ is_char c dquote = false /\ c <> NUL
  /\ String c "" ∈ parser_operators
  /\ (c = "="%char \/ c = "!"%char \/ c = "<"%char \/ c = ">"%char ->
      String c "=" ∈ parser_operators).
Proof.
  intros H. apply orb_true_iff in H as [H|H]; apply bool_decide_eq_true_1 in H; subst c;
    (repeat split; try reflexivity; try discriminate;
     [in_list|intros [E|[E|[E|E]]]; discriminate]).
Qed.

Lemma additive_operators (c : ascii) :
  is_char c "+" || is_char c "-" = true ->
  isalpha c = false /\ isdigit c = false /\ is_char c dquote = false /\ c <> NUL
  /\ String c "" ∈ parser_operators
  /\ (c = "="%char \/ c = "!"%char \/ c = "<"%char \/ c = ">"%char ->
      String c "=" ∈ parser_operators).
Proof.
  intros H. apply orb_true_iff in H as [H|H]; apply bool_decide_eq_true_1 in H; subst c;
    (repeat split; try reflexivity; try discriminate;
     [in_list|intros [E|[E|[E|E]]]; discriminate]).
Qed.

Lemma parseAdditive_form (n : nat) :
  yields (parseAdditive n pe) (fun e => expression_form e = true).
Proof.
  assert (yields (parseMultiplicative n pe) (fun e => expression_form e = true)) as Hm.
  { unfold parseMultiplicative.
    apply (yields_bind _ _ _ _ (parsePrimary_form n)). intros left_ Hleft.
    apply binary_chain_form;
      [apply parsePrimary_form|apply multiplicative_operators|exact Hleft]. }
  unfold parseAdditive.
  apply (yields_bind _ _ _ _ Hm). intros left_ Hleft.
  apply binary_chain_form; [exact Hm|apply additive_operators|exact Hleft].
Qed.

Lemma parseComparison_form (n : nat) :
  yields (parseComparison n pe) (fun e => expression_form e = true).
Proof.
  unfold parseComparison. intros p p' a E.
  apply bind_ret_inv in E as (left_ & p1 & Hleft & E).
  apply parseAdditive_form in Hleft.
  apply bind_ret_inv in E as ([] & p2 & Hskip & E).
  apply bind_ret_inv in E as (c & p3 & Hpeek & E).
  destruct (is_char c ">" || is_char c "<" || is_char c "=") eqn:Hc.
  - apply bind_ret_inv in E as (op & p4 & Hop & E).
    apply bind_ret_inv in E as (right_ & p5 & Hright & E).
    apply parseAdditive_form in Hright. injection E as <- _.
    simpl. rewrite Hleft, Hright.
    rewrite bool_decide_eq_true_2; [reflexivity|].
    assert (c = ">"%char \/ c = "<"%char \/ c = "="%char) as Hc'.
    { repeat (apply orb_true_iff in Hc as [Hc|Hc]);
        apply bool_decide_eq_true_1 in Hc; auto. }
    assert (c <> NUL) as Hnul by (destruct Hc' as [-> | [-> | ->]]; discriminate).
    destruct (peeked_at_char _ _ _ _ Hskip Hpeek Hnul) as [-> Hat].
    assert (isalpha c = false /\ isdigit c = false /\ is_char c dquote = false)
      as (Ha & Hd & Hq) by (destruct Hc' as [-> | [-> | ->]]; repeat split; reflexivity).
    destruct (parseToken_operator _ _ _ _ Hat Ha Hd Hq Hop) as [->|[-> Heq]];
      destruct Hc' as [-> | [-> | ->]]; in_list.
  - injection E as <- _. exact Hleft.
Qed.

End Expressions.

Lemma parseExpression_form (fuel : nat) :
  yields (parseExpression fuel) (fun e => expression_form e = true).
Proof.
  induction fuel as [|fuel IH]; [intros p p' a E; discriminate|].
  simpl. now apply parseComparison_form.
Qed.

Lemma expression_is_statement (n : ASTNode) :
  expression_form n = true -> statement_form n = true.
Proof. destruct n; simpl; auto; discriminate. Qed.

Section Statements.

Variable ps : PM ASTNode.
Hypothesis ps_form : yields ps (fun n => statement_form n = true).

Lemma block_statements_form (n : nat) :
  forall statements : list ASTNode,
    forallb statement_form statements = true ->
    yields (block_statements n ps statements) (fun l => forallb statement_form l = true).
Proof.
  induction n as [|n IH]; intros statements Hs; simpl.
  { intros p p' a E. discriminate. }
  apply yields_bind_any. intros c p.
  destruct (negb (is_char c "}") && (pos p <? String.length (src p))%nat).
  - assert (yields (st <- ps ;; skipWhitespace ;;;
                    block_statements n ps (statements ++ [st]))
                   (fun l => forallb statement_form l = true)) as Hy; [|exact (Hy p)].
    apply (yields_bind _ _ _ _ ps_form). intros st Hst.
    apply yields_bind_any. intros _.
    apply IH. rewrite forallb_app, Hs. simpl. now rewrite Hst.
  - intros p' a E. now injection E as <- _.
Qed.

Lemma parseBlock_form (n : nat) :
  yields (parseBlock n ps)
         (fun b => match b with
                   | BlockNode statements => forallb statement_form statements = true
                   | _ => False
                   end).
Proof.
  unfold parseBlock.
  apply yields_bind_any. intros _.
  apply (yields_bind _ _ _ _ (block_statements_form n [] eq_refl)). intros l Hl.
  apply yields_bind_any. intros _. now apply yields_ret.
Qed.

End Statements.

Lemma parseStatement_with_form (n : nat) (pe pb : PM ASTNode) :
  yields pe (fun e => expression_form e = true) ->
  yields pb (fun b => match b with
                      | BlockNode statements => forallb statement_form statements = true
                      | _ => False
                      end) ->
  yields (parseStatement_with n pe pb) (fun st => statement_form st = true).
Proof.
  intros Hpe Hpb. unfold parseStatement_with.
  apply yields_bind_any. intros _ p0.
  apply yields_bind_any. intros tokenStr.
  destruct (decide (tokenStr = "var")).
  { apply yields_bind_any. intros _.
    apply yields_bind_any. intros name.
    apply yields_bind_any. intros _.
    apply yields_bind_any. intros _.
    apply (yields_bind _ _ _ _ Hpe). intros val Hval.
    apply yields_bind_any. intros _.
    apply yields_bind_any. intros c.
    apply yields_bind_any. intros _. now apply yields_ret. }
  destruct (decide (tokenStr = "if")).
  { apply yields_bind_any. intros _.
    apply yields_bind_any. intros _.
    apply (yields_bind _ _ _ _ Hpe). intros cond Hcond.
    apply yields_bind_any. intros _.
    apply yields_bind_any. intros _.
    apply (yields_bind _ _ _ _ Hpb). intros thenB HthenB.
    apply yields_bind_any. intros _.
    apply yields_bind_any. intros nxt.
    destruct (decide (nxt = "else")).
    - apply yields_bind_any. intros _.
      apply yields_bind_any. intros _.
      apply (yields_bind _ _ _ _ Hpb). intros elseB HelseB.
      apply yields_ret. simpl. rewrite Hcond.
      destruct thenB; try contradiction. destruct elseB; try contradiction.
      now rewrite HthenB, HelseB.
    - apply yields_ret. simpl. rewrite Hcond.
      destruct thenB; try contradiction. now rewrite HthenB. }
  destruct (decide (tokenStr = "while")).
  { apply yields_bind_any. intros _.
    apply yields_bind_any. intros _.
    apply (yields_bind _ _ _ _ Hpe). intros cond Hcond.
    apply yields_bind_any. intros _.
    apply yields_bind_any. intros _.
    apply (yields_bind _ _ _ _ Hpb). intros body Hbody.
    apply yields_ret. simpl. rewrite Hcond.
    destruct body; try contradiction. now rewrite Hbody. }
  destruct (decide (tokenStr = "function")).
  { apply yields_bind_any. intros _.
    apply yields_bind_any. intros name.
    apply yields_bind_any. intros _.
    apply yields_bind_any. intros params.
    apply yields_bind_any. intros _.
    apply yields_bind_any. intros _.
    apply (yields_bind _ _ _ _ Hpb). intros body Hbody.
    apply yields_ret. simpl. destruct body; try contradiction. exact Hbody. }
  apply yields_bind_any. intros _.
  intros p p' a E. apply expression_is_statement. eapply Hpe; eauto.
Qed.

Lemma parseStatement_form (fuel : nat) :
  yields (parseStatement fuel) (fun st => statement_form st = true).
Proof.
  induction fuel as [|fuel IH]; [intros p p' a E; discriminate|].
  simpl. apply parseStatement_with_form.
  - apply parseExpression_form.
  - now apply parseBlock_form.
Qed.

Lemma parse_loop_form (ps : PM ASTNode) (n : nat) :
  yields ps (fun st => statement_form st = true) ->
  forall stmts : list ASTNode,
    forallb statement_form stmts = true ->
    yields (parse_loop n ps stmts) (fun l => forallb statement_form l = true).
Proof.
  intros Hps. induction n as [|n IH]; intros stmts Hs; simpl.
  { intros p p' a E. discriminate. }
  assert (yields (st <- ps ;; skipWhitespace ;;; c <- peek ;;
                  (if is_char c ";" then advance ;;; ret tt else ret tt) ;;;
                  parse_loop n ps (stmts ++ [st]))
                 (fun l => forallb statement_form l = true)) as Hround.
  { apply (yields_bind _ _ _ _ Hps). intros st Hst.
    apply yields_bind_any. intros _.
    apply yields_bind_any. intros c.
    apply yields_bind_any. intros _.
    apply IH. rewrite forallb_app, Hs. simpl. now rewrite Hst. }
  intros p.
  destruct (pos p <? String.length (src p))%nat; [|intros p' a E; now injection E as <- _].
  assert (yields (skipWhitespace ;;;
                  fun q =>
                  if (String.length (src q) <=? pos q)%nat then (Ret stmts, q)
                  else (st <- ps ;; skipWhitespace ;;; c <- peek ;;
                        (if is_char c ";" then advance ;;; ret tt else ret tt) ;;;
                        parse_loop n ps (stmts ++ [st])) q)
                 (fun l => forallb statement_form l = true)) as Hy; [|exact (Hy p)].
  apply yields_bind_any. intros _ q.
  destruct (String.length (src q) <=? pos q)%nat; [intros q' a E; now injection E as <- _|].
  exact (Hround q).
Qed.

(** X16: the trees that [parse] returns. A statement is an expression, a
    [var] with an expression, an [if] or [while] whose condition is an
    expression and whose branches are blocks of statements (the else
    branch may be missing), or a [function] whose body is a block; an
    expression is built from literals, identifiers, calls, arrays, the
    null pointer and binary operations with one of ten operators. So the
    parser builds no [ObjectNode], and no declaration or block inside an
    expression. Of the ten operators, [=], [>=] and [<=] are not known to
    [BinaryOpNode::eval], which yields Null for them. *)
Theorem parser_output_grammar (fuel : nat) (code : string) (stmts : list ASTNode) :
  parse fuel code = Ret stmts ->
  forallb statement_form stmts = true
  /\ (forall l r : Value,
        binary_op "=" l r = null_value
        /\ binary_op ">=" l r = null_value
        /\ binary_op "<=" l r = null_value).
Proof.
  intros H. split; [|intros l r; repeat split; reflexivity].
  unfold parse in H.
  destruct (parse_loop fuel (parseStatement fuel) [] (mkParser code 0)) as [o p'] eqn:E.
  simpl in H. subst o.
  exact (parse_loop_form _ fuel (parseStatement_form fuel) [] eq_refl _ _ _ E).
Qed.

End ParserGrammar.

(** The statements of the scenario without the inner semicolon. *)
Lemma parser_output_grammar_witness :
  forallb statement_form
    [VarDeclNode "x" (NumberNode 10);
     FunctionDeclNode "add" ["n"]
       (BlockNode [BinaryOpNode "=" (IdentifierNode "x")
                     (BinaryOpNode "+" (IdentifierNode "x") (IdentifierNode "n"))]);
     CallNode "add" [NumberNode 5];
     CallNode "print" [IdentifierNode "x"]] = true.
Proof.
  refine (proj1 (parser_output_grammar 9 scenario_without_semicolon _ _)).
  vm_compute. reflexivity.
Defined.

(** ** The command loop *)

Section CommandLoop.

Variable clock : nat -> Z.

Lemma joined_cons (line : string) (lines : list string) :
  joined (line :: lines) = (line +:+ endl) +:+ joined lines.
Proof.
  unfold joined. simpl. destruct (map _ lines) as [|x l] eqn:E.
  - simpl. now rewrite append_empty_r.
  - reflexivity.
Qed.

Lemma main_loop_collects (fuel : nat) (lines rest : list string) :
  Forall (fun line => line <> "exit" /\ line <> "run") lines ->
  forall code : string,
    main_loop clock fuel (lines ++ rest) code
    = main_loop clock fuel rest (code +:+ joined lines).
Proof.
  induction 1 as [|line lines [Hexit Hrun] _ IH]; intros code.
  - simpl. unfold joined. simpl. now rewrite append_empty_r.
  - simpl. destruct (decide (line = "exit")); [contradiction|].
    destruct (decide (line = "run")); [contradiction|].
    rewrite IH. rewrite joined_cons. now rewrite !append_assoc'.
Qed.

(** X17: the command loop hands to [run] the lines typed since the last
    [run], each followed by a newline, and starts over with an empty text
    (also when the batch failed); at [exit] it returns, and the lines
    typed before it that were not run, and everything behind it, are
    dropped. *)
Theorem main_loop_runs_typed_lines (fuel : nat) (lines rest : list string)
    (code : string) :
  Forall (fun line => line <> "exit" /\ line <> "run") lines ->
  main_loop clock fuel (lines ++ "run" :: rest) code
  = (run clock fuel (code +:+ joined lines) ;;;
     print_text (endl +:+ "Ready." +:+ endl) ;;;
     main_loop clock fuel rest "")
  /\ main_loop clock fuel (lines ++ "exit" :: rest) code = ret tt.
Proof.
  intros H. rewrite !(main_loop_collects fuel lines _ H). split; reflexivity.
Qed.

End CommandLoop.

(** Two lines, then [exit]. *)
Lemma main_loop_runs_typed_lines_witness :
  main_loop example_clock 10 (["var a = 1"; "print(a)"] ++ "exit" :: ["print(a)"; "run"]) ""
  = ret tt.
Proof.
  refine (proj2 (main_loop_runs_typed_lines example_clock 10 ["var a = 1"; "print(a)"]
                   ["print(a)"; "run"] "" _)).
  repeat constructor; discriminate.
Defined.

(** * tinyjs: properties *)

(** ** Scopes and constants *)

Section TinyJSScopes.
Import TinyJS.

Lemma var_kept_refl (v : Variable_) : var_kept v v.
Proof. split; auto. Qed.

Lemma scope_kept_refl (scope : gmap string Variable_) : scope_kept scope scope.
Proof. intros name v H. exists v. split; [exact H|apply var_kept_refl]. Qed.

Lemma scope_kept_trans (a b c : gmap string Variable_) :
  scope_kept a b -> scope_kept b c -> scope_kept a c.
Proof.
  intros Hab Hbc name v H. destruct (Hab name v H) as (v' & H' & [K1 K2]).
  destruct (Hbc name v' H') as (v'' & H'' & [K3 K4]).
  exists v''. split; [exact H''|]. split; [congruence|].
  intros Hc. rewrite K4 by congruence. auto.
Qed.

Lemma scopes_kept_refl (sc : list (gmap string Variable_)) : scopes_kept sc sc.
Proof.
  split; [lia|]. intros i scope H. exists scope. split; [exact H|apply scope_kept_refl].
Qed.

Lemma scopes_kept_trans (a b c : list (gmap string Variable_)) :
  scopes_kept a b -> scopes_kept b c -> scopes_kept a c.
Proof.
  intros [L1 H1] [L2 H2]. split; [lia|]. intros i scope H.
  destruct (H1 i scope H) as (scope' & H' & K). destruct (H2 i scope' H') as (scope'' & H'' & K').
  exists scope''. split; [exact H''|eapply scope_kept_trans; eauto].
Qed.

Lemma leaves_keeps {A : Type} (m : IM A) : leaves_scopes m -> keeps_scopes m.
Proof.
  intros Hm st st' o H. rewrite (Hm _ _ _ H). split; [apply scopes_kept_refl|reflexivity].
Qed.

Lemma leaves_ret {A : Type} (a : A) : leaves_scopes (@ret Interpreter A a).
Proof. intros st st' o H. now injection H as _ <-. Qed.

Lemma leaves_fail {A : Type} (o : Outcome A) : leaves_scopes (fun st => (o, st)).
Proof. intros st st' o' H. now injection H as _ <-. Qed.

Lemma leaves_bind {A B : Type} (m : IM A) (k : A -> IM B) :
  leaves_scopes m -> (forall a : A, leaves_scopes (k a)) -> leaves_scopes (bind m k).
Proof.
  intros Hm Hk st st' o H. unfold bind in H.
  destruct (m st) as [[a| | |] st1] eqn:E;
    try (injection H as _ <-; eapply Hm; eauto).
  rewrite (Hk a _ _ _ H). eapply Hm; eauto.
Qed.

Lemma keeps_scopes_bind {A B : Type} (m : IM A) (k : A -> IM B) :
  keeps_scopes m -> (forall a : A, keeps_scopes (k a)) -> keeps_scopes (bind m k).
Proof.
  intros Hm Hk st st' o H. unfold bind in H.
  destruct (m st) as [[a| | |] st1] eqn:E;
    try (injection H as <- <-; split; [eapply Hm; eauto|discriminate]).
  destruct (Hm _ _ _ E) as [K1 L1]. destruct (Hk a _ _ _ H) as [K2 L2].
  split; [eapply scopes_kept_trans; eauto|].
  intros b Hb. rewrite (L2 b Hb). now apply (L1 a).
Qed.

Lemma leaves_nextToken : leaves_scopes nextToken.
Proof.
  intros st st' o H. unfold nextToken in H.
  destruct (_ <=? _)%nat; [now injection H as _ <-|].
  destruct (isdigit _).
  { destruct (scan _ _ _ _ _) as [numStr j]. now injection H as _ <-. }
  destruct (is_char _ dquote).
  { destruct (scan _ _ _ _ _) as [str j]. now injection H as _ <-. }
  destruct (isalpha _).
  { destruct (scan _ _ _ _ _) as [id j]. now injection H as _ <-. }
  destruct (symbol_token _ _ _) as [[t j]|]; now injection H as _ <-.
Qed.

Lemma leaves_advance_token : leaves_scopes advance_token.
Proof.
  apply leaves_bind; [apply leaves_nextToken|].
  intros t st st' o H. now injection H as _ <-.
Qed.

Lemma leaves_eat (t : TokenType) : leaves_scopes (eat t).
Proof.
  intros st st' o H. unfold eat in H.
  destruct (decide _); [eapply leaves_advance_token; eauto|now injection H as _ <-].
Qed.

Lemma leaves_print_text (t : string) : leaves_scopes (print_text t).
Proof. intros st st' o H. now injection H as _ <-. Qed.

Lemma leaves_operator_loop (ops : list TokenType) (operand : IM Value)
    (combine : TokenType -> Value -> Value -> Value) :
  leaves_scopes operand ->
  forall (n : nat) (left_ : Value), leaves_scopes (operator_loop n ops operand combine left_).
Proof.
  intros Hop n. induction n as [|n IH]; intros left_; [apply leaves_fail|].
  intros st st' o. simpl.
  destruct (bool_decide _); [|intros H; now injection H as _ <-].
  apply leaves_bind; [apply leaves_eat|]. intros _.
  apply leaves_bind; [exact Hop|]. intros right_. apply IH.
Qed.

Lemma leaves_factor (expression : IM Value) :
  leaves_scopes expression -> leaves_scopes (factor expression).
Proof.
  intros He st st' o. unfold factor.
  destruct (decide _).
  { apply leaves_bind; [apply leaves_eat|]. intros _.
    apply leaves_bind; [|intros; apply leaves_ret].
    intros s1 s2 o1 H. unfold lift_stod in H. destruct (stod _); now injection H as _ <-. }
  destruct (decide _).
  { apply leaves_bind; [apply leaves_eat|]. intros _. apply leaves_ret. }
  destruct (decide _).
  { apply leaves_bind; [apply leaves_eat|]. intros _ s1 s2 o1 H.
    destruct (findVar _ _) as [[i v]|]; now injection H as _ <-. }
  destruct (decide _).
  { apply leaves_bind; [apply leaves_eat|]. intros _.
    apply leaves_bind; [exact He|]. intros v.
    apply leaves_bind; [apply leaves_eat|]. intros _. apply leaves_ret. }
  intros H. now injection H as _ <-.
Qed.

(** An expression reads the variables and does not change them. *)
Lemma leaves_expression (fuel : nat) : leaves_scopes (expression fuel).
Proof.
  induction fuel as [|fuel IH]; [apply leaves_fail|].
  assert (leaves_scopes (factor (expression fuel))) as Hf by now apply leaves_factor.
  assert (leaves_scopes (term fuel (factor (expression fuel)))) as Ht.
  { apply leaves_bind; [exact Hf|]. intros. now apply leaves_operator_loop. }
  assert (leaves_scopes (additive fuel (term fuel (factor (expression fuel))))) as Ha.
  { apply leaves_bind; [exact Ht|]. intros. now apply leaves_operator_loop. }
  intros st st' o. simpl.
  apply leaves_bind; [exact Ha|]. intros. now apply leaves_operator_loop.
Qed.

Lemma findVar_found (sc : list (gmap string Variable_)) (name : string) (i : nat)
    (v : Variable_) :
  findVar sc name = Some (i, v) ->
  exists scope : gmap string Variable_, sc !! i = Some scope /\ scope !! name = Some v.
Proof.
  unfold findVar. destruct (findVar_below _ _ _) as [j|]; [|discriminate].
  destruct (sc !! j) as [scope|] eqn:E; [|discriminate].
  destruct (scope !! name) as [w|] eqn:Ew; [|discriminate].
  intros H. injection H as <- <-. eauto.
Qed.

Lemma keeps_declareVar (name : string) (v : Value) (c : bool) :
  keeps_scopes (declareVar name v c).
Proof.
  intros st st' o H. unfold declareVar in H.
  destruct (last (scopes st)) as [scope|] eqn:El;
    [|injection H as _ <-; split; [apply scopes_kept_refl|reflexivity]].
  destruct (decide (is_Some (scope !! name))) as [Hb|Hb];
    injection H as _ <-; [split; [apply scopes_kept_refl|reflexivity]|].
  simpl. rewrite length_insert. split; [|reflexivity].
  split; [now rewrite length_insert|].
  intros i scope0 Hi. rewrite last_lookup in El.
  destruct (decide (i = pred (length (scopes st)))) as [->|Hne].
  - rewrite El in Hi. injection Hi as <-.
    eexists. split; [apply list_lookup_insert_eq; eapply lookup_lt_Some; eauto|].
    intros name' v' Hv'. exists v'. split; [|apply var_kept_refl].
    rewrite lookup_insert_ne; [exact Hv'|]. intros <-. apply Hb. eauto.
  - exists scope0. split; [|apply scope_kept_refl].
    now rewrite list_lookup_insert_ne by congruence.
Qed.

Lemma keeps_assignVar (name : string) (v : Value) : keeps_scopes (assignVar name v).
Proof.
  intros st st' o H. unfold assignVar in H.
  destruct (findVar (scopes st) name) as [[i var]|] eqn:Ef;
    [|injection H as _ <-; split; [apply scopes_kept_refl|reflexivity]].
  destruct (isConst var) eqn:Ec;
    [injection H as _ <-; split; [apply scopes_kept_refl|reflexivity]|].
  destruct (findVar_found _ _ _ _ Ef) as (scope & Hs & Hv). rewrite Hs in H.
  injection H as _ <-. simpl. rewrite length_insert. split; [|reflexivity].
  split; [now rewrite length_insert|].
  intros j scope0 Hj. destruct (decide (j = i)) as [->|Hne].
  - rewrite Hs in Hj. injection Hj as <-.
    eexists. split; [apply list_lookup_insert_eq; eapply lookup_lt_Some; eauto|].
    intros name' v' Hv'. destruct (decide (name' = name)) as [->|Hn].
    + rewrite Hv in Hv'. injection Hv' as <-. eexists. split; [apply lookup_insert_eq|].
      split; [simpl; now rewrite Ec|]. rewrite Ec. discriminate.
    + exists v'. split; [|apply var_kept_refl]. now rewrite lookup_insert_ne by congruence.
  - exists scope0. split; [|apply scope_kept_refl].
    now rewrite list_lookup_insert_ne by congruence.
Qed.

(** What happens between the push and the pop of a scope keeps the
    scopes below it. *)
Lemma keeps_block_body (m k : IM unit) :
  keeps_scopes m -> keeps_scopes k ->
  keeps_scopes (push_scope ;;; m ;;; pop_scope ;;; k).
Proof.
  intros Hm Hk st st' o H. unfold bind at 1 in H. unfold push_scope at 1 in H.
  unfold bind at 1 in H.
  destruct (m (set_scopes (scopes st ++ [∅]) st)) as [om st2] eqn:Em.
  destruct (Hm _ _ _ Em) as [[L2 K2] B2]. simpl in L2, K2, B2.
  rewrite length_app in L2. simpl in L2.
  assert (scopes_kept (scopes st) (scopes st2)) as Hkept2.
  { split; [lia|]. intros i scope Hi. apply K2. now apply lookup_app_l_Some. }
  destruct om as [[]| | |]; try (injection H as <- <-; split; [exact Hkept2|discriminate]).
  specialize (B2 tt eq_refl). rewrite length_app in B2. simpl in B2.
  unfold bind at 1 in H. unfold pop_scope at 1 in H.
  destruct (scopes st2) as [|s0 rest] eqn:E2; [simpl in B2; lia|].
  rewrite <- E2 in *. rewrite removelast_firstn_len in H.
  assert (scopes_kept (scopes st) (take (pred (length (scopes st2))) (scopes st2)))
    as Hkept3.
  { split; [rewrite length_take; lia|].
    intros i scope Hi. destruct (proj2 Hkept2 i scope Hi) as (scope' & Hs' & Ks).
    exists scope'. split; [|exact Ks].
    pose proof (lookup_lt_Some _ _ _ Hi) as Hlt.
    rewrite lookup_take_lt by lia. exact Hs'. }
  destruct (Hk _ _ _ H) as [K4 B4]. simpl in K4, B4.
  split; [eapply scopes_kept_trans; eauto|].
  intros a Ha. rewrite (B4 a Ha). rewrite length_take. lia.
Qed.

Section Statements.

Variable statement : IM unit.
Hypothesis keeps_statement : keeps_scopes statement.

Lemma keeps_block_loop (n : nat) : keeps_scopes (block_loop n statement).
Proof.
  induction n as [|n IH]; [apply leaves_keeps, leaves_fail|].
  intros st st' o. simpl.
  destruct (_ && _); [|intros H; injection H as <- <-; split;
                        [apply scopes_kept_refl|reflexivity]].
  apply keeps_scopes_bind; [exact keeps_statement|]. intros _. exact IH.
Qed.

Lemma keeps_block (n : nat) : keeps_scopes (block n statement).
Proof.
  unfold block. apply keeps_scopes_bind; [apply leaves_keeps, leaves_eat|]. intros _.
  apply keeps_block_body; [apply keeps_block_loop|apply leaves_keeps, leaves_eat].
Qed.

End Statements.

Lemma leaves_skip_branch (n : nat) : forall braces : Z, leaves_scopes (skip_branch n braces).
Proof.
  induction n as [|n IH]; intros braces; [apply leaves_fail|].
  intros st st' o. simpl.
  destruct (_ <=? _); [intros H; now injection H as _ <-|].
  destruct (decide _).
  { destruct (_ <? _); [intros H; now injection H as _ <-|].
    destruct (_ =? _); [apply leaves_eat|].
    apply leaves_bind; [apply leaves_advance_token|]. intros _. apply IH. }
  destruct (decide _); [intros H; now injection H as _ <-|].
  apply leaves_bind; [apply leaves_advance_token|]. intros _. apply IH.
Qed.

Lemma leaves_skip_while (n : nat) : leaves_scopes (skip_while n).
Proof.
  induction n as [|n IH]; [apply leaves_fail|].
  intros st st' o. simpl.
  destruct (_ && _); [|intros H; now injection H as _ <-].
  apply leaves_bind; [apply leaves_advance_token|]. intros _. apply IH.
Qed.

Lemma keeps_statement_with (n : nat) (expression : IM Value) (block statement : IM unit) :
  leaves_scopes expression -> keeps_scopes block -> keeps_scopes statement ->
  keeps_scopes (statement_with n expression block statement).
Proof.
  intros He Hb Hs.
  assert (keeps_scopes (branch block statement)) as Hbranch.
  { intros st st' o. unfold branch. destruct (decide _); [apply Hb|apply Hs]. }
  intros st st' o. unfold statement_with.
  destruct (_ || _).
  { apply keeps_scopes_bind; [apply leaves_keeps, leaves_eat|]. intros _ st1.
    apply keeps_scopes_bind; [apply leaves_keeps, leaves_eat|]. intros _.
    apply keeps_scopes_bind; [apply leaves_keeps, leaves_eat|]. intros _.
    apply keeps_scopes_bind; [apply leaves_keeps, He|]. intros v.
    apply keeps_scopes_bind; [apply keeps_declareVar|]. intros _.
    apply leaves_keeps, leaves_eat. }
  destruct (decide _).
  { apply keeps_scopes_bind; [apply leaves_keeps, leaves_eat|]. intros _.
    apply keeps_scopes_bind; [apply leaves_keeps, He|]. intros v.
    apply keeps_scopes_bind; [apply leaves_keeps, leaves_print_text|]. intros _.
    apply leaves_keeps, leaves_eat. }
  destruct (decide _).
  { apply keeps_scopes_bind; [apply leaves_keeps, leaves_eat|]. intros _.
    apply keeps_scopes_bind; [apply leaves_keeps, leaves_eat|]. intros _.
    apply keeps_scopes_bind; [apply leaves_keeps, He|]. intros cond.
    apply keeps_scopes_bind; [apply leaves_keeps, leaves_eat|]. intros _.
    apply keeps_scopes_bind.
    { destruct (isTruthy cond); [exact Hbranch|apply leaves_keeps, leaves_skip_branch]. }
    intros _ st1. destruct (decide _).
    - apply keeps_scopes_bind; [apply leaves_keeps, leaves_eat|]. intros _.
      destruct (negb _); [exact Hbranch|apply leaves_keeps, leaves_ret].
    - intros st2 o2 H. injection H as <- <-. split; [apply scopes_kept_refl|reflexivity]. }
  destruct (decide _).
  { apply keeps_scopes_bind; [apply leaves_keeps, leaves_print_text|]. intros _.
    apply keeps_scopes_bind; [apply leaves_keeps, leaves_eat|]. intros _.
    apply leaves_keeps, leaves_skip_while. }
  destruct (decide _); [apply Hb|].
  destruct (decide _).
  { apply keeps_scopes_bind; [apply leaves_keeps, leaves_eat|]. intros _.
    apply keeps_scopes_bind; [apply leaves_keeps, leaves_eat|]. intros _.
    apply keeps_scopes_bind; [apply leaves_keeps, He|]. intros v.
    apply keeps_scopes_bind; [apply keeps_assignVar|]. intros _.
    apply leaves_keeps, leaves_eat. }
  apply leaves_keeps, leaves_eat.
Qed.

Lemma keeps_statement_fuel (fuel : nat) : keeps_scopes (statement fuel).
Proof.
  induction fuel as [|fuel IH]; [apply leaves_keeps, leaves_fail|].
  intros st st' o. simpl.
  apply keeps_statement_with; [apply leaves_expression|now apply keeps_block|exact IH].
Qed.

(** The loop of [run] ends at the first error, with the scopes of the
    blocks that the error left. *)
Lemma kept_run_loop (statement : IM unit) (n : nat) :
  keeps_scopes statement ->
  forall (st st' : Interpreter) (o : Outcome unit),
    run_loop n statement st = (o, st') -> scopes_kept (scopes st) (scopes st').
Proof.
  intros Hs. induction n as [|n IH]; intros st st' o.
  { intros H. injection H as _ <-. apply scopes_kept_refl. }
  simpl. destruct (bool_decide _); [|intros H; injection H as _ <-; apply scopes_kept_refl].
  destruct (statement st) as [os st1] eqn:Es.
  destruct (Hs _ _ _ Es) as [K1 B1].
  destruct os as [[]|w| |]; intros H.
  - eapply scopes_kept_trans; [exact K1|]. eapply IH; eauto.
  - injection H as _ <-. exact K1.
  - injection H as _ <-. exact K1.
  - injection H as _ <-. exact K1.
Qed.

(** X18: however a statement or a whole run of tinyjs ends (it returns,
    it throws, or it does not end), no scope that was on the stack is
    gone, every variable of those scopes is still declared in its scope
    with the kind it had, and a constant still has its value. A statement
    that returns leaves the stack as high as it found it, and the
    evaluation of an expression does not change the scopes at all. *)
Theorem constants_are_kept (fuel : nat) (st st' : Interpreter) :
  (forall o : Outcome unit,
     statement fuel st = (o, st') \/ run fuel st = (o, st') ->
     (length (scopes st) <= length (scopes st'))%nat
     /\ forall (i : nat) (scope : gmap string Variable_) (name : string) (v : Variable_),
          scopes st !! i = Some scope -> scope !! name = Some v ->
          exists (scope' : gmap string Variable_) (v' : Variable_),
            scopes st' !! i = Some scope' /\ scope' !! name = Some v'
            /\ isConst v' = isConst v
            /\ (isConst v = true -> val v' = val v))
  /\ (statement fuel st = (Ret tt, st') -> length (scopes st') = length (scopes st))
  /\ (forall (o : Outcome Value), expression fuel st = (o, st') -> scopes st' = scopes st).
Proof.
  assert (forall o : Outcome unit,
            statement fuel st = (o, st') \/ run fuel st = (o, st') ->
            scopes_kept (scopes st) (scopes st')) as Hkept.
  { intros o [H|H].
    - exact (proj1 (keeps_statement_fuel fuel _ _ _ H)).
    - exact (kept_run_loop _ fuel (keeps_statement_fuel fuel) _ _ _ H). }
  split; [|split].
  - intros o H. destruct (Hkept o H) as [L K]. split; [exact L|].
    intros i scope name v Hi Hv. destruct (K i scope Hi) as (scope' & Hi' & Ks).
    destruct (Ks name v Hv) as (v' & Hv' & K1 & K2). eauto 10.
  - intros H. exact (proj2 (keeps_statement_fuel fuel _ _ _ H) tt eq_refl).
  - intros o H. exact (leaves_expression fuel _ _ _ H).
Qed.

End TinyJSScopes.

(** ** Operators *)

Section TinyJSOperators.
Import TinyJS.

(** X19: the operators of tinyjs on strings. Where one operand of [+] or
    [-] is a string, the result is the string that joins the texts of the
    two operands, for [-] as for [+]; [*] and [/] leave the kind and the
    text of their left operand and change its number, so that a string
    times anything is still written as that string. A comparison looks at
    the numbers of its operands and at nothing else. A string literal, and
    a string that [+] or [-] has built, carries the number 0, so two of
    them are [==] and neither [<] nor [>], whatever their texts; a string
    that [*] or [/] has worked on carries another number: the string that
    a literal divided by 0 gives carries a NaN and is [==] to no string,
    not to itself either. *)
Theorem operators_on_strings :
  (forall (op : TokenType) (l r : Value),
     type l = T_STR \/ type r = T_STR ->
     additive_op op l r = string_value (toString l +:+ toString r))
  /\ (forall (op : TokenType) (l r : Value),
        type (term_op op l r) = type l
        /\ strVal (term_op op l r) = strVal l
        /\ (type l = T_STR -> toString (term_op op l r) = strVal l))
  /\ (forall (op : TokenType) (a b : string),
        comparison_op op (string_value a) (string_value b)
        = bool_value (bool_decide (op = EQ)))
  /\ (forall l r : Value,
        comparison_op EQ l r = bool_value (numVal l =? numVal r)%float)
  /\ (forall (op : TokenType) (l r l' r' : Value),
        numVal l = numVal l' -> numVal r = numVal r' ->
        comparison_op op l r = comparison_op op l' r')
  /\ (forall a b : string,
        type (term_op DIV (string_value a) (number_value 0)) = T_STR
        /\ comparison_op EQ (term_op DIV (string_value a) (number_value 0))
                            (string_value b)
           = bool_value false
        /\ comparison_op EQ (term_op DIV (string_value a) (number_value 0))
                            (term_op DIV (string_value a) (number_value 0))
           = bool_value false).
Proof.
  split; [|split; [|split; [|split; [|split]]]];
    [| | | |intros op l r l' r' Hl Hr; unfold comparison_op; now rewrite Hl, Hr
     |intros a b; repeat split; reflexivity].
  - intros op l r H. unfold additive_op.
    destruct H as [H|H]; rewrite H; simpl; [reflexivity|].
    now rewrite orb_true_r.
  - intros op l r. unfold term_op. destruct (decide (op = MUL)); simpl.
    + repeat split. intros H. unfold toString. simpl. rewrite H. reflexivity.
    + repeat split. intros H. unfold toString. simpl. rewrite H. reflexivity.
  - intros op a b. unfold comparison_op. simpl.
    destruct op; reflexivity.
  - intros l r. reflexivity.
Qed.

End TinyJSOperators.

Section TinyJSAtEnd.
Import TinyJS.

(** At the end of the text the lexer returns [END] and stays. *)
Lemma nextToken_at_end (st : Interpreter) :
  (String.length (src st) <= pos st)%nat -> nextToken st = (Ret (mkToken END ""), st).
Proof.
  intros H. unfold nextToken.
  rewrite skipWhitespace_loop_stop by now rewrite (proj2 (Nat.ltb_ge _ _) H).
  rewrite (proj2 (Nat.leb_le _ _) H). now destruct st.
Qed.

Lemma advance_token_at_end (st : Interpreter) :
  (String.length (src st) <= pos st)%nat ->
  advance_token st = (Ret tt, set_currentToken (mkToken END "") st).
Proof.
  intros H. unfold advance_token. unfold bind. now rewrite nextToken_at_end.
Qed.

End TinyJSAtEnd.

(** ** Declarations and string literals *)

Section TinyJSDeclarations.
Import TinyJS.

Lemma findVar_below_insert_other (sc : list (gmap string Variable_)) (k : nat)
    (scope : gmap string Variable_) (name other : string) (x : Variable_) :
  sc !! k = Some scope -> other <> name ->
  forall i : nat,
    findVar_below i (<[k := <[name := x]> scope]> sc) other = findVar_below i sc other.
Proof.
  intros Hk Hne i. induction i as [|i IH]; [reflexivity|]. simpl.
  destruct (decide (i = k)) as [->|Hik].
  - rewrite list_lookup_insert_eq by (eapply lookup_lt_Some; eauto). rewrite Hk.
    rewrite lookup_insert_ne by congruence.
    destruct (decide (is_Some (scope !! other))); [reflexivity|exact IH].
  - rewrite list_lookup_insert_ne by congruence.
    destruct (sc !! i) as [scope'|]; [|exact IH].
    destruct (decide (is_Some (scope' !! other))); [reflexivity|exact IH].
Qed.

Lemma findVar_insert_other (sc : list (gmap string Variable_)) (k : nat)
    (scope : gmap string Variable_) (name other : string) (x : Variable_) :
  sc !! k = Some scope -> other <> name ->
  findVar (<[k := <[name := x]> scope]> sc) other = findVar sc other.
Proof.
  intros Hk Hne. unfold findVar. rewrite length_insert.
  rewrite (findVar_below_insert_other sc k scope name other x Hk Hne).
  destruct (findVar_below (length sc) sc other) as [i|]; [|reflexivity].
  destruct (decide (i = k)) as [->|Hik].
  - rewrite list_lookup_insert_eq by (eapply lookup_lt_Some; eauto). rewrite Hk.
    now rewrite lookup_insert_ne by congruence.
  - now rewrite list_lookup_insert_ne by congruence.
Qed.

Lemma findVar_insert_last (sc : list (gmap string Variable_))
    (scope : gmap string Variable_) (name : string) (x : Variable_) :
  last sc = Some scope ->
  findVar (<[pred (length sc) := <[name := x]> scope]> sc) name
  = Some (pred (length sc), x).
Proof.
  intros Hl. rewrite last_lookup in Hl. pose proof (lookup_lt_Some _ _ _ Hl) as Hlt.
  unfold findVar. rewrite length_insert.
  destruct (length sc) as [|k] eqn:E; [lia|]. simpl pred in *. simpl findVar_below.
  rewrite list_lookup_insert_eq by lia.
  destruct (decide (is_Some (<[name := x]> scope !! name))) as [_|Hn].
  - rewrite list_lookup_insert_eq by lia. now rewrite lookup_insert_eq.
  - exfalso. apply Hn. rewrite lookup_insert_eq. eauto.
Qed.

(** X20: a declaration that succeeds is found again: [findVar] returns the
    variable, in the innermost scope, with the value and the kind
    declared; a second declaration of the name in that scope throws and
    changes nothing; the other names are found as before; a constant then
    refuses every assignment, and a [let] variable takes the value
    assigned. *)
Theorem declare_then_find (name : string) (v : Value) (c : bool) (st st' : Interpreter) :
  declareVar name v c st = (Ret tt, st') ->
  findVar (scopes st') name = Some (pred (length (scopes st)), mkVariable v c)
  /\ (forall (v2 : Value) (c2 : bool),
        declareVar name v2 c2 st'
        = (Throw ("Variable '" +:+ name +:+ "' already declared."), st'))
  /\ (forall other : string,
        other <> name -> findVar (scopes st') other = findVar (scopes st) other)
  /\ (forall v2 : Value,
        c = true ->
        assignVar name v2 st' = (Throw ("Cannot reassign const variable: " +:+ name), st'))
  /\ (forall v2 : Value,
        c = false ->
        exists st2 : Interpreter,
          assignVar name v2 st' = (Ret tt, st2)
          /\ findVar (scopes st2) name
             = Some (pred (length (scopes st)), mkVariable v2 false)).
Proof.
  unfold declareVar. intros H.
  destruct (last (scopes st)) as [scope|] eqn:El; [|discriminate].
  destruct (decide (is_Some (scope !! name))) as [Hb|Hb]; [discriminate|].
  injection H as <-. simpl scopes.
  pose proof El as Hk. rewrite last_lookup in Hk.
  pose proof (lookup_lt_Some _ _ _ Hk) as Hlt.
  pose proof (findVar_insert_last (scopes st) scope name (mkVariable v c) El) as Hfind.
  split; [exact Hfind|]. split; [|split; [|split]].
  - intros v2 c2. simpl.
    rewrite last_lookup, length_insert, list_lookup_insert_eq by exact Hlt.
    destruct (decide (is_Some (<[name := mkVariable v c]> scope !! name))) as [_|Hn];
      [reflexivity|].
    exfalso. apply Hn. rewrite lookup_insert_eq. eauto.
  - intros other Hne. now apply findVar_insert_other.
  - intros v2 ->. unfold assignVar. simpl scopes. rewrite Hfind. reflexivity.
  - intros v2 ->. unfold assignVar. simpl scopes. rewrite Hfind. simpl isConst. cbv iota.
    rewrite list_lookup_insert_eq by exact Hlt.
    eexists. split; [reflexivity|]. simpl scopes.
    rewrite list_insert_insert_eq, insert_insert_eq.
    exact (findVar_insert_last (scopes st) scope name (mkVariable v2 false) El).
Qed.

End TinyJSDeclarations.

(** [const x = 1] in the global scope of a new interpreter. *)
Lemma declare_then_find_witness :
  TinyJS.findVar
    (TinyJS.scopes
       (snd (TinyJS.declareVar "x" (TinyJS.number_value 1) true
               (TinyJS.new_Interpreter "" ""))))
    "x"
  = Some (0%nat, TinyJS.mkVariable (TinyJS.number_value 1) true).
Proof.
  exact (proj1 (declare_then_find "x" (TinyJS.number_value 1) true
                  (TinyJS.new_Interpreter "" "") _ eq_refl)).
Defined.

Section TinyJSStrings.
Import TinyJS.

Lemma scan_span (test : ascii -> bool) (d : ascii) (post : string) :
  test d = false ->
  forall (t pre acc : string) (n : nat),
    string_forall test t = true ->
    scan n test (pre +:+ t +:+ String d post) (String.length pre) acc
    = if (String.length t <=? n)%nat
      then (acc +:+ t, (String.length pre + String.length t)%nat)
      else scan n test (pre +:+ t +:+ String d post) (String.length pre) acc.
Proof.
  intros Hd. induction t as [|a t IH]; intros pre acc n Ht.
  - simpl String.length. simpl Nat.leb. cbv iota.
    rewrite append_empty, append_empty_r, Nat.add_0_r.
    destruct n as [|n]; [reflexivity|]. simpl.
    rewrite char_at_append, Hd. now rewrite andb_false_r.
  - simpl in Ht. apply andb_true_iff in Ht as [Ha Ht].
    destruct n as [|n]; [reflexivity|].
    simpl String.length. change (S (String.length t) <=? S n)%nat
      with (String.length t <=? n)%nat.
    destruct (String.length t <=? n)%nat eqn:E; [|reflexivity].
    simpl scan. rewrite append_cons, char_at_append, Ha.
    rewrite (proj2 (Nat.ltb_lt _ _)) by (rewrite append_length; simpl; lia).
    simpl andb. cbv iota.
    rewrite <- (snoc_append pre a (t +:+ String d post)), <- (snoc_length pre a).
    rewrite (IH (pre +:+ String a "") (acc +:+ String a "") n Ht), E.
    rewrite snoc_append, snoc_length. f_equal. lia.
Qed.

Lemma scan_to_end (test : ascii -> bool) :
  forall (t pre acc : string) (n : nat),
    string_forall test t = true -> (String.length t <= n)%nat ->
    scan n test (pre +:+ t) (String.length pre) acc
    = (acc +:+ t, (String.length pre + String.length t)%nat).
Proof.
  induction t as [|a t IH]; intros pre acc n Ht Hn.
  - rewrite !append_empty_r, Nat.add_0_r.
    destruct n as [|n]; [reflexivity|]. simpl. now rewrite Nat.ltb_irrefl.
  - simpl in Ht, Hn. apply andb_true_iff in Ht as [Ha Ht].
    destruct n as [|n]; [lia|].
    simpl scan. rewrite char_at_append, Ha.
    rewrite (proj2 (Nat.ltb_lt _ _)) by (rewrite append_length; simpl; lia).
    simpl andb. cbv iota.
    rewrite <- (snoc_append pre a t), <- (snoc_length pre a).
    rewrite (IH (pre +:+ String a "") (acc +:+ String a "") n Ht) by lia.
    rewrite snoc_append, snoc_length. f_equal. simpl String.length. lia.
Qed.

(** X21: a string literal of tinyjs. At an opening quote the lexer returns
    a [STRING] token with the characters up to the next quote, unchanged
    (there is no escape), and goes on behind the closing quote. Where the
    closing quote is missing, the token holds the rest of the text, no
    character behind the text is read and no error is reported; the
    position is then one behind the end and the next token is [END]. *)
Theorem string_tokens (pre t : string) (st : Interpreter) :
  string_forall not_quote t = true -> pos st = String.length pre ->
  (forall post : string,
     src st = pre +:+ String dquote (t +:+ String dquote post) ->
     nextToken st
     = (Ret (mkToken STRING t), set_pos (String.length pre + String.length t + 2) st))
  /\ (src st = pre +:+ String dquote t ->
      nextToken st = (Ret (mkToken STRING t), set_pos (String.length (src st) + 1) st)
      /\ nextToken (set_pos (String.length (src st) + 1) st)
         = (Ret (mkToken END ""), set_pos (String.length (src st) + 1) st)).
Proof.
  intros Ht Hpos. split.
  - intros post Hsrc. unfold nextToken. rewrite Hpos, Hsrc.
    rewrite skipWhitespace_loop_stop
      by (rewrite char_at_append; apply andb_false_r).
    rewrite (proj2 (Nat.leb_gt _ _)) by (rewrite append_length; simpl; lia).
    rewrite char_at_append.
    change (isdigit dquote) with false. change (is_char dquote dquote) with true.
    cbv iota.
    rewrite <- (snoc_append pre dquote (t +:+ String dquote post)).
    rewrite <- (snoc_length pre dquote).
    change (fun c : ascii => negb (is_char c dquote)) with not_quote.
    rewrite (scan_span not_quote dquote post eq_refl t (pre +:+ String dquote "") "" _ Ht).
    rewrite (proj2 (Nat.leb_le _ _)) by (rewrite !append_length; simpl; lia).
    rewrite append_empty, snoc_length. f_equal. f_equal. lia.
  - intros Hsrc. split.
    + unfold nextToken. rewrite Hpos, Hsrc.
      rewrite skipWhitespace_loop_stop
        by (rewrite char_at_append; apply andb_false_r).
      rewrite (proj2 (Nat.leb_gt _ _)) by (rewrite append_length; simpl; lia).
      rewrite char_at_append.
      change (isdigit dquote) with false. change (is_char dquote dquote) with true.
      cbv iota.
      rewrite <- (snoc_append pre dquote t), <- (snoc_length pre dquote).
      change (fun c : ascii => negb (is_char c dquote)) with not_quote.
      rewrite (scan_to_end not_quote t (pre +:+ String dquote "") "" _ Ht)
        by (rewrite !append_length; lia).
      rewrite append_empty. f_equal. f_equal. rewrite !append_length. simpl. lia.
    + apply nextToken_at_end. simpl. lia.
Qed.

End TinyJSStrings.

(** The text of an opening quote and [abc]. *)
Lemma string_tokens_witness :
  TinyJS.nextToken (TinyJS.mkInterpreter (String dquote "abc") 0
                      (TinyJS.mkToken TinyJS.END "") [∅] "")
  = (Ret (TinyJS.mkToken TinyJS.STRING "abc"),
     TinyJS.set_pos 5 (TinyJS.mkInterpreter (String dquote "abc") 0
                         (TinyJS.mkToken TinyJS.END "") [∅] "")).
Proof.
  exact (proj1 (proj2 (string_tokens "" "abc"
                         (TinyJS.mkInterpreter (String dquote "abc") 0
                            (TinyJS.mkToken TinyJS.END "") [∅] "")
                         eq_refl eq_refl) eq_refl)).
Defined.

(** ** Skipped statements *)

Section TinyJSWhile.
Import TinyJS.

Lemma none_from_forall (test : ascii -> bool) (rest : string) :
  string_forall (fun c => negb (test c)) rest = true -> none_from test rest 0.
Proof.
  induction rest as [|a rest IH]; intros H k Hk; simpl in *; [lia|].
  apply andb_true_iff in H as [Ha H].
  destruct k as [|k].
  - now apply negb_true_iff in Ha.
  - apply (IH H k). lia.
Qed.

Lemma none_from_append (test : ascii -> bool) (pre rest : string) :
  string_forall (fun c => negb (test c)) rest = true ->
  none_from test (pre +:+ rest) (String.length pre).
Proof.
  intros H. induction pre as [|a pre IH].
  - rewrite append_empty. now apply none_from_forall.
  - intros k Hk. rewrite append_cons in *. simpl in Hk.
    destruct k as [|k]; [lia|]. apply (IH k). lia.
Qed.

Lemma scan_ge (test : ascii -> bool) (s : string) :
  forall (n i : nat) (acc : string), (i <= snd (scan n test s i acc))%nat.
Proof.
  induction n as [|n IH]; intros i acc; simpl; [lia|].
  destruct ((i <? String.length s)%nat && test (char_at s i)); simpl; [|lia].
  specialize (IH (S i) (acc +:+ String (char_at s i) "")). lia.
Qed.

Lemma keyword_no_symbol (id : string) :
  keyword id <> SEMI /\ keyword id <> RBRACE.
Proof. unfold keyword. repeat destruct (decide _); split; discriminate. Qed.

Lemma symbol_token_no_end (current : ascii) (s : string) (i : nat) :
  ends_statement current = false ->
  match symbol_token current s i with
  | Some (t, j) => tokenType t <> SEMI /\ tokenType t <> RBRACE /\ (i <= j)%nat
  | None => True
  end.
Proof.
  unfold ends_statement. intros H. apply orb_false_iff in H as [H1 H2].
  unfold symbol_token. rewrite H1, H2.
  repeat (match goal with
          | |- context [if ?b then _ else _] => destruct b
          end; simpl; try (repeat split; (discriminate || lia))); try exact I.
Qed.

(** Where no [;] and no [}] is left in the text, the lexer returns neither. *)
Lemma nextToken_no_end (st : Interpreter) :
  none_from ends_statement (src st) (pos st) ->
  exists (t : Token) (st' : Interpreter),
    nextToken st = (Ret t, st')
    /\ tokenType t <> SEMI /\ tokenType t <> RBRACE
    /\ src st' = src st /\ (pos st <= pos st')%nat.
Proof.
  intros H. unfold nextToken.
  pose proof (proj1 (skipWhitespace_loop_spec (String.length (src st)) (src st) (pos st)))
    as [Hi _].
  set (i := skipWhitespace_loop (String.length (src st)) (src st) (pos st)) in *.
  destruct (String.length (src st) <=? i)%nat eqn:El.
  { eexists _, _. split; [reflexivity|]. simpl. repeat split; (discriminate || lia). }
  apply Nat.leb_gt in El.
  destruct (isdigit (char_at (src st) i)).
  { pose proof (scan_ge (fun c => isdigit c || is_char c ".") (src st)
                  (String.length (src st)) i "") as Hj.
    destruct (scan _ _ _ i "") as [numStr j]. simpl in Hj.
    eexists _, _. split; [reflexivity|]. simpl. repeat split; (discriminate || lia). }
  destruct (is_char (char_at (src st) i) dquote).
  { pose proof (scan_ge (fun c => negb (is_char c dquote)) (src st)
                  (String.length (src st)) (S i) "") as Hj.
    destruct (scan _ _ _ (S i) "") as [str j]. simpl in Hj.
    eexists _, _. split; [reflexivity|]. simpl. repeat split; (discriminate || lia). }
  destruct (isalpha (char_at (src st) i)).
  { pose proof (scan_ge isalnum (src st) (String.length (src st)) i "") as Hj.
    destruct (scan _ _ _ i "") as [id j]. simpl in Hj.
    eexists _, _. split; [reflexivity|]. simpl.
    destruct (keyword_no_symbol id). repeat split; (assumption || lia). }
  pose proof (symbol_token_no_end (char_at (src st) i) (src st) (S i)
                (H i ltac:(lia))) as Hs.
  destruct (symbol_token _ _ _) as [[t j]|].
  - destruct Hs as (H1 & H2 & Hj).
    eexists _, _. split; [reflexivity|]. simpl. repeat split; (assumption || lia).
  - eexists _, _. split; [reflexivity|]. simpl. repeat split; (discriminate || lia).
Qed.

Lemma skip_while_no_end (n : nat) :
  forall st : Interpreter,
    none_from ends_statement (src st) (pos st) ->
    tokenType (currentToken st) <> SEMI -> tokenType (currentToken st) <> RBRACE ->
    fst (skip_while n st) = OutOfFuel.
Proof.
  induction n as [|n IH]; intros st H H1 H2; [reflexivity|].
  simpl. rewrite !bool_decide_eq_true_2 by assumption. simpl.
  destruct (nextToken_no_end st H) as (t & st' & E & T1 & T2 & Es & Ep).
  unfold bind at 1. unfold advance_token. unfold bind at 1. rewrite E.
  apply IH; simpl; try assumption.
  rewrite Es. intros k Hk. apply H. lia.
Qed.

Lemma run_loop_out_of_fuel (n : nat) (statement : IM unit) (st : Interpreter) :
  tokenType (currentToken st) <> END ->
  fst (statement st) = OutOfFuel -> fst (run_loop n statement st) = OutOfFuel.
Proof.
  intros Ht Hs. destruct n as [|n]; [reflexivity|]. simpl.
  rewrite bool_decide_eq_true_2 by exact Ht.
  destruct (statement st) as [[[]| | |] st1]; simpl in Hs; try discriminate. reflexivity.
Qed.

(** X22: [while] is not executed but skipped, up to the next [;] or [}]:
    where the text behind the word [while] has neither, the skipping
    loop asks the lexer for tokens at the end of the text for ever;
    [statement] and [run] do not return, whatever the fuel. *)
Theorem while_needs_an_end (pre rest : string) (st : Interpreter) :
  tokenType (currentToken st) = WHILE ->
  src st = pre +:+ rest -> pos st = String.length pre ->
  string_forall (fun c => negb (ends_statement c)) rest = true ->
  forall fuel : nat,
    fst (statement fuel st) = OutOfFuel /\ fst (run fuel st) = OutOfFuel.
Proof.
  intros Ht Hsrc Hpos Hrest fuel.
  assert (none_from ends_statement (src st) (pos st)) as Hnone.
  { rewrite Hsrc, Hpos. now apply none_from_append. }
  assert (fst (statement fuel st) = OutOfFuel) as Hs.
  { destruct fuel as [|fuel]; [reflexivity|].
    simpl. unfold statement_with. rewrite Ht. simpl.
    unfold bind at 1. unfold print_text at 1. unfold bind at 1.
    unfold eat at 1. simpl. rewrite Ht.
    destruct (decide (WHILE = WHILE)) as [_|E]; [|contradiction].
    match goal with |- context [advance_token ?s] => set (st0 := s) end.
    assert (none_from ends_statement (src st0) (pos st0)) as Hnone0 by exact Hnone.
    destruct (nextToken_no_end st0 Hnone0) as (t & st' & E & T1 & T2 & Es & Ep).
    unfold advance_token. unfold bind at 1. rewrite E.
    apply skip_while_no_end; simpl; try assumption.
    rewrite Es. intros k Hk. apply Hnone0. lia. }
  split; [exact Hs|]. unfold run.
  apply run_loop_out_of_fuel; [rewrite Ht; discriminate|exact Hs].
Qed.

End TinyJSWhile.

(** A loop whose body was not closed. *)
Lemma while_needs_an_end_witness :
  fst (TinyJS.run 1000 (TinyJS.new_Interpreter "while (x < 3) { x = x + 1 " ""))
  = OutOfFuel.
Proof.
  exact (proj2 (while_needs_an_end "while" " (x < 3) { x = x + 1 "
                  (TinyJS.new_Interpreter "while (x < 3) { x = x + 1 " "")
                  eq_refl eq_refl eq_refl eq_refl 1000%nat)).
Defined.

Section TinyJSSkip.
Import TinyJS.

Lemma scan_progress (test : ascii -> bool) (s : string) (n i : nat) (acc : string) :
  (i < String.length s)%nat -> test (char_at s i) = true -> (0 < n)%nat ->
  (i < snd (scan n test s i acc))%nat.
Proof.
  intros Hi Ht Hn. destruct n as [|n]; [lia|]. simpl.
  rewrite (proj2 (Nat.ltb_lt _ _) Hi), Ht. simpl.
  pose proof (scan_ge test s n (S i) (acc +:+ String (char_at s i) "")). lia.
Qed.

Lemma symbol_token_spec (current : ascii) (s : string) (i : nat) :
  match symbol_token current s i with
  | Some (t, j) =>
      (i <= j)%nat /\ tokenType t <> END
      /\ (tokenType t = LBRACE -> is_char current "{" = true)
  | None => True
  end.
Proof.
  unfold symbol_token.
  repeat (match goal with
          | |- context [if ?b then _ else _] => destruct b eqn:?
          end; simpl;
          try (split; [lia|split; [discriminate|]]; first [discriminate|reflexivity]));
    try exact I.
Qed.

(** A call of the lexer: the text and the scopes stay, the position does
    not go back, a token other than [END] uses up at least one character,
    and a [{] token comes from a [{] of the text. *)
Lemma nextToken_spec (st : Interpreter) :
  exists (t : Token) (st' : Interpreter),
    nextToken st = (Ret t, st')
    /\ src st' = src st /\ scopes st' = scopes st
    /\ (pos st <= pos st')%nat
    /\ (tokenType t <> END ->
        (pos st < pos st')%nat /\ (pos st < String.length (src st))%nat)
    /\ (none_from (fun c => is_char c "{") (src st) (pos st) -> tokenType t <> LBRACE).
Proof.
  unfold nextToken.
  pose proof (proj1 (skipWhitespace_loop_spec (String.length (src st)) (src st) (pos st)))
    as [Hi _].
  set (i := skipWhitespace_loop (String.length (src st)) (src st) (pos st)) in *.
  destruct (String.length (src st) <=? i)%nat eqn:El.
  { eexists _, _. split; [reflexivity|]. simpl.
    repeat split; try (discriminate || lia || contradiction). }
  apply Nat.leb_gt in El.
  destruct (isdigit (char_at (src st) i)) eqn:Ed.
  { pose proof (scan_progress (fun c => isdigit c || is_char c ".") (src st)
                  (String.length (src st)) i "" El) as Hj.
    simpl in Hj. rewrite Ed in Hj. specialize (Hj eq_refl ltac:(lia)).
    destruct (scan _ _ _ i "") as [numStr j]. simpl in Hj.
    eexists _, _. split; [reflexivity|]. simpl.
    repeat split; try (discriminate || lia). }
  destruct (is_char (char_at (src st) i) dquote) eqn:Eq.
  { pose proof (scan_ge (fun c => negb (is_char c dquote)) (src st)
                  (String.length (src st)) (S i) "") as Hj.
    destruct (scan _ _ _ (S i) "") as [str j]. simpl in Hj.
    eexists _, _. split; [reflexivity|]. simpl.
    repeat split; try (discriminate || lia). }
  destruct (isalpha (char_at (src st) i)) eqn:Ea.
  { pose proof (scan_progress isalnum (src st) (String.length (src st)) i "" El) as Hj.
    assert (isalnum (char_at (src st) i) = true) as Hn
      by (unfold isalnum; now rewrite Ea).
    specialize (Hj Hn ltac:(lia)).
    destruct (scan _ _ _ i "") as [id j]. simpl in Hj.
    eexists _, _. split; [reflexivity|]. simpl.
    repeat split; try lia.
    unfold keyword. repeat destruct (decide _); discriminate. }
  pose proof (symbol_token_spec (char_at (src st) i) (src st) (S i)) as Hs.
  destruct (symbol_token _ _ _) as [[t j]|].
  - destruct Hs as (Hj & H1 & H2).
    eexists _, _. split; [reflexivity|]. simpl.
    repeat split; try lia.
    intros Hnone Ht. specialize (H2 Ht).
    rewrite (Hnone i ltac:(lia)) in H2. discriminate.
  - eexists _, _. split; [reflexivity|]. simpl.
    repeat split; try (discriminate || lia || contradiction).
Qed.

Lemma skip_branch_runs_to_end (m : nat) :
  forall (n : nat) (braces : Z) (st : Interpreter),
    (String.length (src st) + 1 - pos st <= m)%nat -> (m + 2 <= n)%nat ->
    braces <= 0 -> - 2 ^ 31 + Z.of_nat m + 2 <= braces ->
    tokenType (currentToken st) <> LBRACE ->
    none_from (fun c => is_char c "{") (src st) (pos st) ->
    exists st' : Interpreter,
      skip_branch n braces st = (Ret tt, st')
      /\ tokenType (currentToken st') = END
      /\ src st' = src st /\ scopes st' = scopes st.
Proof.
  induction m as [|m IH]; intros n braces st Hm Hn Hb0 Hb Ht Hnone.
  - (* the lexer is behind the text: the next token is [END] *)
    destruct n as [|[|n]]; try lia.
    change (skip_branch (S (S n)) braces st)
      with ((fun st0 =>
               let t := tokenType (currentToken st0) in
               let braces := if decide (t = LBRACE) then braces + 1 else braces in
               if 2 ^ 31 <=? braces then (Undefined, st0)
               else if decide (t = RBRACE) then
                 let braces := braces - 1 in
                 if braces <? - 2 ^ 31 then (Undefined, st0)
                 else if braces =? 0 then eat RBRACE st0
                 else (advance_token ;;; skip_branch (S n) braces) st0
               else if decide (t = END) then (Ret tt, st0)
               else (advance_token ;;; skip_branch (S n) braces) st0) st).
    cbv beta zeta.
    destruct (decide (tokenType (currentToken st) = LBRACE)) as [E|_]; [contradiction|].
    rewrite (proj2 (Z.leb_gt _ _)) by lia.
    assert (advance_token st = (Ret tt, set_currentToken (mkToken END "") st)) as Hadv.
    { unfold advance_token, bind.
      destruct (nextToken_spec st) as (t & st1 & E & _).
      assert (nextToken st = (Ret (mkToken END ""), st)) as E'.
      { unfold nextToken.
        rewrite skipWhitespace_loop_stop
          by (rewrite (proj2 (Nat.ltb_ge _ _)) by lia; reflexivity).
        rewrite (proj2 (Nat.leb_le _ _)) by lia. now destruct st. }
      now rewrite E'. }
    assert (forall b : Z, b <= 0 ->
              skip_branch (S n) b (set_currentToken (mkToken END "") st)
              = (Ret tt, set_currentToken (mkToken END "") st)) as Hend.
    { intros b Hb'. simpl. rewrite (proj2 (Z.leb_gt _ _)) by lia. reflexivity. }
    destruct (decide (tokenType (currentToken st) = RBRACE)) as [Er|Er].
    + rewrite (proj2 (Z.ltb_ge _ _)) by lia.
      rewrite (proj2 (Z.eqb_neq _ _)) by lia.
      unfold bind at 1. rewrite Hadv, Hend by lia.
      eexists. split; [reflexivity|]. simpl. auto.
    + destruct (decide (tokenType (currentToken st) = END)) as [Ee|Ee].
      * eexists. split; [reflexivity|]. auto.
      * unfold bind at 1. rewrite Hadv, Hend by lia.
        eexists. split; [reflexivity|]. simpl. auto.
  - destruct n as [|n]; [lia|].
    change (skip_branch (S n) braces st)
      with ((fun st0 =>
               let t := tokenType (currentToken st0) in
               let braces := if decide (t = LBRACE) then braces + 1 else braces in
               if 2 ^ 31 <=? braces then (Undefined, st0)
               else if decide (t = RBRACE) then
                 let braces := braces - 1 in
                 if braces <? - 2 ^ 31 then (Undefined, st0)
                 else if braces =? 0 then eat RBRACE st0
                 else (advance_token ;;; skip_branch n braces) st0
               else if decide (t = END) then (Ret tt, st0)
               else (advance_token ;;; skip_branch n braces) st0) st).
    cbv beta zeta.
    destruct (decide (tokenType (currentToken st) = LBRACE)) as [E|_]; [contradiction|].
    rewrite (proj2 (Z.leb_gt _ _)) by lia.
    destruct (nextToken_spec st) as (t & st1 & E & Es & Esc & Hle & Hprog & Hlb).
    assert (advance_token st = (Ret tt, set_currentToken t st1)) as Hadv
      by (unfold advance_token, bind; now rewrite E).
    assert (forall b : Z, b <= 0 -> - 2 ^ 31 + Z.of_nat m + 2 <= b ->
              exists st' : Interpreter,
                skip_branch n b (set_currentToken t st1) = (Ret tt, st')
                /\ tokenType (currentToken st') = END
                /\ src st' = src st /\ scopes st' = scopes st) as Hrest.
    { intros b Hb1 Hb2.
      destruct (decide (tokenType t = END)) as [Ee|Ee].
      - destruct n as [|n]; [lia|]. simpl. rewrite Ee. simpl.
        rewrite (proj2 (Z.leb_gt _ _)) by lia.
        eexists. split; [reflexivity|]. simpl. auto.
      - destruct (Hprog Ee) as [Hp1 Hp2].
        destruct (IH n b (set_currentToken t st1)) as (st' & R1 & R2 & R3 & R4);
          simpl; try lia.
        + rewrite Es. lia.
        + now apply Hlb.
        + rewrite Es. intros k Hk. apply Hnone. lia.
        + exists st'. simpl in R3, R4. split; [exact R1|]. split; [exact R2|].
          split; congruence. }
    destruct (decide (tokenType (currentToken st) = RBRACE)) as [Er|Er].
    + rewrite (proj2 (Z.ltb_ge _ _)) by lia.
      rewrite (proj2 (Z.eqb_neq _ _)) by lia.
      unfold bind at 1. rewrite Hadv. apply Hrest; lia.
    + destruct (decide (tokenType (currentToken st) = END)) as [Ee|Ee].
      * eexists. split; [reflexivity|]. auto.
      * unfold bind at 1. rewrite Hadv. apply Hrest; lia.
Qed.

(** X23: an [if] whose condition is not truthy skips tokens until the
    braces it has counted are closed. Where no [{] follows the condition,
    the count never returns to zero: everything up to the end of the text
    is skipped, the statements behind the [if] included, without a
    message; the statement returns at the end of the text with the scopes
    as the condition left them, and [run] returns with it. *)
Theorem false_if_without_braces_skips_the_rest
    (fuel : nat) (st st1 : Interpreter) (cond : Value) :
  tokenType (currentToken st) = IF ->
  (eat IF ;;; eat LPAREN ;;; c <- expression fuel ;; eat RPAREN ;;; ret c) st
  = (Ret cond, st1) ->
  isTruthy cond = false ->
  tokenType (currentToken st1) <> LBRACE ->
  none_from (fun c => is_char c "{") (src st1) (pos st1) ->
  (String.length (src st1) + 3 <= fuel)%nat ->
  Z.of_nat (String.length (src st1)) < 2 ^ 31 - 3 ->
  exists st' : Interpreter,
    statement (S fuel) st = (Ret tt, st')
    /\ tokenType (currentToken st') = END
    /\ scopes st' = scopes st1
    /\ run (S fuel) st = (Ret tt, st').
Proof.
  intros Ht Hcond Hfalse Hlb Hnone Hfuel Hlen.
  destruct (bind_ret_inv _ _ _ _ _ Hcond) as ([] & sa & Ha & Hcond1).
  destruct (bind_ret_inv _ _ _ _ _ Hcond1) as ([] & sb & Hb & Hcond2).
  destruct (bind_ret_inv _ _ _ _ _ Hcond2) as (c & sc & Hc & Hcond3).
  destruct (bind_ret_inv _ _ _ _ _ Hcond3) as ([] & sd & Hd & Hcond4).
  injection Hcond4 as -> ->.
  destruct (skip_branch_runs_to_end (String.length (src st1) + 1) fuel 0 st1)
    as (st' & Hskip & Hend & Hsrc & Hsc); try lia; try assumption.
  assert (statement (S fuel) st = (Ret tt, st')) as Hs.
  { change (statement (S fuel) st)
      with (statement_with fuel (expression fuel) (block fuel (statement fuel))
              (statement fuel) st).
    unfold statement_with. rewrite Ht. simpl bool_decide. cbv iota. simpl orb. cbv iota.
    destruct (decide (IF = PRINT)) as [E|_]; [discriminate|].
    destruct (decide (IF = IF)) as [_|E]; [|contradiction].
    rewrite (bind_at _ _ _ _ _ Ha), (bind_at _ _ _ _ _ Hb), (bind_at _ _ _ _ _ Hc),
      (bind_at _ _ _ _ _ Hd).
    rewrite Hfalse. rewrite (bind_at _ _ _ _ _ Hskip).
    rewrite Hend. destruct (decide (END = ELSE)) as [E|_]; [discriminate|]. reflexivity. }
  exists st'. split; [exact Hs|]. split; [exact Hend|]. split; [exact Hsc|].
  unfold run. destruct fuel as [|fuel]; [lia|].
  change (run_loop (S (S fuel)) (statement (S (S fuel))) st)
    with (if bool_decide (tokenType (currentToken st) <> END) then
            match statement (S (S fuel)) st with
            | (Ret _, st') => run_loop (S fuel) (statement (S (S fuel))) st'
            | (Throw what, st') => print_text ("Error: " +:+ what +:+ endl) st'
            | r => r
            end
          else (Ret tt, st)).
  rewrite bool_decide_eq_true_2 by (rewrite Ht; discriminate).
  rewrite Hs. simpl. rewrite Hend. reflexivity.
Qed.

End TinyJSSkip.

(** Nothing is printed, neither 1 nor 2 nor 3. *)
Lemma false_if_without_braces_skips_the_rest_witness :
  exists st' : TinyJS.Interpreter,
    TinyJS.run 40 (TinyJS.new_Interpreter "if (0) print 1; print 2; print 3;" "")
    = (Ret tt, st')
    /\ TinyJS.cout st' = "".
Proof.
  destruct (false_if_without_braces_skips_the_rest 39
              (TinyJS.new_Interpreter "if (0) print 1; print 2; print 3;" "")
              (TinyJS.mkInterpreter "if (0) print 1; print 2; print 3;" 12
                 (TinyJS.mkToken TinyJS.PRINT "print") [∅] "")
              (TinyJS.number_value 0)
              eq_refl ltac:(vm_compute; reflexivity) eq_refl ltac:(vm_compute; discriminate)
              ltac:(apply (none_from_append _ "if (0) print" " 1; print 2; print 3;");
                    reflexivity)
              ltac:(vm_compute; lia) ltac:(vm_compute; reflexivity))
    as (st' & _ & _ & _ & Hrun).
  exists st'. split; [exact Hrun|].
  vm_compute in Hrun. now injection Hrun as <-.
Defined.

(** ** The two branches of an [if] *)

Section TinyJSShift.
Import TinyJS.

Lemma char_at_shift (pre rest : string) (k : nat) :
  char_at (pre +:+ rest) (String.length pre + k) = char_at rest k.
Proof. induction pre as [|a pre IH]; [reflexivity|exact IH]. Qed.

Lemma in_text_shift (pre rest : string) (k : nat) :
  (String.length pre + k <? String.length (pre +:+ rest))%nat
  = (k <? String.length rest)%nat.
Proof.
  rewrite append_length.
  destruct (k <? String.length rest)%nat eqn:E.
  - apply Nat.ltb_lt in E. apply Nat.ltb_lt. lia.
  - apply Nat.ltb_ge in E. apply Nat.ltb_ge. lia.
Qed.

Lemma skipWhitespace_loop_shift (pre rest : string) :
  forall n i : nat,
    skipWhitespace_loop n (pre +:+ rest) (String.length pre + i)
    = (String.length pre + skipWhitespace_loop n rest i)%nat.
Proof.
  induction n as [|n IH]; intros i; [reflexivity|]. simpl.
  rewrite in_text_shift, char_at_shift.
  destruct ((i <? String.length rest)%nat && isspace (char_at rest i)); [|reflexivity].
  rewrite <- Nat.add_succ_r. apply IH.
Qed.

Lemma skipWhitespace_loop_fuel (s : string) :
  forall n m i : nat,
    (String.length s - i <= n)%nat -> (String.length s - i <= m)%nat ->
    skipWhitespace_loop n s i = skipWhitespace_loop m s i.
Proof.
  induction n as [|n IH]; intros m i Hn Hm.
  - destruct m as [|m]; [reflexivity|]. simpl.
    now rewrite (proj2 (Nat.ltb_ge _ _)) by lia.
  - destruct m as [|m]; simpl.
    + now rewrite (proj2 (Nat.ltb_ge _ _)) by lia.
    + destruct ((i <? String.length s)%nat && isspace (char_at s i)); [|reflexivity].
      apply IH; lia.
Qed.

Lemma scan_shift (test : ascii -> bool) (pre rest : string) :
  forall (n i : nat) (acc : string),
    scan n test (pre +:+ rest) (String.length pre + i) acc
    = (fst (scan n test rest i acc), (String.length pre + snd (scan n test rest i acc))%nat).
Proof.
  induction n as [|n IH]; intros i acc; [reflexivity|]. simpl.
  rewrite in_text_shift, char_at_shift.
  destruct ((i <? String.length rest)%nat && test (char_at rest i)); [|reflexivity].
  rewrite <- Nat.add_succ_r. apply IH.
Qed.

Lemma scan_fuel (test : ascii -> bool) (s : string) :
  forall (n m i : nat) (acc : string),
    (String.length s - i <= n)%nat -> (String.length s - i <= m)%nat ->
    scan n test s i acc = scan m test s i acc.
Proof.
  induction n as [|n IH]; intros m i acc Hn Hm.
  - destruct m as [|m]; [reflexivity|]. simpl.
    now rewrite (proj2 (Nat.ltb_ge _ _)) by lia.
  - destruct m as [|m]; simpl.
    + now rewrite (proj2 (Nat.ltb_ge _ _)) by lia.
    + destruct ((i <? String.length s)%nat && test (char_at s i)); [|reflexivity].
      apply IH; lia.
Qed.

Lemma scan_text_shift (test : ascii -> bool) (pre rest : string) (i : nat) (acc : string) :
  scan (String.length (pre +:+ rest)) test (pre +:+ rest) (String.length pre + i) acc
  = (fst (scan (String.length rest) test rest i acc),
     (String.length pre + snd (scan (String.length rest) test rest i acc))%nat).
Proof.
  rewrite scan_shift.
  rewrite (scan_fuel test rest (String.length (pre +:+ rest)) (String.length rest))
    by (rewrite ?append_length; lia).
  reflexivity.
Qed.

Lemma symbol_token_shift (current : ascii) (pre rest : string) (i : nat) :
  symbol_token current (pre +:+ rest) (String.length pre + i)
  = match symbol_token current rest i with
    | Some (t, j) => Some (t, (String.length pre + j)%nat)
    | None => None
    end.
Proof.
  unfold symbol_token. rewrite in_text_shift, char_at_shift.
  repeat (match goal with
          | |- context [if ?b then _ else _] => destruct b
          end; try reflexivity; try (now rewrite Nat.add_succ_r)).
Qed.

(** The token found at a position depends on the text from that position
    on only. *)
Lemma nextToken_shift (pre rest : string) (k : nat) (ct : Token)
    (sc : list (gmap string Variable_)) (out : string) :
  nextToken (mkInterpreter (pre +:+ rest) (String.length pre + k) ct sc out)
  = let r := nextToken (mkInterpreter rest k ct sc out) in
    (fst r,
     mkInterpreter (pre +:+ rest) (String.length pre + pos (snd r)) ct sc (cout (snd r))).
Proof.
  unfold nextToken. simpl src. simpl pos.
  rewrite skipWhitespace_loop_shift.
  rewrite (skipWhitespace_loop_fuel rest (String.length (pre +:+ rest)) (String.length rest))
    by (rewrite ?append_length; lia).
  set (i := skipWhitespace_loop (String.length rest) rest k).
  assert ((String.length (pre +:+ rest) <=? String.length pre + i)%nat
          = (String.length rest <=? i)%nat) as ->.
  { rewrite append_length. destruct (String.length rest <=? i)%nat eqn:E.
    - apply Nat.leb_le in E. apply Nat.leb_le. lia.
    - apply Nat.leb_gt in E. apply Nat.leb_gt. lia. }
  destruct (String.length rest <=? i)%nat; [reflexivity|].
  rewrite char_at_shift.
  destruct (isdigit (char_at rest i)).
  { rewrite scan_text_shift. destruct (scan _ _ rest i "") as [numStr j]. reflexivity. }
  destruct (is_char (char_at rest i) dquote).
  { rewrite <- Nat.add_succ_r, scan_text_shift.
    destruct (scan _ _ rest (S i) "") as [str j]. simpl. now rewrite Nat.add_succ_r. }
  destruct (isalpha (char_at rest i)).
  { rewrite scan_text_shift. destruct (scan _ _ rest i "") as [id j]. reflexivity. }
  rewrite <- Nat.add_succ_r, symbol_token_shift.
  destruct (symbol_token _ rest (S i)) as [[t j]|]; [reflexivity|].
  simpl. now rewrite Nat.add_succ_r.
Qed.

Lemma lex_at (pre w rest : string) (t : Token) :
  lexes w rest t ->
  forall (ct : Token) (sc : list (gmap string Variable_)) (out : string),
    nextToken (mkInterpreter (pre +:+ w +:+ rest) (String.length pre) ct sc out)
    = (Ret t, mkInterpreter (pre +:+ w +:+ rest) (String.length (pre +:+ w)) ct sc out).
Proof.
  intros H ct sc out.
  pose proof (nextToken_shift pre (w +:+ rest) 0 ct sc out) as E.
  rewrite Nat.add_0_r in E. rewrite E, (H ct sc out). simpl.
  now rewrite append_length.
Qed.

Lemma eat_at (pre w rest : string) (t : Token) :
  lexes w rest t ->
  forall (ct : Token) (sc : list (gmap string Variable_)) (out : string),
    eat (tokenType ct) (mkInterpreter (pre +:+ w +:+ rest) (String.length pre) ct sc out)
    = (Ret tt, mkInterpreter (pre +:+ w +:+ rest) (String.length (pre +:+ w)) t sc out).
Proof.
  intros H ct sc out. unfold eat. simpl currentToken.
  destruct (decide (tokenType ct = tokenType ct)) as [_|E]; [|contradiction].
  unfold advance_token, bind. now rewrite (lex_at pre w rest t H).
Qed.

Lemma advance_token_at (pre w rest : string) (t : Token) :
  lexes w rest t ->
  forall (ct : Token) (sc : list (gmap string Variable_)) (out : string),
    advance_token (mkInterpreter (pre +:+ w +:+ rest) (String.length pre) ct sc out)
    = (Ret tt, mkInterpreter (pre +:+ w +:+ rest) (String.length (pre +:+ w)) t sc out).
Proof.
  intros H ct sc out. unfold advance_token, bind. now rewrite (lex_at pre w rest t H).
Qed.

(** A string literal behind a space. *)
Lemma lexes_string (t rest : string) :
  string_forall not_quote t = true ->
  lexes (String " " (String dquote (t +:+ String dquote ""))) rest (mkToken STRING t).
Proof.
  intros Ht ct sc out. unfold nextToken. simpl src. simpl pos.
  rewrite !append_cons. rewrite append_assoc'. rewrite append_cons, append_empty.
  set (s := String " " (String dquote (t +:+ String dquote rest))).
  assert (skipWhitespace_loop (String.length s) s 0 = 1%nat) as ->.
  { unfold s. simpl String.length. simpl skipWhitespace_loop.
    destruct (String.length (t +:+ String dquote rest)); reflexivity. }
  assert ((String.length s <=? 1)%nat = false) as -> by reflexivity.
  change (char_at s 1) with dquote.
  change (isdigit dquote) with false. change (is_char dquote dquote) with true. cbv iota.
  change (fun c : ascii => negb (is_char c dquote)) with not_quote.
  pose proof (scan_span not_quote dquote rest eq_refl t (String " " (String dquote "")) ""
                (String.length s) Ht) as E.
  change (String " " (String dquote "") +:+ t +:+ String dquote rest) with s in E.
  change (String.length (String " " (String dquote ""))) with 2%nat in E.
  rewrite E. rewrite (proj2 (Nat.leb_le _ _))
    by (unfold s; simpl; rewrite append_length; simpl; lia).
  rewrite append_empty. unfold set_pos. simpl.
  rewrite append_length. simpl. do 2 f_equal. lia.
Qed.

End TinyJSShift.

Section TinyJSIfElse.
Import TinyJS.

Ltac by_lexing := intros ? ? ?; reflexivity.

Lemma lexes_number (c rest : string) :
  c <> "" -> string_forall isdigit c = true ->
  lexes c (String ")" rest) (mkToken NUMBER c).
Proof.
  intros Hne Hc ct sc out. unfold nextToken. simpl src. simpl pos.
  destruct c as [|d c]; [contradiction|].
  pose proof Hc as Hd. simpl in Hd. apply andb_true_iff in Hd as [Hd _].
  assert (isspace d = false) as Hsp.
  { revert Hd. unfold isdigit, isspace. generalize (nat_of_ascii d). intros n H.
    apply andb_true_iff in H as [H1 H2]. apply Nat.leb_le in H1. apply Nat.leb_le in H2.
    rewrite (proj2 (Nat.leb_gt n 13)) by lia. rewrite andb_false_r. simpl.
    apply Nat.eqb_neq. lia. }
  rewrite append_cons.
  rewrite skipWhitespace_loop_stop
    by (change (char_at (String d (c +:+ String ")" rest)) 0) with d;
        rewrite Hsp; apply andb_false_r).
  change (char_at (String d (c +:+ String ")" rest)) 0) with d.
  change (String.length (String d (c +:+ String ")" rest)) <=? 0)%nat with false.
  cbv iota. rewrite Hd.
  rewrite <- append_cons.
  assert (string_forall (fun c0 : ascii => isdigit c0 || is_char c0 ".") (String d c) = true)
    as Hall.
  { clear -Hc. induction (String d c) as [|x s IH]; [reflexivity|].
    simpl in *. apply andb_true_iff in Hc as [H1 H2]. rewrite H1, (IH H2). reflexivity. }
  pose proof (scan_span (fun c0 : ascii => isdigit c0 || is_char c0 ".") ")" rest eq_refl
                (String d c) "" "" (String.length (String d c +:+ String ")" rest)) Hall) as E.
  rewrite !append_empty in E. simpl (String.length "") in E.
  rewrite E. rewrite (proj2 (Nat.leb_le _ _)) by (rewrite append_length; lia).
  reflexivity.
Qed.

Lemma statement_with_print (n : nat) (e : IM Value) (b s : IM unit) (st : Interpreter) :
  tokenType (currentToken st) = PRINT ->
  statement_with n e b s st
  = (eat PRINT ;;; v <- e ;; print_text (toString v +:+ endl) ;;; eat SEMI) st.
Proof. intros H. unfold statement_with. now rewrite H. Qed.

Lemma statement_with_block (n : nat) (e : IM Value) (b s : IM unit) (st : Interpreter) :
  tokenType (currentToken st) = LBRACE -> statement_with n e b s st = b st.
Proof. intros H. unfold statement_with. now rewrite H. Qed.

Lemma statement_with_if (n : nat) (e : IM Value) (b s : IM unit) (st : Interpreter) :
  tokenType (currentToken st) = IF ->
  statement_with n e b s st
  = (eat IF ;;;
     eat LPAREN ;;;
     cond <- e ;;
     eat RPAREN ;;;
     (if isTruthy cond then branch b s else skip_branch n 0) ;;;
     fun st1 =>
       if decide (tokenType (currentToken st1) = ELSE) then
         (eat ELSE ;;;
          if negb (isTruthy cond) then branch b s else ret tt) st1
       else (Ret tt, st1)) st.
Proof. intros H. unfold statement_with. now rewrite H. Qed.

(** A literal, followed by [;] or [)], is the whole expression. *)
Lemma expression_of_factor (f : nat) (st st' : Interpreter) (v : Value) :
  (forall e : IM Value, factor e st = (Ret v, st')) ->
  tokenType (currentToken st') = SEMI \/ tokenType (currentToken st') = RPAREN ->
  expression (S (S f)) st = (Ret v, st').
Proof.
  intros Hf Ht.
  change (expression (S (S f)) st)
    with (comparison (S f) (additive (S f) (term (S f) (factor (expression (S f))))) st).
  assert (forall (ops : list TokenType) (operand : IM Value)
                 (combine : TokenType -> Value -> Value -> Value),
            ops = [MUL; DIV] \/ ops = [PLUS; MINUS] \/ ops = [GT; LT; EQ] ->
            operator_loop (S f) ops operand combine v st' = (Ret v, st')) as Hloop.
  { intros ops operand combine Hops. simpl.
    destruct Ht as [-> | ->]; destruct Hops as [-> | [-> | ->]]; reflexivity. }
  assert (term (S f) (factor (expression (S f))) st = (Ret v, st')) as Hterm.
  { unfold term. rewrite (bind_at _ _ _ _ _ (Hf _)). apply Hloop. auto. }
  assert (additive (S f) (term (S f) (factor (expression (S f)))) st = (Ret v, st'))
    as Hadd.
  { unfold additive. rewrite (bind_at _ _ _ _ _ Hterm). apply Hloop. auto. }
  unfold comparison. rewrite (bind_at _ _ _ _ _ Hadd). apply Hloop. auto.
Qed.

Lemma pop_scope_pushed (s : string) (p : nat) (ct : Token)
    (sc : list (gmap string Variable_)) (x : gmap string Variable_) (out : string) :
  pop_scope (mkInterpreter s p ct (sc ++ [x]) out) = (Ret tt, mkInterpreter s p ct sc out).
Proof.
  unfold pop_scope. simpl scopes.
  destruct (sc ++ [x]) as [|y l] eqn:E.
  - now destruct sc.
  - rewrite <- E. unfold set_scopes. simpl. now rewrite removelast_last.
Qed.

Abbreviation quoted t := (String " " (String dquote (t +:+ String dquote ""))).

(** [print], a string literal and [;]. *)
Lemma statement_print_string (f : nat) (pre t w rest : string) (T : Token)
    (sc : list (gmap string Variable_)) (out : string) :
  string_forall not_quote t = true -> lexes w rest T ->
  statement (S (S (S f)))
    (mkInterpreter (pre +:+ quoted t +:+ ";" +:+ w +:+ rest) (String.length pre)
       (mkToken PRINT "print") sc out)
  = (Ret tt,
     mkInterpreter (pre +:+ quoted t +:+ ";" +:+ w +:+ rest)
       (String.length (pre +:+ quoted t +:+ ";" +:+ w)) T sc (out +:+ t +:+ endl)).
Proof.
  intros Ht Hw.
  change (statement (S (S (S f))))
    with (fun st => statement_with (S (S f)) (expression (S (S f)))
                      (block (S (S f)) (statement (S (S f)))) (statement (S (S f))) st).
  cbv beta. rewrite statement_with_print by reflexivity.
  pose proof (eat_at pre (quoted t) (";" +:+ w +:+ rest) (mkToken STRING t)
                (lexes_string t _ Ht) (mkToken PRINT "print") sc out) as H1.
  pose proof (eat_at (pre +:+ quoted t) ";" (w +:+ rest) (mkToken SEMI ";")
                ltac:(by_lexing) (mkToken STRING t) sc out) as H2.
  rewrite ?append_assoc' in H2.
  pose proof (eat_at (pre +:+ quoted t +:+ ";") w rest T Hw
                (mkToken SEMI ";") sc (out +:+ t +:+ endl)) as H3.
  rewrite ?append_assoc' in H3.
  rewrite (bind_at _ _ _ _ _ H1).
  assert (expression (S (S f))
            (mkInterpreter (pre +:+ quoted t +:+ ";" +:+ w +:+ rest)
               (String.length (pre +:+ quoted t)) (mkToken STRING t) sc out)
          = (Ret (string_value t),
             mkInterpreter (pre +:+ quoted t +:+ ";" +:+ w +:+ rest)
               (String.length (pre +:+ quoted t +:+ ";")) (mkToken SEMI ";") sc out)) as He.
  { apply expression_of_factor; [|left; reflexivity].
    intros e. unfold factor. simpl currentToken. simpl tokenType. simpl text.
    destruct (decide (STRING = NUMBER)) as [E|_]; [discriminate|].
    destruct (decide (STRING = STRING)) as [_|E]; [|contradiction].
    change STRING with (tokenType (mkToken STRING t)) at 1.
    rewrite (bind_at _ _ _ _ _ H2). reflexivity. }
  rewrite (bind_at _ _ _ _ _ He).
  unfold print_text at 1. unfold bind at 1. unfold set_cout. simpl.
  change (toString (string_value t)) with t.
  rewrite <- append_assoc'.
  change SEMI with (tokenType (mkToken SEMI ";")).
  rewrite ?append_assoc'. exact H3.
Qed.

(** A block of one [print]. *)
Lemma block_print_string (f : nat) (pre t w rest : string) (T : Token)
    (sc : list (gmap string Variable_)) (out : string) :
  string_forall not_quote t = true -> lexes w rest T ->
  block (S (S (S f))) (statement (S (S (S f))))
    (mkInterpreter (pre +:+ " print" +:+ quoted t +:+ ";" +:+ " }" +:+ w +:+ rest)
       (String.length pre) (mkToken LBRACE "{") sc out)
  = (Ret tt,
     mkInterpreter (pre +:+ " print" +:+ quoted t +:+ ";" +:+ " }" +:+ w +:+ rest)
       (String.length (pre +:+ " print" +:+ quoted t +:+ ";" +:+ " }" +:+ w))
       T sc (out +:+ t +:+ endl)).
Proof.
  intros Ht Hw. unfold block.
  pose proof (eat_at pre " print" (quoted t +:+ ";" +:+ " }" +:+ w +:+ rest)
                (mkToken PRINT "print") ltac:(by_lexing) (mkToken LBRACE "{") sc out) as H1.
  pose proof (statement_print_string f (pre +:+ " print") t " }" (w +:+ rest)
                (mkToken RBRACE "}") (sc ++ [∅]) out Ht ltac:(by_lexing)) as H2.
  rewrite ?append_assoc' in H2.
  pose proof (eat_at (pre +:+ " print" +:+ quoted t +:+ ";" +:+ " }") w rest T Hw
                (mkToken RBRACE "}") sc (out +:+ t +:+ endl)) as H3.
  rewrite ?append_assoc' in H3.
  change LBRACE with (tokenType (mkToken LBRACE "{")) at 1.
  rewrite (bind_at _ _ _ _ _ H1).
  unfold push_scope at 1. unfold bind at 1. unfold set_scopes. simpl scopes.
  simpl src. simpl pos. simpl currentToken. simpl cout.
  assert (block_loop (S (S (S f))) (statement (S (S (S f))))
            (mkInterpreter (pre +:+ " print" +:+ quoted t +:+ ";" +:+ " }" +:+ w +:+ rest)
               (String.length (pre +:+ " print")) (mkToken PRINT "print") (sc ++ [∅]) out)
          = (Ret tt,
             mkInterpreter (pre +:+ " print" +:+ quoted t +:+ ";" +:+ " }" +:+ w +:+ rest)
               (String.length (pre +:+ " print" +:+ quoted t +:+ ";" +:+ " }"))
               (mkToken RBRACE "}") (sc ++ [∅]) (out +:+ t +:+ endl))) as Hloop.
  { change (block_loop (S (S (S f))) (statement (S (S (S f)))))
      with (fun st =>
              let t := tokenType (currentToken st) in
              if bool_decide (t <> RBRACE) && bool_decide (t <> END)
              then (statement (S (S (S f))) ;;;
                    block_loop (S (S f)) (statement (S (S (S f))))) st
              else (Ret tt, st)).
    cbv beta zeta. simpl currentToken. simpl tokenType.
    change (bool_decide (PRINT <> RBRACE) && bool_decide (PRINT <> END)) with true.
    cbv iota. rewrite (bind_at _ _ _ _ _ H2). reflexivity. }
  rewrite (bind_at _ _ _ _ _ Hloop).
  rewrite (bind_at _ _ _ _ _ (pop_scope_pushed _ _ _ _ _ _)).
  change RBRACE with (tokenType (mkToken RBRACE "}")).
  exact H3.
Qed.

Lemma skip_branch_advance (n : nat) (braces : Z) (st : Interpreter) :
  tokenType (currentToken st) <> RBRACE -> tokenType (currentToken st) <> END ->
  0 <= braces < 2 ^ 31 - 1 ->
  skip_branch (S n) braces st
  = (advance_token ;;;
     skip_branch n (if decide (tokenType (currentToken st) = LBRACE)
                    then braces + 1 else braces)) st.
Proof.
  intros H1 H2 Hb. simpl.
  destruct (decide (tokenType (currentToken st) = LBRACE)) as [E|E];
    (rewrite (proj2 (Z.leb_gt _ _)) by lia);
    (destruct (decide (tokenType (currentToken st) = RBRACE)); [contradiction|]);
    (destruct (decide (tokenType (currentToken st) = END)); [contradiction|]);
    reflexivity.
Qed.

Lemma skip_branch_close (n : nat) (st : Interpreter) :
  tokenType (currentToken st) = RBRACE ->
  skip_branch (S n) 1 st = eat RBRACE st.
Proof. intros H. simpl. rewrite H. reflexivity. Qed.

(** The same block, skipped. *)
Lemma skip_print_string (n : nat) (pre t w rest : string) (T : Token)
    (sc : list (gmap string Variable_)) (out : string) :
  string_forall not_quote t = true -> lexes w rest T ->
  skip_branch (S (S (S (S (S n))))) 0
    (mkInterpreter (pre +:+ " print" +:+ quoted t +:+ ";" +:+ " }" +:+ w +:+ rest)
       (String.length pre) (mkToken LBRACE "{") sc out)
  = (Ret tt,
     mkInterpreter (pre +:+ " print" +:+ quoted t +:+ ";" +:+ " }" +:+ w +:+ rest)
       (String.length (pre +:+ " print" +:+ quoted t +:+ ";" +:+ " }" +:+ w))
       T sc out).
Proof.
  intros Ht Hw.
  pose proof (advance_token_at pre " print" (quoted t +:+ ";" +:+ " }" +:+ w +:+ rest)
                (mkToken PRINT "print") ltac:(by_lexing) (mkToken LBRACE "{") sc out) as H1.
  pose proof (advance_token_at (pre +:+ " print") (quoted t) (";" +:+ " }" +:+ w +:+ rest)
                (mkToken STRING t) (lexes_string t _ Ht) (mkToken PRINT "print") sc out)
    as H2.
  rewrite ?append_assoc' in H2.
  pose proof (advance_token_at (pre +:+ " print" +:+ quoted t) ";" (" }" +:+ w +:+ rest)
                (mkToken SEMI ";") ltac:(by_lexing) (mkToken STRING t) sc out) as H3.
  rewrite ?append_assoc' in H3.
  pose proof (advance_token_at (pre +:+ " print" +:+ quoted t +:+ ";") " }" (w +:+ rest)
                (mkToken RBRACE "}") ltac:(by_lexing) (mkToken SEMI ";") sc out) as H4.
  rewrite ?append_assoc' in H4.
  pose proof (eat_at (pre +:+ " print" +:+ quoted t +:+ ";" +:+ " }") w rest T Hw
                (mkToken RBRACE "}") sc out) as H5.
  rewrite ?append_assoc' in H5.
  rewrite skip_branch_advance by (simpl; (discriminate || lia)).
  rewrite (bind_at _ _ _ _ _ H1). simpl currentToken. simpl tokenType.
  destruct (decide (LBRACE = LBRACE)) as [_|E]; [|contradiction].
  change (0 + 1) with 1.
  rewrite skip_branch_advance by (simpl; (discriminate || lia)).
  rewrite (bind_at _ _ _ _ _ H2). simpl currentToken. simpl tokenType.
  destruct (decide (PRINT = LBRACE)) as [E|_]; [discriminate|].
  rewrite skip_branch_advance by (simpl; (discriminate || lia)).
  rewrite (bind_at _ _ _ _ _ H3). simpl currentToken. simpl tokenType.
  destruct (decide (STRING = LBRACE)) as [E|_]; [discriminate|].
  rewrite skip_branch_advance by (simpl; (discriminate || lia)).
  rewrite (bind_at _ _ _ _ _ H4). simpl currentToken. simpl tokenType.
  destruct (decide (SEMI = LBRACE)) as [E|_]; [discriminate|].
  rewrite skip_branch_close by reflexivity.
  exact H5.
Qed.

Lemma run_loop_step (n : nat) (stmt : IM unit) (st st' : Interpreter) :
  stmt st = (Ret tt, st') -> tokenType (currentToken st) <> END ->
  run_loop (S n) stmt st = run_loop n stmt st'.
Proof.
  intros Hs Ht. simpl. rewrite bool_decide_eq_true_2 by exact Ht. now rewrite Hs.
Qed.

Lemma run_loop_end (n : nat) (stmt : IM unit) (st : Interpreter) :
  tokenType (currentToken st) = END -> run_loop (S n) stmt st = (Ret tt, st).
Proof. intros Ht. simpl. rewrite Ht. reflexivity. Qed.

(** The text, token by token. *)
Lemma if_else_literals_tokens (c a b : string) :
  if_else_literals c a b
  = "if" +:+ " (" +:+ c +:+ ")" +:+ " {" +:+ " print" +:+ quoted a +:+ ";" +:+ " }"
    +:+ " else" +:+ " {" +:+ " print" +:+ quoted b +:+ ";" +:+ " }" +:+ "" +:+ "".
Proof.
  unfold if_else_literals.
  repeat (rewrite ?append_assoc', ?append_cons, ?append_empty). reflexivity.
Qed.

(** X24: an [if] with an [else], on branches that print a text. The
    [else] branch is executed whatever the condition is: where the
    condition is not zero, both texts are printed, first the one of the
    [if] branch (the word [else] is eaten and its block is then run as the
    next statement); where it is zero, only the text of the [else] branch.
    The run returns at the end of the text, with the global scope alone. *)
Theorem else_branch_always_runs (c a b out : string) (x : float) (fuel : nat) :
  c <> "" -> string_forall isdigit c = true -> stod c = Ret x ->
  string_forall not_quote a = true -> string_forall not_quote b = true ->
  run (S (S (S (S (S (S fuel)))))) (new_Interpreter (if_else_literals c a b) out)
  = (Ret tt,
     mkInterpreter (if_else_literals c a b) (String.length (if_else_literals c a b))
       (mkToken END "") [∅]
       (out +:+ (if (x =? 0)%float then "" else a +:+ endl) +:+ b +:+ endl)).
Proof.
  intros Hne Hc Hx Ha Hb.
  rewrite (if_else_literals_tokens c a b).
  set (n := S (S (S (S (S fuel))))).
  (* the tokens of the condition *)
  pose proof (advance_token_at "" "if"
                (" (" +:+ c +:+ ")" +:+ " {" +:+ " print" +:+ quoted a +:+ ";" +:+ " }"
                 +:+ " else" +:+ " {" +:+ " print" +:+ quoted b +:+ ";" +:+ " }"
                 +:+ "" +:+ "")
                (mkToken IF "if") ltac:(by_lexing) (mkToken END "") [∅] out) as H0.
  change ("" +:+ "if" +:+ ?r) with ("if" +:+ r) in H0.
  change (String.length "") with 0%nat in H0.
  change (String.length ("" +:+ "if")) with (String.length "if") in H0.
  pose proof (eat_at "if" " ("
                (c +:+ ")" +:+ " {" +:+ " print" +:+ quoted a +:+ ";" +:+ " }"
                 +:+ " else" +:+ " {" +:+ " print" +:+ quoted b +:+ ";" +:+ " }"
                 +:+ "" +:+ "")
                (mkToken LPAREN "(") ltac:(by_lexing) (mkToken IF "if") [∅] out) as H1.
  pose proof (eat_at ("if" +:+ " (") c
                (")" +:+ " {" +:+ " print" +:+ quoted a +:+ ";" +:+ " }"
                 +:+ " else" +:+ " {" +:+ " print" +:+ quoted b +:+ ";" +:+ " }"
                 +:+ "" +:+ "")
                (mkToken NUMBER c) (lexes_number c _ Hne Hc) (mkToken LPAREN "(") [∅] out)
    as H2.
  rewrite ?append_assoc' in H2.
  pose proof (eat_at ("if" +:+ " (" +:+ c) ")"
                (" {" +:+ " print" +:+ quoted a +:+ ";" +:+ " }"
                 +:+ " else" +:+ " {" +:+ " print" +:+ quoted b +:+ ";" +:+ " }"
                 +:+ "" +:+ "")
                (mkToken RPAREN ")") ltac:(by_lexing) (mkToken NUMBER c) [∅] out) as H3.
  rewrite ?append_assoc' in H3.
  pose proof (eat_at ("if" +:+ " (" +:+ c +:+ ")") " {"
                (" print" +:+ quoted a +:+ ";" +:+ " }"
                 +:+ " else" +:+ " {" +:+ " print" +:+ quoted b +:+ ";" +:+ " }"
                 +:+ "" +:+ "")
                (mkToken LBRACE "{") ltac:(by_lexing) (mkToken RPAREN ")") [∅] out) as H4.
  rewrite ?append_assoc' in H4.
  (* the two blocks *)
  pose proof (block_print_string (S (S fuel)) ("if" +:+ " (" +:+ c +:+ ")" +:+ " {")
                a " else" (" {" +:+ " print" +:+ quoted b +:+ ";" +:+ " }" +:+ "" +:+ "")
                (mkToken ELSE "else") [∅] out Ha ltac:(by_lexing)) as Hthen.
  rewrite ?append_assoc' in Hthen.
  pose proof (skip_print_string fuel ("if" +:+ " (" +:+ c +:+ ")" +:+ " {")
                a " else" (" {" +:+ " print" +:+ quoted b +:+ ";" +:+ " }" +:+ "" +:+ "")
                (mkToken ELSE "else") [∅] out Ha ltac:(by_lexing)) as Hskip.
  rewrite ?append_assoc' in Hskip.
  assert (forall out' : string,
            eat ELSE
              (mkInterpreter
                 ("if" +:+ " (" +:+ c +:+ ")" +:+ " {" +:+ " print" +:+ quoted a +:+ ";"
                  +:+ " }" +:+ " else" +:+ " {" +:+ " print" +:+ quoted b +:+ ";" +:+ " }"
                  +:+ "" +:+ "")
                 (String.length
                    ("if" +:+ " (" +:+ c +:+ ")" +:+ " {" +:+ " print" +:+ quoted a
                     +:+ ";" +:+ " }" +:+ " else"))
                 (mkToken ELSE "else") [∅] out')
            = (Ret tt,
               mkInterpreter
                 ("if" +:+ " (" +:+ c +:+ ")" +:+ " {" +:+ " print" +:+ quoted a +:+ ";"
                  +:+ " }" +:+ " else" +:+ " {" +:+ " print" +:+ quoted b +:+ ";" +:+ " }"
                  +:+ "" +:+ "")
                 (String.length
                    ("if" +:+ " (" +:+ c +:+ ")" +:+ " {" +:+ " print" +:+ quoted a
                     +:+ ";" +:+ " }" +:+ " else" +:+ " {"))
                 (mkToken LBRACE "{") [∅] out')) as Helse.
  { intros out'.
    pose proof (eat_at ("if" +:+ " (" +:+ c +:+ ")" +:+ " {" +:+ " print" +:+ quoted a
                        +:+ ";" +:+ " }" +:+ " else") " {"
                  (" print" +:+ quoted b +:+ ";" +:+ " }" +:+ "" +:+ "")
                  (mkToken LBRACE "{") ltac:(by_lexing) (mkToken ELSE "else") [∅] out') as H.
    rewrite ?append_assoc' in H. exact H. }
  assert (forall out' : string,
            block n (statement n)
              (mkInterpreter
                 ("if" +:+ " (" +:+ c +:+ ")" +:+ " {" +:+ " print" +:+ quoted a +:+ ";"
                  +:+ " }" +:+ " else" +:+ " {" +:+ " print" +:+ quoted b +:+ ";" +:+ " }"
                  +:+ "" +:+ "")
                 (String.length
                    ("if" +:+ " (" +:+ c +:+ ")" +:+ " {" +:+ " print" +:+ quoted a
                     +:+ ";" +:+ " }" +:+ " else" +:+ " {"))
                 (mkToken LBRACE "{") [∅] out')
            = (Ret tt,
               mkInterpreter
                 ("if" +:+ " (" +:+ c +:+ ")" +:+ " {" +:+ " print" +:+ quoted a +:+ ";"
                  +:+ " }" +:+ " else" +:+ " {" +:+ " print" +:+ quoted b +:+ ";" +:+ " }"
                  +:+ "" +:+ "")
                 (String.length
                    ("if" +:+ " (" +:+ c +:+ ")" +:+ " {" +:+ " print" +:+ quoted a
                     +:+ ";" +:+ " }" +:+ " else" +:+ " {" +:+ " print" +:+ quoted b
                     +:+ ";" +:+ " }" +:+ ""))
                 (mkToken END "") [∅] (out' +:+ b +:+ endl))) as Hblock.
  { intros out'.
    pose proof (block_print_string (S (S fuel))
                  ("if" +:+ " (" +:+ c +:+ ")" +:+ " {" +:+ " print" +:+ quoted a
                   +:+ ";" +:+ " }" +:+ " else" +:+ " {")
                  b "" "" (mkToken END "") [∅] out' Hb ltac:(by_lexing)) as H.
    rewrite ?append_assoc' in H. exact H. }
  (* the condition *)
  assert (expression n
            (mkInterpreter
               ("if" +:+ " (" +:+ c +:+ ")" +:+ " {" +:+ " print" +:+ quoted a +:+ ";"
                +:+ " }" +:+ " else" +:+ " {" +:+ " print" +:+ quoted b +:+ ";" +:+ " }"
                +:+ "" +:+ "")
               (String.length ("if" +:+ " (" +:+ c)) (mkToken NUMBER c) [∅] out)
          = (Ret (number_value x),
             mkInterpreter
               ("if" +:+ " (" +:+ c +:+ ")" +:+ " {" +:+ " print" +:+ quoted a +:+ ";"
                +:+ " }" +:+ " else" +:+ " {" +:+ " print" +:+ quoted b +:+ ";" +:+ " }"
                +:+ "" +:+ "")
               (String.length ("if" +:+ " (" +:+ c +:+ ")")) (mkToken RPAREN ")") [∅] out))
    as Hcond.
  { apply expression_of_factor; [|right; reflexivity].
    intros e. unfold factor. simpl currentToken. simpl tokenType. simpl text.
    destruct (decide (NUMBER = NUMBER)) as [_|E]; [|contradiction].
    change NUMBER with (tokenType (mkToken NUMBER c)) at 1.
    rewrite (bind_at _ _ _ _ _ H3). unfold lift_stod, bind. now rewrite Hx. }
  (* the statement of the [if] *)
  set (text := "if" +:+ " (" +:+ c +:+ ")" +:+ " {" +:+ " print" +:+ quoted a +:+ ";"
               +:+ " }" +:+ " else" +:+ " {" +:+ " print" +:+ quoted b +:+ ";" +:+ " }"
               +:+ "" +:+ "") in *.
  unfold new_Interpreter. rewrite H0. cbn [snd]. unfold run.
  assert (statement (S n) (mkInterpreter text (String.length "if") (mkToken IF "if") [∅] out)
          = (Ret tt,
             if (x =? 0)%float
             then mkInterpreter text
                    (String.length
                       ("if" +:+ " (" +:+ c +:+ ")" +:+ " {" +:+ " print" +:+ quoted a
                        +:+ ";" +:+ " }" +:+ " else" +:+ " {" +:+ " print" +:+ quoted b
                        +:+ ";" +:+ " }" +:+ ""))
                    (mkToken END "") [∅] (out +:+ b +:+ endl)
             else mkInterpreter text
                    (String.length
                       ("if" +:+ " (" +:+ c +:+ ")" +:+ " {" +:+ " print" +:+ quoted a
                        +:+ ";" +:+ " }" +:+ " else" +:+ " {"))
                    (mkToken LBRACE "{") [∅] (out +:+ a +:+ endl))) as Hif.
  { change (statement (S n))
      with (fun st => statement_with n (expression n) (block n (statement n))
                        (statement n) st).
    cbv beta. rewrite statement_with_if by reflexivity.
    change IF with (tokenType (mkToken IF "if")) at 1.
    rewrite (bind_at _ _ _ _ _ H1).
    change LPAREN with (tokenType (mkToken LPAREN "(")) at 1.
    rewrite (bind_at _ _ _ _ _ H2).
    rewrite (bind_at _ _ _ _ _ Hcond).
    change RPAREN with (tokenType (mkToken RPAREN ")")) at 1.
    rewrite (bind_at _ _ _ _ _ H4).
    change (isTruthy (number_value x)) with (negb (x =? 0)%float).
    destruct (x =? 0)%float; simpl negb; cbv iota.
    - rewrite (bind_at _ _ _ _ _ Hskip). simpl currentToken. simpl tokenType.
      destruct (decide (ELSE = ELSE)) as [_|E]; [|contradiction].
      rewrite (bind_at _ _ _ _ _ (Helse out)).
      unfold branch. simpl currentToken. simpl tokenType.
      destruct (decide (LBRACE = LBRACE)) as [_|E]; [|contradiction].
      apply Hblock.
    - assert (branch (block n (statement n)) (statement n)
                (mkInterpreter text
                   (String.length ("if" +:+ " (" +:+ c +:+ ")" +:+ " {"))
                   (mkToken LBRACE "{") [∅] out)
              = block n (statement n)
                  (mkInterpreter text
                     (String.length ("if" +:+ " (" +:+ c +:+ ")" +:+ " {"))
                     (mkToken LBRACE "{") [∅] out)) as Hbr by reflexivity.
      rewrite (bind_at _ _ _ _ _ (eq_trans Hbr Hthen)).
      simpl currentToken. simpl tokenType.
      destruct (decide (ELSE = ELSE)) as [_|E]; [|contradiction].
      rewrite (bind_at _ _ _ _ _ (Helse _)). reflexivity. }
  rewrite (run_loop_step n _ _ _ Hif) by (simpl; discriminate).
  destruct (x =? 0)%float.
  - unfold n. rewrite run_loop_end by reflexivity. reflexivity.
  - assert (statement (S n)
              (mkInterpreter text
                 (String.length
                    ("if" +:+ " (" +:+ c +:+ ")" +:+ " {" +:+ " print" +:+ quoted a
                     +:+ ";" +:+ " }" +:+ " else" +:+ " {"))
                 (mkToken LBRACE "{") [∅] (out +:+ a +:+ endl))
            = (Ret tt,
               mkInterpreter text
                 (String.length
                    ("if" +:+ " (" +:+ c +:+ ")" +:+ " {" +:+ " print" +:+ quoted a
                     +:+ ";" +:+ " }" +:+ " else" +:+ " {" +:+ " print" +:+ quoted b
                     +:+ ";" +:+ " }" +:+ ""))
                 (mkToken END "") [∅] ((out +:+ a +:+ endl) +:+ b +:+ endl))) as Hst.
    { change (statement (S n))
        with (fun st => statement_with n (expression n) (block n (statement n))
                          (statement n) st).
      cbv beta. rewrite statement_with_block by reflexivity. apply Hblock. }
    unfold n at 1.
    rewrite (run_loop_step _ _ _ _ Hst) by (simpl; discriminate).
    rewrite run_loop_end by reflexivity. rewrite !append_assoc'. reflexivity.
Qed.

End TinyJSIfElse.

(** With the condition 1 the program prints [yes] and [no]. *)
Lemma else_branch_always_runs_witness :
  TinyJS.run 6 (TinyJS.new_Interpreter (if_else_literals "1" "yes" "no") "")
  = (Ret tt,
     TinyJS.mkInterpreter (if_else_literals "1" "yes" "no")
       (String.length (if_else_literals "1" "yes" "no"))
       (TinyJS.mkToken TinyJS.END "") [∅]
       ("" +:+ (if (1 =? 0)%float then "" else "yes" +:+ endl) +:+ "no" +:+ endl)).
Proof.
  exact (else_branch_always_runs "1" "yes" "no" "" 1%float 0
           ltac:(discriminate) eq_refl ltac:(vm_compute; reflexivity) eq_refl eq_refl).
Defined.

(** ** Operators, from the text to the output *)

Section TinyJSBinary.
Import TinyJS.

Ltac by_lexing := intros ? ? ?; reflexivity.

Abbreviation quoted t := (String " " (String dquote (t +:+ String dquote ""))).

Lemma operator_loop_end (n : nat) (ops : list TokenType) (operand : IM Value)
    (combine : TokenType -> Value -> Value -> Value) (v : Value) (st : Interpreter) :
  bool_decide (tokenType (currentToken st) ∈ ops) = false ->
  operator_loop (S n) ops operand combine v st = (Ret v, st).
Proof. intros H. simpl. now rewrite H. Qed.

Lemma operator_loop_once (n : nat) (ops : list TokenType) (operand : IM Value)
    (combine : TokenType -> Value -> Value -> Value) (op : TokenType) (l r : Value)
    (st st1 st2 : Interpreter) :
  tokenType (currentToken st) = op ->
  bool_decide (op ∈ ops) = true ->
  eat op st = (Ret tt, st1) ->
  operand st1 = (Ret r, st2) ->
  bool_decide (tokenType (currentToken st2) ∈ ops) = false ->
  operator_loop (S (S n)) ops operand combine l st = (Ret (combine op l r), st2).
Proof.
  intros Eop Hin Heat Hop Hout.
  change (operator_loop (S (S n)) ops operand combine l st)
    with (let op := tokenType (currentToken st) in
          if bool_decide (op ∈ ops) then
            (eat op ;;;
             right_ <- operand ;;
             operator_loop (S n) ops operand combine (combine op l right_)) st
          else (Ret l, st)).
  cbv zeta. rewrite Eop, Hin. rewrite (bind_at _ _ _ _ _ Heat), (bind_at _ _ _ _ _ Hop).
  now apply operator_loop_end.
Qed.

(** One operator between two operands that are literals or names. *)
Lemma expression_binary (f : nat) (op : TokenType) (l r : Value)
    (s1 s2 s3 s4 : Interpreter) :
  (forall e : IM Value, factor e s1 = (Ret l, s2)) ->
  tokenType (currentToken s2) = op ->
  op ∈ [PLUS; MINUS; MUL; DIV; GT; LT; EQ] ->
  eat op s2 = (Ret tt, s3) ->
  (forall e : IM Value, factor e s3 = (Ret r, s4)) ->
  tokenType (currentToken s4) = SEMI ->
  expression (S (S (S f))) s1 = (Ret (binary_result op l r), s4).
Proof.
  intros Hl Eop Hin Heat Hr Hsemi.
  change (expression (S (S (S f))) s1)
    with (comparison (S (S f))
            (additive (S (S f)) (term (S (S f)) (factor (expression (S (S f)))))) s1).
  set (fct := factor (expression (S (S f)))).
  pose proof (Hl (expression (S (S f))) : fct s1 = (Ret l, s2)) as Hl'.
  pose proof (Hr (expression (S (S f))) : fct s3 = (Ret r, s4)) as Hr'.
  assert (forall ops : list TokenType,
            ops = [MUL; DIV] \/ ops = [PLUS; MINUS] \/ ops = [GT; LT; EQ] ->
            bool_decide (tokenType (currentToken s4) ∈ ops) = false) as Hend.
  { intros ops [-> | [-> | ->]]; rewrite Hsemi; reflexivity. }
  assert (term (S (S f)) fct s3 = (Ret r, s4)) as Hterm_r.
  { unfold term. rewrite (bind_at _ _ _ _ _ Hr'). apply operator_loop_end, Hend. auto. }
  assert (additive (S (S f)) (term (S (S f)) fct) s3 = (Ret r, s4)) as Hadd_r.
  { unfold additive. rewrite (bind_at _ _ _ _ _ Hterm_r).
    apply operator_loop_end, Hend. auto. }
  assert (op = MUL \/ op = DIV \/ op = PLUS \/ op = MINUS \/ op = GT \/ op = LT \/ op = EQ)
    as Hop.
  { apply list_elem_of_In in Hin. simpl in Hin.
    repeat (destruct Hin as [Hin | Hin]; [symmetry in Hin; tauto|]). contradiction. }
  assert (op = MUL \/ op = DIV ->
          term (S (S f)) fct s1 = (Ret (term_op op l r), s4)) as Hmul.
  { intros Hc. unfold term. rewrite (bind_at _ _ _ _ _ Hl').
    apply (operator_loop_once f _ _ _ op l r s2 s3 s4);
      [exact Eop|destruct Hc as [-> | ->]; reflexivity|exact Heat|assumption
      |apply Hend; auto]. }
  assert (~ (op = MUL \/ op = DIV) -> term (S (S f)) fct s1 = (Ret l, s2)) as Hnomul.
  { intros Hc. unfold term. rewrite (bind_at _ _ _ _ _ Hl').
    apply operator_loop_end. rewrite Eop.
    destruct Hop as [-> | [-> | [-> | [-> | [-> | [-> | ->]]]]]]; try reflexivity; tauto. }
  assert (op = PLUS \/ op = MINUS ->
          additive (S (S f)) (term (S (S f)) fct) s1 = (Ret (additive_op op l r), s4))
    as Hplus.
  { intros Hc. unfold additive.
    rewrite (bind_at _ _ _ _ _ (Hnomul ltac:(destruct Hc as [-> | ->]; intros [E|E]; discriminate))).
    apply (operator_loop_once f _ _ _ op l r s2 s3 s4);
      [exact Eop|destruct Hc as [-> | ->]; reflexivity|exact Heat|assumption
      |apply Hend; auto]. }
  assert (op = GT \/ op = LT \/ op = EQ ->
          additive (S (S f)) (term (S (S f)) fct) s1 = (Ret l, s2)) as Hnoplus.
  { intros Hc. unfold additive.
    rewrite (bind_at _ _ _ _ _
               (Hnomul ltac:(destruct Hc as [-> | [-> | ->]]; intros [E|E]; discriminate))).
    apply operator_loop_end. rewrite Eop.
    destruct Hc as [-> | [-> | ->]]; reflexivity. }
  unfold comparison.
  destruct Hop as [Hc | [Hc | [Hc | [Hc | Hc]]]].
  - assert (additive (S (S f)) (term (S (S f)) fct) s1 = (Ret (term_op op l r), s4)) as Ha.
    { unfold additive. rewrite (bind_at _ _ _ _ _ (Hmul (or_introl Hc))).
      apply operator_loop_end, Hend. auto. }
    rewrite (bind_at _ _ _ _ _ Ha).
    assert (binary_result op l r = term_op op l r) as -> by (rewrite Hc; reflexivity).
    apply operator_loop_end, Hend. auto.
  - assert (additive (S (S f)) (term (S (S f)) fct) s1 = (Ret (term_op op l r), s4)) as Ha.
    { unfold additive. rewrite (bind_at _ _ _ _ _ (Hmul (or_intror Hc))).
      apply operator_loop_end, Hend. auto. }
    rewrite (bind_at _ _ _ _ _ Ha).
    assert (binary_result op l r = term_op op l r) as -> by (rewrite Hc; reflexivity).
    apply operator_loop_end, Hend. auto.
  - rewrite (bind_at _ _ _ _ _ (Hplus (or_introl Hc))).
    assert (binary_result op l r = additive_op op l r) as -> by (rewrite Hc; reflexivity).
    apply operator_loop_end, Hend. auto.
  - rewrite (bind_at _ _ _ _ _ (Hplus (or_intror Hc))).
    assert (binary_result op l r = additive_op op l r) as -> by (rewrite Hc; reflexivity).
    apply operator_loop_end, Hend. auto.
  - rewrite (bind_at _ _ _ _ _ (Hnoplus Hc)).
    assert (binary_result op l r = comparison_op op l r) as ->
      by (destruct Hc as [-> | [-> | ->]]; reflexivity).
    apply (operator_loop_once f _ _ _ op l r s2 s3 s4);
      [exact Eop|destruct Hc as [-> | [-> | ->]]; reflexivity|exact Heat|assumption
      |apply Hend; auto].
Qed.

(** [print] of an operator between two string literals; [w] is the text
    of the operator. *)
Lemma print_binary_strings (f : nat) (w a b out : string) (opT : Token) :
  lexes w (quoted b +:+ ";" +:+ "" +:+ "") opT ->
  tokenType opT ∈ [PLUS; MINUS; MUL; DIV; GT; LT; EQ] ->
  string_forall not_quote a = true -> string_forall not_quote b = true ->
  run (S (S (S (S f))))
    (new_Interpreter ("print" +:+ quoted a +:+ w +:+ quoted b +:+ ";" +:+ "" +:+ "") out)
  = (Ret tt,
     mkInterpreter ("print" +:+ quoted a +:+ w +:+ quoted b +:+ ";" +:+ "" +:+ "")
       (String.length ("print" +:+ quoted a +:+ w +:+ quoted b +:+ ";" +:+ ""))
       (mkToken END "") [∅]
       (out +:+ toString (binary_result (tokenType opT) (string_value a) (string_value b))
        +:+ endl)).
Proof.
  intros Hw Hop Ha Hb.
  set (n := S (S (S f))).
  pose proof (advance_token_at "" "print" (quoted a +:+ w +:+ quoted b +:+ ";" +:+ "" +:+ "")
                (mkToken PRINT "print") ltac:(by_lexing) (mkToken END "") [∅] out) as H0.
  change ("" +:+ "print" +:+ ?r) with ("print" +:+ r) in H0.
  change (String.length "") with 0%nat in H0.
  change (String.length ("" +:+ "print")) with (String.length "print") in H0.
  pose proof (eat_at "print" (quoted a) (w +:+ quoted b +:+ ";" +:+ "" +:+ "")
                (mkToken STRING a) (lexes_string a _ Ha) (mkToken PRINT "print") [∅] out)
    as H1.
  pose proof (eat_at ("print" +:+ quoted a) w (quoted b +:+ ";" +:+ "" +:+ "") opT Hw
                (mkToken STRING a) [∅] out) as H2.
  rewrite ?append_assoc' in H2.
  pose proof (eat_at ("print" +:+ quoted a +:+ w) (quoted b) (";" +:+ "" +:+ "")
                (mkToken STRING b) (lexes_string b _ Hb) opT [∅] out) as H3.
  rewrite ?append_assoc' in H3.
  pose proof (eat_at ("print" +:+ quoted a +:+ w +:+ quoted b) ";" ("" +:+ "")
                (mkToken SEMI ";") ltac:(by_lexing) (mkToken STRING b) [∅] out) as H4.
  rewrite ?append_assoc' in H4.
  set (v := binary_result (tokenType opT) (string_value a) (string_value b)).
  pose proof (eat_at ("print" +:+ quoted a +:+ w +:+ quoted b +:+ ";") "" ""
                (mkToken END "") ltac:(by_lexing) (mkToken SEMI ";") [∅]
                (out +:+ toString v +:+ endl)) as H5.
  rewrite ?append_assoc' in H5.
  set (text := "print" +:+ quoted a +:+ w +:+ quoted b +:+ ";" +:+ "" +:+ "") in *.
  assert (expression n
            (mkInterpreter text (String.length ("print" +:+ quoted a)) (mkToken STRING a)
               [∅] out)
          = (Ret v,
             mkInterpreter text
               (String.length ("print" +:+ quoted a +:+ w +:+ quoted b +:+ ";"))
               (mkToken SEMI ";") [∅] out)) as He.
  { apply (expression_binary f (tokenType opT) (string_value a) (string_value b) _
             (mkInterpreter text (String.length ("print" +:+ quoted a +:+ w)) opT [∅] out)
             (mkInterpreter text (String.length ("print" +:+ quoted a +:+ w +:+ quoted b))
                (mkToken STRING b) [∅] out)).
    - intros e. unfold factor. simpl currentToken. simpl tokenType. simpl text.
      destruct (decide (STRING = NUMBER)) as [E|_]; [discriminate|].
      destruct (decide (STRING = STRING)) as [_|E]; [|contradiction].
      change STRING with (tokenType (mkToken STRING a)) at 1.
      rewrite (bind_at _ _ _ _ _ H2). reflexivity.
    - reflexivity.
    - exact Hop.
    - exact H3.
    - intros e. unfold factor. simpl currentToken. simpl tokenType. simpl text.
      destruct (decide (STRING = NUMBER)) as [E|_]; [discriminate|].
      destruct (decide (STRING = STRING)) as [_|E]; [|contradiction].
      change STRING with (tokenType (mkToken STRING b)) at 1.
      rewrite (bind_at _ _ _ _ _ H4). reflexivity.
    - reflexivity. }
  assert (statement (S n)
            (mkInterpreter text (String.length "print") (mkToken PRINT "print") [∅] out)
          = (Ret tt,
             mkInterpreter text
               (String.length ("print" +:+ quoted a +:+ w +:+ quoted b +:+ ";" +:+ ""))
               (mkToken END "") [∅] (out +:+ toString v +:+ endl))) as Hst.
  { change (statement (S n))
      with (fun st => statement_with n (expression n) (block n (statement n))
                        (statement n) st).
    cbv beta. rewrite statement_with_print by reflexivity.
    change PRINT with (tokenType (mkToken PRINT "print")) at 1.
    rewrite (bind_at _ _ _ _ _ H1). rewrite (bind_at _ _ _ _ _ He).
    unfold print_text at 1. unfold bind at 1. unfold set_cout.
    cbn [src pos currentToken scopes cout].
    rewrite <- append_assoc'.
    change SEMI with (tokenType (mkToken SEMI ";")).
    rewrite ?append_assoc'. exact H5. }
  unfold new_Interpreter. rewrite H0. cbn [snd]. unfold run.
  rewrite (run_loop_step n _ _ _ Hst) by (simpl; discriminate).
  unfold n. now rewrite run_loop_end by reflexivity.
Qed.

Lemma binary_on_strings_tokens (op : TokenType) (a b : string) :
  binary_on_strings op a b
  = "print" +:+ quoted a +:+ (" " +:+ op_text op) +:+ quoted b +:+ ";" +:+ "" +:+ "".
Proof.
  unfold binary_on_strings.
  repeat (rewrite ?append_assoc', ?append_cons, ?append_empty). reflexivity.
Qed.

(** X28: [print] of an operator between two string literals, from the
    text to the output. [+] and [-] both print the two texts joined, [*]
    and [/] print the left text, [==] prints [true] and [<] and [>] print
    [false], whatever the two texts are. *)
Theorem operators_on_string_literals (op : TokenType) (a b out : string) (fuel : nat) :
  op ∈ [PLUS; MINUS; MUL; DIV; GT; LT; EQ] ->
  string_forall not_quote a = true -> string_forall not_quote b = true ->
  run (S (S (S (S fuel)))) (new_Interpreter (binary_on_strings op a b) out)
  = (Ret tt,
     mkInterpreter (binary_on_strings op a b) (String.length (binary_on_strings op a b))
       (mkToken END "") [∅] (out +:+ string_result op a b +:+ endl)).
Proof.
  intros Hop Ha Hb.
  assert (lexes (" " +:+ op_text op) (quoted b +:+ ";" +:+ "" +:+ "")
            (mkToken op (op_text op))) as Hlex.
  { apply list_elem_of_In in Hop. simpl in Hop.
    repeat (destruct Hop as [<- | Hop]; [by_lexing|]). contradiction. }
  assert (toString (binary_result op (string_value a) (string_value b))
          = string_result op a b) as Hres.
  { apply list_elem_of_In in Hop. simpl in Hop.
    repeat (destruct Hop as [<- | Hop]; [reflexivity|]). contradiction. }
  rewrite (binary_on_strings_tokens op a b).
  rewrite (print_binary_strings fuel (" " +:+ op_text op) a b out (mkToken op (op_text op))
             Hlex Hop Ha Hb).
  simpl tokenType. rewrite Hres. reflexivity.
Qed.

End TinyJSBinary.

(** The difference of [ab] and [c] is printed as [abc]. *)
Lemma operators_on_string_literals_witness :
  TinyJS.run 4 (TinyJS.new_Interpreter (binary_on_strings TinyJS.MINUS "ab" "c") "")
  = (Ret tt,
     TinyJS.mkInterpreter (binary_on_strings TinyJS.MINUS "ab" "c")
       (String.length (binary_on_strings TinyJS.MINUS "ab" "c"))
       (TinyJS.mkToken TinyJS.END "") [∅]
       ("" +:+ string_result TinyJS.MINUS "ab" "c" +:+ endl)).
Proof.
  exact (operators_on_string_literals TinyJS.MINUS "ab" "c" "" 0
           ltac:(repeat first [apply list_elem_of_here | apply list_elem_of_further])
           eq_refl eq_refl).
Defined.

(** * TinyLang: properties *)

Section TinyLangStreams.
Import TinyLang.

Lemma word_prefix_word (w rest : string) :
  string_forall (fun c => negb (isspace c)) w = true -> ends_word rest = true ->
  word_prefix (w +:+ rest) = (w, rest).
Proof.
  intros Hw Hr. induction w as [|c w IH].
  - rewrite append_empty. destruct rest as [|d rest]; [reflexivity|].
    simpl in *. now rewrite Hr.
  - simpl in Hw. apply andb_true_iff in Hw as [Hc Hw]. apply negb_true_iff in Hc.
    rewrite append_cons. simpl. rewrite Hc, (IH Hw). reflexivity.
Qed.

Lemma skip_ws_blank (ws : string) : string_forall isspace ws = true -> skip_ws ws = "".
Proof.
  induction ws as [|c ws IH]; intros H; [reflexivity|].
  simpl in *. apply andb_true_iff in H as [Hc H]. rewrite Hc. auto.
Qed.

Lemma blank_ends_word (ws : string) : string_forall isspace ws = true -> ends_word ws = true.
Proof. destruct ws; simpl; [reflexivity|]. intros H. now apply andb_true_iff in H. Qed.

(** The extraction of a word. *)
Lemma extract_string_word (w rest : string) :
  is_word w = true -> ends_word rest = true ->
  extract_string (mkStream (w +:+ rest) true)
  = (Some w, mkStream rest (negb (bool_decide (rest = "")))).
Proof.
  unfold is_word. intros Hw Hr. apply andb_true_iff in Hw as [Hne Hw].
  unfold extract_string. simpl good. simpl buf. cbv iota.
  destruct w as [|c w]; [discriminate|].
  pose proof Hw as Hc. simpl in Hc. apply andb_true_iff in Hc as [Hc _].
  apply negb_true_iff in Hc.
  rewrite append_cons. simpl skip_ws. rewrite Hc.
  rewrite <- append_cons. rewrite (word_prefix_word _ _ Hw Hr). reflexivity.
Qed.

(** Where only white space is left, or the stream is not good, nothing is
    written, and the stream is not good afterwards. *)
Lemma extract_string_blank (ws : string) (g : bool) :
  string_forall isspace ws = true ->
  exists ss : Stream,
    extract_string (mkStream ws g) = (None, ss) /\ good ss = false
    /\ string_forall isspace (buf ss) = true.
Proof.
  intros H. unfold extract_string. simpl. destruct g.
  - rewrite (skip_ws_blank ws H). eexists. split; [reflexivity|]. auto.
  - eexists. split; [reflexivity|]. auto.
Qed.

Lemma extract_int_blank (ws : string) (g : bool) :
  string_forall isspace ws = true -> fst (extract_int (mkStream ws g)) = None.
Proof.
  intros H. unfold extract_int. simpl. destruct g; [|reflexivity].
  now rewrite (skip_ws_blank ws H).
Qed.

Lemma extract_int_not_good (ss : Stream) : good ss = false -> fst (extract_int ss) = None.
Proof. intros H. unfold extract_int. now rewrite H. Qed.

Lemma digit_char (k : N) :
  (k < 10)%N ->
  isdigit (pretty_N_char k) = true
  /\ Z.of_nat (nat_of_ascii (pretty_N_char k)) - 48 = Z.of_N k.
Proof.
  intros H.
  assert (k = 0 \/ k = 1 \/ k = 2 \/ k = 3 \/ k = 4 \/ k = 5 \/ k = 6 \/ k = 7 \/ k = 8
          \/ k = 9)%N as Hk by lia.
  repeat (destruct Hk as [-> | Hk]; [split; reflexivity|]). subst. split; reflexivity.
Qed.

Lemma pretty_N_go_digits (x : N) :
  forall s : string,
    string_forall isdigit s = true -> string_forall isdigit (pretty_N_go x s) = true.
Proof.
  induction (N.lt_wf_0 x) as [x _ IH]. intros s Hs.
  destruct (decide (x = 0)%N) as [-> | Hx]; [exact Hs|].
  rewrite pretty_N_go_step by lia. apply IH.
  - apply N.div_lt; lia.
  - simpl. rewrite (proj1 (digit_char (x mod 10) ltac:(apply N.mod_lt; lia))). exact Hs.
Qed.

Lemma pretty_N_go_value (x : N) :
  forall s : string,
    digits_value (pretty_N_go x s) 0 = digits_value s (Z.of_N x).
Proof.
  induction (N.lt_wf_0 x) as [x _ IH]. intros s.
  destruct (decide (x = 0)%N) as [-> | Hx]; [reflexivity|].
  rewrite pretty_N_go_step by lia. rewrite IH by (apply N.div_lt; lia).
  simpl. rewrite (proj2 (digit_char (x mod 10) ltac:(apply N.mod_lt; lia))).
  f_equal. rewrite N2Z.inj_div, N2Z.inj_mod. change (Z.of_N 10) with 10.
  pose proof (Z.div_mod (Z.of_N x) 10). lia.
Qed.

Lemma pretty_N_go_nonempty (x : N) (s : string) :
  (0 < x)%N -> pretty_N_go x s <> "".
Proof.
  intros Hx E.
  assert (forall y t, (String.length t <= String.length (pretty_N_go y t))%nat) as Hlen.
  { intros y. induction (N.lt_wf_0 y) as [y _ IH]. intros t.
    destruct (decide (y = 0)%N) as [-> | Hy]; [reflexivity|].
    rewrite pretty_N_go_step by lia.
    etransitivity; [|apply IH; apply N.div_lt; lia]. simpl. lia. }
  rewrite pretty_N_go_step in E by exact Hx.
  pose proof (Hlen (x `div` 10)%N (String (pretty_N_char (x `mod` 10)) s)) as H.
  rewrite E in H. simpl in H. lia.
Qed.

Lemma digit_is_plain (c : ascii) :
  isdigit c = true ->
  isspace c = false /\ is_char c "-" = false /\ is_char c "+" = false.
Proof.
  intros H. unfold is_char. repeat split.
  - revert H. unfold isdigit, isspace. generalize (nat_of_ascii c). intros n H.
    apply andb_true_iff in H as [H1 H2]. apply Nat.leb_le in H1. apply Nat.leb_le in H2.
    rewrite (proj2 (Nat.leb_gt n 13)) by lia. rewrite andb_false_r. simpl.
    apply Nat.eqb_neq. lia.
  - apply bool_decide_eq_false_2. intros ->. discriminate.
  - apply bool_decide_eq_false_2. intros ->. discriminate.
Qed.

(** The digits of a positive number, read back. *)
Lemma read_digits (p : positive) :
  exists (c : ascii) (d : string),
    pretty_N_go (Npos p) "" = String c d
    /\ isdigit c = true
    /\ digits_prefix (String c d) = (String c d, "")
    /\ digits_value (String c d) 0 = Z.pos p.
Proof.
  pose proof (pretty_N_go_digits (Npos p) "" eq_refl) as Hd.
  pose proof (pretty_N_go_value (Npos p) "") as Hv.
  pose proof (pretty_N_go_nonempty (Npos p) "" ltac:(lia)) as Hne.
  destruct (pretty_N_go (Npos p) "") as [|c d]; [contradiction|].
  exists c, d. split; [reflexivity|].
  pose proof Hd as Hc. simpl in Hc. apply andb_true_iff in Hc as [Hc _].
  split; [exact Hc|]. split; [now apply digits_prefix_all|exact Hv].
Qed.

Lemma clamp_in_int (n : Z) : in_int n -> clamp n = n.
Proof.
  unfold in_int, clamp. intros [H1 H2].
  rewrite (proj2 (Z.ltb_ge _ _)) by lia. now rewrite (proj2 (Z.ltb_ge _ _)) by lia.
Qed.

(** The text of an [int], read back by the extraction. *)
Lemma extract_int_pretty (n : Z) :
  in_int n -> fst (extract_int (mkStream (String " " (pretty n)) true)) = Some n.
Proof.
  intros Hn. unfold extract_int. simpl good. simpl buf. cbv iota.
  change (skip_ws (String " " (pretty n))) with (skip_ws (pretty n)).
  destruct n as [|p|p].
  - reflexivity.
  - change (pretty (Z.pos p)) with (pretty_N_go (Npos p) "").
    destruct (read_digits p) as (c & d & E & Hc & Hp & Hv). rewrite E.
    destruct (digit_is_plain c Hc) as (H1 & H2 & H3).
    simpl skip_ws. rewrite H1. unfold sign_prefix. rewrite H2, H3.
    rewrite Hp. rewrite bool_decide_eq_false_2 by discriminate.
    rewrite Hv. simpl. now rewrite clamp_in_int.
  - change (pretty (Z.neg p)) with (String "-" (pretty_N_go (Npos p) "")).
    destruct (read_digits p) as (c & d & E & Hc & Hp & Hv). rewrite E.
    simpl skip_ws. unfold sign_prefix. change (is_char "-" "-") with true. cbv iota.
    rewrite Hp. rewrite bool_decide_eq_false_2 by discriminate.
    rewrite Hv. simpl. now rewrite clamp_in_int.
Qed.

(** The first word of a line and what is left of the stream. *)
Lemma first_word (command rest : string) :
  is_word command = true -> ends_word rest = true ->
  extract_string (mkStream (command +:+ rest) true)
  = (Some command, mkStream rest (negb (bool_decide (rest = "")))).
Proof. apply extract_string_word. Qed.

Lemma second_word (w rest : string) :
  is_word w = true -> ends_word rest = true ->
  extract_string (mkStream (String " " (w +:+ rest)) true)
  = (Some w, mkStream rest (negb (bool_decide (rest = "")))).
Proof.
  intros Hw Hr. rewrite <- (extract_string_word w rest Hw Hr).
  unfold extract_string. simpl good. simpl buf. cbv iota. reflexivity.
Qed.

(** X25: a [let] line of TinyLang binds the name to the number written,
    for every [int], and a [print] line then writes that number. The word
    between the name and the number is not looked at: any word does. *)
Theorem let_then_print (name eq : string) (n : Z) (st : State) :
  is_word name = true -> is_word eq = true -> in_int n ->
  execute ("let " +:+ name +:+ " " +:+ eq +:+ " " +:+ pretty n) st
  = (Ret tt, set_variables (<[name := n]> (variables st)) st)
  /\ execute ("print " +:+ name) (set_variables (<[name := n]> (variables st)) st)
     = (Ret tt,
        print_text (">> " +:+ pretty n +:+ endl)
          (set_variables (<[name := n]> (variables st)) st)).
Proof.
  intros Hname Heq Hn. split.
  - unfold execute.
    change ("let " +:+ ?r) with ("let" +:+ String " " r).
    rewrite (first_word "let") by reflexivity. simpl word_of.
    destruct (decide ("let" = "let")) as [_|E]; [|contradiction].
    rewrite bool_decide_eq_false_2 by discriminate. simpl negb.
    change (" " +:+ ?r) with (String " " r).
    rewrite (second_word name) by (assumption || reflexivity).
    rewrite bool_decide_eq_false_2 by discriminate. simpl negb.
    rewrite (second_word eq) by (assumption || reflexivity).
    rewrite bool_decide_eq_false_2 by discriminate. simpl negb.
    pose proof (extract_int_pretty n Hn) as Hv.
    destruct (extract_int _) as [value ss]. simpl in Hv. subst value. reflexivity.
  - unfold execute.
    change ("print " +:+ ?r) with ("print" +:+ String " " r).
    rewrite (first_word "print") by reflexivity. simpl word_of.
    destruct (decide ("print" = "let")) as [E|_]; [discriminate|].
    destruct (decide ("print" = "print")) as [_|E]; [|contradiction].
    rewrite bool_decide_eq_false_2 by discriminate. simpl negb.
    rewrite <- (append_empty_r name) at 1.
    rewrite (second_word name "" Hname eq_refl). simpl word_of.
    simpl variables. now rewrite lookup_insert_eq.
Qed.

(** X26: a [let] line that ends before the number (after the command,
    after the name, or after the third word; white space may follow)
    leaves the [int] that is stored without a value: the line has
    undefined behaviour. *)
Theorem let_without_number_is_undefined (name eq ws : string) (st : State) :
  is_word name = true -> is_word eq = true -> string_forall isspace ws = true ->
  execute ("let" +:+ ws) st = (Undefined, st)
  /\ execute ("let " +:+ name +:+ ws) st = (Undefined, st)
  /\ execute ("let " +:+ name +:+ " " +:+ eq +:+ ws) st = (Undefined, st).
Proof.
  intros Hname Heq Hws.
  pose proof (blank_ends_word ws Hws) as Hends.
  assert (forall (g : bool) (k : option Z -> Outcome unit * State),
            (let '(value, _) := extract_int (mkStream ws g) in k value) = k None) as Hint.
  { intros g k. pose proof (extract_int_blank ws g Hws) as H.
    destruct (extract_int _) as [v ss]. simpl in H. now subst v. }
  assert (forall (g : bool) (k : option Z -> Outcome unit * State),
            (let '(_, ss) := extract_string (mkStream ws g) in
             let '(value, _) := extract_int ss in k value) = k None) as Hstr.
  { intros g k. destruct (extract_string_blank ws g Hws) as (ss & E & Hg & Hb).
    rewrite E. pose proof (extract_int_not_good ss Hg) as H.
    destruct (extract_int ss) as [v ss']. simpl in H. now subst v. }
  split; [|split].
  - unfold execute. rewrite (first_word "let" ws eq_refl Hends). simpl word_of.
    destruct (decide ("let" = "let")) as [_|E]; [|contradiction].
    destruct (extract_string_blank ws (negb (bool_decide (ws = ""))) Hws)
      as (ss & E & Hg & Hb).
    rewrite E. destruct ss as [b g]. simpl in Hg, Hb. subst g.
    destruct (extract_string_blank b false Hb) as (ss2 & E2 & Hg2 & _).
    rewrite E2. pose proof (extract_int_not_good ss2 Hg2) as H.
    destruct (extract_int ss2) as [v ss']. simpl in H. now subst v.
  - unfold execute.
    change ("let " +:+ ?r) with ("let" +:+ String " " r).
    rewrite (first_word "let") by reflexivity. simpl word_of.
    destruct (decide ("let" = "let")) as [_|E]; [|contradiction].
    rewrite bool_decide_eq_false_2 by discriminate. simpl negb.
    rewrite (second_word name ws Hname Hends).
    apply (Hstr _ (fun value => match value with
                                | Some v => (Ret tt, set_variables (<[word_of (Some name) := v]> (variables st)) st)
                                | None => (Undefined, st)
                                end)).
  - unfold execute.
    change ("let " +:+ ?r) with ("let" +:+ String " " r).
    rewrite (first_word "let") by reflexivity. simpl word_of.
    destruct (decide ("let" = "let")) as [_|E]; [|contradiction].
    rewrite bool_decide_eq_false_2 by discriminate. simpl negb.
    change (" " +:+ ?r) with (String " " r).
    rewrite (second_word name) by (assumption || reflexivity).
    rewrite bool_decide_eq_false_2 by discriminate. simpl negb.
    rewrite (second_word eq ws Heq Hends).
    apply (Hint _ (fun value => match value with
                                | Some v => (Ret tt, set_variables (<[word_of (Some name) := v]> (variables st)) st)
                                | None => (Undefined, st)
                                end)).
Qed.

(** X27: an [add] line adds the number written to a bound name, and has
    undefined behaviour where the sum is not an [int], or where the
    number is missing; on a name that is not bound it does nothing,
    whatever follows the name, and reports nothing. *)
Theorem add_adds_or_overflows (name : string) (b : Z) (st : State) :
  is_word name = true -> in_int b ->
  (forall a : Z,
     variables st !! name = Some a ->
     execute ("add " +:+ name +:+ " " +:+ pretty b) st
     = (if (INT_MIN <=? a + b) && (a + b <=? INT_MAX)
        then (Ret tt, set_variables (<[name := a + b]> (variables st)) st)
        else (Undefined, st))
     /\ execute ("add " +:+ name) st = (Undefined, st))
  /\ (variables st !! name = None ->
      forall rest : string,
        ends_word rest = true -> execute ("add " +:+ name +:+ rest) st = (Ret tt, st)).
Proof.
  intros Hname Hb.
  assert (forall rest : string, ends_word rest = true ->
            execute ("add " +:+ name +:+ rest) st
            = (let '(value, _) :=
                 extract_int (mkStream rest (negb (bool_decide (rest = "")))) in
               match variables st !! name with
               | Some n =>
                   match value with
                   | Some v =>
                       if (INT_MIN <=? n + v) && (n + v <=? INT_MAX)
                       then (Ret tt, set_variables (<[name := n + v]> (variables st)) st)
                       else (Undefined, st)
                   | None => (Undefined, st)
                   end
               | None => (Ret tt, st)
               end)) as Hexec.
  { intros rest Hr. unfold execute.
    change ("add " +:+ ?r) with ("add" +:+ String " " r).
    rewrite (first_word "add") by reflexivity. simpl word_of.
    destruct (decide ("add" = "let")) as [E|_]; [discriminate|].
    destruct (decide ("add" = "print")) as [E|_]; [discriminate|].
    destruct (decide ("add" = "add")) as [_|E]; [|contradiction].
    rewrite bool_decide_eq_false_2 by discriminate. simpl negb.
    rewrite (second_word name rest Hname Hr). reflexivity. }
  split.
  - intros a Ha. split.
    + rewrite (Hexec (" " +:+ pretty b) eq_refl).
      rewrite bool_decide_eq_false_2 by discriminate. simpl negb.
      pose proof (extract_int_pretty b Hb) as Hv.
      change (" " +:+ pretty b) with (String " " (pretty b)).
      destruct (extract_int _) as [value ss]. simpl in Hv. subst value.
      now rewrite Ha.
    + rewrite <- (append_empty_r name) at 1. rewrite (Hexec "" eq_refl).
      simpl. now rewrite Ha.
  - intros Hnone rest Hr. rewrite (Hexec rest Hr).
    destruct (extract_int _) as [value ss]. now rewrite Hnone.
Qed.

End TinyLangStreams.

(** A negative number, on the empty map. *)
Lemma let_then_print_witness :
  TinyLang.execute ("let " +:+ "x" +:+ " " +:+ "=" +:+ " " +:+ pretty (-42))
    (TinyLang.mkState ∅ "")
  = (Ret tt, TinyLang.set_variables (<["x" := -42]> ∅) (TinyLang.mkState ∅ "")).
Proof.
  exact (proj1 (let_then_print "x" "=" (-42) (TinyLang.mkState ∅ "")
                  eq_refl eq_refl ltac:(unfold in_int; vm_compute; split; discriminate))).
Defined.

(** The line that ends behind the third word and a space. *)
Lemma let_without_number_is_undefined_witness :
  TinyLang.execute ("let " +:+ "x" +:+ " " +:+ "=" +:+ " ") (TinyLang.mkState ∅ "")
  = (Undefined, TinyLang.mkState ∅ "").
Proof.
  exact (proj2 (proj2 (let_without_number_is_undefined "x" "=" " " (TinyLang.mkState ∅ "")
                         eq_refl eq_refl eq_refl))).
Defined.

(** The largest [int] and one. *)
Lemma add_adds_or_overflows_witness :
  TinyLang.execute ("add " +:+ "x" +:+ " " +:+ pretty 1)
    (TinyLang.mkState (<["x" := 2147483647]> ∅) "")
  = (Undefined, TinyLang.mkState (<["x" := 2147483647]> ∅) "").
Proof.
  exact (proj1 (proj1 (add_adds_or_overflows "x" 1
                         (TinyLang.mkState (<["x" := 2147483647]> ∅) "")
                         eq_refl ltac:(unfold in_int; vm_compute; split; discriminate))
                  2147483647 eq_refl)).
Defined.
